(** * A shallow embedding of the header-only JSON library [src/json.hpp]

    The development follows the header top-down: the value model
    ([Node] and its seven variants), the recursive-descent [JsonParser],
    and the [JsonGenerator].  The C and C++ library functions the header
    calls ([std::isspace], [std::stoll], [std::stoi], [std::stod],
    [std::to_string], [std::map]) are modelled next to their first use.

    Conventions.
    - A [char] is a [Byte.byte]; a [std::string] or [std::string_view] is a
      list of them.
    - The parser's cursor [pos] is passed explicitly; every function returns
      the new cursor together with its result.
    - [std::expected<T, E>] is the two-constructor type [expected]; a C++
      exception that leaves a function is the [Raise] outcome.
    - The recursion between [parse_value], [parse_array] and [parse_object]
      and every [while] loop whose trip count depends on the input are
      driven by a fuel argument. *)

From Stdlib Require Import ZArith NArith Lia List Bool.
From Stdlib Require Import Strings.Byte Strings.String.
From Stdlib Require Import Floats.SpecFloat.
From Stdlib Require Import Sorting.Sorted Sorting.Permutation.
From Stdlib Require Import Numbers.DecimalZ Numbers.DecimalN Numbers.DecimalPos.
From stdpp Require Import base list.

Local Open Scope Z_scope.

(** ** Characters and strings *)

Abbreviation char := byte.
Abbreviation std_string := (list byte).

(** The unsigned value of a byte. *)
Definition code (c : char) : Z := Z.of_N (Byte.to_N c).

(** Whether plain [char] is a signed type is implementation-defined; it is a
    parameter of everything that converts a [char] to [int]. *)
Definition char_to_int (char_is_signed : bool) (c : char) : Z :=
  if 128 <=? code c then (if char_is_signed then code c - 256 else code c)
  else code c.

(** [static_cast<char>(n)] keeps the low eight bits. *)
Definition char_of_int (n : Z) : char :=
  match Byte.of_N (Z.to_N (n mod 256)) with
  | Some c => c
  | None => x00
  end.

Definition chr_eqb (a b : char) : bool := Byte.eqb a b.

(** Source literals.  A Rocq string literal has no escape for the double
    quote, so in [json_text] an apostrophe stands for the double quote
    (no text below contains a real apostrophe); the backslash is itself. *)
Definition text (s : string) : std_string := list_byte_of_string s.

Definition json_text (s : string) : std_string :=
  map (fun c : char => if chr_eqb c "'"%byte then x22 else c) (text s).

(** [std::isspace] and [std::isdigit] in the C locale. *)
Definition isspace (c : char) : bool :=
  (code c =? 32) || ((9 <=? code c) && (code c <=? 13)).

Definition isdigit (c : char) : bool :=
  (48 <=? code c) && (code c <=? 57).

Definition isxdigit (c : char) : bool :=
  isdigit c || ((97 <=? code c) && (code c <=? 102))
            || ((65 <=? code c) && (code c <=? 70)).

Fixpoint take_while (p : char -> bool) (s : std_string) : std_string :=
  match s with
  | c :: r => if p c then c :: take_while p r else []
  | [] => []
  end.

Fixpoint drop_while (p : char -> bool) (s : std_string) : std_string :=
  match s with
  | c :: r => if p c then drop_while p r else s
  | [] => []
  end.

(** [s.substr(pos, n)] for [pos <= s.size()]. *)
Definition substr (s : std_string) (pos n : nat) : std_string :=
  take n (drop pos s).

(** Lexicographic comparison of [std::string]: bytes compare as unsigned
    values, a proper prefix is smaller. *)
Fixpoint string_compare (a b : std_string) : comparison :=
  match a, b with
  | [], [] => Eq
  | [], _ :: _ => Lt
  | _ :: _, [] => Gt
  | x :: a', y :: b' =>
      match (code x ?= code y) with
      | Eq => string_compare a' b'
      | c => c
      end
  end.

Definition string_lt (a b : std_string) : Prop := string_compare a b = Lt.

(** [a == b] on strings. *)
Definition string_eqb (a b : std_string) : bool :=
  match string_compare a b with Eq => true | _ => false end.

(** ** Exceptions and numeric conversions of the C++ library *)

Inductive exception : Type :=
  | runtime_error (what : string)
  | out_of_range
  | invalid_argument.

Definition LLONG_MIN : Z := - 2 ^ 63.
Definition LLONG_MAX : Z := 2 ^ 63 - 1.
Definition INT_MIN : Z := - 2 ^ 31.
Definition INT_MAX : Z := 2 ^ 31 - 1.

Definition digit_value (c : char) : Z :=
  if isdigit c then code c - 48
  else if (97 <=? code c) && (code c <=? 102) then code c - 87
  else code c - 55.

(** Value of a digit string in base [base], most significant digit first. *)
Definition digits_value (base : Z) (ds : std_string) : Z :=
  fold_left (fun acc c => base * acc + digit_value c) ds 0.

(** Optional sign in front of a number, as [strtol] and [strtod] read it. *)
Definition read_sign (s : std_string) : bool * std_string :=
  match s with
  | c :: r =>
      if chr_eqb c "-"%byte then (true, r)
      else if chr_eqb c "+"%byte then (false, r)
      else (false, s)
  | [] => (false, s)
  end.

(** [std::stoll(str)]: leading white space, optional sign, decimal digits;
    [invalid_argument] when there is no digit, [out_of_range] when the
    value does not fit [long long]. *)
Definition stoll (str : std_string) : Z + exception :=
  let '(neg, s) := read_sign (drop_while isspace str) in
  match take_while isdigit s with
  | [] => inr invalid_argument
  | ds =>
      let n := if (neg : bool) then - digits_value 10 ds else digits_value 10 ds in
      if (LLONG_MIN <=? n) && (n <=? LLONG_MAX) then inl n else inr out_of_range
  end.

(** [std::stoi(str, nullptr, 16)]: leading white space, optional sign,
    optional [0x] prefix (taken only when a hexadecimal digit follows),
    hexadecimal digits. *)
Definition skip_0x (s : std_string) : std_string :=
  match s with
  | z :: x :: h :: r =>
      if chr_eqb z "0"%byte && (chr_eqb x "x"%byte || chr_eqb x "X"%byte) && isxdigit h
      then h :: r else s
  | _ => s
  end.

Definition stoi16 (str : std_string) : Z + exception :=
  let '(neg, s) := read_sign (drop_while isspace str) in
  match take_while isxdigit (skip_0x s) with
  | [] => inr invalid_argument
  | ds =>
      let n := if (neg : bool) then - digits_value 16 ds else digits_value 16 ds in
      if (INT_MIN <=? n) && (n <=? INT_MAX) then inl n else inr out_of_range
  end.

(** [std::to_string] of an integer: decimal digits, a leading minus sign
    for negative numbers, no leading zeros. *)
Fixpoint string_of_uint (d : Decimal.uint) : std_string :=
  match d with
  | Decimal.Nil => []
  | Decimal.D0 d => "0"%byte :: string_of_uint d
  | Decimal.D1 d => "1"%byte :: string_of_uint d
  | Decimal.D2 d => "2"%byte :: string_of_uint d
  | Decimal.D3 d => "3"%byte :: string_of_uint d
  | Decimal.D4 d => "4"%byte :: string_of_uint d
  | Decimal.D5 d => "5"%byte :: string_of_uint d
  | Decimal.D6 d => "6"%byte :: string_of_uint d
  | Decimal.D7 d => "7"%byte :: string_of_uint d
  | Decimal.D8 d => "8"%byte :: string_of_uint d
  | Decimal.D9 d => "9"%byte :: string_of_uint d
  end.

Definition to_string (n : Z) : std_string :=
  match Z.to_int n with
  | Decimal.Pos d => string_of_uint d
  | Decimal.Neg d => "-"%byte :: string_of_uint d
  end.


(** ** Floating point: [double], [std::stod] and [std::to_string(double)]

    A [double] is an IEEE 754 binary64 datum: a signed zero, a signed
    infinity, a NaN, or a finite number [(-1)^s * m * 2^e].  The arithmetic
    is that of [spec_float] at precision 53 and [emax] 1024.  [spec_float]
    has a single NaN; of a C++ NaN the program can also observe the sign
    bit, which [std::to_string] prints, so [double] keeps that bit (the
    payload of a NaN is observed nowhere). *)

Definition Float_prec : Z := 53.
Definition Float_emax : Z := 1024.

Inductive double : Set :=
  | D754_zero (s : bool)
  | D754_infinity (s : bool)
  | D754_nan (s : bool)
  | D754_finite (s : bool) (m : positive) (e : Z).

(** The number a [double] holds, for arithmetic and comparison. *)
Definition spec_of_double (d : double) : spec_float :=
  match d with
  | D754_zero s => S754_zero s
  | D754_infinity s => S754_infinity s
  | D754_nan _ => S754_nan
  | D754_finite s m e => S754_finite s m e
  end.

(** The [double] of a computed number; a conversion from decimal computes
    no NaN ([round_decimal_not_nan]). *)
Definition double_of_spec (f : spec_float) : double :=
  match f with
  | S754_zero s => D754_zero s
  | S754_infinity s => D754_infinity s
  | S754_nan => D754_nan false
  | S754_finite s m e => D754_finite s m e
  end.

(** [a == b] on doubles: a NaN equals nothing, the two zeros are equal. *)
Definition double_eqb (a b : double) : bool :=
  SFeqb (spec_of_double a) (spec_of_double b).

(** The decimal number [strtod] reads: white space, optional sign, digits
    with an optional point, and an exponent that counts only when at least
    one digit follows the [e] and its sign.  The result is the sign, the
    digits read as one integer [m], and the decimal exponent [e]: the
    lexeme denotes [m * 10 ^ e].  [parse_number] never passes a lexeme in
    hexadecimal, [inf] or [nan] form, so these forms are left out. *)
Definition read_exponent (s : std_string) : Z :=
  match s with
  | c :: r =>
      if chr_eqb c "e"%byte || chr_eqb c "E"%byte then
        let '(eneg, r) := read_sign r in
        match take_while isdigit r with
        | [] => 0
        | es => if (eneg : bool) then - digits_value 10 es else digits_value 10 es
        end
      else 0
  | [] => 0
  end.

Definition read_decimal (str : std_string) : option (bool * Z * Z) :=
  let '(neg, s) := read_sign (drop_while isspace str) in
  let ip := take_while isdigit s in
  let s := drop_while isdigit s in
  let '(fp, s) :=
    match s with
    | c :: r =>
        if chr_eqb c "."%byte
        then (take_while isdigit r, drop_while isdigit r) else ([], s)
    | [] => ([], s)
    end in
  match ip ++ fp with
  | [] => None
  | ds => Some (neg, digits_value 10 ds, read_exponent s - Z.of_nat (length fp))
  end.

(** [m * 10 ^ e] rounded to the nearest double, ties to even, by exact
    integer arithmetic. *)
Definition round_decimal_exact (neg : bool) (m e : Z) : spec_float :=
  match m with
  | Zpos p =>
      if 0 <=? e then
        binary_normalize Float_prec Float_emax
          (if neg then - (m * 10 ^ e) else m * 10 ^ e) 0 neg
      else
        let d := 10 ^ (- e) in
        let k := Z.max 0 (Z.log2 d + 2 + Float_prec - Z.log2 m) in
        let n := m * 2 ^ k in
        let loc := if n mod d =? 0 then loc_Exact
                   else loc_Inexact (2 * (n mod d) ?= d) in
        binary_round_aux Float_prec Float_emax neg (n / d) (- k) loc
  | _ => S754_zero neg
  end.

(** As [strtod] implementations do, exponents far outside the range of
    [double] are settled without arithmetic: for [1 <= m],
    [m * 10 ^ e >= 10 ^ 309] exceeds the largest double when [309 <= e],
    and [m * 10 ^ e < 2 ^ (log2 m + 1 + e) <= 2 ^ (-1075)] rounds to zero
    when [e < 0] and [log2 m + 1 + e <= -1075]. *)
Definition round_decimal (neg : bool) (m e : Z) : spec_float :=
  if (0 <? m) && (309 <=? e) then S754_infinity neg
  else if (0 <? m) && (e <? 0) && (Z.log2 m + 1 + e <=? -1075) then S754_zero neg
  else round_decimal_exact neg m e.

(** Whether the double [f] is exactly [m * 10 ^ e] in magnitude. *)
Definition exactly (f : spec_float) (m e : Z) : bool :=
  match f with
  | S754_finite _ fm fe =>
      Zpos fm * 2 ^ Z.max fe 0 * 10 ^ Z.max (- e) 0
      =? m * 10 ^ Z.max e 0 * 2 ^ Z.max (- fe) 0
  | S754_zero _ => m =? 0
  | _ => false
  end.

(** Whether [m * 10 ^ e] is tiny: below the least normal double [2 ^ -1022]
    once rounded to 53 bits with an unbounded exponent, which is where
    glibc on x86-64 (tininess detected after rounding) decides it, before
    the final rounding to the subnormal grid.  The largest such value is
    just under the midpoint [(2 ^ 54 - 1) * 2 ^ -1076] between [2 ^ -1022]
    and the 53-bit number below it; the midpoint itself rounds to the even
    neighbour [2 ^ -1022]. *)
Definition tiny (m e : Z) : bool :=
  m * 10 ^ Z.max e 0 * 2 ^ 1076 <? (2 ^ 54 - 1) * 10 ^ Z.max (- e) 0.

(** [std::stod(str)]: [invalid_argument] when no number can be read,
    [out_of_range] when [strtod] reports [ERANGE], which glibc does on
    overflow and on underflow, that is for a tiny value that no double
    holds exactly (also when it rounds up to the least normal double). *)
Definition stod (str : std_string) : double + exception :=
  match read_decimal str with
  | None => inr invalid_argument
  | Some (neg, m, e) =>
      let f := round_decimal neg m e in
      match f with
      | S754_infinity _ => inr out_of_range
      | _ => if tiny m e && negb (exactly f m e)
             then inr out_of_range else inl (double_of_spec f)
      end
  end.

(** [std::to_string(double)] prints with [%f]: the value rounded to six
    decimals (ties to even on the exact binary value); an infinity as
    [inf] and a NaN as [nan], each after a minus sign when the sign bit
    is set. *)
Definition pad_left (n : nat) (s : std_string) : std_string :=
  repeat "0"%byte (n - length s) ++ s.

Definition to_string_double (f : double) : std_string :=
  let sign (s : bool) := if s then ["-"%byte] else [] in
  match f with
  | D754_zero s => sign s ++ text "0.000000"
  | D754_infinity s => sign s ++ text "inf"
  | D754_nan s => sign s ++ text "nan"
  | D754_finite s m e =>
      let num := Zpos m * 10 ^ 6 * 2 ^ Z.max e 0 in
      let den := 2 ^ Z.max (- e) 0 in
      let q := num / den in
      let up := match 2 * (num mod den) ?= den with
                | Lt => false
                | Eq => Z.odd q
                | Gt => true
                end in
      let n := if up then q + 1 else q in
      sign s ++ to_string (n / 10 ^ 6) ++ "."%byte :: pad_left 6 (to_string (n mod 10 ^ 6))
  end.

(** ** [std::map<std::string, V>]

    A [std::map] keeps its entries ordered by key, keys unique; what a
    program can observe of it is that strictly ascending sequence, so the
    map is modelled as the list of its entries in iteration order. *)

Definition std_map (V : Type) : Type := list (std_string * V).

Section StdMap.
Context {V : Type}.

(** [m.find(key)], as a pointer to the mapped value. *)
Fixpoint map_find (key : std_string) (m : std_map V) : option V :=
  match m with
  | [] => None
  | (k, v) :: r =>
      match string_compare key k with
      | Eq => Some v
      | Lt => None
      | Gt => map_find key r
      end
  end.

(** [m.at(key)] throws [std::out_of_range] for an absent key. *)
Definition map_at (key : std_string) (m : std_map V) : V + exception :=
  match map_find key m with
  | Some v => inl v
  | None => inr out_of_range
  end.

(** [m.emplace(key, v)] inserts the entry at its place in the key order
    and does nothing when the key is already present. *)
Fixpoint map_emplace (key : std_string) (v : V) (m : std_map V) : std_map V :=
  match m with
  | [] => [(key, v)]
  | (k, x) :: r =>
      match string_compare key k with
      | Lt => (key, v) :: m
      | Eq => m
      | Gt => (k, x) :: map_emplace key v r
      end
  end.

(** An object built by emplacing the entries of [kvs] from left to
    right, as the parser and the initializer-list constructor do. *)
Definition map_of_list (kvs : list (std_string * V)) : std_map V :=
  fold_left (fun m kv => map_emplace (fst kv) (snd kv) m) kvs [].

Definition keys (m : std_map V) : list std_string := map fst m.

(** The class invariant of [std::map]. *)
Definition map_ok (m : std_map V) : Prop := StronglySorted string_lt (keys m).
End StdMap.

(** ** The value model *)

(** [Value] is the variant over the seven alternatives and [Node] the
    struct with the single member [value]; the two are merged into one
    inductive type whose constructors are named after the alternatives. *)
#[local] Set Warnings "-register-all".
Inductive Node : Type :=
  | Null
  | Boolean (b : bool)
  | Integer (n : Z)
  | Float (f : double)
  | String (s : std_string)
  | Array (a : list Node)
  | Object (o : std_map Node).

#[local] Set Warnings "register-all".

Definition Value : Type := Node.

(** Induction over trees, with the induction hypothesis for every child of
    a container. *)

Section NodeInduction.
Variable P : Node -> Prop.
Hypothesis HNull : P Null.
Hypothesis HBoolean : forall b, P (Boolean b).
Hypothesis HInteger : forall n, P (Integer n).
Hypothesis HFloat : forall f, P (Float f).
Hypothesis HString : forall s, P (String s).
Hypothesis HArray : forall a, List.Forall P a -> P (Array a).
Hypothesis HObject : forall o, List.Forall (fun kv => P (snd kv)) o -> P (Object o).

Fixpoint Node_nested_ind (node : Node) : P node :=
  match node with
  | Null => HNull
  | Boolean b => HBoolean b
  | Integer n => HInteger n
  | Float f => HFloat f
  | String s => HString s
  | Array a =>
      HArray a
        ((fix go (l : list Node) : List.Forall P l :=
            match l with
            | [] => @List.Forall_nil _ P
            | x :: r => @List.Forall_cons _ P x r (Node_nested_ind x) (go r)
            end) a)
  | Object o =>
      HObject o
        ((fix go (l : list (std_string * Node)) : List.Forall (fun kv => P (snd kv)) l :=
            match l with
            | [] => @List.Forall_nil _ _
            | kv :: r =>
                @List.Forall_cons _ (fun kv => P (snd kv)) kv r
                  (match kv return P (snd kv) with (k, x) => Node_nested_ind x end)
                  (go r)
            end) o)
  end.
End NodeInduction.

(** [Node::operator[](const std::string&)] and
    [Node::operator[](size_t)]: both are [const] and return the child by
    value, or leave by an exception. *)
Definition Node_index_key (node : Node) (key : std_string) : Node + exception :=
  match node with
  | Object object => map_at key object
  | _ => inr (runtime_error "not an object")
  end.

(** [array->at(index)] throws [std::out_of_range] when
    [index >= size()]. *)
Definition Node_index (node : Node) (index : nat) : Node + exception :=
  match node with
  | Array array =>
      match array !! index with
      | Some child => inl child
      | None => inr out_of_range
      end
  | _ => inr (runtime_error "not an array")
  end.

(** [a == b] on [Node].  The defaulted [operator<=>] declares a
    defaulted [operator==], which compares member-wise: [value ==
    other.value].  Two variants are equal when they hold the same
    alternative and the held values are equal; two vectors or two maps
    when they have the same size and equal elements at each place (for a
    map: equal keys and equal mapped values); two doubles by IEEE 754
    equality. *)
Fixpoint Node_eqb (a b : Node) : bool :=
  match a, b with
  | Null, Null => true
  | Boolean x, Boolean y => Bool.eqb x y
  | Integer x, Integer y => x =? y
  | Float x, Float y => double_eqb x y
  | String x, String y => string_eqb x y
  | Array x, Array y =>
      (fix all (l l' : list Node) : bool :=
         match l, l' with
         | [], [] => true
         | u :: r, v :: r' => Node_eqb u v && all r r'
         | _, _ => false
         end) x y
  | Object x, Object y =>
      (fix all (l l' : list (std_string * Node)) : bool :=
         match l, l' with
         | [], [] => true
         | (k, u) :: r, (k', v) :: r' => string_eqb k k' && Node_eqb u v && all r r'
         | _, _ => false
         end) x y
  | _, _ => false
  end.

Inductive JsonError : Type :=
  | parse_expect_value
  | parse_invalid_value
  | parse_root_not_singular
  | parse_number_too_big.

(** [std::expected<T, E>] *)
Inductive expected (T E : Type) : Type :=
  | value (t : T)
  | unexpected (e : E).
Arguments value {T E} t.
Arguments unexpected {T E} e.

(** What a call of a parser member function does: it returns [a] with the
    cursor at [pos], or an exception leaves it, or the fuel of the
    embedding ran out. *)
Inductive outcome (A : Type) : Type :=
  | Done (a : A) (pos : nat)
  | Raise (x : exception)
  | OutOfFuel.
Arguments Done {A} a pos.
Arguments Raise {A} x.
Arguments OutOfFuel {A}.

(** ** The parser *)

Section JsonParser.
(** The member [json_str] never changes during a parse. *)
Variable json_str : std_string.

Definition size : nat := length json_str.

(** [json_str[pos]]; the header reads it only after checking
    [pos < json_str.size()]. *)
Definition at_ (pos : nat) : char := nth pos json_str x00.

(** [while (pos < json_str.size() && p(json_str[pos])) ++pos;] *)
Fixpoint skip_while (p : char -> bool) (rest : std_string) (pos : nat) : nat :=
  match rest with
  | c :: rest' => if p c then skip_while p rest' (S pos) else pos
  | [] => pos
  end.

Definition parse_whitespace (pos : nat) : nat :=
  skip_while isspace (drop pos json_str) pos.

Definition skip_digits (end_pos : nat) : nat :=
  skip_while isdigit (drop end_pos json_str) end_pos.

Definition parse_null (pos : nat) : outcome (expected Value JsonError) :=
  let pos := parse_whitespace pos in
  if string_eqb (substr json_str pos 4) (text "null")
  then Done (value Null) (pos + 4)
  else Done (unexpected parse_invalid_value) pos.

Definition parse_true (pos : nat) : outcome (expected Value JsonError) :=
  let pos := parse_whitespace pos in
  if string_eqb (substr json_str pos 4) (text "true")
  then Done (value (Boolean true)) (pos + 4)
  else Done (unexpected parse_invalid_value) pos.

Definition parse_false (pos : nat) : outcome (expected Value JsonError) :=
  let pos := parse_whitespace pos in
  if string_eqb (substr json_str pos 5) (text "false")
  then Done (value (Boolean false)) (pos + 5)
  else Done (unexpected parse_invalid_value) pos.

(** The two [try] blocks of [parse_number] catch [std::out_of_range] and
    [std::invalid_argument]; any other exception would pass through. *)
Definition catch_conversion {A : Type} (r : A + exception)
    (k : A -> outcome (expected Value JsonError)) (pos : nat)
    : outcome (expected Value JsonError) :=
  match r with
  | inl number => k number
  | inr out_of_range => Done (unexpected parse_number_too_big) pos
  | inr invalid_argument => Done (unexpected parse_invalid_value) pos
  | inr x => Raise x
  end.

Definition parse_number (pos : nat) : outcome (expected Value JsonError) :=
  let pos := parse_whitespace pos in
  if (pos =? size)%nat then Done (unexpected parse_invalid_value) pos else
  let end_pos := pos in
  let end_pos := if chr_eqb (at_ end_pos) "-"%byte then S end_pos else end_pos in
  if (end_pos =? size)%nat then Done (unexpected parse_invalid_value) pos else
  let integer_part :=
    if chr_eqb (at_ end_pos) "0"%byte then Some (S end_pos)
    else if negb (isdigit (at_ end_pos)) then None
    else Some (skip_digits end_pos) in
  match integer_part with
  | None => Done (unexpected parse_invalid_value) pos
  | Some end_pos =>
  (* handle integer *)
  if (end_pos =? size)%nat
     || (negb (chr_eqb (at_ end_pos) "."%byte)
         && negb (chr_eqb (at_ end_pos) "e"%byte)
         && negb (chr_eqb (at_ end_pos) "E"%byte))
  then
    catch_conversion (stoll (substr json_str pos (end_pos - pos)))
      (fun number => Done (value (Integer number)) end_pos) pos
  else
  (* fraction *)
  let fraction :=
    if (end_pos <? size)%nat && chr_eqb (at_ end_pos) "."%byte then
      let end_pos := S end_pos in
      if (end_pos =? size)%nat || negb (isdigit (at_ end_pos)) then None
      else Some (skip_digits end_pos)
    else Some end_pos in
  match fraction with
  | None => Done (unexpected parse_invalid_value) pos
  | Some end_pos =>
  (* exponent *)
  let exponent :=
    if (end_pos <? size)%nat
       && (chr_eqb (at_ end_pos) "e"%byte || chr_eqb (at_ end_pos) "E"%byte) then
      let end_pos := S end_pos in
      if (end_pos =? size)%nat
         || (negb (chr_eqb (at_ end_pos) "+"%byte)
             && negb (chr_eqb (at_ end_pos) "-"%byte)
             && negb (isdigit (at_ end_pos))) then None
      else Some (skip_digits (S end_pos))
    else Some end_pos in
  match exponent with
  | None => Done (unexpected parse_invalid_value) pos
  | Some end_pos =>
    catch_conversion (stod (substr json_str pos (end_pos - pos)))
      (fun number => Done (value (Float number)) end_pos) pos
  end
  end
  end.

(** The table [escape_mappping] of [parse_string]. *)
Definition escape_mappping (c : char) : option char :=
  if chr_eqb c x22 then Some x22                (* quote *)
  else if chr_eqb c x5c then Some x5c           (* backslash *)
  else if chr_eqb c "/"%byte then Some "/"%byte
  else if chr_eqb c "b"%byte then Some x08
  else if chr_eqb c "f"%byte then Some x0c
  else if chr_eqb c "n"%byte then Some x0a
  else if chr_eqb c "r"%byte then Some x0d
  else if chr_eqb c "t"%byte then Some x09
  else None.

(** [parse_unicode] is entered with the cursor on the [u]. *)
Definition parse_unicode (pos : nat) : outcome char :=
  let pos := parse_whitespace pos in
  if (size <=? pos + 4)%nat then Done x00 pos else
  let hex_str := substr json_str (pos + 1) 4 in
  let pos := (pos + 4)%nat in
  match stoi16 hex_str with
  | inl n => Done (char_of_int n) pos
  | inr x => Raise x
  end.

(** The [while] loop of [parse_string]; a normal exit yields the
    accumulated [str]. *)
Fixpoint parse_string_loop (fuel : nat) (pos : nat) (str : std_string)
    : outcome (expected std_string JsonError) :=
  match fuel with
  | O => OutOfFuel
  | S fuel =>
      if (pos <? size)%nat && negb (chr_eqb (at_ pos) x22) then
        if chr_eqb (at_ pos) x5c then
          let pos := S pos in
          if (pos =? size)%nat then Done (unexpected parse_invalid_value) pos else
          match escape_mappping (at_ pos) with
          | Some c => parse_string_loop fuel (S pos) (str ++ [c])
          | None =>
              if chr_eqb (at_ pos) "u"%byte then
                match parse_unicode pos with
                | Done c pos => parse_string_loop fuel (S pos) (str ++ [c])
                | Raise x => Raise x
                | OutOfFuel => OutOfFuel
                end
              else Done (unexpected parse_invalid_value) pos
          end
        else parse_string_loop fuel (S pos) (str ++ [at_ pos])
      else Done (value str) pos
  end.

(** Every trip of the loop advances the cursor, so [size - pos + 1]
    trips are enough. *)
Definition parse_string (pos : nat) : outcome (expected Value JsonError) :=
  let pos := parse_whitespace pos in
  if (pos =? size)%nat || negb (chr_eqb (at_ pos) x22)
  then Done (unexpected parse_invalid_value) pos else
  let pos := S pos in
  match parse_string_loop (S (size - pos)) pos [] with
  | Done (value str) pos =>
      if (pos =? size)%nat || negb (chr_eqb (at_ pos) x22)
      then Done (unexpected parse_invalid_value) pos
      else Done (value (String str)) (S pos)
  | Done (unexpected e) pos => Done (unexpected e) pos
  | Raise x => Raise x
  | OutOfFuel => OutOfFuel
  end.

(** [parse_value], [parse_array] and [parse_object] call each other; one
    unit of fuel pays for each call and for each trip of the two
    container loops. *)
Fixpoint parse_value (fuel : nat) (pos : nat) {struct fuel}
    : outcome (expected Value JsonError) :=
  match fuel with
  | O => OutOfFuel
  | S fuel =>
      let pos := parse_whitespace pos in
      if (pos =? size)%nat then Done (unexpected parse_expect_value) pos else
      let c := at_ pos in
      if chr_eqb c "n"%byte then parse_null pos
      else if chr_eqb c "t"%byte then parse_true pos
      else if chr_eqb c "f"%byte then parse_false pos
      else if chr_eqb c x22 then parse_string pos
      else if chr_eqb c "["%byte then parse_array fuel pos
      else if chr_eqb c "{"%byte then parse_object fuel pos
      else parse_number pos
  end

with parse_array (fuel : nat) (pos : nat) {struct fuel}
    : outcome (expected Value JsonError) :=
  match fuel with
  | O => OutOfFuel
  | S fuel =>
      let pos := parse_whitespace pos in
      if (pos =? size)%nat || negb (chr_eqb (at_ pos) "["%byte)
      then Done (unexpected parse_invalid_value) pos else
      let pos := S pos in
      match parse_array_loop fuel pos [] with
      | Done (value array) pos =>
          if (pos =? size)%nat || negb (chr_eqb (at_ pos) "]"%byte)
          then Done (unexpected parse_invalid_value) pos
          else Done (value (Array array)) (S pos)
      | Done (unexpected e) pos => Done (unexpected e) pos
      | Raise x => Raise x
      | OutOfFuel => OutOfFuel
      end
  end

(** The [while] loop of [parse_array]; a normal exit yields [array]. *)
with parse_array_loop (fuel : nat) (pos : nat) (array : list Node) {struct fuel}
    : outcome (expected (list Node) JsonError) :=
  match fuel with
  | O => OutOfFuel
  | S fuel =>
      if (pos <? size)%nat && negb (chr_eqb (at_ pos) "]"%byte) then
        match parse_value fuel pos with
        | Done (value v) pos =>
            let array := array ++ [v] in
            let pos := parse_whitespace pos in
            let pos := if (pos <? size)%nat && chr_eqb (at_ pos) ","%byte
                       then S pos else pos in
            let pos := parse_whitespace pos in
            parse_array_loop fuel pos array
        | Done (unexpected e) pos => Done (unexpected e) pos
        | Raise x => Raise x
        | OutOfFuel => OutOfFuel
        end
      else Done (value array) pos
  end

with parse_object (fuel : nat) (pos : nat) {struct fuel}
    : outcome (expected Value JsonError) :=
  match fuel with
  | O => OutOfFuel
  | S fuel =>
      let pos := parse_whitespace pos in
      if (pos =? size)%nat || negb (chr_eqb (at_ pos) "{"%byte)
      then Done (unexpected parse_invalid_value) pos else
      let pos := S pos in
      match parse_object_loop fuel pos [] with
      | Done (value object) pos =>
          if (pos =? size)%nat || negb (chr_eqb (at_ pos) "}"%byte)
          then Done (unexpected parse_invalid_value) pos
          else Done (value (Object object)) (S pos)
      | Done (unexpected e) pos => Done (unexpected e) pos
      | Raise x => Raise x
      | OutOfFuel => OutOfFuel
      end
  end

(** The [while] loop of [parse_object]; a normal exit yields [object]. *)
with parse_object_loop (fuel : nat) (pos : nat) (object : std_map Node) {struct fuel}
    : outcome (expected (std_map Node) JsonError) :=
  match fuel with
  | O => OutOfFuel
  | S fuel =>
      if (pos <? size)%nat && negb (chr_eqb (at_ pos) "}"%byte) then
        match parse_string pos with
        | Done (unexpected e) pos => Done (unexpected e) pos
        | Done (value (String key)) pos =>
            let pos := parse_whitespace pos in
            if (pos =? size)%nat || negb (chr_eqb (at_ pos) ":"%byte)
            then Done (unexpected parse_invalid_value) pos else
            let pos := S pos in
            match parse_value fuel pos with
            | Done (value v) pos =>
                let object := map_emplace key v object in
                let pos := parse_whitespace pos in
                let pos := if (pos <? size)%nat && chr_eqb (at_ pos) ","%byte
                           then S pos else pos in
                let pos := parse_whitespace pos in
                parse_object_loop fuel pos object
            | Done (unexpected e) pos => Done (unexpected e) pos
            | Raise x => Raise x
            | OutOfFuel => OutOfFuel
            end
        | Done (value _) pos =>
            (* [!std::holds_alternative<std::string>(key.value())] *)
            Done (unexpected parse_invalid_value) pos
        | Raise x => Raise x
        | OutOfFuel => OutOfFuel
        end
      else Done (value object) pos
  end.

(** [JsonParser::parse], started with [pos = 0]. *)
Definition JsonParser_parse (fuel : nat) : outcome (expected Node JsonError) :=
  let pos := parse_whitespace 0 in
  match parse_value fuel pos with
  | Done (unexpected e) pos => Done (unexpected e) pos
  | Done (value v) pos =>
      let pos := parse_whitespace pos in
      if negb (pos =? size)%nat
      then Done (unexpected parse_root_not_singular) pos
      else Done (value v) pos
  | Raise x => Raise x
  | OutOfFuel => OutOfFuel
  end.
End JsonParser.

(** What a caller of the free function [parse] sees: the returned
    [std::expected], or an exception. *)
Inductive result : Type :=
  | Returns (r : expected Node JsonError)
  | Throws (x : exception)
  | Diverges.

(** Fuel that is enough for any input (theorem [parse_fuel_enough]). *)
Definition parse_fuel (json_str : std_string) : nat := 3 * length json_str + 2.

Definition parse (json_str : std_string) : result :=
  match JsonParser_parse json_str (parse_fuel json_str) with
  | Done r _ => Returns r
  | Raise x => Throws x
  | OutOfFuel => Diverges
  end.

(** ** The generator *)

Section JsonGenerator.
(** Whether plain [char] is signed on the platform. *)
Variable char_is_signed : bool.

(** The table [escape_map] of [generate_string]. *)
Definition escape_map (c : char) : option std_string :=
  if chr_eqb c x22 then Some [x5c; x22]
  else if chr_eqb c x5c then Some [x5c; x5c]
  else if chr_eqb c "/"%byte then Some [x5c; "/"%byte]
  else if chr_eqb c x08 then Some [x5c; "b"%byte]
  else if chr_eqb c x0c then Some [x5c; "f"%byte]
  else if chr_eqb c x0a then Some [x5c; "n"%byte]
  else if chr_eqb c x0d then Some [x5c; "r"%byte]
  else if chr_eqb c x09 then Some [x5c; "t"%byte]
  else None.

(** What one trip of the loop of [generate_string] appends for [c]. *)
Definition generate_char (c : char) : std_string :=
  match escape_map c with
  | Some escape => escape
  | None =>
      if char_to_int char_is_signed c <? 32 then
        let digits := to_string (char_to_int char_is_signed c) in
        [x5c; "u"%byte] ++ repeat "0"%byte (4 - length digits) ++ digits
      else [c]
  end.

Definition generate_string (str : std_string) : std_string :=
  x22 :: flat_map generate_char str ++ [x22].

(** [json_str.pop_back()] guarded by the emptiness test of the
    container just written. *)
Definition pop_back_unless {A : Type} (container : list A) (json_str : std_string)
    : std_string :=
  match container with
  | [] => json_str
  | _ :: _ => removelast json_str
  end.

Fixpoint generate (node : Node) : std_string :=
  match node with
  | Null => text "null"
  | Boolean b => if b then text "true" else text "false"
  | Integer n => to_string n
  | Float f => to_string_double f
  | String str => generate_string str
  | Array array =>
      let json_str :=
        "["%byte :: flat_map (fun node => generate node ++ [","%byte]) array in
      pop_back_unless array json_str ++ ["]"%byte]
  | Object object =>
      let json_str :=
        "{"%byte :: flat_map (fun entry : std_string * Node =>
                       let (key, node) := entry in
                       generate_string key ++ ":"%byte :: generate node ++ [","%byte])
                     object in
      pop_back_unless object json_str ++ ["}"%byte]
  end.

Definition generate_array (array : list Node) : std_string :=
  generate (Array array).

Definition generate_object (object : std_map Node) : std_string :=
  generate (Object object).
End JsonGenerator.

(** ** Definitions used to state the properties *)

(** The value of the first entry of [kvs] whose key is [key]. *)
Fixpoint first_binding {V : Type} (key : std_string) (kvs : list (std_string * V))
    : option V :=
  match kvs with
  | [] => None
  | (k, v) :: r => if string_eqb key k then Some v else first_binding key r
  end.

(** The parts separated by [sep], with no separator after the last. *)
Fixpoint join (sep : char) (parts : list std_string) : std_string :=
  match parts with
  | [] => []
  | [x] => x
  | x :: r => x ++ sep :: join sep r
  end.

(** A call started at [pos] with [pos <= size] neither runs out of fuel
    nor leaves the input: a value comes with a cursor strictly further on
    ([advances]) or, for the loops, not further back ([stays]). *)
Definition advances {A : Type} (json_str : std_string) (pos : nat)
    (o : outcome (expected A JsonError)) : Prop :=
  match o with
  | Done (value _) pos' => (pos < pos' <= size json_str)%nat
  | Done (unexpected _) _ => True
  | Raise _ => True
  | OutOfFuel => False
  end.

Definition stays {A : Type} (json_str : std_string) (pos : nat)
    (o : outcome (expected A JsonError)) : Prop :=
  match o with
  | Done (value _) pos' => (pos <= pos' <= size json_str)%nat
  | Done (unexpected _) _ => True
  | Raise _ => True
  | OutOfFuel => False
  end.

(** [o'] is the outcome of a call that got more fuel than the call with
    outcome [o]. *)
Definition lifts {A : Type} (o o' : outcome A) : Prop :=
  o = OutOfFuel \/ o' = o.

(** A character that stands for itself between the quotes of a string:
    neither the quote nor the backslash. *)
Definition raw_char (c : char) : Prop := c <> x22 /\ c <> x5c.

(** A control character: a byte below [U+0020]. *)
Definition control_char (c : char) : Prop := code c < 32.

(** The characters that open a fraction or an exponent. *)
Definition float_mark (c : char) : bool :=
  chr_eqb c "."%byte || chr_eqb c "e"%byte || chr_eqb c "E"%byte.

(** The [\u00XX] escape of a byte, as JSON defines it and as
    [parse_unicode] reads it: two zeros and the two hexadecimal digits of
    the byte. *)
Definition hex_digit (n : Z) : char :=
  char_of_int (if n <? 10 then 48 + n else 87 + n).

Definition u00XX (c : char) : std_string :=
  [x5c; "u"%byte; "0"%byte; "0"%byte; hex_digit (code c / 16); hex_digit (code c mod 16)].

(** The text of one entry of an object. *)
Definition entry_text (char_is_signed : bool) (entry : std_string * Node) : std_string :=
  generate_string char_is_signed (fst entry)
  ++ ":"%byte :: generate char_is_signed (snd entry).

(** What the container loops skip after an element: white space, at most
    one comma, white space. *)
Definition skip_separator (json_str : std_string) (pos : nat) : nat :=
  let pos := parse_whitespace json_str pos in
  let pos := if (pos <? size json_str)%nat && chr_eqb (at_ json_str pos) ","%byte
             then S pos else pos in
  parse_whitespace json_str pos.

(** [array_items json_str pos vs pos']: from [pos] on, the text holds the
    value productions of [vs] one after another, none starting on a
    closing bracket, each followed by a separator, and [pos'] is where the
    last separator ends. *)
Inductive array_items (json_str : std_string) : nat -> list Node -> nat -> Prop :=
  | items_done pos : array_items json_str pos [] pos
  | items_more pos fuel v pos1 vs pos' :
      (pos < size json_str)%nat ->
      at_ json_str pos <> "]"%byte ->
      parse_value json_str fuel pos = Done (value v) pos1 ->
      array_items json_str (skip_separator json_str pos1) vs pos' ->
      array_items json_str pos (v :: vs) pos'.

(** [object_entries json_str pos kvs pos']: from [pos] on, the text holds
    the entries of [kvs] one after another, each a string production, a
    colon and a value production followed by a separator, none starting
    on a closing brace. *)
Inductive object_entries (json_str : std_string)
    : nat -> list (std_string * Node) -> nat -> Prop :=
  | entries_done pos : object_entries json_str pos [] pos
  | entries_more pos key pos1 fuel v pos2 kvs pos' :
      (pos < size json_str)%nat ->
      at_ json_str pos <> "}"%byte ->
      parse_string json_str pos = Done (value (String key)) pos1 ->
      (parse_whitespace json_str pos1 < size json_str)%nat ->
      at_ json_str (parse_whitespace json_str pos1) = ":"%byte ->
      parse_value json_str fuel (S (parse_whitespace json_str pos1)) = Done (value v) pos2 ->
      object_entries json_str (skip_separator json_str pos2) kvs pos' ->
      object_entries json_str pos ((key, v) :: kvs) pos'.

(** What may follow a number in a text: the end, or a character that is
    neither a digit nor the start of a fraction or an exponent. *)
Definition number_end (post : std_string) : Prop :=
  match post with
  | [] => True
  | c :: _ => isdigit c = false /\ float_mark c = false
  end.

(** The bytes that [generate_string] writes in a form that
    [parse_string] reads back: those with a two-character escape, the
    printable ones, and the control characters 0 to 7, whose decimal and
    hexadecimal digits agree. *)
Definition roundtrip_char (char_is_signed : bool) (c : char) : Prop :=
  code c <= 10 \/ code c = 12 \/ code c = 13 \/ 32 <= char_to_int char_is_signed c.

(** The trees on which generating and parsing are inverse: no [Float],
    integers within 64 bits, strings and keys of [roundtrip_char]s, and
    objects that satisfy the invariant of [std::map]. *)
Fixpoint roundtrip_node (char_is_signed : bool) (node : Node) : Prop :=
  match node with
  | Null | Boolean _ => True
  | Integer n => LLONG_MIN <= n <= LLONG_MAX
  | Float _ => False
  | String str => List.Forall (roundtrip_char char_is_signed) str
  | Array array =>
      (fix all (l : list Node) : Prop :=
         match l with
         | [] => True
         | x :: r => roundtrip_node char_is_signed x /\ all r
         end) array
  | Object object =>
      map_ok object
      /\ (fix all (l : list (std_string * Node)) : Prop :=
            match l with
            | [] => True
            | (k, x) :: r =>
                List.Forall (roundtrip_char char_is_signed) k
                /\ roundtrip_node char_is_signed x /\ all r
            end) object
  end.

(** [reads json_str char_is_signed x]: wherever the generated text of [x]
    stands in [json_str], followed by the end of a number, the value
    production reads [x] there. *)
Definition reads (json_str : std_string) (char_is_signed : bool) (x : Node) : Prop :=
  forall pre post : std_string,
    json_str = pre ++ generate char_is_signed x ++ post ->
    number_end post ->
    parse_value json_str (parse_fuel json_str) (length pre)
    = Done (value x) (length pre + length (generate char_is_signed x)).

(** The exceptions of the numeric conversions of the C++ library. *)
Definition conversion_error (x : exception) : Prop :=
  x = invalid_argument \/ x = out_of_range.

(** A call that lets no exception out but those of [std::stoi]. *)
Definition raises_only_conversion_errors {A : Type} (o : outcome A) : Prop :=
  match o with
  | Raise x => conversion_error x
  | _ => True
  end.

(** The outcome of a call made [n] characters further on: every cursor
    is moved by [n]. *)
Definition shift {A : Type} (n : nat) (o : outcome A) : outcome A :=
  match o with
  | Done a pos => Done a (n + pos)
  | Raise x => Raise x
  | OutOfFuel => OutOfFuel
  end.

(** A text of white space only: every character passes [std::isspace]. *)
Definition blank (s : std_string) : Prop := List.Forall (fun c => isspace c = true) s.

(** The characters on which [parse_value] and [parse_number] go on: the
    first letters of the literals, the quote, the two opening brackets,
    the minus sign and the digits. *)
Definition starts_value (c : char) : bool :=
  chr_eqb c "n"%byte || chr_eqb c "t"%byte || chr_eqb c "f"%byte
  || chr_eqb c x22 || chr_eqb c "["%byte || chr_eqb c "{"%byte
  || chr_eqb c "-"%byte || isdigit c.

(** A call that lets out only exceptions with the property [P]. *)
Definition raises_with {A : Type} (P : exception -> Prop) (o : outcome A) : Prop :=
  match o with
  | Raise x => P x
  | _ => True
  end.

(** The text holds a backslash and a [u] followed by four characters, not
    the last of the text, that [std::stoi] fails on with [x]. *)
Definition unconvertible_escape (json_str : std_string) (x : exception) : Prop :=
  exists pos, (pos + 5 < size json_str)%nat
    /\ at_ json_str pos = x5c /\ at_ json_str (S pos) = "u"%byte
    /\ stoi16 (substr json_str (pos + 2) 4) = inr x.

(** The byte that [parse] reads back from the text that [generate_string]
    writes for the byte [c]. *)
Definition reread (char_is_signed : bool) (c : char) : char :=
  match parse (generate_string char_is_signed [c]) with
  | Returns (value (String [k])) => k
  | _ => c
  end.

(** The trees without [Float]; an [Integer] holds an [int64_t]. *)
Fixpoint float_free (node : Node) : Prop :=
  match node with
  | Null | Boolean _ | String _ => True
  | Integer n => LLONG_MIN <= n <= LLONG_MAX
  | Float _ => False
  | Array array =>
      (fix all (l : list Node) : Prop :=
         match l with
         | [] => True
         | x :: r => float_free x /\ all r
         end) array
  | Object object =>
      (fix all (l : list (std_string * Node)) : Prop :=
         match l with
         | [] => True
         | (k, x) :: r => float_free x /\ all r
         end) object
  end.

(** The tree that is read back from the generated text of [node]: every
    byte of a string or key as [reread] gives it, every object rebuilt by
    emplacing its entries in their order. *)
Fixpoint reparse (char_is_signed : bool) (node : Node) : Node :=
  match node with
  | String str => String (map (reread char_is_signed) str)
  | Array array => Array (map (reparse char_is_signed) array)
  | Object object =>
      Object (map_of_list
                (map (fun entry : std_string * Node =>
                        let (key, node) := entry in
                        (map (reread char_is_signed) key, reparse char_is_signed node))
                   object))
  | _ => node
  end.

(** [rereads json_str char_is_signed x]: wherever the generated text of
    [x] stands in [json_str], followed by the end of a number, the value
    production reads [reparse char_is_signed x] there. *)
Definition rereads (json_str : std_string) (char_is_signed : bool) (x : Node) : Prop :=
  forall pre post : std_string,
    json_str = pre ++ generate char_is_signed x ++ post ->
    number_end post ->
    parse_value json_str (parse_fuel json_str) (length pre)
    = Done (value (reparse char_is_signed x))
        (length pre + length (generate char_is_signed x)).

(** A [double] that is a number: neither an infinity nor a NaN. *)
Definition finite (f : double) : Prop :=
  match f with
  | D754_zero _ | D754_finite _ _ _ => True
  | D754_infinity _ | D754_nan _ => False
  end.

(** The trees whose integers fit [int64_t], whose floats are numbers and
    whose objects satisfy the invariant of [std::map]. *)
Fixpoint well_formed (node : Node) : Prop :=
  match node with
  | Null | Boolean _ | String _ => True
  | Integer n => LLONG_MIN <= n <= LLONG_MAX
  | Float f => finite f
  | Array array =>
      (fix all (l : list Node) : Prop :=
         match l with
         | [] => True
         | x :: r => well_formed x /\ all r
         end) array
  | Object object =>
      map_ok object
      /\ (fix all (l : list (std_string * Node)) : Prop :=
            match l with
            | [] => True
            | (k, x) :: r => well_formed x /\ all r
            end) object
  end.

(** A call whose value, when it returns one, has the property [P]. *)
Definition returns_with {A : Type} (P : A -> Prop)
    (o : outcome (expected A JsonError)) : Prop :=
  match o with
  | Done (value a) _ => P a
  | _ => True
  end.

(** A call whose error, when it fails, has the property [P]. *)
Definition fails_with {A : Type} (P : JsonError -> Prop)
    (o : outcome (expected A JsonError)) : Prop :=
  match o with
  | Done (unexpected e) _ => P e
  | _ => True
  end.

(** [std::stoll] or [std::stod] reports [std::out_of_range] on a part of
    the text. *)
Definition overflowing_lexeme (json_str : std_string) : Prop :=
  exists pos n,
    stoll (substr json_str pos n) = inr out_of_range
    \/ stod (substr json_str pos n) = inr out_of_range.

(** The text runs out where a value must start: from [pos] on it is
    blank, or it holds, at [pos] or later, an opening bracket or a colon
    after which it is blank. *)
Definition value_missing (json_str : std_string) (pos : nat) : Prop :=
  blank (drop pos json_str)
  \/ exists q, (pos <= q < size json_str)%nat
       /\ (at_ json_str q = "["%byte \/ at_ json_str q = ":"%byte)
       /\ blank (drop (S q) json_str).

(** The parts of a number lexeme, as the number production scans them: an
    optional minus sign; the integer part, a single [0] or digits that do
    not start with [0]; an optional fraction, a point and digits; an
    optional exponent, [e] or [E], an optional sign and digits. *)
Definition lexeme_digits (ds : std_string) : bool :=
  match ds with
  | [] => false
  | _ => forallb isdigit ds
  end.

Definition lexeme_minus (sp : std_string) : bool :=
  match sp with
  | [] => true
  | [c] => chr_eqb c "-"%byte
  | _ => false
  end.

Definition lexeme_int (ip : std_string) : bool :=
  match ip with
  | [] => false
  | c :: r =>
      if chr_eqb c "0"%byte then match r with [] => true | _ => false end
      else forallb isdigit ip
  end.

Definition lexeme_frac (fp : std_string) : bool :=
  match fp with
  | [] => true
  | c :: ds => chr_eqb c "."%byte && lexeme_digits ds
  end.

Definition lexeme_exp (ep : std_string) : bool :=
  match ep with
  | [] => true
  | m :: r =>
      (chr_eqb m "e"%byte || chr_eqb m "E"%byte)
      && match r with
         | s :: ds =>
             if chr_eqb s "+"%byte || chr_eqb s "-"%byte
             then lexeme_digits ds else lexeme_digits r
         | [] => false
         end
  end.

(** What may follow a run of digits: the end of the text, or a character
    that is no digit. *)
Definition not_digit_next (rest : std_string) : Prop :=
  match rest with [] => True | c :: _ => isdigit c = false end.

(** * Properties *)

(** ** Error discrimination *)

(** C2: the empty text fails with [parse_expect_value], [nul] with
    [parse_invalid_value], [null x] with [parse_root_not_singular], and
    both [1e30009] and a 48-digit integer with [parse_number_too_big]. *)
Theorem parse_error_discrimination :
  parse (json_text "") = Returns (unexpected parse_expect_value)
  /\ parse (json_text "nul") = Returns (unexpected parse_invalid_value)
  /\ parse (json_text "null x") = Returns (unexpected parse_root_not_singular)
  /\ parse (json_text "1e30009") = Returns (unexpected parse_number_too_big)
  /\ parse (json_text "100000000000000000000000000000000000000000000000")
     = Returns (unexpected parse_number_too_big).
Proof.
  split; [|split; [|split; [|split]]]; vm_compute; reflexivity.
Qed.

(** ** Exceptions that leave [parse] *)

(** C4 (at the failing input): the text consisting of a string whose
    [\u] escape is followed by four characters none of which is a
    hexadecimal digit makes [std::stoi] throw [std::invalid_argument] in
    [parse_unicode]; nothing catches it, so the exception leaves [parse]
    in place of a [parse_invalid_value] result. *)
Theorem parse_unicode_escape_throws :
  parse (json_text "'\uzzzz'") = Throws invalid_argument.
Proof. vm_compute; reflexivity. Qed.

(** A [\u] escape cut short by the closing quote or by the end of the
    input throws nothing: [parse_unicode] yields the NUL character and
    the loop goes on with the next character. *)
Example parse_truncated_unicode_escape :
  parse (json_text "'\u12'") = Returns (value (String [x00; "1"%byte; "2"%byte]))
  /\ parse (json_text "'\u") = Returns (unexpected parse_invalid_value).
Proof. split; vm_compute; reflexivity. Qed.

(** ** Escapes written by [generate_string] *)

(** C5 (at the failing input): for the byte [0x1F], on either kind of
    platform, [generate_string] writes the decimal digits of 31 after
    [\u00], not the hexadecimal escape [\u001f]; the parser of the same
    header reads the written escape back as the byte [0x31]. *)
Theorem generate_string_control_escape_is_decimal :
  forall char_is_signed,
    generate_string char_is_signed [x1f] = json_text "'\u0031'"
    /\ generate_string char_is_signed [x1f] <> x22 :: u00XX x1f ++ [x22]
    /\ parse (generate_string char_is_signed [x1f]) = Returns (value (String [x31])).
Proof.
  intros [|]; (split; [|split]); try (vm_compute; reflexivity);
    vm_compute; discriminate.
Qed.

(** C1 (at the failing input): the tree [String] holding the single byte
    [0x0B] is generated as the text with the escape [\u0011], which parses
    to the [String] holding the byte [0x11]: the round trip does not give
    the tree back. *)
Theorem roundtrip_fails_on_control_byte :
  forall char_is_signed,
    generate char_is_signed (String [x0b]) = json_text "'\u0011'"
    /\ parse (generate char_is_signed (String [x0b])) = Returns (value (String [x11]))
    /\ parse (generate char_is_signed (String [x0b])) <> Returns (value (String [x0b])).
Proof.
  intros [|]; (split; [|split]); try (vm_compute; reflexivity);
    vm_compute; discriminate.
Qed.

(** ** Strings and their order *)

Lemma chr_eqb_true (a b : char) : chr_eqb a b = true <-> a = b.
Proof.
  split; [apply Byte.byte_dec_bl | apply Byte.byte_dec_lb].
Qed.

Lemma chr_eqb_refl (a : char) : chr_eqb a a = true.
Proof. now apply chr_eqb_true. Qed.

Lemma chr_eqb_false (a b : char) : chr_eqb a b = false <-> a <> b.
Proof.
  split.
  - apply Byte.eqb_false.
  - intros Hne. destruct (chr_eqb a b) eqn:E; [|reflexivity].
    now apply chr_eqb_true in E.
Qed.

Lemma code_inj (a b : char) : code a = code b -> a = b.
Proof.
  unfold code. intros H. apply N2Z.inj in H.
  pose proof (Byte.of_to_N a) as Ea. pose proof (Byte.of_to_N b) as Eb.
  rewrite H in Ea. congruence.
Qed.

Lemma code_range (c : char) : 0 <= code c <= 255.
Proof.
  unfold code. pose proof (Byte.to_N_bounded c) as H. lia.
Qed.

Lemma string_compare_eq (a b : std_string) : string_compare a b = Eq <-> a = b.
Proof.
  revert b. induction a as [|x a IH]; intros [|y b]; simpl; try easy.
  destruct (Z.compare_spec (code x) (code y)) as [E|L|G].
  - apply code_inj in E. subst y. rewrite IH. split; congruence.
  - split; [discriminate|]. intros [= -> _]. lia.
  - split; [discriminate|]. intros [= -> _]. lia.
Qed.

Lemma string_compare_refl (a : std_string) : string_compare a a = Eq.
Proof. now apply string_compare_eq. Qed.

Lemma string_compare_antisym (a b : std_string) :
  string_compare b a = CompOpp (string_compare a b).
Proof.
  revert b. induction a as [|x a IH]; intros [|y b]; simpl; try easy.
  rewrite (Z.compare_antisym (code x) (code y)).
  destruct (code x ?= code y); simpl; auto.
Qed.

Lemma string_lt_trans (a b c : std_string) :
  string_lt a b -> string_lt b c -> string_lt a c.
Proof.
  unfold string_lt. revert b c.
  induction a as [|x a IH]; intros [|y b] [|z c]; simpl; try easy.
  destruct (Z.compare_spec (code x) (code y)) as [E1|L1|G1];
    destruct (Z.compare_spec (code y) (code z)) as [E2|L2|G2];
    try discriminate; intros H1 H2.
  - rewrite E1, E2, Z.compare_refl. eauto.
  - rewrite E1. now apply Z.compare_lt_iff in L2 as ->.
  - rewrite <- E2. now apply Z.compare_lt_iff in L1 as ->.
  - assert (L : code x < code z) by lia. now apply Z.compare_lt_iff in L as ->.
Qed.

Lemma string_lt_irrefl (a : std_string) : ~ string_lt a a.
Proof. unfold string_lt. now rewrite string_compare_refl. Qed.

Lemma string_compare_gt_lt (a b : std_string) :
  string_compare a b = Gt -> string_lt b a.
Proof.
  unfold string_lt. intros H. now rewrite string_compare_antisym, H.
Qed.

Lemma string_eqb_true (a b : std_string) : string_eqb a b = true <-> a = b.
Proof.
  unfold string_eqb. rewrite <- string_compare_eq.
  destruct (string_compare a b); split; congruence.
Qed.

Lemma string_eqb_refl (a : std_string) : string_eqb a a = true.
Proof. now apply string_eqb_true. Qed.

(** ** [std::map]: invariant, lookup and insertion *)

Section StdMapFacts.
Context {V : Type}.
Implicit Types (m : std_map V) (key k : std_string) (v : V).

Lemma map_emplace_keys key v m k :
  In k (keys (map_emplace key v m)) <-> k = key \/ In k (keys m).
Proof.
  induction m as [|[k0 x] r IH]; simpl.
  - intuition.
  - destruct (string_compare key k0) eqn:E; simpl.
    + apply string_compare_eq in E. subst k0. intuition.
    + intuition.
    + rewrite IH. intuition.
Qed.

Lemma map_emplace_ok key v m : map_ok m -> map_ok (map_emplace key v m).
Proof.
  unfold map_ok.
  induction m as [|[k0 x] r IH]; simpl; intros Hok.
  - repeat constructor.
  - destruct (string_compare key k0) eqn:E; simpl; [assumption| |].
    + constructor; [assumption|].
      inversion Hok as [|? ? _ Hall]; subst.
      constructor; [exact E|].
      eapply List.Forall_impl; [|exact Hall].
      intros a Ha. eapply string_lt_trans; [exact E|exact Ha].
    + inversion Hok as [|? ? Hr Hall]; subst.
      constructor; [now apply IH|].
      apply List.Forall_forall. intros a Ha.
      apply map_emplace_keys in Ha as [->|Ha].
      * now apply string_compare_gt_lt.
      * revert a Ha. now apply List.Forall_forall.
Qed.

Lemma map_of_list_from_ok (kvs : list (std_string * V)) m :
  map_ok m ->
  map_ok (fold_left (fun m kv => map_emplace (fst kv) (snd kv) m) kvs m).
Proof.
  revert m. induction kvs as [|[k v] r IH]; simpl; intros m Hok; [assumption|].
  apply IH. now apply map_emplace_ok.
Qed.

Lemma map_of_list_ok (kvs : list (std_string * V)) : map_ok (map_of_list kvs).
Proof. apply map_of_list_from_ok. constructor. Qed.

Lemma map_of_list_from_keys (kvs : list (std_string * V)) m k :
  In k (keys (fold_left (fun m kv => map_emplace (fst kv) (snd kv) m) kvs m))
  <-> In k (keys m) \/ In k (map fst kvs).
Proof.
  revert m. induction kvs as [|[k0 v] r IH]; simpl; intros m; [intuition|].
  rewrite IH, map_emplace_keys. intuition.
Qed.

Lemma map_of_list_keys (kvs : list (std_string * V)) k :
  In k (keys (map_of_list kvs)) <-> In k (map fst kvs).
Proof.
  unfold map_of_list. rewrite map_of_list_from_keys. simpl. intuition.
Qed.

(** A strictly ascending list is determined by its elements. *)
Lemma sorted_keys_unique (a b : list std_string) :
  StronglySorted string_lt a -> StronglySorted string_lt b ->
  (forall k, In k a <-> In k b) -> a = b.
Proof.
  revert b. induction a as [|x a IH]; intros [|y b] Ha Hb Hin.
  - reflexivity.
  - exfalso. apply (Hin y). now left.
  - exfalso. apply (Hin x). now left.
  - inversion Ha as [|? ? Ha' Hxa]; subst. inversion Hb as [|? ? Hb' Hyb]; subst.
    rewrite List.Forall_forall in Hxa, Hyb.
    assert (Exy : x = y).
    { destruct (proj1 (Hin x) (or_introl eq_refl)) as [E|Hxb]; [now symmetry|].
      destruct (proj2 (Hin y) (or_introl eq_refl)) as [E|Hya]; [assumption|].
      exfalso. apply (string_lt_irrefl x).
      eapply string_lt_trans; [apply Hxa, Hya | apply Hyb, Hxb]. }
    subst y. f_equal. apply IH; try assumption.
    intros k. split; intros Hk.
    + destruct (proj1 (Hin k) (or_intror Hk)) as [E|]; [|assumption].
      subst k. exfalso. apply (string_lt_irrefl x). now apply Hxa.
    + destruct (proj2 (Hin k) (or_intror Hk)) as [E|]; [|assumption].
      subst k. exfalso. apply (string_lt_irrefl x). now apply Hyb.
Qed.

Lemma map_ok_NoDup m : map_ok m -> List.NoDup (keys m).
Proof.
  unfold map_ok. induction (keys m) as [|x l IH]; intros Hok.
  - constructor.
  - apply StronglySorted_inv in Hok as [Hl Hx]. constructor; [|now apply IH].
    intros Hin. rewrite List.Forall_forall in Hx.
    apply (string_lt_irrefl x). now apply Hx.
Qed.

Lemma map_find_not_In key m : ~ In key (keys m) -> map_find key m = None.
Proof.
  induction m as [|[k0 x] r IH]; simpl; intros Hn; [reflexivity|].
  destruct (string_compare key k0) eqn:E; [|reflexivity|].
  - apply string_compare_eq in E. subst k0. exfalso. apply Hn. now left.
  - apply IH. intros Hin. apply Hn. now right.
Qed.

Lemma map_find_In key v m : map_ok m -> In (key, v) m -> map_find key m = Some v.
Proof.
  unfold map_ok.
  induction m as [|[k0 x] r IH]; simpl; intros Hok Hin; [easy|].
  inversion Hok as [|? ? Hr Hall]; subst. rewrite List.Forall_forall in Hall.
  destruct Hin as [[= -> ->]|Hin].
  - now rewrite string_compare_refl.
  - assert (Hlt : string_lt k0 key).
    { apply Hall. change key with (fst (key, v)). now apply in_map. }
    unfold string_lt in Hlt. rewrite string_compare_antisym, Hlt. simpl. now apply IH.
Qed.

Lemma map_find_Some key v m : map_find key m = Some v -> In (key, v) m.
Proof.
  induction m as [|[k0 x] r IH]; simpl; [easy|].
  destruct (string_compare key k0) eqn:E; [|easy|].
  - apply string_compare_eq in E. subst k0. intros [= ->]. now left.
  - intros H. right. now apply IH.
Qed.

(** [emplace] keeps the mapped value of a key that is already present. *)
Lemma map_find_emplace key v m k :
  map_find k (map_emplace key v m)
  = if string_eqb k key
    then match map_find key m with Some old => Some old | None => Some v end
    else map_find k m.
Proof.
  induction m as [|[k0 x] r IH]; simpl.
  - unfold string_eqb. destruct (string_compare k key); reflexivity.
  - destruct (string_compare key k0) eqn:E; simpl.
    + apply string_compare_eq in E. subst k0.
      destruct (string_eqb k key) eqn:Ek; [|reflexivity].
      apply string_eqb_true in Ek. subst k. now rewrite string_compare_refl.
    + unfold string_eqb. destruct (string_compare k key) eqn:Ek; try reflexivity.
      assert (Hlt : string_lt k k0) by (eapply string_lt_trans; [exact Ek|exact E]).
      unfold string_lt in Hlt. now rewrite Hlt.
    + destruct (string_compare k k0) eqn:Ek0.
      * apply string_compare_eq in Ek0. subst k0.
        unfold string_eqb. rewrite string_compare_antisym, E. reflexivity.
      * assert (Hlt : string_lt k key).
        { eapply string_lt_trans; [exact Ek0|]. now apply string_compare_gt_lt. }
        unfold string_eqb. unfold string_lt in Hlt. now rewrite Hlt.
      * exact IH.
Qed.

Lemma map_find_of_list_from (kvs : list (std_string * V)) m k :
  map_find k (fold_left (fun m kv => map_emplace (fst kv) (snd kv) m) kvs m)
  = match map_find k m with
    | Some old => Some old
    | None => first_binding k kvs
    end.
Proof.
  revert m. induction kvs as [|[k0 v] r IH]; simpl; intros m.
  - now destruct (map_find k m).
  - rewrite IH, map_find_emplace.
    destruct (string_eqb k k0) eqn:E.
    + apply string_eqb_true in E. subst k0. now destruct (map_find k m).
    + reflexivity.
Qed.

(** First write wins: the object built from [kvs] maps a key to the value
    of its first entry in [kvs]. *)
Lemma map_find_of_list (kvs : list (std_string * V)) k :
  map_find k (map_of_list kvs) = first_binding k kvs.
Proof. unfold map_of_list. now rewrite map_find_of_list_from. Qed.

Lemma map_of_list_keys_perm (kvs kvs' : list (std_string * V)) :
  Permutation kvs kvs' -> keys (map_of_list kvs') = keys (map_of_list kvs).
Proof.
  intros HP. apply sorted_keys_unique; try apply map_of_list_ok.
  intros k. rewrite !map_of_list_keys.
  assert (HP' : Permutation (map fst kvs) (map fst kvs')) by now apply Permutation_map.
  split; intros H.
  - eapply Permutation_in; [symmetry; exact HP'|exact H].
  - eapply Permutation_in; [exact HP'|exact H].
Qed.
End StdMapFacts.

(** ** Indexed access *)

(** C9: keyed lookup throws [runtime_error("not an object")] on a node
    that is not an [Object] and [out_of_range] for an absent key;
    positional lookup throws [runtime_error("not an array")] on a node that
    is not an [Array] and [out_of_range] for an index past the end; in the
    remaining cases the stored child is returned.  Both accessors are
    [const]: they are functions of the node and return no new tree. *)
Theorem Node_index_spec (node : Node) :
  (forall key, (forall o, node <> Object o) ->
     Node_index_key node key = inr (runtime_error "not an object"))
  /\ (forall key o, node = Object o -> ~ In key (keys o) ->
        Node_index_key node key = inr out_of_range)
  /\ (forall key o child, node = Object o -> map_ok o -> In (key, child) o ->
        Node_index_key node key = inl child)
  /\ (forall index, (forall a, node <> Array a) ->
        Node_index node index = inr (runtime_error "not an array"))
  /\ (forall index a, node = Array a -> (length a <= index)%nat ->
        Node_index node index = inr out_of_range)
  /\ (forall index a child, node = Array a -> nth_error a index = Some child ->
        Node_index node index = inl child).
Proof.
  repeat split.
  - intros key Hno. destruct node; try reflexivity. now destruct (Hno o).
  - intros key o -> Hn. simpl. unfold map_at. now rewrite map_find_not_In.
  - intros key o child -> Hok Hin. simpl. unfold map_at.
    now rewrite (map_find_In key child o Hok Hin).
  - intros index Hna. destruct node; try reflexivity. now destruct (Hna a).
  - intros index a -> Hlen. simpl.
    destruct (a !! index) as [child|] eqn:E; [|reflexivity].
    apply lookup_lt_Some in E. lia.
  - intros index a child -> Hnth. simpl.
    assert (E : a !! index = Some child).
    { revert index Hnth. induction a as [|y a IH]; intros [|i]; simpl; try easy. apply IH. }
    now rewrite E.
Qed.

Lemma Node_index_spec_witness :
  Node_index_key (Integer 7) (text "a") = inr (runtime_error "not an object")
  /\ Node_index_key (Object [(text "a", Integer 1)]) (text "b") = inr out_of_range
  /\ Node_index_key (Object [(text "a", Integer 1); (text "b", Null)]) (text "b") = inl Null
  /\ Node_index (String (text "a")) 0 = inr (runtime_error "not an array")
  /\ Node_index (Array [Null; Boolean true]) 2 = inr out_of_range
  /\ Node_index (Array [Null; Boolean true]) 1 = inl (Boolean true).
Proof.
  split; [|split; [|split; [|split; [|split]]]].
  - apply (proj1 (Node_index_spec (Integer 7))). discriminate.
  - apply (proj1 (proj2 (Node_index_spec (Object [(text "a", Integer 1)])))
            (text "b") [(text "a", Integer 1)] eq_refl).
    simpl. intros [H|[]]. discriminate H.
  - apply (proj1 (proj2 (proj2 (Node_index_spec
             (Object [(text "a", Integer 1); (text "b", Null)]))))
            (text "b") [(text "a", Integer 1); (text "b", Null)] Null eq_refl).
    + repeat constructor.
    + simpl. right. left. reflexivity.
  - apply (proj1 (proj2 (proj2 (proj2 (Node_index_spec (String (text "a"))))))).
    discriminate.
  - apply (proj1 (proj2 (proj2 (proj2 (proj2 (Node_index_spec (Array [Null; Boolean true]))))))
            2%nat [Null; Boolean true] eq_refl).
    simpl. lia.
  - apply (proj2 (proj2 (proj2 (proj2 (proj2 (Node_index_spec (Array [Null; Boolean true]))))))
            1%nat [Null; Boolean true] (Boolean true) eq_refl).
    reflexivity.
Defined.

(** ** Key order of generated objects *)

Lemma removelast_flat_map_sep {A : Type} (f : A -> std_string) (sep : char)
    (x : A) (l : list A) :
  removelast (flat_map (fun e => f e ++ [sep]) (x :: l)) = join sep (map f (x :: l)).
Proof.
  revert x. induction l as [|y l IH]; intros x.
  - simpl. rewrite app_nil_r. apply removelast_last.
  - change (flat_map (fun e => f e ++ [sep]) (x :: y :: l))
      with ((f x ++ [sep]) ++ flat_map (fun e => f e ++ [sep]) (y :: l)).
    rewrite removelast_app.
    + rewrite IH. simpl. now rewrite <- app_assoc.
    + simpl. now destruct (f y).
Qed.

Lemma pop_back_unless_join {A : Type} (f : A -> std_string) (open sep : char)
    (l : list A) :
  pop_back_unless l (open :: flat_map (fun e => f e ++ [sep]) l)
  = open :: join sep (map f l).
Proof.
  destruct l as [|x l]; [reflexivity|].
  unfold pop_back_unless.
  change (open :: flat_map (fun e => f e ++ [sep]) (x :: l))
    with ([open] ++ flat_map (fun e => f e ++ [sep]) (x :: l)).
  rewrite removelast_app.
  - now rewrite removelast_flat_map_sep.
  - simpl. now destruct (f x).
Qed.

Lemma generate_Object_join (char_is_signed : bool) (object : std_map Node) :
  generate char_is_signed (Object object)
  = "{"%byte :: join ","%byte (map (entry_text char_is_signed) object) ++ ["}"%byte].
Proof.
  transitivity
    (pop_back_unless object
       ("{"%byte :: flat_map (fun e => entry_text char_is_signed e ++ [","%byte]) object)
     ++ ["}"%byte]).
  - change (generate char_is_signed (Object object))
      with (pop_back_unless object
              ("{"%byte :: flat_map (fun entry : std_string * Node =>
                              let (key, node) := entry in
                              generate_string char_is_signed key
                              ++ ":"%byte :: generate char_is_signed node ++ [","%byte])
                            object) ++ ["}"%byte]).
    do 3 f_equal. apply flat_map_ext. intros [k v]. unfold entry_text.
    cbn [fst snd]. rewrite <- app_assoc. reflexivity.
  - now rewrite pop_back_unless_join.
Qed.

Lemma generate_Array_join (char_is_signed : bool) (array : list Node) :
  generate char_is_signed (Array array)
  = "["%byte :: join ","%byte (map (generate char_is_signed) array) ++ ["]"%byte].
Proof.
  change (generate char_is_signed (Array array))
    with (pop_back_unless array
            ("["%byte :: flat_map (fun node => generate char_is_signed node ++ [","%byte])
                           array) ++ ["]"%byte]).
  now rewrite pop_back_unless_join.
Qed.

(** C7: whatever the order [kvs] in which the entries are inserted, the
    keys of the object are strictly ascending in the byte-wise
    lexicographic order, they are the inserted keys, any reordering of the
    insertions gives the same key sequence, and [generate] writes the
    entries in that sequence; inserting [b] then [a] gives the text
    [{"a":1,"b":2}]. *)
Theorem generate_object_ascending_keys (char_is_signed : bool)
    (kvs : list (std_string * Node)) :
  StronglySorted string_lt (keys (map_of_list kvs))
  /\ (forall k, In k (keys (map_of_list kvs)) <-> In k (map fst kvs))
  /\ (forall kvs', Permutation kvs kvs' ->
        keys (map_of_list kvs') = keys (map_of_list kvs))
  /\ generate char_is_signed (Object (map_of_list kvs))
     = "{"%byte :: join ","%byte (map (entry_text char_is_signed) (map_of_list kvs))
       ++ ["}"%byte]
  /\ generate char_is_signed
       (Object (map_of_list [(text "b", Integer 2); (text "a", Integer 1)]))
     = json_text "{'a':1,'b':2}".
Proof.
  split; [|split; [|split; [|split]]].
  - apply map_of_list_ok.
  - apply map_of_list_keys.
  - intros kvs'. apply map_of_list_keys_perm.
  - apply generate_Object_join.
  - destruct char_is_signed; vm_compute; reflexivity.
Qed.

Lemma generate_object_ascending_keys_witness :
  keys (map_of_list [(text "a", Integer 1); (text "c", Null); (text "b", Integer 2)])
  = keys (map_of_list [(text "c", Null); (text "b", Integer 2); (text "a", Integer 1)]).
Proof.
  apply (proj1 (proj2 (proj2 (generate_object_ascending_keys true
           [(text "c", Null); (text "b", Integer 2); (text "a", Integer 1)])))).
  apply Permutation_sym.
  eapply perm_trans; [apply perm_swap | apply perm_skip, perm_swap].
Defined.

(** ** The cursor: reading and skipping *)

Section CursorFacts.
Variable json_str : std_string.
Implicit Types (pos : nat) (p : char -> bool).

Lemma at_lookup pos c : json_str !! pos = Some c -> at_ json_str pos = c.
Proof. intros H. unfold at_. rewrite nth_lookup. now rewrite H. Qed.

Lemma lookup_at pos : (pos < size json_str)%nat -> json_str !! pos = Some (at_ json_str pos).
Proof.
  intros H. destruct (lookup_lt_is_Some_2 json_str pos H) as [c Hc].
  now rewrite (at_lookup pos c Hc).
Qed.

Lemma drop_at pos :
  (pos < size json_str)%nat -> drop pos json_str = at_ json_str pos :: drop (S pos) json_str.
Proof. intros H. apply drop_S. now apply lookup_at. Qed.

Lemma drop_end pos : (size json_str <= pos)%nat -> drop pos json_str = [].
Proof. intros H. now apply drop_ge. Qed.

Lemma skip_while_bounds p (rest : std_string) pos :
  (pos <= skip_while p rest pos <= pos + length rest)%nat.
Proof.
  revert pos. induction rest as [|c r IH]; intros pos; simpl; [lia|].
  destruct (p c); [|lia]. specialize (IH (S pos)). lia.
Qed.

(** Where a skipping loop stops, the input is exhausted or the next
    character fails the test. *)
Lemma skip_while_stops p (rest : std_string) pos :
  rest = drop pos json_str ->
  match drop (skip_while p rest pos) json_str with
  | [] => True
  | c :: _ => p c = false
  end.
Proof.
  revert pos. induction rest as [|c r IH]; intros pos Hrest; simpl.
  - now rewrite <- Hrest.
  - destruct (p c) eqn:E.
    + apply IH. replace (S pos) with (pos + 1)%nat by lia.
      rewrite <- drop_drop, <- Hrest. reflexivity.
    + now rewrite <- Hrest.
Qed.

Lemma skip_while_here p pos :
  (pos < size json_str)%nat -> p (at_ json_str pos) = false ->
  skip_while p (drop pos json_str) pos = pos.
Proof. intros H E. rewrite (drop_at pos H). simpl. now rewrite E. Qed.

Lemma skip_while_step p pos :
  (pos < size json_str)%nat -> p (at_ json_str pos) = true ->
  skip_while p (drop pos json_str) pos = skip_while p (drop (S pos) json_str) (S pos).
Proof. intros H E. rewrite (drop_at pos H). simpl. now rewrite E. Qed.

Lemma skip_while_at_end p pos :
  (size json_str <= pos)%nat -> skip_while p (drop pos json_str) pos = pos.
Proof. intros H. now rewrite (drop_end pos H). Qed.

Lemma skip_while_le p pos : (pos <= skip_while p (drop pos json_str) pos)%nat.
Proof. apply skip_while_bounds. Qed.

Lemma skip_while_size p pos :
  (pos <= size json_str)%nat -> (skip_while p (drop pos json_str) pos <= size json_str)%nat.
Proof.
  intros H. pose proof (skip_while_bounds p (drop pos json_str) pos) as B.
  rewrite length_drop in B. unfold size in *. lia.
Qed.

Lemma skip_while_stop_at p pos :
  let q := skip_while p (drop pos json_str) pos in
  (q < size json_str)%nat -> p (at_ json_str q) = false.
Proof.
  intros q Hq. pose proof (skip_while_stops p _ pos eq_refl) as H.
  fold q in H. now rewrite (drop_at q Hq) in H.
Qed.

Lemma skip_while_idem p pos :
  let q := skip_while p (drop pos json_str) pos in
  skip_while p (drop q json_str) q = q.
Proof.
  intros q. destruct (Nat.lt_ge_cases q (size json_str)) as [Hq|Hq].
  - apply skip_while_here; [assumption|]. now apply skip_while_stop_at.
  - now apply skip_while_at_end.
Qed.

Lemma parse_whitespace_le pos : (pos <= parse_whitespace json_str pos)%nat.
Proof. apply skip_while_le. Qed.

Lemma parse_whitespace_size pos :
  (pos <= size json_str)%nat -> (parse_whitespace json_str pos <= size json_str)%nat.
Proof. apply skip_while_size. Qed.

Lemma parse_whitespace_idem pos :
  parse_whitespace json_str (parse_whitespace json_str pos)
  = parse_whitespace json_str pos.
Proof. apply skip_while_idem. Qed.

Lemma parse_whitespace_here pos :
  (pos < size json_str)%nat -> isspace (at_ json_str pos) = false -> parse_whitespace json_str pos = pos.
Proof. apply skip_while_here. Qed.

Lemma parse_whitespace_at_end pos :
  (size json_str <= pos)%nat -> parse_whitespace json_str pos = pos.
Proof. apply skip_while_at_end. Qed.

Lemma parse_whitespace_stop_at pos :
  (parse_whitespace json_str pos < size json_str)%nat ->
  isspace (at_ json_str (parse_whitespace json_str pos)) = false.
Proof. apply skip_while_stop_at. Qed.

Lemma skip_digits_le pos : (pos <= skip_digits json_str pos)%nat.
Proof. apply skip_while_le. Qed.

Lemma skip_digits_size pos :
  (pos <= size json_str)%nat -> (skip_digits json_str pos <= size json_str)%nat.
Proof. apply skip_while_size. Qed.

Lemma substr_length pos n : (length (substr json_str pos n) <= size json_str - pos)%nat.
Proof.
  unfold substr. rewrite length_take, length_drop. unfold size. lia.
Qed.
End CursorFacts.

(** ** Progress of the leaf productions *)

Ltac bool_hyps :=
  repeat match goal with
  | H : (_ || _) = false |- _ => apply orb_false_iff in H; destruct H
  | H : (_ && _) = true |- _ => apply andb_true_iff in H; destruct H
  | H : negb _ = true |- _ => apply negb_true_iff in H
  | H : negb _ = false |- _ => apply negb_false_iff in H
  | H : (_ =? _)%nat = true |- _ => apply Nat.eqb_eq in H
  | H : (_ =? _)%nat = false |- _ => apply Nat.eqb_neq in H
  | H : (_ <? _)%nat = true |- _ => apply Nat.ltb_lt in H
  | H : (_ <? _)%nat = false |- _ => apply Nat.ltb_ge in H
  | H : (_ <=? _)%nat = true |- _ => apply Nat.leb_le in H
  | H : (_ <=? _)%nat = false |- _ => apply Nat.leb_gt in H
  end.

Ltac case_if :=
  match goal with
  | |- context [if ?b then _ else _] => let E := fresh "E" in destruct b eqn:E
  end.

Section LeafProgress.
Variable json_str : std_string.
Implicit Types (pos : nat).

Lemma literal_fits pos n (lit : std_string) :
  string_eqb (substr json_str pos n) lit = true ->
  (pos + length lit <= size json_str)%nat \/ lit = [].
Proof.
  intros E. apply string_eqb_true in E.
  pose proof (substr_length json_str pos n) as L. rewrite E in L.
  destruct lit; [now right|left]. simpl in *. unfold size in *. lia.
Qed.

Lemma parse_null_advances pos :
  (pos <= size json_str)%nat -> advances json_str pos (parse_null json_str pos).
Proof.
  intros Hpos. unfold parse_null.
  pose proof (parse_whitespace_le json_str pos).
  destruct (string_eqb _ _) eqn:E; simpl; [|exact I].
  apply literal_fits in E as [E|E]; [|discriminate]. simpl in E. lia.
Qed.

Lemma parse_true_advances pos :
  (pos <= size json_str)%nat -> advances json_str pos (parse_true json_str pos).
Proof.
  intros Hpos. unfold parse_true.
  pose proof (parse_whitespace_le json_str pos).
  destruct (string_eqb _ _) eqn:E; simpl; [|exact I].
  apply literal_fits in E as [E|E]; [|discriminate]. simpl in E. lia.
Qed.

Lemma parse_false_advances pos :
  (pos <= size json_str)%nat -> advances json_str pos (parse_false json_str pos).
Proof.
  intros Hpos. unfold parse_false.
  pose proof (parse_whitespace_le json_str pos).
  destruct (string_eqb _ _) eqn:E; simpl; [|exact I].
  apply literal_fits in E as [E|E]; [|discriminate]. simpl in E. lia.
Qed.

Lemma catch_conversion_advances {A : Type} (r : A + exception)
    (k : A -> outcome (expected Value JsonError)) pos pos0 :
  (forall a, r = inl a -> advances json_str pos0 (k a)) ->
  advances json_str pos0 (catch_conversion r k pos).
Proof.
  intros Hk. destruct r as [a|[what| |]]; simpl; auto.
Qed.

Lemma stoll_no_runtime_error (str : std_string) what :
  stoll str <> inr (runtime_error what).
Proof.
  unfold stoll. destruct (read_sign _) as [neg s0].
  destruct (take_while isdigit s0); [discriminate|].
  destruct (_ && _); discriminate.
Qed.

Lemma stod_no_runtime_error (str : std_string) what :
  stod str <> inr (runtime_error what).
Proof.
  unfold stod. destruct (read_decimal str) as [[[neg m] e]|]; [|discriminate].
  destruct (round_decimal neg m e); try discriminate;
    destruct (_ && _); discriminate.
Qed.

Lemma skip_digits_gt pos :
  (pos < size json_str)%nat -> isdigit (at_ json_str pos) = true ->
  (pos < skip_digits json_str pos)%nat.
Proof.
  intros H E. unfold skip_digits. rewrite (skip_while_step json_str _ pos H E).
  pose proof (skip_while_le json_str isdigit (S pos)). lia.
Qed.

Lemma parse_number_advances pos :
  (pos <= size json_str)%nat -> advances json_str pos (parse_number json_str pos).
Proof.
  intros Hpos. unfold parse_number.
  pose proof (parse_whitespace_le json_str pos) as Hq.
  pose proof (parse_whitespace_size json_str pos Hpos) as Hq'.
  set (q := parse_whitespace json_str pos) in *.
  destruct (q =? size json_str)%nat eqn:E0; [exact I|].
  set (e0 := if chr_eqb (at_ json_str q) "-"%byte then S q else q).
  assert (He0 : (q <= e0 <= S q)%nat) by (subst e0; destruct (chr_eqb _ _); lia).
  clearbody e0.
  destruct (e0 =? size json_str)%nat eqn:E1; [exact I|]. bool_hyps.
  set (ip := if chr_eqb (at_ json_str e0) "0"%byte then Some (S e0)
             else if negb (isdigit (at_ json_str e0)) then None
             else Some (skip_digits json_str e0)).
  assert (Hip : match ip with
                | Some e1 => (e0 < e1 <= size json_str)%nat
                | None => True
                end).
  { subst ip. destruct (chr_eqb _ _); [lia|].
    destruct (isdigit (at_ json_str e0)) eqn:Ed; simpl; [|exact I].
    assert (Hlt : (e0 < size json_str)%nat) by lia.
    pose proof (skip_digits_gt e0 Hlt Ed).
    pose proof (skip_digits_size json_str e0). lia. }
  clearbody ip. destruct ip as [e1|]; [|exact I]. cbn beta iota in Hip.
  case_if.
  { apply catch_conversion_advances. intros a _. simpl. lia. }
  set (fr := if (e1 <? size json_str)%nat && chr_eqb (at_ json_str e1) "."%byte
             then (if (S e1 =? size json_str)%nat || negb (isdigit (at_ json_str (S e1)))
                   then None else Some (skip_digits json_str (S e1)))
             else Some e1).
  assert (Hfr : match fr with
                | Some e2 => (e1 <= e2 <= size json_str)%nat
                | None => True
                end).
  { subst fr. case_if; [|lia]. case_if; [exact I|]. bool_hyps.
    pose proof (skip_digits_le json_str (S e1)).
    pose proof (skip_digits_size json_str (S e1)). lia. }
  clearbody fr. destruct fr as [e2|]; [|exact I]. cbn beta iota in Hfr.
  set (ex := if (e2 <? size json_str)%nat
                && (chr_eqb (at_ json_str e2) "e"%byte || chr_eqb (at_ json_str e2) "E"%byte)
             then (if (S e2 =? size json_str)%nat
                      || (negb (chr_eqb (at_ json_str (S e2)) "+"%byte)
                          && negb (chr_eqb (at_ json_str (S e2)) "-"%byte)
                          && negb (isdigit (at_ json_str (S e2))))
                   then None else Some (skip_digits json_str (S (S e2))))
             else Some e2).
  assert (Hex : match ex with
                | Some e3 => (e2 <= e3 <= size json_str)%nat
                | None => True
                end).
  { subst ex. case_if; [|lia]. case_if; [exact I|].
    match goal with H : _ || _ = false |- _ => apply orb_false_iff in H as [H _] end.
    bool_hyps.
    pose proof (skip_digits_le json_str (S (S e2))).
    pose proof (skip_digits_size json_str (S (S e2))). lia. }
  clearbody ex. destruct ex as [e3|]; [|exact I]. cbn beta iota in Hex.
  apply catch_conversion_advances. intros a _. simpl. lia.
Qed.
End LeafProgress.

(** ** Progress of strings and of the recursive productions *)

Section Progress.
Variable json_str : std_string.
Implicit Types (pos fuel : nat).

Lemma advances_weaken {A : Type} pos pos' (o : outcome (expected A JsonError)) :
  (pos <= pos')%nat -> advances json_str pos' o -> advances json_str pos o.
Proof. intros H. destruct o as [[v|e] p| |]; simpl; auto. lia. Qed.

Lemma stays_weaken {A : Type} pos pos' (o : outcome (expected A JsonError)) :
  (pos <= pos')%nat -> stays json_str pos' o -> stays json_str pos o.
Proof. intros H. destruct o as [[v|e] p| |]; simpl; auto. lia. Qed.

Lemma isspace_u : isspace "u"%byte = false.
Proof. reflexivity. Qed.

Lemma parse_unicode_at_u pos :
  (pos < size json_str)%nat -> chr_eqb (at_ json_str pos) "u"%byte = true ->
  parse_unicode json_str pos
  = if (size json_str <=? pos + 4)%nat then Done x00 pos
    else match stoi16 (substr json_str (pos + 1) 4) with
         | inl n => Done (char_of_int n) (pos + 4)
         | inr x => Raise x
         end.
Proof.
  intros H E. apply chr_eqb_true in E. unfold parse_unicode.
  rewrite (parse_whitespace_here json_str pos H); [reflexivity|].
  rewrite E. apply isspace_u.
Qed.

Lemma parse_string_loop_stays fuel pos (str : std_string) :
  (pos <= size json_str)%nat -> (size json_str - pos < fuel)%nat ->
  stays json_str pos (parse_string_loop json_str fuel pos str).
Proof.
  revert pos str. induction fuel as [|fuel IH]; intros pos str Hpos Hfuel; [lia|].
  cbn [parse_string_loop].
  case_if; [|simpl; lia]. bool_hyps.
  case_if.
  - case_if; [exact I|]. bool_hyps.
    destruct (escape_mappping (at_ json_str (S pos))) as [c|].
    + eapply stays_weaken; [|apply IH]; lia.
    + case_if; [|exact I].
      rewrite parse_unicode_at_u by (assumption || lia).
      case_if; bool_hyps.
      * eapply stays_weaken; [|apply IH]; lia.
      * destruct (stoi16 _) as [n|x]; [|exact I].
        eapply stays_weaken; [|apply IH]; lia.
  - eapply stays_weaken; [|apply IH]; lia.
Qed.

Lemma parse_string_advances pos :
  (pos <= size json_str)%nat -> advances json_str pos (parse_string json_str pos).
Proof.
  intros Hpos. unfold parse_string.
  pose proof (parse_whitespace_le json_str pos) as Hq.
  pose proof (parse_whitespace_size json_str pos Hpos) as Hq'.
  set (q := parse_whitespace json_str pos) in *.
  case_if; [exact I|]. bool_hyps.
  assert (Hl : stays json_str (S q)
                 (parse_string_loop json_str (S (size json_str - S q)) (S q) []))
    by (apply parse_string_loop_stays; lia).
  destruct (parse_string_loop _ _ _ _) as [[str|e] p| |]; simpl in Hl; try easy.
  case_if; [exact I|]. bool_hyps. simpl. lia.
Qed.

(** With three units of fuel for each remaining character the recursive
    productions run to completion. *)
Lemma parse_mutual_progress fuel :
  forall pos, (pos <= size json_str)%nat ->
    ((3 * (size json_str - pos) + 2 <= fuel)%nat ->
       advances json_str pos (parse_value json_str fuel pos))
    /\ ((3 * (size json_str - pos) + 1 <= fuel)%nat ->
          advances json_str pos (parse_array json_str fuel pos))
    /\ ((3 * (size json_str - pos) + 3 <= fuel)%nat ->
          forall array, stays json_str pos (parse_array_loop json_str fuel pos array))
    /\ ((3 * (size json_str - pos) + 1 <= fuel)%nat ->
          advances json_str pos (parse_object json_str fuel pos))
    /\ ((3 * (size json_str - pos) + 3 <= fuel)%nat ->
          forall object, stays json_str pos (parse_object_loop json_str fuel pos object)).
Proof.
  induction fuel as [|fuel IH]; intros pos Hpos.
  { repeat split; intros; lia. }
  assert (Hsep : forall p, (p <= size json_str)%nat ->
            let q := parse_whitespace json_str p in
            let q := if (q <? size json_str)%nat && chr_eqb (at_ json_str q) ","%byte
                     then S q else q in
            (p <= parse_whitespace json_str q <= size json_str)%nat).
  { intros p Hp. cbv zeta.
    pose proof (parse_whitespace_le json_str p).
    pose proof (parse_whitespace_size json_str p Hp).
    set (q := parse_whitespace json_str p) in *.
    set (q' := if (q <? size json_str)%nat && chr_eqb (at_ json_str q) ","%byte
               then S q else q).
    assert (q <= q' <= size json_str)%nat.
    { subst q'. case_if; bool_hyps; lia. }
    pose proof (parse_whitespace_le json_str q').
    pose proof (parse_whitespace_size json_str q'). lia. }
  pose proof (parse_whitespace_le json_str pos) as Hq.
  pose proof (parse_whitespace_size json_str pos Hpos) as Hq'.
  split; [|split; [|split; [|split]]]; intros Hfuel.
  - (* parse_value *)
    cbn [parse_value]. set (q := parse_whitespace json_str pos) in *.
    case_if; [exact I|]. bool_hyps.
    apply (advances_weaken pos q); [assumption|].
    repeat case_if;
      auto using parse_null_advances, parse_true_advances, parse_false_advances,
                 parse_string_advances, parse_number_advances.
    + apply (IH q); lia.
    + apply (IH q); lia.
  - (* parse_array *)
    cbn [parse_array]. set (q := parse_whitespace json_str pos) in *.
    case_if; [exact I|]. bool_hyps.
    assert (Hl : stays json_str (S q) (parse_array_loop json_str fuel (S q) [])).
    { apply (IH (S q)); lia. }
    destruct (parse_array_loop _ _ _ _) as [[a|e] p| |]; simpl in Hl; try easy.
    case_if; [exact I|]. bool_hyps. simpl. lia.
  - (* parse_array_loop *)
    intros array. cbn [parse_array_loop].
    case_if; [|simpl; lia]. bool_hyps.
    assert (Hv : advances json_str pos (parse_value json_str fuel pos)).
    { apply (IH pos); lia. }
    destruct (parse_value _ _ _) as [[v|e] p| |]; simpl in Hv; try easy.
    specialize (Hsep p (proj2 Hv)). cbv zeta in Hsep.
    eapply stays_weaken; [|apply IH]; lia.
  - (* parse_object *)
    cbn [parse_object]. set (q := parse_whitespace json_str pos) in *.
    case_if; [exact I|]. bool_hyps.
    assert (Hl : stays json_str (S q) (parse_object_loop json_str fuel (S q) [])).
    { apply (IH (S q)); lia. }
    destruct (parse_object_loop _ _ _ _) as [[o|e] p| |]; simpl in Hl; try easy.
    case_if; [exact I|]. bool_hyps. simpl. lia.
  - (* parse_object_loop *)
    intros object. cbn [parse_object_loop].
    case_if; [|simpl; lia]. bool_hyps.
    pose proof (parse_string_advances pos Hpos) as Hk.
    destruct (parse_string _ _) as [[k|e] p| |]; simpl in Hk; try easy.
    destruct k; try exact I.
    pose proof (parse_whitespace_le json_str p) as Hc.
    pose proof (parse_whitespace_size json_str p (proj2 Hk)) as Hc'.
    set (c := parse_whitespace json_str p) in *.
    case_if; [exact I|]. bool_hyps.
    assert (Hv : advances json_str (S c) (parse_value json_str fuel (S c))).
    { apply (IH (S c)); lia. }
    destruct (parse_value _ _ _) as [[v|e] p'| |]; simpl in Hv; try easy.
    specialize (Hsep p' (proj2 Hv)). cbv zeta in Hsep.
    eapply stays_weaken; [|apply IH]; lia.
Qed.
End Progress.

(** ** More fuel changes no outcome *)

Section Fuel.
Variable json_str : std_string.
Implicit Types (pos fuel : nat).

Lemma lifts_refl {A : Type} (o : outcome A) : lifts o o.
Proof. now right. Qed.

Lemma lifts_trans {A : Type} (o1 o2 o3 : outcome A) :
  lifts o1 o2 -> lifts o2 o3 -> lifts o1 o3.
Proof.
  intros [H1|H1] [H2|H2]; subst; unfold lifts; auto.
Qed.

Ltac lift_call H :=
  let E := fresh "E" in
  destruct H as [E|E]; [left; now rewrite E | rewrite E].

Lemma parse_mutual_lifts fuel :
  forall pos,
    lifts (parse_value json_str fuel pos) (parse_value json_str (S fuel) pos)
    /\ lifts (parse_array json_str fuel pos) (parse_array json_str (S fuel) pos)
    /\ (forall array, lifts (parse_array_loop json_str fuel pos array)
                            (parse_array_loop json_str (S fuel) pos array))
    /\ lifts (parse_object json_str fuel pos) (parse_object json_str (S fuel) pos)
    /\ (forall object, lifts (parse_object_loop json_str fuel pos object)
                             (parse_object_loop json_str (S fuel) pos object)).
Proof.
  induction fuel as [|fuel IH]; intros pos.
  { repeat split; intros; now left. }
  split; [|split; [|split; [|split]]].
  - cbn [parse_value]. case_if; [apply lifts_refl|].
    repeat case_if; try apply lifts_refl; apply IH.
  - cbn [parse_array]. case_if; [apply lifts_refl|].
    lift_call (proj1 (proj2 (proj2 (IH (S (parse_whitespace json_str pos))))) []).
    apply lifts_refl.
  - intros array. cbn [parse_array_loop]. case_if; [|apply lifts_refl].
    lift_call (proj1 (IH pos)).
    destruct (parse_value json_str fuel pos) as [[v|e] p| |]; try apply lifts_refl.
    apply IH.
  - cbn [parse_object]. case_if; [apply lifts_refl|].
    lift_call (proj2 (proj2 (proj2 (proj2 (IH (S (parse_whitespace json_str pos)))))) []).
    apply lifts_refl.
  - intros object. cbn [parse_object_loop]. case_if; [|apply lifts_refl].
    destruct (parse_string json_str pos) as [[k|e] p| |]; try apply lifts_refl.
    destruct k; try apply lifts_refl.
    case_if; [apply lifts_refl|].
    lift_call (proj1 (IH (S (parse_whitespace json_str p)))).
    destruct (parse_value json_str fuel _) as [[v|e] p'| |]; try apply lifts_refl.
    apply IH.
Qed.

Lemma parse_mutual_mono fuel fuel' :
  (fuel <= fuel')%nat ->
  forall pos,
    lifts (parse_value json_str fuel pos) (parse_value json_str fuel' pos)
    /\ lifts (parse_array json_str fuel pos) (parse_array json_str fuel' pos)
    /\ (forall array, lifts (parse_array_loop json_str fuel pos array)
                            (parse_array_loop json_str fuel' pos array))
    /\ lifts (parse_object json_str fuel pos) (parse_object json_str fuel' pos)
    /\ (forall object, lifts (parse_object_loop json_str fuel pos object)
                             (parse_object_loop json_str fuel' pos object)).
Proof.
  induction 1 as [|fuel' _ IH]; intros pos.
  { repeat split; intros; apply lifts_refl. }
  destruct (IH pos) as (I1 & I2 & I3 & I4 & I5).
  destruct (parse_mutual_lifts fuel' pos) as (J1 & J2 & J3 & J4 & J5).
  repeat split; intros; eapply lifts_trans; eauto.
Qed.

Lemma parse_value_mono fuel fuel' pos :
  (fuel <= fuel')%nat ->
  lifts (parse_value json_str fuel pos) (parse_value json_str fuel' pos).
Proof. intros H. now apply parse_mutual_mono. Qed.

Lemma lifts_Done {A : Type} (o o' : outcome A) a pos :
  lifts o o' -> o = Done a pos -> o' = Done a pos.
Proof. intros [H|H] E; congruence. Qed.

(** With the fuel of [parse], [parse_value] runs to completion from
    every position. *)
Lemma parse_value_enough pos :
  (pos <= size json_str)%nat ->
  parse_value json_str (parse_fuel json_str) pos <> OutOfFuel.
Proof.
  intros Hpos E.
  assert (H : advances json_str pos (parse_value json_str (parse_fuel json_str) pos)).
  { apply parse_mutual_progress; [assumption|]. unfold parse_fuel, size. lia. }
  now rewrite E in H.
Qed.

(** An outcome reached with any amount of fuel is the outcome reached
    with the fuel of [parse]. *)
Lemma parse_value_any_fuel fuel pos (o : outcome (expected Value JsonError)) :
  (pos <= size json_str)%nat ->
  parse_value json_str fuel pos = o -> o <> OutOfFuel ->
  parse_value json_str (parse_fuel json_str) pos = o.
Proof.
  intros Hpos Ho Hne.
  destruct (Nat.le_ge_cases fuel (parse_fuel json_str)) as [Hle|Hle].
  - destruct (parse_value_mono _ _ pos Hle) as [E|E]; congruence.
  - destruct (parse_value_mono _ _ pos Hle) as [E|E].
    + now apply parse_value_enough in E.
    + congruence.
Qed.
End Fuel.

(** [parse] returns or throws for every input: the fuel of the embedding
    never runs out. *)
Lemma parse_fuel_enough (json_str : std_string) : parse json_str <> Diverges.
Proof.
  unfold parse, JsonParser_parse.
  pose proof (parse_value_enough json_str (parse_whitespace json_str 0)
                (parse_whitespace_size json_str 0 (Nat.le_0_l _))) as H.
  destruct (parse_value _ _ _) as [[v|e] p| |]; try easy.
  now case_if.
Qed.

Lemma parse_any_fuel (json_str : std_string) fuel r pos :
  JsonParser_parse json_str fuel = Done r pos -> parse json_str = Returns r.
Proof.
  unfold parse, JsonParser_parse. intros H.
  assert (Hq := parse_whitespace_size json_str 0 (Nat.le_0_l _)).
  rewrite (parse_value_any_fuel json_str fuel _ _ Hq eq_refl).
  - destruct (parse_value json_str fuel _) as [[v|e] p| |]; try easy.
    + revert H. case_if; now intros [= -> _].
    + now injection H as -> _.
  - intros E. now rewrite E in H.
Qed.

(** ** Strings read in context *)

Section InContext.
Variable json_str : std_string.
Implicit Types (pos fuel : nat) (pre post body str : std_string).

Lemma at_app pre c post :
  json_str = pre ++ c :: post -> at_ json_str (length pre) = c.
Proof.
  intros ->. apply at_lookup. rewrite lookup_app_r by lia.
  now rewrite Nat.sub_diag.
Qed.

Lemma size_app pre post : json_str = pre ++ post ->
  size json_str = (length pre + length post)%nat.
Proof. intros ->. unfold size. now rewrite length_app. Qed.

Lemma parse_string_loop_raw body : forall pre post str fuel,
  json_str = pre ++ body ++ x22 :: post ->
  List.Forall raw_char body ->
  (length body < fuel)%nat ->
  parse_string_loop json_str fuel (length pre) str
  = Done (value (str ++ body)) (length pre + length body).
Proof.
  induction body as [|c body IH]; intros pre post str fuel Hs Hraw Hfuel;
    destruct fuel as [|fuel]; try (simpl in Hfuel; lia); cbn [parse_string_loop].
  - simpl in Hs. rewrite (at_app pre x22 post Hs). simpl.
    rewrite andb_false_r, app_nil_r. f_equal. lia.
  - simpl in Hs. rewrite (at_app pre c _ Hs).
    apply Forall_inv in Hraw as Hc. apply Forall_inv_tail in Hraw.
    destruct Hc as [Hq Hb].
    apply chr_eqb_false in Hq, Hb. rewrite Hq, Hb. simpl negb.
    rewrite (size_app pre _ Hs). simpl length.
    replace (length pre <? length pre + S _)%nat with true
      by (symmetry; apply Nat.ltb_lt; lia).
    simpl andb. cbv iota.
    replace (S (length pre)) with (length (pre ++ [c]))
      by (rewrite length_app; simpl; lia).
    rewrite (IH (pre ++ [c]) post (str ++ [c]) fuel).
    + rewrite <- app_assoc. simpl. f_equal.
      rewrite length_app. simpl. lia.
    + rewrite <- app_assoc. exact Hs.
    + exact Hraw.
    + simpl in Hfuel. lia.
Qed.

Lemma isspace_quote : isspace x22 = false.
Proof. reflexivity. Qed.


(** [parse_value] on a quote is [parse_string]. *)
Lemma parse_value_on_quote fuel pos :
  (pos < size json_str)%nat -> at_ json_str pos = x22 ->
  parse_value json_str (S fuel) pos = parse_string json_str pos.
Proof.
  intros Hpos Hat. cbn [parse_value].
  rewrite parse_whitespace_here; [|assumption|rewrite Hat; apply isspace_quote].
  replace (pos =? size json_str)%nat with false
    by (symmetry; apply Nat.eqb_neq; lia).
  rewrite Hat. reflexivity.
Qed.

(** One trip of the string loop on a character that is neither the quote
    nor the backslash. *)
Lemma parse_string_loop_step fuel pos str :
  (pos < size json_str)%nat -> raw_char (at_ json_str pos) ->
  parse_string_loop json_str (S fuel) pos str
  = parse_string_loop json_str fuel (S pos) (str ++ [at_ json_str pos]).
Proof.
  intros Hpos [Hq Hb]. cbn [parse_string_loop].
  apply chr_eqb_false in Hq, Hb. rewrite Hq, Hb.
  replace (pos <? size json_str)%nat with true by (symmetry; now apply Nat.ltb_lt).
  reflexivity.
Qed.
End InContext.



(** ** Raw control characters inside strings *)



(** ** Integers and floats *)

Section NumberFacts.
Variable json_str : std_string.
Implicit Types (pos : nat) (p : char -> bool).

Lemma skip_while_all p (rest : std_string) pos :
  rest = drop pos json_str ->
  forall i, (pos <= i < skip_while p rest pos)%nat -> p (at_ json_str i) = true.
Proof.
  revert pos. induction rest as [|c r IH]; intros pos Hrest i Hi; simpl in Hi; [lia|].
  assert (Hpos : (pos < size json_str)%nat).
  { destruct (Nat.lt_ge_cases pos (size json_str)) as [H|H]; [assumption|].
    rewrite (drop_end json_str pos H) in Hrest. discriminate. }
  rewrite (drop_at json_str pos Hpos) in Hrest. injection Hrest as -> ->.
  destruct (p (at_ json_str pos)) eqn:E; [|lia].
  destruct (Nat.eq_dec i pos) as [->|Hne]; [assumption|].
  apply (IH (S pos) eq_refl). lia.
Qed.

Lemma skip_digits_all pos i :
  (pos <= i < skip_digits json_str pos)%nat -> isdigit (at_ json_str i) = true.
Proof. apply skip_while_all. reflexivity. Qed.

Lemma substr_Forall (P : char -> Prop) n : forall q,
  (q + n <= size json_str)%nat ->
  (forall i, (q <= i < q + n)%nat -> P (at_ json_str i)) ->
  List.Forall P (substr json_str q n).
Proof.
  unfold substr. induction n as [|n IH]; intros q Hq HP.
  - rewrite take_0. constructor.
  - rewrite (drop_at json_str q) by lia. simpl. constructor.
    + apply HP. lia.
    + apply IH; [lia|]. intros i Hi. apply HP. lia.
Qed.

Lemma substr_Exists (P : char -> Prop) n : forall q i,
  (q + n <= size json_str)%nat -> (q <= i < q + n)%nat -> P (at_ json_str i) ->
  List.Exists P (substr json_str q n).
Proof.
  unfold substr. induction n as [|n IH]; intros q i Hq Hi HP; [lia|].
  rewrite (drop_at json_str q) by lia. simpl.
  destruct (Nat.eq_dec i q) as [->|Hne].
  - now apply Exists_cons_hd.
  - apply Exists_cons_tl. apply (IH (S q) i); [lia|lia|assumption].
Qed.
End NumberFacts.

Lemma isdigit_not_mark (c : char) : isdigit c = true -> float_mark c = false.
Proof.
  unfold isdigit, float_mark. intros H.
  apply andb_true_iff in H as [H1 H2]. apply Z.leb_le in H1, H2.
  repeat (apply orb_false_iff; split); apply chr_eqb_false; intros ->;
    vm_compute in H1, H2; congruence.
Qed.

Lemma stoll_range (str : std_string) n :
  stoll str = inl n -> LLONG_MIN <= n <= LLONG_MAX.
Proof.
  unfold stoll. destruct (read_sign _) as [neg s0].
  destruct (take_while isdigit s0) as [|d ds]; [discriminate|].
  case_if; [|discriminate]. intros [= <-].
  apply andb_true_iff in E as [E1 E2]. apply Z.leb_le in E1, E2. lia.
Qed.

Lemma catch_conversion_value {A : Type} (r : A + exception)
    (k : A -> outcome (expected Value JsonError)) pos v pos' :
  catch_conversion r k pos = Done (value v) pos' ->
  exists a, r = inl a /\ k a = Done (value v) pos'.
Proof.
  destruct r as [a|[what| |]]; simpl; try discriminate. eauto.
Qed.

(** What [parse_number] returns follows the shape of the lexeme it
    consumed. *)
Lemma parse_number_classifies (json_str : std_string) (pos : nat) v pos' :
  parse_number json_str pos = Done (value v) pos' ->
  let q := parse_whitespace json_str pos in
  let lexeme := substr json_str q (pos' - q) in
  (exists n, v = Integer n /\ LLONG_MIN <= n <= LLONG_MAX
             /\ stoll lexeme = inl n
             /\ List.Forall (fun c => float_mark c = false) lexeme)
  \/ (exists f, v = Float f /\ stod lexeme = inl f
                /\ List.Exists (fun c => float_mark c = true) lexeme).
Proof.
  unfold parse_number.
  destruct (Nat.le_gt_cases pos (size json_str)) as [Hpos|Hpos].
  2:{ rewrite parse_whitespace_at_end by lia.
      assert (Hne : (pos =? size json_str)%nat = false) by (apply Nat.eqb_neq; lia).
      assert (Hat : at_ json_str pos = x00).
      { unfold at_. apply nth_overflow. unfold size in Hpos. lia. }
      cbv zeta. rewrite Hne, Hat. change (chr_eqb x00 "-"%byte) with false.
      cbv iota. rewrite Hne, Hat. discriminate. }
  pose proof (parse_whitespace_le json_str pos) as Hq.
  pose proof (parse_whitespace_size json_str pos Hpos) as Hq'.
  set (q := parse_whitespace json_str pos) in *.
  destruct (q =? size json_str)%nat eqn:E0; [discriminate|].
  set (e0 := if chr_eqb (at_ json_str q) "-"%byte then S q else q).
  assert (He0 : (q <= e0 <= S q)%nat
                /\ forall i, (q <= i < e0)%nat -> float_mark (at_ json_str i) = false).
  { subst e0. destruct (chr_eqb _ _) eqn:Em; split; try lia.
    intros i Hi. assert (i = q) as -> by lia.
    apply chr_eqb_true in Em. now rewrite Em. }
  clearbody e0. destruct He0 as [He0 Hm0].
  destruct (e0 =? size json_str)%nat eqn:E1; [discriminate|]. bool_hyps.
  set (ip := if chr_eqb (at_ json_str e0) "0"%byte then Some (S e0)
             else if negb (isdigit (at_ json_str e0)) then None
             else Some (skip_digits json_str e0)).
  assert (Hip : match ip with
                | Some e1 => (e0 < e1 <= size json_str)%nat
                    /\ forall i, (e0 <= i < e1)%nat -> isdigit (at_ json_str i) = true
                | None => True
                end).
  { subst ip. destruct (chr_eqb _ _) eqn:Ez.
    - split; [lia|]. intros i Hi. assert (i = e0) as -> by lia.
      apply chr_eqb_true in Ez. now rewrite Ez.
    - destruct (isdigit (at_ json_str e0)) eqn:Ed; simpl; [|exact I].
      assert (Hlt : (e0 < size json_str)%nat) by lia.
      pose proof (skip_digits_gt json_str e0 Hlt Ed).
      pose proof (skip_digits_size json_str e0).
      split; [lia|]. apply skip_digits_all. }
  clearbody ip. destruct ip as [e1|]; [|discriminate]. cbn beta iota in Hip.
  destruct Hip as [He1 Hd1].
  case_if.
  { (* integer *)
    intros H. apply catch_conversion_value in H as (n & Hn & [= <- <-]).
    cbv zeta. left. exists n. repeat split; try assumption.
    - now apply stoll_range in Hn.
    - now apply stoll_range in Hn.
    - apply substr_Forall; [lia|]. intros i Hi.
      destruct (Nat.lt_ge_cases i e0) as [Hlt|Hge].
      + apply Hm0. lia.
      + apply isdigit_not_mark, Hd1. lia. }
  assert (Hmark : (e1 < size json_str)%nat /\ float_mark (at_ json_str e1) = true).
  { apply orb_false_iff in E as [Ea Eb]. bool_hyps. split; [lia|].
    unfold float_mark.
    destruct (chr_eqb (at_ json_str e1) "."%byte);
      destruct (chr_eqb (at_ json_str e1) "e"%byte);
      destruct (chr_eqb (at_ json_str e1) "E"%byte); simpl in *; congruence. }
  destruct Hmark as [He1lt Hmark]. clear E.
  set (fr := if (e1 <? size json_str)%nat && chr_eqb (at_ json_str e1) "."%byte
             then (if (S e1 =? size json_str)%nat || negb (isdigit (at_ json_str (S e1)))
                   then None else Some (skip_digits json_str (S e1)))
             else Some e1).
  assert (Hfr : match fr with
                | Some e2 => (e1 <= e2 <= size json_str)%nat
                    /\ (e2 = e1 -> chr_eqb (at_ json_str e1) "."%byte = false)
                | None => True
                end).
  { subst fr. case_if.
    - case_if; [exact I|]. bool_hyps.
      pose proof (skip_digits_le json_str (S e1)).
      pose proof (skip_digits_size json_str (S e1)). split; lia.
    - split; [lia|]. intros _.
      apply andb_false_iff in E as [E|E]; [bool_hyps; lia|assumption]. }
  clearbody fr. destruct fr as [e2|]; [|discriminate]. cbn beta iota in Hfr.
  destruct Hfr as [He2 Hdot].
  set (ex := if (e2 <? size json_str)%nat
                && (chr_eqb (at_ json_str e2) "e"%byte || chr_eqb (at_ json_str e2) "E"%byte)
             then (if (S e2 =? size json_str)%nat
                      || (negb (chr_eqb (at_ json_str (S e2)) "+"%byte)
                          && negb (chr_eqb (at_ json_str (S e2)) "-"%byte)
                          && negb (isdigit (at_ json_str (S e2))))
                   then None else Some (skip_digits json_str (S (S e2))))
             else Some e2).
  assert (Hex : match ex with
                | Some e3 => (e2 <= e3 <= size json_str)%nat /\ (e1 < e3)%nat
                | None => True
                end).
  { subst ex. case_if.
    - case_if; [exact I|].
      match goal with H : _ || _ = false |- _ => apply orb_false_iff in H as [H _] end.
      bool_hyps.
      pose proof (skip_digits_le json_str (S (S e2))).
      pose proof (skip_digits_size json_str (S (S e2))). split; lia.
    - split; [lia|].
      destruct (Nat.eq_dec e2 e1) as [->|Hne]; [|lia]. exfalso.
      specialize (Hdot eq_refl). unfold float_mark in Hmark. rewrite Hdot in Hmark.
      simpl in Hmark. rewrite Hmark in E.
      replace (e1 <? size json_str)%nat with true in E
        by (symmetry; now apply Nat.ltb_lt).
      discriminate. }
  clearbody ex. destruct ex as [e3|]; [|discriminate]. cbn beta iota in Hex.
  destruct Hex as [He3 Hlt3].
  intros H. apply catch_conversion_value in H as (f & Hf & [= <- <-]).
  cbv zeta. right. exists f. repeat split; try assumption.
  apply (substr_Exists json_str _ _ q e1); [lia|lia|assumption].
Qed.

(** ** The container loops and the sequences they read *)

Section Containers.
Variable json_str : std_string.
Implicit Types (pos fuel : nat).

Lemma loop_cond_true pos (close : char) :
  (pos < size json_str)%nat -> at_ json_str pos <> close ->
  (pos <? size json_str)%nat && negb (chr_eqb (at_ json_str pos) close) = true.
Proof.
  intros H Hne. apply andb_true_iff. split; [now apply Nat.ltb_lt|].
  apply negb_true_iff. now apply chr_eqb_false.
Qed.

Lemma loop_cond_false pos (close : char) :
  ((pos < size json_str)%nat -> at_ json_str pos = close) ->
  (pos <? size json_str)%nat && negb (chr_eqb (at_ json_str pos) close) = false.
Proof.
  intros H. destruct (pos <? size json_str)%nat eqn:E; [|reflexivity].
  apply Nat.ltb_lt in E. rewrite (H E), chr_eqb_refl. reflexivity.
Qed.

Lemma loop_cond_exit pos (close : char) :
  (pos <? size json_str)%nat && negb (chr_eqb (at_ json_str pos) close) = false ->
  (pos < size json_str)%nat -> at_ json_str pos = close.
Proof.
  intros H Hlt. apply andb_false_iff in H as [H|H].
  - apply Nat.ltb_ge in H. lia.
  - apply negb_false_iff in H. now apply chr_eqb_true.
Qed.

Lemma array_items_loop pos vs pos' :
  array_items json_str pos vs pos' ->
  ((pos' < size json_str)%nat -> at_ json_str pos' = "]"%byte) ->
  forall array, exists fuel,
    parse_array_loop json_str fuel pos array = Done (value (array ++ vs)) pos'.
Proof.
  induction 1 as [pos|pos fuel v pos1 vs pos' Hlt Hne Hv _ IH]; intros Hexit array.
  - exists 1%nat. cbn [parse_array_loop].
    now rewrite (loop_cond_false pos _ Hexit), app_nil_r.
  - destruct (IH Hexit (array ++ [v])) as [fuel2 Hloop].
    exists (S (Nat.max fuel fuel2)). cbn [parse_array_loop].
    rewrite (loop_cond_true pos _ Hlt Hne).
    rewrite (lifts_Done _ _ _ _
               (parse_value_mono json_str fuel (Nat.max fuel fuel2) pos (Nat.le_max_l _ _)) Hv).
    cbv beta iota zeta. fold (skip_separator json_str pos1).
    rewrite (lifts_Done _ _ _ _
               (proj1 (proj2 (proj2 (parse_mutual_mono json_str fuel2 (Nat.max fuel fuel2)
                                       (Nat.le_max_r _ _) _))) _) Hloop).
    now rewrite <- app_assoc.
Qed.

Lemma array_loop_items fuel : forall pos array result pos',
  parse_array_loop json_str fuel pos array = Done (value result) pos' ->
  exists vs, result = array ++ vs
             /\ array_items json_str pos vs pos'
             /\ ((pos' < size json_str)%nat -> at_ json_str pos' = "]"%byte).
Proof.
  induction fuel as [|fuel IH]; intros pos array result pos'; [discriminate|].
  cbn [parse_array_loop]. case_if.
  - destruct (parse_value json_str fuel pos) as [[v|e] p| |] eqn:Hv; try discriminate.
    cbv beta iota zeta. fold (skip_separator json_str p). intros Hloop.
    apply IH in Hloop as (vs & -> & Hitems & Hexit).
    exists (v :: vs). rewrite <- app_assoc. split; [reflexivity|]. split; [|assumption].
    apply andb_true_iff in E as [E1 E2]. bool_hyps.
    eapply items_more; eauto. now apply chr_eqb_false.
  - intros [= <- <-]. exists []. rewrite app_nil_r. split; [reflexivity|].
    split; [constructor|]. now apply loop_cond_exit.
Qed.

Lemma object_entries_loop pos kvs pos' :
  object_entries json_str pos kvs pos' ->
  ((pos' < size json_str)%nat -> at_ json_str pos' = "}"%byte) ->
  forall object, exists fuel,
    parse_object_loop json_str fuel pos object
    = Done (value (fold_left (fun m kv => map_emplace (fst kv) (snd kv) m) kvs object)) pos'.
Proof.
  induction 1 as [pos|pos key pos1 fuel v pos2 kvs pos' Hlt Hne Hk Hc Hcolon Hv _ IH];
    intros Hexit object.
  - exists 1%nat. cbn [parse_object_loop].
    now rewrite (loop_cond_false pos _ Hexit).
  - destruct (IH Hexit (map_emplace key v object)) as [fuel2 Hloop].
    exists (S (Nat.max fuel fuel2)). cbn [parse_object_loop].
    rewrite (loop_cond_true pos _ Hlt Hne), Hk. cbv beta iota zeta.
    replace (parse_whitespace json_str pos1 =? size json_str)%nat with false
      by (symmetry; apply Nat.eqb_neq; lia).
    rewrite Hcolon. change (chr_eqb ":"%byte ":"%byte) with true. cbv beta iota.
    change (false || negb true) with false. cbv iota.
    rewrite (lifts_Done _ _ _ _
               (parse_value_mono json_str fuel (Nat.max fuel fuel2) _ (Nat.le_max_l _ _)) Hv).
    cbv beta iota zeta. fold (skip_separator json_str pos2).
    exact (lifts_Done _ _ _ _
             (proj2 (proj2 (proj2 (proj2 (parse_mutual_mono json_str fuel2 (Nat.max fuel fuel2)
                                            (Nat.le_max_r _ _) _)))) _) Hloop).
Qed.

Lemma parse_string_value pos v pos' :
  parse_string json_str pos = Done (value v) pos' -> exists str, v = String str.
Proof.
  unfold parse_string. case_if; [discriminate|].
  destruct (parse_string_loop _ _ _ _) as [[str|e] p| |]; try discriminate.
  case_if; [discriminate|]. intros [= <- _]. now exists str.
Qed.

Lemma object_loop_entries fuel : forall pos object result pos',
  parse_object_loop json_str fuel pos object = Done (value result) pos' ->
  exists kvs,
    result = fold_left (fun m kv => map_emplace (fst kv) (snd kv) m) kvs object
    /\ object_entries json_str pos kvs pos'
    /\ ((pos' < size json_str)%nat -> at_ json_str pos' = "}"%byte).
Proof.
  induction fuel as [|fuel IH]; intros pos object result pos'; [discriminate|].
  cbn [parse_object_loop]. case_if.
  - destruct (parse_string json_str pos) as [[k|e] p| |] eqn:Hk; try discriminate.
    destruct (parse_string_value _ _ _ Hk) as [key ->].
    cbv beta iota zeta. case_if; [discriminate|].
    destruct (parse_value json_str fuel _) as [[v|e] p'| |] eqn:Hv; try discriminate.
    cbv beta iota zeta. fold (skip_separator json_str p'). intros Hloop.
    apply IH in Hloop as (kvs & -> & Hentries & Hexit).
    exists ((key, v) :: kvs). split; [reflexivity|]. split; [|assumption].
    apply andb_true_iff in E as [E1 E2]. apply orb_false_iff in E0 as [E3 E4].
    bool_hyps.
    assert (Hp : (p <= size json_str)%nat).
    { pose proof (parse_string_advances json_str pos) as Ha.
      rewrite Hk in Ha. simpl in Ha. lia. }
    pose proof (parse_whitespace_size json_str p Hp).
    eapply entries_more; eauto.
    + now apply chr_eqb_false.
    + lia.
    + now apply chr_eqb_true.
  - intros [= <- <-]. exists []. split; [reflexivity|].
    split; [constructor|]. now apply loop_cond_exit.
Qed.
End Containers.

(** ** The array and object productions *)

Section Productions.
Variable json_str : std_string.
Implicit Types (pos fuel : nat).

Lemma parse_null_value pos v pos' :
  parse_null json_str pos = Done (value v) pos' -> v = Null.
Proof. unfold parse_null. case_if; now intros [= <- _]. Qed.

Lemma parse_true_value pos v pos' :
  parse_true json_str pos = Done (value v) pos' -> v = Boolean true.
Proof. unfold parse_true. case_if; now intros [= <- _]. Qed.

Lemma parse_false_value pos v pos' :
  parse_false json_str pos = Done (value v) pos' -> v = Boolean false.
Proof. unfold parse_false. case_if; now intros [= <- _]. Qed.

Lemma parse_number_value pos v pos' :
  parse_number json_str pos = Done (value v) pos' ->
  (exists n, v = Integer n) \/ (exists f, v = Float f).
Proof.
  intros H. destruct (parse_number_classifies _ _ _ _ H) as [(n & -> & _)|(f & -> & _)]; eauto.
Qed.

Lemma parse_array_value fuel pos v pos' :
  parse_array json_str fuel pos = Done (value v) pos' -> exists a, v = Array a.
Proof.
  destruct fuel as [|fuel]; [discriminate|]. cbn [parse_array].
  case_if; [discriminate|].
  destruct (parse_array_loop _ _ _ _) as [[a|e] p| |]; try discriminate.
  case_if; [discriminate|]. intros [= <- _]. now exists a.
Qed.

Lemma parse_object_value fuel pos v pos' :
  parse_object json_str fuel pos = Done (value v) pos' -> exists o, v = Object o.
Proof.
  destruct fuel as [|fuel]; [discriminate|]. cbn [parse_object].
  case_if; [discriminate|].
  destruct (parse_object_loop _ _ _ _) as [[o|e] p| |]; try discriminate.
  case_if; [discriminate|]. intros [= <- _]. now exists o.
Qed.

(** A value of [parse_value] comes from the production its first
    character selects. *)
Lemma parse_value_inv fuel pos v pos' :
  parse_value json_str fuel pos = Done (value v) pos' ->
  let q := parse_whitespace json_str pos in
  (q < size json_str)%nat
  /\ match v with
     | Array _ => at_ json_str q = "["%byte
                  /\ exists fuel', parse_array json_str fuel' q = Done (value v) pos'
     | Object _ => at_ json_str q = "{"%byte
                   /\ exists fuel', parse_object json_str fuel' q = Done (value v) pos'
     | String _ => at_ json_str q = x22
     | Null => at_ json_str q = "n"%byte
     | Boolean b => at_ json_str q = (if b then "t"%byte else "f"%byte)
     | Integer _ | Float _ => parse_number json_str q = Done (value v) pos'
     end.
Proof.
  destruct fuel as [|fuel]; [discriminate|]. cbn [parse_value].
  destruct (Nat.le_gt_cases pos (size json_str)) as [Hpos|Hpos].
  2:{ rewrite parse_whitespace_at_end by lia.
      assert (Hat : at_ json_str pos = x00).
      { unfold at_. apply nth_overflow. unfold size in Hpos. lia. }
      replace (pos =? size json_str)%nat with false by (symmetry; apply Nat.eqb_neq; lia).
      rewrite Hat. cbn -[parse_number]. intros H. exfalso. revert H.
      unfold parse_number. rewrite parse_whitespace_at_end by lia.
      replace (pos =? size json_str)%nat with false by (symmetry; apply Nat.eqb_neq; lia).
      cbv zeta. rewrite Hat. change (chr_eqb x00 "-"%byte) with false. cbv iota.
      replace (pos =? size json_str)%nat with false by (symmetry; apply Nat.eqb_neq; lia).
      rewrite Hat. discriminate. }
  pose proof (parse_whitespace_size json_str pos Hpos) as Hq.
  cbv zeta. set (q := parse_whitespace json_str pos) in *.
  case_if; [discriminate|]. bool_hyps.
  intros Hres. split; [lia|]. revert Hres.
  repeat case_if; intros Hres;
    repeat match goal with
           | E : chr_eqb _ _ = true |- _ => apply chr_eqb_true in E
           end.
  - now rewrite (parse_null_value _ _ _ Hres).
  - now rewrite (parse_true_value _ _ _ Hres).
  - now rewrite (parse_false_value _ _ _ Hres).
  - now destruct (parse_string_value _ _ _ _ Hres) as [str ->].
  - destruct (parse_array_value _ _ _ _ Hres) as [a ->]. eauto.
  - destruct (parse_object_value _ _ _ _ Hres) as [o ->]. eauto.
  - destruct (parse_number_value _ _ _ Hres) as [[n ->]|[f ->]]; assumption.
Qed.

Lemma parse_value_on_bracket fuel pos :
  let q := parse_whitespace json_str pos in
  (q < size json_str)%nat -> at_ json_str q = "["%byte ->
  parse_value json_str (S fuel) pos = parse_array json_str fuel q.
Proof.
  intros q Hq Hat. cbn [parse_value]. fold q.
  replace (q =? size json_str)%nat with false by (symmetry; apply Nat.eqb_neq; lia).
  rewrite Hat. reflexivity.
Qed.

Lemma parse_value_on_brace fuel pos :
  let q := parse_whitespace json_str pos in
  (q < size json_str)%nat -> at_ json_str q = "{"%byte ->
  parse_value json_str (S fuel) pos = parse_object json_str fuel q.
Proof.
  intros q Hq Hat. cbn [parse_value]. fold q.
  replace (q =? size json_str)%nat with false by (symmetry; apply Nat.eqb_neq; lia).
  rewrite Hat. reflexivity.
Qed.

Lemma parse_array_unfold fuel pos :
  let q := parse_whitespace json_str pos in
  (q < size json_str)%nat -> at_ json_str q = "["%byte ->
  parse_array json_str (S fuel) q
  = match parse_array_loop json_str fuel (S q) [] with
    | Done (value array) pos =>
        if (pos =? size json_str)%nat || negb (chr_eqb (at_ json_str pos) "]"%byte)
        then Done (unexpected parse_invalid_value) pos
        else Done (value (Array array)) (S pos)
    | Done (unexpected e) pos => Done (unexpected e) pos
    | Raise x => Raise x
    | OutOfFuel => OutOfFuel
    end.
Proof.
  intros q Hq Hat. cbn [parse_array]. unfold q.
  rewrite parse_whitespace_idem. fold q.
  replace (q =? size json_str)%nat with false by (symmetry; apply Nat.eqb_neq; lia).
  rewrite Hat. reflexivity.
Qed.

Lemma parse_object_unfold fuel pos :
  let q := parse_whitespace json_str pos in
  (q < size json_str)%nat -> at_ json_str q = "{"%byte ->
  parse_object json_str (S fuel) q
  = match parse_object_loop json_str fuel (S q) [] with
    | Done (value object) pos =>
        if (pos =? size json_str)%nat || negb (chr_eqb (at_ json_str pos) "}"%byte)
        then Done (unexpected parse_invalid_value) pos
        else Done (value (Object object)) (S pos)
    | Done (unexpected e) pos => Done (unexpected e) pos
    | Raise x => Raise x
    | OutOfFuel => OutOfFuel
    end.
Proof.
  intros q Hq Hat. cbn [parse_object]. unfold q.
  rewrite parse_whitespace_idem. fold q.
  replace (q =? size json_str)%nat with false by (symmetry; apply Nat.eqb_neq; lia).
  rewrite Hat. reflexivity.
Qed.

Lemma ws_in_bounds pos :
  (parse_whitespace json_str pos < size json_str)%nat -> (pos <= size json_str)%nat.
Proof. pose proof (parse_whitespace_le json_str pos). lia. Qed.

(** The array production, forwards: a bracket, a sequence of items and
    the closing bracket give the [Array] of the items; a sequence of items
    that ends with the input gives [parse_invalid_value]. *)
Lemma parse_value_array pos vs pos' :
  let q := parse_whitespace json_str pos in
  (q < size json_str)%nat -> at_ json_str q = "["%byte ->
  array_items json_str (S q) vs pos' ->
  ((pos' < size json_str)%nat -> at_ json_str pos' = "]"%byte ->
     parse_value json_str (parse_fuel json_str) pos = Done (value (Array vs)) (S pos'))
  /\ (pos' = size json_str ->
        parse_value json_str (parse_fuel json_str) pos
        = Done (unexpected parse_invalid_value) pos').
Proof.
  intros q Hq Hat Hitems. split.
  - intros Hlt Hclose.
    destruct (array_items_loop json_str _ _ _ Hitems (fun _ => Hclose) []) as [fuel Hloop].
    apply (parse_value_any_fuel json_str (S (S fuel))); [now apply ws_in_bounds| |discriminate].
    rewrite parse_value_on_bracket, parse_array_unfold by assumption. fold q.
    rewrite Hloop. simpl app.
    replace (pos' =? size json_str)%nat with false by (symmetry; apply Nat.eqb_neq; lia).
    now rewrite Hclose.
  - intros Hend.
    assert (Hexit : (pos' < size json_str)%nat -> at_ json_str pos' = "]"%byte) by lia.
    destruct (array_items_loop json_str _ _ _ Hitems Hexit []) as [fuel Hloop].
    apply (parse_value_any_fuel json_str (S (S fuel))); [now apply ws_in_bounds| |discriminate].
    rewrite parse_value_on_bracket, parse_array_unfold by assumption. fold q.
    rewrite Hloop. simpl app.
    now replace (pos' =? size json_str)%nat with true by (symmetry; now apply Nat.eqb_eq).
Qed.

(** The array production, backwards: an [Array] is returned only for a
    bracket, a sequence of items and the closing bracket. *)
Lemma parse_value_array_inv fuel pos vs pos'' :
  parse_value json_str fuel pos = Done (value (Array vs)) pos'' ->
  let q := parse_whitespace json_str pos in
  (q < size json_str)%nat /\ at_ json_str q = "["%byte
  /\ exists pos', array_items json_str (S q) vs pos'
                  /\ (pos' < size json_str)%nat /\ at_ json_str pos' = "]"%byte
                  /\ pos'' = S pos'.
Proof.
  intros H. apply parse_value_inv in H as (Hq & Hat & fuel' & H).
  cbv zeta. split; [assumption|]. split; [assumption|].
  destruct fuel' as [|fuel']; [discriminate|].
  rewrite parse_array_unfold in H by assumption.
  destruct (parse_array_loop _ _ _ _) as [[a|e] p| |] eqn:Hloop; try discriminate.
  revert H. case_if; [discriminate|]. intros [= -> <-].
  apply array_loop_items in Hloop as (vs' & [= <-] & Hitems & _).
  bool_hyps. exists p. repeat split; try assumption.
  - destruct (Nat.lt_ge_cases p (size json_str)) as [Hlt|Hge]; [assumption|].
    exfalso. match goal with Hc : chr_eqb (at_ json_str p) _ = true |- _ =>
      apply chr_eqb_true in Hc; unfold at_ in Hc;
      rewrite nth_overflow in Hc by (unfold size in Hge; lia); discriminate Hc end.
  - match goal with Hc : chr_eqb (at_ json_str p) _ = true |- _ =>
      now apply chr_eqb_true in Hc end.
Qed.

(** The object production, forwards and backwards: the [Object] returned
    is the one built by emplacing the entries in the order read. *)
Lemma parse_value_object pos kvs pos' :
  let q := parse_whitespace json_str pos in
  (q < size json_str)%nat -> at_ json_str q = "{"%byte ->
  object_entries json_str (S q) kvs pos' ->
  (pos' < size json_str)%nat -> at_ json_str pos' = "}"%byte ->
  parse_value json_str (parse_fuel json_str) pos
  = Done (value (Object (map_of_list kvs))) (S pos').
Proof.
  intros q Hq Hat Hentries Hlt Hclose.
  destruct (object_entries_loop json_str _ _ _ Hentries (fun _ => Hclose) []) as [fuel Hloop].
  apply (parse_value_any_fuel json_str (S (S fuel))); [now apply ws_in_bounds| |discriminate].
  rewrite parse_value_on_brace, parse_object_unfold by assumption. fold q.
  rewrite Hloop.
  replace (pos' =? size json_str)%nat with false by (symmetry; apply Nat.eqb_neq; lia).
  now rewrite Hclose.
Qed.

Lemma parse_value_object_inv fuel pos o pos'' :
  parse_value json_str fuel pos = Done (value (Object o)) pos'' ->
  exists kvs pos',
    object_entries json_str (S (parse_whitespace json_str pos)) kvs pos'
    /\ o = map_of_list kvs.
Proof.
  intros H. apply parse_value_inv in H as (Hq & Hat & fuel' & H).
  destruct fuel' as [|fuel']; [discriminate|].
  rewrite parse_object_unfold in H by assumption.
  destruct (parse_object_loop _ _ _ _) as [[m|e] p| |] eqn:Hloop; try discriminate.
  revert H. case_if; [discriminate|]. intros [= -> <-].
  apply object_loop_entries in Hloop as (kvs & -> & Hentries & _).
  now exists kvs, p.
Qed.
End Productions.

(** ** Arrays: white space and separators *)

(** C6 (a defect of the code): white space is skipped in front of the
    opening bracket, in front of every element and around the comma, but
    not between the opening bracket and the test for the closing one: on
    [[ ]] the loop is entered, [parse_value] skips the blank, meets the
    closing bracket and fails with [parse_invalid_value], where [[]]
    parses to the empty array and [[1 ]] to the array of 1.  For the same
    reason [[ ] followed by the end of the text fails with
    [parse_expect_value], where [[], [[1] and [[1, ] fail with
    [parse_invalid_value].  Nor is the comma between two elements
    required: the loop skips at most one comma after an element, so
    [[1 2]] and [[1,]] parse like [[1,2]] and [[1]], and only a second
    comma, or a comma in front of the first element, is an invalid
    value. *)
Theorem array_production_divergence :
  parse (json_text "[ ]") = Returns (unexpected parse_invalid_value)
  /\ parse (json_text "[]") = Returns (value (Array []))
  /\ parse (json_text "[1 ]") = Returns (value (Array [Integer 1]))
  /\ parse (json_text " [ 1 , 2 ] ") = Returns (value (Array [Integer 1; Integer 2]))
  /\ parse (json_text "[ ") = Returns (unexpected parse_expect_value)
  /\ parse (json_text "[") = Returns (unexpected parse_invalid_value)
  /\ parse (json_text "[1") = Returns (unexpected parse_invalid_value)
  /\ parse (json_text "[1, ") = Returns (unexpected parse_invalid_value)
  /\ parse (json_text "[1,2]") = Returns (value (Array [Integer 1; Integer 2]))
  /\ parse (json_text "[1 2]") = Returns (value (Array [Integer 1; Integer 2]))
  /\ parse (json_text "[1,]") = Returns (value (Array [Integer 1]))
  /\ parse (json_text "[1,,2]") = Returns (unexpected parse_invalid_value)
  /\ parse (json_text "[,1]") = Returns (unexpected parse_invalid_value).
Proof.
  repeat (split; [vm_compute; reflexivity|]). vm_compute; reflexivity.
Qed.

(** ** Objects: duplicate keys *)

(** C3 (as stated, fails): [{"a":1,"a":2}] parses to the object that maps
    [a] to the earlier value 1, not to the later value 2. *)
Lemma duplicate_key_keeps_first :
  exists o, parse (json_text "{'a':1,'a':2}") = Returns (value (Object o))
            /\ map_find (text "a") o = Some (Integer 1)
            /\ map_find (text "a") o <> Some (Integer 2).
Proof.
  exists [(text "a", Integer 1)].
  split; [vm_compute; reflexivity|]. split; [reflexivity|discriminate].
Qed.

(** C3 (amended): an object built by emplacing entries has strictly
    ascending, hence pairwise different, keys, and maps each key to the
    value of its first entry (first write wins); [emplace] keeps the
    invariant and the value of a key already present.  The parser builds
    its object by emplacing the entries in the order of the text, and only
    so; [{"a":1,"a":2}] parses to the object mapping [a] to 1. *)
Theorem object_first_write_wins :
  (forall kvs : list (std_string * Node),
      map_ok (map_of_list kvs)
      /\ List.NoDup (keys (map_of_list kvs))
      /\ forall k, map_find k (map_of_list kvs) = first_binding k kvs)
  /\ (forall (key : std_string) (v : Node) (m : std_map Node),
        map_ok m ->
        map_ok (map_emplace key v m)
        /\ map_find key (map_emplace key v m)
           = match map_find key m with Some old => Some old | None => Some v end)
  /\ (forall (json_str : std_string) (pos : nat) kvs (pos' : nat),
        let q := parse_whitespace json_str pos in
        (q < size json_str)%nat -> at_ json_str q = "{"%byte ->
        object_entries json_str (S q) kvs pos' ->
        (pos' < size json_str)%nat -> at_ json_str pos' = "}"%byte ->
        parse_value json_str (parse_fuel json_str) pos
        = Done (value (Object (map_of_list kvs))) (S pos'))
  /\ (forall (json_str : std_string) (fuel pos : nat) o (pos'' : nat),
        parse_value json_str fuel pos = Done (value (Object o)) pos'' ->
        exists kvs pos',
          object_entries json_str (S (parse_whitespace json_str pos)) kvs pos'
          /\ o = map_of_list kvs)
  /\ parse (json_text "{'a':1,'a':2}") = Returns (value (Object [(text "a", Integer 1)])).
Proof.
  split; [|split; [|split; [|split]]].
  - intros kvs. split; [apply map_of_list_ok|].
    split; [apply map_ok_NoDup, map_of_list_ok|]. apply map_find_of_list.
  - intros key v m Hok. split; [now apply map_emplace_ok|].
    now rewrite map_find_emplace, string_eqb_refl.
  - exact parse_value_object.
  - exact parse_value_object_inv.
  - vm_compute; reflexivity.
Qed.

Lemma object_first_write_wins_witness :
  (map_ok (map_emplace (text "a") (Integer 2) [(text "a", Integer 1)])
   /\ map_find (text "a") (map_emplace (text "a") (Integer 2) [(text "a", Integer 1)])
      = Some (Integer 1))
  /\ parse_value (json_text "{'a':1,'a':2}") (parse_fuel (json_text "{'a':1,'a':2}")) 0
     = Done (value (Object (map_of_list [(text "a", Integer 1); (text "a", Integer 2)]))) 13
  /\ exists kvs pos',
       object_entries (json_text "{'a':1,'a':2}") 1 kvs pos'
       /\ [(text "a", Integer 1)] = map_of_list kvs.
Proof.
  split; [|split].
  - apply (proj1 (proj2 object_first_write_wins) (text "a") (Integer 2)
             [(text "a", Integer 1)]).
    repeat constructor.
  - apply (proj1 (proj2 (proj2 object_first_write_wins)) (json_text "{'a':1,'a':2}") 0%nat
             [(text "a", Integer 1); (text "a", Integer 2)] 12%nat).
    + vm_compute; lia.
    + reflexivity.
    + apply (entries_more _ 1 (text "a") 4 1 (Integer 1) 6 _ 12);
        [vm_compute; lia | discriminate | reflexivity | vm_compute; lia
        | reflexivity | reflexivity |].
      apply (entries_more _ 7 (text "a") 10 1 (Integer 2) 12 _ 12);
        [vm_compute; lia | discriminate | reflexivity | vm_compute; lia
        | reflexivity | reflexivity |].
      apply entries_done.
    + vm_compute; lia.
    + reflexivity.
  - apply (proj1 (proj2 (proj2 (proj2 object_first_write_wins)))
             (json_text "{'a':1,'a':2}") 5%nat 0%nat [(text "a", Integer 1)] 13%nat).
    vm_compute; reflexivity.
Defined.

(** ** [std::to_string] and [std::stoll] are inverse *)

Lemma string_of_uint_digits (d : Decimal.uint) :
  List.Forall (fun c => isdigit c = true) (string_of_uint d).
Proof. induction d; simpl; constructor; auto. Qed.

Lemma digits_value_acc (d : Decimal.uint) (acc : positive) :
  fold_left (fun a c => 10 * a + digit_value c) (string_of_uint d) (Zpos acc)
  = Zpos (Pos.of_uint_acc d acc).
Proof.
  revert acc. induction d; intros acc; cbn [string_of_uint fold_left Pos.of_uint_acc];
    try reflexivity; rewrite <- IHd; f_equal;
    match goal with |- context [digit_value ?c] =>
      let v := eval vm_compute in (digit_value c) in
      change (digit_value c) with v
    end; lia.
Qed.

Lemma digits_value_of_uint (d : Decimal.uint) :
  digits_value 10 (string_of_uint d) = Z.of_N (Pos.of_uint d).
Proof.
  unfold digits_value.
  induction d; cbn [string_of_uint fold_left Pos.of_uint]; try reflexivity;
    match goal with |- context [digit_value ?c] =>
      let v := eval vm_compute in (digit_value c) in
      change (digit_value c) with v
    end; try assumption; apply (digits_value_acc d).
Qed.

Lemma nzhead_not_D0 (d y : Decimal.uint) : Decimal.nzhead d <> Decimal.D0 y.
Proof. induction d; simpl; try discriminate. assumption. Qed.

Lemma to_uint_head (p : positive) :
  exists c r, string_of_uint (Pos.to_uint p) = c :: r
              /\ isdigit c = true /\ c <> "0"%byte.
Proof.
  pose proof (DecimalPos.Unsigned.to_of (Pos.to_uint p)) as Hn.
  rewrite DecimalPos.Unsigned.of_to in Hn. simpl in Hn.
  pose proof (DecimalPos.Unsigned.to_uint_nonzero p) as Hz.
  pose proof (DecimalPos.Unsigned.to_uint_nonnil p) as Hnil.
  destruct (Pos.to_uint p) as [|d|d|d|d|d|d|d|d|d|d] eqn:E;
    try (eexists _, _; split; [reflexivity|split; [reflexivity|discriminate]]).
  - now destruct Hnil.
  - exfalso. unfold Decimal.unorm in Hn. cbn [Decimal.nzhead] in Hn.
    destruct (Decimal.nzhead d) eqn:En; try discriminate Hn.
    + injection Hn as ->. now apply Hz.
    + now apply nzhead_not_D0 in En.
Qed.

Lemma take_while_all (p : char -> bool) (ds post : std_string) :
  List.Forall (fun c => p c = true) ds ->
  match post with [] => True | c :: _ => p c = false end ->
  take_while p (ds ++ post) = ds.
Proof.
  intros Hds Hpost. induction Hds as [|c ds Hc _ IH]; simpl.
  - destruct post as [|c post]; [reflexivity|]. simpl. now rewrite Hpost.
  - now rewrite Hc, IH.
Qed.

Lemma isdigit_not_space (c : char) : isdigit c = true -> isspace c = false.
Proof.
  unfold isdigit, isspace. intros H.
  apply andb_true_iff in H as [H1 H2]. apply Z.leb_le in H1, H2.
  apply orb_false_iff. split; [apply Z.eqb_neq; lia|].
  apply andb_false_iff. right. apply Z.leb_gt. lia.
Qed.

Lemma isdigit_not_sign (c : char) :
  isdigit c = true -> chr_eqb c "-"%byte = false /\ chr_eqb c "+"%byte = false.
Proof.
  unfold isdigit. intros H.
  apply andb_true_iff in H as [H1 H2]. apply Z.leb_le in H1, H2.
  split; apply chr_eqb_false; intros ->; vm_compute in H1; congruence.
Qed.

(** The text of a number, sign apart: digits, the first of which is [0]
    only when it is the only one. *)
Lemma to_string_cases (n : Z) :
  exists c r,
    to_string n = (if n <? 0 then ["-"%byte] else []) ++ c :: r
    /\ List.Forall (fun c => isdigit c = true) (c :: r)
    /\ (c = "0"%byte -> r = [])
    /\ digits_value 10 (c :: r) = Z.abs n.
Proof.
  destruct n as [|p|p].
  - exists "0"%byte, []. repeat split. repeat constructor.
  - destruct (to_uint_head p) as (c & r & E & Hc & Hz).
    exists c, r. unfold to_string. cbn [Z.to_int Z.ltb Z.compare app]. rewrite E.
    repeat split.
    + rewrite <- E. apply string_of_uint_digits.
    + intros ->. now destruct Hz.
    + rewrite <- E, digits_value_of_uint, DecimalPos.Unsigned.of_to. reflexivity.
  - destruct (to_uint_head p) as (c & r & E & Hc & Hz).
    exists c, r. unfold to_string. cbn [Z.to_int Z.ltb Z.compare app]. rewrite E.
    repeat split.
    + rewrite <- E. apply string_of_uint_digits.
    + intros ->. now destruct Hz.
    + rewrite <- E, digits_value_of_uint, DecimalPos.Unsigned.of_to. reflexivity.
Qed.

Lemma stoll_to_string (n : Z) :
  LLONG_MIN <= n <= LLONG_MAX -> stoll (to_string n) = inl n.
Proof.
  intros Hn. destruct (to_string_cases n) as (c & r & E & Hd & _ & Hv).
  unfold stoll. rewrite E.
  pose proof (Forall_inv Hd) as Hc. cbv beta in Hc.
  destruct (isdigit_not_sign c Hc) as [Hm Hp].
  destruct (n <? 0) eqn:En; cbn [app drop_while].
  - change (isspace "-"%byte) with false. cbv iota.
    cbn [read_sign]. change (chr_eqb "-"%byte "-"%byte) with true. cbv iota.
    rewrite <- (app_nil_r (c :: r)), (take_while_all isdigit (c :: r) [] Hd I), Hv.
    apply Z.ltb_lt in En.
    replace (- Z.abs n) with n by lia.
    destruct Hn as [H1 H2]. apply Z.leb_le in H1, H2. now rewrite H1, H2.
  - rewrite (isdigit_not_space c Hc). cbn [read_sign]. rewrite Hm, Hp.
    rewrite <- (app_nil_r (c :: r)), (take_while_all isdigit (c :: r) [] Hd I), Hv.
    apply Z.ltb_ge in En.
    replace (Z.abs n) with n by lia.
    destruct Hn as [H1 H2]. apply Z.leb_le in H1, H2. now rewrite H1, H2.
Qed.

(** ** Numbers and literals read in context *)

Section ScalarsInContext.
Variable json_str : std_string.
Implicit Types (pre mid post : std_string).

Lemma skip_while_prefix (p : char -> bool) mid post : forall pos,
  List.Forall (fun c => p c = true) mid ->
  match post with [] => True | c :: _ => p c = false end ->
  skip_while p (mid ++ post) pos = (pos + length mid)%nat.
Proof.
  induction mid as [|c mid IH]; intros pos Hmid Hpost; simpl.
  - destruct post as [|c post]; simpl; [lia|]. rewrite Hpost. lia.
  - rewrite (Forall_inv Hmid). rewrite IH; [lia| |assumption].
    now apply Forall_inv_tail in Hmid.
Qed.

Lemma skip_while_app (p : char -> bool) pre mid post :
  json_str = pre ++ mid ++ post ->
  List.Forall (fun c => p c = true) mid ->
  match post with [] => True | c :: _ => p c = false end ->
  skip_while p (drop (length pre) json_str) (length pre) = (length pre + length mid)%nat.
Proof.
  intros -> Hmid Hpost. rewrite drop_app_length. now apply skip_while_prefix.
Qed.

Lemma substr_app pre mid post :
  json_str = pre ++ mid ++ post ->
  substr json_str (length pre) (length mid) = mid.
Proof.
  intros ->. unfold substr. rewrite drop_app_length. apply take_app_length.
Qed.

Lemma ws_at pre c post :
  json_str = pre ++ c :: post -> isspace c = false ->
  parse_whitespace json_str (length pre) = length pre.
Proof.
  intros Hs Hc. apply parse_whitespace_here.
  - rewrite (size_app json_str pre _ Hs). simpl. lia.
  - now rewrite (at_app json_str pre c post Hs).
Qed.

Lemma not_at_end pre c post :
  json_str = pre ++ c :: post -> (length pre =? size json_str)%nat = false.
Proof.
  intros Hs. apply Nat.eqb_neq. rewrite (size_app json_str pre _ Hs). simpl. lia.
Qed.

Lemma number_end_check pre post :
  json_str = pre ++ post -> number_end post ->
  (length pre =? size json_str)%nat
  || (negb (chr_eqb (at_ json_str (length pre)) "."%byte)
      && negb (chr_eqb (at_ json_str (length pre)) "e"%byte)
      && negb (chr_eqb (at_ json_str (length pre)) "E"%byte)) = true.
Proof.
  intros Hs Hend. destruct post as [|c post].
  - rewrite (size_app json_str pre [] Hs). simpl.
    now rewrite Nat.add_0_r, Nat.eqb_refl.
  - rewrite (at_app json_str pre c post Hs).
    destruct Hend as [_ Hm]. unfold float_mark in Hm.
    apply orb_false_iff in Hm as [Hm H3]. apply orb_false_iff in Hm as [H1 H2].
    rewrite H1, H2, H3. apply orb_true_r.
Qed.

Lemma parse_number_integer pre (n : Z) post :
  json_str = pre ++ to_string n ++ post ->
  LLONG_MIN <= n <= LLONG_MAX ->
  number_end post ->
  parse_number json_str (length pre)
  = Done (value (Integer n)) (length pre + length (to_string n)).
Proof.
  intros Hs Hn Hend.
  pose proof (stoll_to_string n Hn) as Hstoll.
  pose proof (substr_app pre (to_string n) post Hs) as Hsub.
  destruct (to_string_cases n) as (c & r & E & Hd & Hz & _).
  rewrite E in Hs.
  pose proof (Forall_inv Hd) as Hc. cbv beta in Hc.
  destruct (isdigit_not_sign c Hc) as [Hm _].
  assert (Htail : match post with [] => True | c :: _ => isdigit c = false end).
  { destruct post; [exact I|]. apply Hend. }
  unfold parse_number.
  destruct (n <? 0) eqn:En; cbn [app] in Hs.
  - (* a minus sign, then the digits *)
    rewrite (ws_at pre _ _ Hs eq_refl), (not_at_end pre _ _ Hs).
    rewrite (at_app json_str pre _ _ Hs).
    change (chr_eqb "-"%byte "-"%byte) with true. cbv beta iota zeta.
    assert (Hs' : json_str = (pre ++ ["-"%byte]) ++ (c :: r) ++ post)
      by (rewrite <- app_assoc; exact Hs).
    replace (S (length pre)) with (length (pre ++ ["-"%byte]))
      by (rewrite length_app; simpl; lia).
    rewrite (not_at_end (pre ++ ["-"%byte]) c (r ++ post) Hs').
    rewrite (at_app json_str (pre ++ ["-"%byte]) c (r ++ post) Hs'), Hc.
    assert (Hskip : (if chr_eqb c "0"%byte then Some (S (length (pre ++ ["-"%byte])))
                     else if negb true then None
                     else Some (skip_digits json_str (length (pre ++ ["-"%byte]))))
                    = Some (length ((pre ++ ["-"%byte]) ++ c :: r))).
    { destruct (chr_eqb c "0"%byte) eqn:E0.
      - apply chr_eqb_true in E0. rewrite (Hz E0). rewrite !length_app. simpl.
        f_equal. lia.
      - simpl negb. cbv iota. unfold skip_digits.
        rewrite (skip_while_app isdigit _ (c :: r) post Hs' Hd Htail).
        now rewrite (length_app (pre ++ ["-"%byte])). }
    rewrite Hskip.
    rewrite (number_end_check ((pre ++ ["-"%byte]) ++ c :: r) post)
      by (rewrite <- !app_assoc; exact Hs) || assumption.
    replace (length ((pre ++ ["-"%byte]) ++ c :: r) - length pre)%nat
      with (length (to_string n)) by (rewrite E, !length_app; simpl; lia).
    rewrite Hsub, Hstoll. simpl. f_equal. rewrite E, !length_app. simpl. lia.
  - (* the digits alone *)
    rewrite (ws_at pre _ _ Hs (isdigit_not_space c Hc)), (not_at_end pre _ _ Hs).
    rewrite (at_app json_str pre _ _ Hs), Hm. cbv beta iota zeta.
    rewrite (not_at_end pre _ _ Hs), (at_app json_str pre _ _ Hs), Hc.
    assert (Hs' : json_str = pre ++ (c :: r) ++ post) by exact Hs.
    assert (Hskip : (if chr_eqb c "0"%byte then Some (S (length pre))
                     else if negb true then None
                     else Some (skip_digits json_str (length pre)))
                    = Some (length (pre ++ c :: r))).
    { destruct (chr_eqb c "0"%byte) eqn:E0.
      - apply chr_eqb_true in E0. rewrite (Hz E0). rewrite !length_app. simpl.
        f_equal. lia.
      - simpl negb. cbv iota. unfold skip_digits.
        rewrite (skip_while_app isdigit _ (c :: r) post Hs' Hd Htail).
        now rewrite length_app. }
    rewrite Hskip.
    rewrite (number_end_check (pre ++ c :: r) post)
      by (rewrite <- !app_assoc; exact Hs) || assumption.
    replace (length (pre ++ c :: r) - length pre)%nat
      with (length (to_string n)) by (rewrite E, !length_app; simpl; lia).
    rewrite Hsub, Hstoll. simpl. f_equal. rewrite E, !length_app. simpl. lia.
Qed.

Lemma parse_null_here pre post :
  json_str = pre ++ text "null" ++ post ->
  parse_null json_str (length pre) = Done (value Null) (length pre + 4).
Proof.
  intros Hs. unfold parse_null.
  rewrite (ws_at pre "n"%byte (text "ull" ++ post) Hs eq_refl).
  pose proof (substr_app pre (text "null") post Hs) as E.
  change (length (text "null")) with 4%nat in E. now rewrite E.
Qed.

Lemma parse_true_here pre post :
  json_str = pre ++ text "true" ++ post ->
  parse_true json_str (length pre) = Done (value (Boolean true)) (length pre + 4).
Proof.
  intros Hs. unfold parse_true.
  rewrite (ws_at pre "t"%byte (text "rue" ++ post) Hs eq_refl).
  pose proof (substr_app pre (text "true") post Hs) as E.
  change (length (text "true")) with 4%nat in E. now rewrite E.
Qed.

Lemma parse_false_here pre post :
  json_str = pre ++ text "false" ++ post ->
  parse_false json_str (length pre) = Done (value (Boolean false)) (length pre + 5).
Proof.
  intros Hs. unfold parse_false.
  rewrite (ws_at pre "f"%byte (text "alse" ++ post) Hs eq_refl).
  pose proof (substr_app pre (text "false") post Hs) as E.
  change (length (text "false")) with 5%nat in E. now rewrite E.
Qed.
End ScalarsInContext.

(** ** Generated strings read in context *)

Lemma escape_map_None (c : char) :
  escape_map c = None ->
  c <> x22 /\ c <> x5c /\ c <> x08 /\ c <> x0c /\ c <> x0a /\ c <> x0d /\ c <> x09.
Proof.
  unfold escape_map. repeat case_if; try discriminate. intros _.
  repeat split; now apply chr_eqb_false.
Qed.

Lemma escape_map_Some (c : char) (esc : std_string) :
  escape_map c = Some esc ->
  exists e, esc = [x5c; e] /\ escape_mappping e = Some c.
Proof.
  unfold escape_map.
  repeat case_if; try discriminate; intros [= <-];
    match goal with E : chr_eqb c _ = true |- _ => apply chr_eqb_true in E; subst c end;
    eexists; split; reflexivity.
Qed.

Lemma generate_char_cases (char_is_signed : bool) (c : char) :
  roundtrip_char char_is_signed c ->
  (exists e, generate_char char_is_signed c = [x5c; e] /\ escape_mappping e = Some c)
  \/ (exists d k, generate_char char_is_signed c
                  = [x5c; "u"%byte; "0"%byte; "0"%byte; "0"%byte; d]
                  /\ stoi16 ["0"%byte; "0"%byte; "0"%byte; d] = inl k
                  /\ char_of_int k = c)
  \/ (generate_char char_is_signed c = [c] /\ raw_char c).
Proof.
  intros Hrt. unfold generate_char.
  destruct (escape_map c) as [esc|] eqn:Em.
  - left. destruct (escape_map_Some c esc Em) as (e & -> & He). eauto.
  - apply escape_map_None in Em as (Hq & Hb & H8 & H12 & H10 & H13 & H9).
    destruct (char_to_int char_is_signed c <? 32) eqn:Elt.
    + right. left. apply Z.ltb_lt in Elt.
      pose proof (code_range c) as Hr.
      assert (Hk : code c = 0 \/ code c = 1 \/ code c = 2 \/ code c = 3
                   \/ code c = 4 \/ code c = 5 \/ code c = 6 \/ code c = 7).
      { unfold roundtrip_char in Hrt. unfold char_to_int in *.
        assert (code c <> 8) by (intros Hk; apply H8, code_inj; exact Hk).
        assert (code c <> 9) by (intros Hk; apply H9, code_inj; exact Hk).
        assert (code c <> 10) by (intros Hk; apply H10, code_inj; exact Hk).
        assert (code c <> 12) by (intros Hk; apply H12, code_inj; exact Hk).
        assert (code c <> 13) by (intros Hk; apply H13, code_inj; exact Hk).
        destruct (128 <=? code c) eqn:Eh; [apply Z.leb_le in Eh|apply Z.leb_gt in Eh];
          destruct char_is_signed; lia. }
      assert (Hc : c = x00 \/ c = x01 \/ c = x02 \/ c = x03
                   \/ c = x04 \/ c = x05 \/ c = x06 \/ c = x07).
      { destruct Hk as [Hk|[Hk|[Hk|[Hk|[Hk|[Hk|[Hk|Hk]]]]]]];
          [do 0 right; left|do 1 right; left|do 2 right; left|do 3 right; left
          |do 4 right; left|do 5 right; left|do 6 right; left|do 7 right];
          apply code_inj; exact Hk. }
      destruct Hc as [->|[->|[->|[->|[->|[->|[->| ->]]]]]]]; eexists _, _;
        (split; [destruct char_is_signed; reflexivity|split; reflexivity]).
    + right. right. split; [reflexivity|]. split; assumption.
Qed.

Section GeneratedStrings.
Variable json_str : std_string.
Variable char_is_signed : bool.
Implicit Types (pre post str : std_string) (fuel : nat).

(** One generated character, read by one trip of the string loop. *)
Lemma parse_string_loop_generated_char pre (c : char) rest str fuel :
  json_str = pre ++ generate_char char_is_signed c ++ rest ->
  rest <> [] ->
  roundtrip_char char_is_signed c ->
  parse_string_loop json_str (S fuel) (length pre) str
  = parse_string_loop json_str fuel
      (length pre + length (generate_char char_is_signed c)) (str ++ [c]).
Proof.
  intros Hs Hrest Hrt.
  destruct rest as [|r0 rest]; [now destruct Hrest|].
  destruct (generate_char_cases char_is_signed c Hrt)
    as [(e & Hg & He)|[(d & k & Hg & Hk & Hc)|(Hg & Hraw)]];
    rewrite Hg in *; cbn [app length] in *.
  - (* a two-character escape *)
    cbn [parse_string_loop].
    rewrite (loop_cond_true json_str (length pre) x22)
      by (rewrite ?(size_app json_str pre _ Hs), ?(at_app json_str pre _ _ Hs);
          simpl; (lia || discriminate)).
    rewrite (at_app json_str pre _ _ Hs).
    change (chr_eqb x5c x5c) with true. cbv beta iota zeta.
    assert (Hs' : json_str = (pre ++ [x5c]) ++ e :: r0 :: rest)
      by (rewrite <- app_assoc; exact Hs).
    replace (S (length pre)) with (length (pre ++ [x5c]))
      by (rewrite length_app; simpl; lia).
    rewrite (not_at_end json_str _ _ _ Hs'), (at_app json_str _ _ _ Hs'), He.
    f_equal. rewrite length_app. simpl. lia.
  - (* a unicode escape of a byte from 0 to 7 *)
    cbn [parse_string_loop].
    rewrite (loop_cond_true json_str (length pre) x22)
      by (rewrite ?(size_app json_str pre _ Hs), ?(at_app json_str pre _ _ Hs);
          simpl; (lia || discriminate)).
    rewrite (at_app json_str pre _ _ Hs).
    change (chr_eqb x5c x5c) with true. cbv beta iota zeta.
    assert (Hs' : json_str = (pre ++ [x5c]) ++ "u"%byte
                    :: ["0"%byte; "0"%byte; "0"%byte; d] ++ r0 :: rest)
      by (rewrite <- app_assoc; exact Hs).
    replace (S (length pre)) with (length (pre ++ [x5c]))
      by (rewrite length_app; simpl; lia).
    rewrite (not_at_end json_str _ _ _ Hs'), (at_app json_str _ _ _ Hs').
    change (escape_mappping "u"%byte) with (@None byte).
    change (chr_eqb "u"%byte "u"%byte) with true. cbv beta iota.
    rewrite parse_unicode_at_u;
      [|rewrite (size_app json_str _ _ Hs'); simpl; lia
       |now rewrite (at_app json_str _ _ _ Hs')].
    replace (size json_str <=? length (pre ++ [x5c]) + 4)%nat with false
      by (symmetry; apply Nat.leb_gt; rewrite (size_app json_str _ _ Hs');
          simpl; rewrite !length_app; simpl; lia).
    assert (Hs'' : json_str = (pre ++ [x5c; "u"%byte])
                     ++ ["0"%byte; "0"%byte; "0"%byte; d] ++ r0 :: rest)
      by (rewrite <- app_assoc; exact Hs).
    replace (length (pre ++ [x5c]) + 1)%nat with (length (pre ++ [x5c; "u"%byte]))
      by (rewrite !length_app; simpl; lia).
    pose proof (substr_app json_str _ _ _ Hs'') as Hsub.
    change (length ["0"%byte; "0"%byte; "0"%byte; d]) with 4%nat in Hsub.
    rewrite Hsub, Hk, Hc.
    f_equal. rewrite !length_app. simpl. lia.
  - (* the character itself *)
    rewrite parse_string_loop_step.
    + rewrite (at_app json_str pre _ _ Hs). f_equal. lia.
    + rewrite (size_app json_str pre _ Hs). simpl. lia.
    + now rewrite (at_app json_str pre _ _ Hs).
Qed.

Lemma generate_char_nonempty (c : char) : generate_char char_is_signed c <> [].
Proof.
  unfold generate_char. destruct (escape_map c) as [esc|] eqn:Em.
  - destruct (escape_map_Some c esc Em) as (e & -> & _). discriminate.
  - case_if; discriminate.
Qed.

Lemma parse_string_loop_generated (s : std_string) : forall pre post str fuel,
  json_str = pre ++ flat_map (generate_char char_is_signed) s ++ x22 :: post ->
  List.Forall (roundtrip_char char_is_signed) s ->
  (length (flat_map (generate_char char_is_signed) s) < fuel)%nat ->
  parse_string_loop json_str fuel (length pre) str
  = Done (value (str ++ s))
      (length pre + length (flat_map (generate_char char_is_signed) s)).
Proof.
  induction s as [|c s IH]; intros pre post str fuel Hs Hrt Hfuel.
  - simpl in *. rewrite (parse_string_loop_raw json_str [] pre post str fuel Hs);
      [reflexivity|constructor|simpl; lia].
  - cbn [flat_map] in *. rewrite length_app in *.
    destruct fuel as [|fuel]; [lia|].
    pose proof (generate_char_nonempty c) as Hne.
    rewrite (parse_string_loop_generated_char pre c
               (flat_map (generate_char char_is_signed) s ++ x22 :: post)).
    + replace (length pre + length (generate_char char_is_signed c))%nat
        with (length (pre ++ generate_char char_is_signed c))
        by now rewrite length_app.
      rewrite (IH (pre ++ generate_char char_is_signed c) post (str ++ [c]) fuel).
      * rewrite <- app_assoc. simpl. f_equal. rewrite length_app. lia.
      * rewrite <- !app_assoc in *. exact Hs.
      * now apply Forall_inv_tail in Hrt.
      * destruct (generate_char char_is_signed c); [now destruct Hne|].
        simpl in Hfuel. lia.
    + rewrite <- app_assoc in Hs. exact Hs.
    + now destruct (flat_map (generate_char char_is_signed) s).
    + now apply Forall_inv in Hrt.
Qed.

(** A generated string is read back by the string production. *)
Lemma parse_string_generated pre (s : std_string) post :
  json_str = pre ++ generate_string char_is_signed s ++ post ->
  List.Forall (roundtrip_char char_is_signed) s ->
  parse_string json_str (length pre)
  = Done (value (String s)) (length pre + length (generate_string char_is_signed s)).
Proof.
  intros Hs Hrt. unfold generate_string in *.
  set (body := flat_map (generate_char char_is_signed) s) in *.
  assert (Hs1 : json_str = pre ++ x22 :: body ++ x22 :: post).
  { rewrite Hs. simpl. now rewrite <- app_assoc. }
  assert (Hsize : size json_str = (length pre + S (length body + S (length post)))%nat).
  { rewrite (size_app json_str pre _ Hs1). simpl. rewrite length_app. reflexivity. }
  unfold parse_string.
  rewrite (ws_at json_str pre x22 _ Hs1 eq_refl), (not_at_end json_str pre _ _ Hs1).
  rewrite (at_app json_str pre x22 _ Hs1).
  simpl orb. cbv iota.
  replace (S (length pre)) with (length (pre ++ [x22]))
    by (rewrite length_app; simpl; lia).
  rewrite (parse_string_loop_generated s (pre ++ [x22]) post []).
  - fold body.
    replace (length (pre ++ [x22]) + length body)%nat
      with (length ((pre ++ [x22]) ++ body)) by now rewrite length_app.
    assert (Hs2 : json_str = ((pre ++ [x22]) ++ body) ++ x22 :: post)
      by (rewrite <- !app_assoc; exact Hs1).
    rewrite (not_at_end json_str _ _ _ Hs2), (at_app json_str _ _ _ Hs2).
    simpl. f_equal. rewrite ?length_app. simpl. rewrite ?length_app. simpl. lia.
  - fold body. rewrite <- app_assoc. exact Hs1.
  - exact Hrt.
  - fold body. rewrite Hsize, length_app. simpl. lia.
Qed.
End GeneratedStrings.

Lemma roundtrip_Array (char_is_signed : bool) (a : list Node) :
  roundtrip_node char_is_signed (Array a) ->
  List.Forall (roundtrip_node char_is_signed) a.
Proof.
  induction a as [|x a IH]; [constructor|].
  intros [Hx Ha]. constructor; [assumption|]. now apply IH.
Qed.

Lemma roundtrip_Object (char_is_signed : bool) (o : std_map Node) :
  roundtrip_node char_is_signed (Object o) ->
  map_ok o
  /\ List.Forall (fun kv => List.Forall (roundtrip_char char_is_signed) (fst kv)
                            /\ roundtrip_node char_is_signed (snd kv)) o.
Proof.
  intros [Hok Hall]. split; [assumption|]. clear Hok.
  induction o as [|[k x] o IH]; [constructor|].
  destruct Hall as (Hk & Hx & Ho). constructor; [now split|]. now apply IH.
Qed.

(** ** An object rebuilt from its own entries *)

Section Rebuild.
Context {V : Type}.
Implicit Types (m acc : std_map V).

Lemma map_emplace_last key (v : V) acc :
  List.Forall (fun k' => string_lt k' key) (keys acc) ->
  map_emplace key v acc = acc ++ [(key, v)].
Proof.
  induction acc as [|[k0 x] acc IH]; simpl; intros Hall; [reflexivity|].
  pose proof (Forall_inv Hall) as Hlt. cbv beta in Hlt. unfold string_lt in Hlt.
  rewrite string_compare_antisym, Hlt. simpl.
  f_equal. apply IH. now apply Forall_inv_tail in Hall.
Qed.

Lemma sorted_app_lt (l1 l2 : list std_string) (k : std_string) :
  StronglySorted string_lt (l1 ++ k :: l2) ->
  List.Forall (fun k' => string_lt k' k) l1.
Proof.
  induction l1 as [|x l1 IH]; simpl; intros Hs; [constructor|].
  apply StronglySorted_inv in Hs as [Hs Hx]. constructor.
  - rewrite List.Forall_forall in Hx. apply Hx. apply in_or_app. right. now left.
  - now apply IH.
Qed.

Lemma fold_emplace_sorted (rest : list (std_string * V)) : forall acc,
  map_ok (acc ++ rest) ->
  fold_left (fun m kv => map_emplace (fst kv) (snd kv) m) rest acc = acc ++ rest.
Proof.
  induction rest as [|[k v] rest IH]; intros acc Hok; simpl.
  - now rewrite app_nil_r.
  - rewrite map_emplace_last.
    + rewrite IH; rewrite <- app_assoc; [reflexivity|exact Hok].
    + unfold map_ok, keys in Hok. rewrite map_app in Hok. simpl in Hok.
      now apply sorted_app_lt in Hok.
Qed.

Lemma map_of_list_sorted m : map_ok m -> map_of_list m = m.
Proof. intros Hok. unfold map_of_list. now rewrite fold_emplace_sorted. Qed.
End Rebuild.

(** ** The first character of a generated text *)

Lemma to_string_head (n : Z) :
  exists c r, to_string n = c :: r /\ (isdigit c = true \/ c = "-"%byte).
Proof.
  destruct (to_string_cases n) as (c & r & E & Hd & _).
  rewrite E. destruct (n <? 0); cbn [app]; eexists _, _; split; try reflexivity.
  - now right.
  - left. exact (Forall_inv Hd).
Qed.

Lemma number_head (c : char) :
  isdigit c = true \/ c = "-"%byte ->
  isspace c = false /\ c <> ","%byte /\ c <> "]"%byte
  /\ chr_eqb c "n"%byte = false /\ chr_eqb c "t"%byte = false
  /\ chr_eqb c "f"%byte = false /\ chr_eqb c x22 = false
  /\ chr_eqb c "["%byte = false /\ chr_eqb c "{"%byte = false.
Proof.
  intros [Hc| ->]; [|repeat split; discriminate].
  split; [now apply isdigit_not_space|].
  unfold isdigit in Hc. apply andb_true_iff in Hc as [H1 H2].
  apply Z.leb_le in H1, H2.
  repeat split;
    try (match goal with |- chr_eqb _ _ = false => apply chr_eqb_false end);
    intros ->; vm_compute in H1, H2; congruence.
Qed.

Lemma generate_head (char_is_signed : bool) (node : Node) :
  roundtrip_node char_is_signed node ->
  exists c r, generate char_is_signed node = c :: r
              /\ isspace c = false /\ c <> ","%byte /\ c <> "]"%byte.
Proof.
  destruct node as [|b|n|f|s|a|o]; intros Hrt.
  - eexists _, _. repeat split; discriminate.
  - destruct b; eexists _, _; repeat split; discriminate.
  - destruct (to_string_head n) as (c & r & E & Hc).
    exists c, r. split; [exact E|]. apply number_head in Hc. tauto.
  - destruct Hrt.
  - eexists _, _. repeat split; discriminate.
  - exists "["%byte. rewrite generate_Array_join. eexists. repeat split; discriminate.
  - exists "{"%byte. rewrite generate_Object_join. eexists. repeat split; discriminate.
Qed.

(** ** Generated texts read in context *)

Section GeneratedTexts.
Variable json_str : std_string.
Variable char_is_signed : bool.
Implicit Types (pre post : std_string).

Lemma parse_value_dispatch fuel (pos : nat) :
  (pos < size json_str)%nat -> isspace (at_ json_str pos) = false ->
  parse_value json_str (S fuel) pos
  = let c := at_ json_str pos in
    if chr_eqb c "n"%byte then parse_null json_str pos
    else if chr_eqb c "t"%byte then parse_true json_str pos
    else if chr_eqb c "f"%byte then parse_false json_str pos
    else if chr_eqb c x22 then parse_string json_str pos
    else if chr_eqb c "["%byte then parse_array json_str fuel pos
    else if chr_eqb c "{"%byte then parse_object json_str fuel pos
    else parse_number json_str pos.
Proof.
  intros Hpos Hsp. cbn [parse_value].
  rewrite (parse_whitespace_here json_str pos Hpos Hsp).
  now replace (pos =? size json_str)%nat with false by (symmetry; apply Nat.eqb_neq; lia).
Qed.

Lemma parse_fuel_S : exists fuel, parse_fuel json_str = S fuel.
Proof. exists (3 * length json_str + 1)%nat. unfold parse_fuel. lia. Qed.

Lemma skip_separator_stay pre (c : char) post :
  json_str = pre ++ c :: post -> isspace c = false -> c <> ","%byte ->
  skip_separator json_str (length pre) = length pre.
Proof.
  intros Hs Hsp Hc. unfold skip_separator.
  rewrite (ws_at json_str pre c post Hs Hsp), (at_app json_str pre c post Hs).
  apply chr_eqb_false in Hc. rewrite Hc, andb_false_r.
  apply (ws_at json_str pre c post Hs Hsp).
Qed.

Lemma skip_separator_comma pre (c : char) post :
  json_str = pre ++ ","%byte :: c :: post -> isspace c = false ->
  skip_separator json_str (length pre) = S (length pre).
Proof.
  intros Hs Hsp. unfold skip_separator.
  rewrite (ws_at json_str pre _ _ Hs eq_refl), (at_app json_str pre _ _ Hs).
  replace (length pre <? size json_str)%nat with true
    by (symmetry; apply Nat.ltb_lt; rewrite (size_app json_str pre _ Hs); simpl; lia).
  change (true && chr_eqb ","%byte ","%byte) with true. cbv iota.
  assert (Hs' : json_str = (pre ++ [","%byte]) ++ c :: post)
    by (rewrite <- app_assoc; exact Hs).
  replace (S (length pre)) with (length (pre ++ [","%byte]))
    by (rewrite length_app; simpl; lia).
  apply (ws_at json_str _ c post Hs' Hsp).
Qed.

Lemma array_items_generated (a : list Node) :
  List.Forall (fun x => roundtrip_node char_is_signed x
                        /\ reads json_str char_is_signed x) a ->
  forall pre post,
    json_str = pre ++ join ","%byte (map (generate char_is_signed) a) ++ "]"%byte :: post ->
    array_items json_str (length pre) a
      (length pre + length (join ","%byte (map (generate char_is_signed) a))).
Proof.
  induction 1 as [|x a [Hrt Hx] Ha IH]; intros pre post Hs.
  - simpl. rewrite Nat.add_0_r. constructor.
  - destruct (generate_head char_is_signed x Hrt) as (c & r & Eg & Hsp & Hcomma & Hclose).
    destruct a as [|y a].
    + simpl in Hs |- *.
      apply (items_more json_str _ (parse_fuel json_str) x
               (length pre + length (generate char_is_signed x))).
      * rewrite (size_app json_str pre _ Hs), Eg. simpl. lia.
      * rewrite Eg in Hs. now rewrite (at_app json_str pre c _ Hs).
      * apply (Hx pre _ Hs). simpl. split; reflexivity.
      * replace (length pre + length (generate char_is_signed x))%nat
          with (length (pre ++ generate char_is_signed x)) by now rewrite length_app.
        rewrite (skip_separator_stay (pre ++ generate char_is_signed x) "]"%byte post);
          [constructor|rewrite <- app_assoc; exact Hs|reflexivity|discriminate].
    + change (join ","%byte (map (generate char_is_signed) (x :: y :: a)))
        with (generate char_is_signed x
              ++ ","%byte :: join ","%byte (map (generate char_is_signed) (y :: a))) in *.
      rewrite <- app_assoc in Hs. cbn [app] in Hs.
      apply (items_more json_str _ (parse_fuel json_str) x
               (length pre + length (generate char_is_signed x))).
      * rewrite (size_app json_str pre _ Hs), Eg. simpl. lia.
      * rewrite Eg in Hs. now rewrite (at_app json_str pre c _ Hs).
      * apply (Hx pre _ Hs). simpl. split; reflexivity.
      * pose proof (Forall_inv Ha) as [Hrty _].
        destruct (generate_head char_is_signed y Hrty) as (cy & ry & Ey & Hspy & _).
        assert (Hjoin : exists rest,
                   join ","%byte (map (generate char_is_signed) (y :: a)) = cy :: rest).
        { destruct a; simpl; rewrite Ey; simpl; eauto. }
        destruct Hjoin as [rest Hjoin].
        replace (length pre + length (generate char_is_signed x))%nat
          with (length (pre ++ generate char_is_signed x)) by now rewrite length_app.
        rewrite (skip_separator_comma (pre ++ generate char_is_signed x) cy
                   (rest ++ "]"%byte :: post));
          [|rewrite <- app_assoc, Hs, Hjoin; reflexivity|exact Hspy].
        replace (S (length (pre ++ generate char_is_signed x)))
          with (length (pre ++ generate char_is_signed x ++ [","%byte]))
          by (rewrite !length_app; simpl; lia).
        replace (length pre + length (generate char_is_signed x ++ ","%byte
                   :: join ","%byte (map (generate char_is_signed) (y :: a))))%nat
          with (length (pre ++ generate char_is_signed x ++ [","%byte])
                + length (join ","%byte (map (generate char_is_signed) (y :: a))))%nat
          by (rewrite !length_app; simpl; lia).
        apply (IH _ post). rewrite <- !app_assoc. exact Hs.
Qed.
Lemma generate_string_head (k : std_string) :
  exists r, generate_string char_is_signed k = x22 :: r.
Proof. unfold generate_string. eauto. Qed.

Lemma join_cons_app (sep close : char) (x : std_string) (l : list std_string) post :
  join sep (x :: l) ++ close :: post
  = x ++ match l with
         | [] => close :: post
         | _ :: _ => sep :: join sep l ++ close :: post
         end.
Proof. destruct l; [reflexivity|]. cbn [join]. now rewrite <- app_assoc. Qed.

Lemma join_cons_length (sep : char) (x : std_string) (l : list std_string) :
  length (join sep (x :: l))
  = (length x + match l with [] => 0 | _ :: _ => S (length (join sep l)) end)%nat.
Proof. destruct l; cbn [join]; [lia|]. rewrite length_app. reflexivity. Qed.

Lemma object_entries_generated (o : list (std_string * Node)) :
  List.Forall (fun kv => List.Forall (roundtrip_char char_is_signed) (fst kv)
                         /\ roundtrip_node char_is_signed (snd kv)
                         /\ reads json_str char_is_signed (snd kv)) o ->
  forall pre post,
    json_str = pre ++ join ","%byte (map (entry_text char_is_signed) o) ++ "}"%byte :: post ->
    object_entries json_str (length pre) o
      (length pre + length (join ","%byte (map (entry_text char_is_signed) o))).
Proof.
  induction 1 as [|[k x] o (Hk & Hrt & Hx) Ho IH]; intros pre post Hs.
  - simpl. rewrite Nat.add_0_r. constructor.
  - cbn [fst snd map] in *.
    rewrite join_cons_app in Hs. rewrite join_cons_length.
    unfold entry_text at 1 in Hs. unfold entry_text at 1. cbn [fst snd] in *.
    destruct (generate_string_head k) as [rk Ek].
    set (gk := generate_string char_is_signed k) in *.
    set (gx := generate char_is_signed x) in *.
    set (tail := match map (entry_text char_is_signed) o with
                 | [] => "}"%byte :: post
                 | _ :: _ => ","%byte :: join ","%byte (map (entry_text char_is_signed) o)
                             ++ "}"%byte :: post
                 end) in *.
    assert (Hend : number_end tail).
    { subst tail. destruct (map (entry_text char_is_signed) o); simpl; split; reflexivity. }
    assert (Hs1 : json_str = pre ++ gk ++ ":"%byte :: gx ++ tail).
    { rewrite Hs. rewrite <- !app_assoc. reflexivity. }
    assert (Hs2 : json_str = (pre ++ gk) ++ ":"%byte :: gx ++ tail)
      by (rewrite <- app_assoc; exact Hs1).
    assert (Hs3 : json_str = (pre ++ gk ++ [":"%byte]) ++ gx ++ tail)
      by (rewrite <- !app_assoc; exact Hs1).
    assert (Hs4 : json_str = (pre ++ gk ++ ":"%byte :: gx) ++ tail).
    { rewrite <- !app_assoc. exact Hs1. }
    assert (Hcolon : parse_whitespace json_str (length pre + length gk) = length (pre ++ gk)).
    { rewrite <- length_app. apply (ws_at json_str _ _ _ Hs2). reflexivity. }
    apply (entries_more json_str (length pre) k (length pre + length gk)
             (parse_fuel json_str) x
             (length (pre ++ gk ++ [":"%byte]) + length gx)).
    + rewrite (size_app json_str pre _ Hs1), Ek. simpl. lia.
    + rewrite Ek in Hs1. now rewrite (at_app json_str pre x22 _ Hs1).
    + apply (parse_string_generated json_str char_is_signed pre k _ Hs1 Hk).
    + rewrite Hcolon, (size_app json_str _ _ Hs2). simpl. lia.
    + rewrite Hcolon. apply (at_app json_str _ _ _ Hs2).
    + rewrite Hcolon.
      replace (S (length (pre ++ gk))) with (length (pre ++ gk ++ [":"%byte]))
        by (rewrite !length_app; simpl; lia).
      apply (Hx _ tail Hs3 Hend).
    + replace (length (pre ++ gk ++ [":"%byte]) + length gx)%nat
        with (length (pre ++ gk ++ ":"%byte :: gx))
        by (rewrite !length_app; simpl; rewrite length_app; simpl; lia).
      destruct o as [|[k' x'] o].
      * (* the closing brace follows *)
        cbn [map] in *. subst tail.
        rewrite (skip_separator_stay _ "}"%byte post Hs4 eq_refl ltac:(discriminate)).
        replace (length pre + (length (gk ++ ":"%byte :: gx) + 0))%nat
          with (length (pre ++ gk ++ ":"%byte :: gx))
          by (rewrite !length_app; simpl; lia).
        constructor.
      * (* a comma and the next entry follow *)
        cbn [map] in *.
        set (more := join ","%byte (entry_text char_is_signed (k', x')
                                     :: map (entry_text char_is_signed) o)) in *.
        subst tail.
        assert (Hmore : exists rest, more = x22 :: rest).
        { subst more. destruct (generate_string_head k') as [rk' Ek'].
          destruct (map (entry_text char_is_signed) o);
            cbn [join]; unfold entry_text; cbn [fst snd]; rewrite Ek'; simpl; eauto. }
        destruct Hmore as [rest Hmore].
        rewrite (skip_separator_comma (pre ++ gk ++ ":"%byte :: gx) x22
                   (rest ++ "}"%byte :: post));
          [|rewrite Hs4, Hmore; reflexivity|reflexivity].
        replace (S (length (pre ++ gk ++ ":"%byte :: gx)))
          with (length (pre ++ gk ++ ":"%byte :: gx ++ [","%byte]))
          by (rewrite !length_app; simpl; rewrite !length_app; simpl; lia).
        replace (length pre + (length (gk ++ ":"%byte :: gx) + S (length more)))%nat
          with (length (pre ++ gk ++ ":"%byte :: gx ++ [","%byte]) + length more)%nat
          by (rewrite !length_app; simpl; rewrite !length_app; simpl; lia).
        apply (IH _ post). fold more.
        rewrite Hs4. rewrite <- !app_assoc. cbn [app]. rewrite <- !app_assoc. reflexivity.
Qed.
End GeneratedTexts.

(** ** The round trip on the trees that avoid the defective escapes *)

Lemma parse_value_generated (char_is_signed : bool) (node : Node) :
  roundtrip_node char_is_signed node ->
  forall json_str, reads json_str char_is_signed node.
Proof.
  induction node as [|b|n|f|s|a IH|o IH] using Node_nested_ind;
    intros Hrt json_str pre post Hs Hend;
    destruct (parse_fuel_S json_str) as [fuel Hfuel].
  - (* Null *)
    rewrite Hfuel, parse_value_dispatch;
      [|rewrite (size_app json_str pre _ Hs); simpl; lia
       |now rewrite (at_app json_str pre "n"%byte _ Hs)].
    rewrite (at_app json_str pre "n"%byte _ Hs). cbv zeta.
    change (chr_eqb "n"%byte "n"%byte) with true. cbv iota.
    apply (parse_null_here json_str pre post Hs).
  - (* Boolean *)
    destruct b.
    + rewrite Hfuel, parse_value_dispatch;
        [|rewrite (size_app json_str pre _ Hs); simpl; lia
         |now rewrite (at_app json_str pre "t"%byte _ Hs)].
      rewrite (at_app json_str pre "t"%byte _ Hs). cbv zeta.
      change (chr_eqb "t"%byte "n"%byte) with false.
      change (chr_eqb "t"%byte "t"%byte) with true. cbv iota.
      apply (parse_true_here json_str pre post Hs).
    + rewrite Hfuel, parse_value_dispatch;
        [|rewrite (size_app json_str pre _ Hs); simpl; lia
         |now rewrite (at_app json_str pre "f"%byte _ Hs)].
      rewrite (at_app json_str pre "f"%byte _ Hs). cbv zeta.
      change (chr_eqb "f"%byte "n"%byte) with false.
      change (chr_eqb "f"%byte "t"%byte) with false.
      change (chr_eqb "f"%byte "f"%byte) with true. cbv iota.
      apply (parse_false_here json_str pre post Hs).
  - (* Integer *)
    cbn [generate] in *.
    destruct (to_string_head n) as (c & r & E & Hc).
    destruct (number_head c Hc) as (Hsp & _ & _ & T1 & T2 & T3 & T4 & T5 & T6).
    assert (Hs' : json_str = pre ++ c :: r ++ post) by (rewrite Hs, E; reflexivity).
    rewrite Hfuel, parse_value_dispatch;
      [|rewrite (size_app json_str pre _ Hs'); simpl; lia
       |now rewrite (at_app json_str pre c _ Hs')].
    rewrite (at_app json_str pre c _ Hs'). cbv zeta.
    rewrite T1, T2, T3, T4, T5, T6.
    apply (parse_number_integer json_str pre n post Hs Hrt Hend).
  - (* Float *)
    destruct Hrt.
  - (* String *)
    cbn [generate roundtrip_node] in *.
    destruct (generate_string_head char_is_signed s) as [r E].
    assert (Hs' : json_str = pre ++ x22 :: r ++ post) by (rewrite Hs, E; reflexivity).
    rewrite Hfuel, parse_value_on_quote;
      [|rewrite (size_app json_str pre _ Hs'); simpl; lia
       |apply (at_app json_str pre x22 _ Hs')].
    apply (parse_string_generated json_str char_is_signed pre s post Hs Hrt).
  - (* Array *)
    apply roundtrip_Array in Hrt.
    assert (Hall : List.Forall (fun x => roundtrip_node char_is_signed x
                                         /\ reads json_str char_is_signed x) a).
    { clear Hs. induction a as [|x a IHa]; [constructor|].
      apply Forall_inv in IH as Hx. apply Forall_inv_tail in IH.
      apply Forall_inv in Hrt as Hrx. apply Forall_inv_tail in Hrt.
      constructor; auto. }
    rewrite generate_Array_join in *.
    set (body := join ","%byte (map (generate char_is_signed) a)) in *.
    assert (Hs1 : json_str = pre ++ "["%byte :: body ++ "]"%byte :: post).
    { rewrite Hs. cbn [app]. now rewrite <- app_assoc. }
    assert (Hs2 : json_str = (pre ++ ["["%byte]) ++ body ++ "]"%byte :: post)
      by (rewrite <- app_assoc; exact Hs1).
    assert (Hs3 : json_str = ((pre ++ ["["%byte]) ++ body) ++ "]"%byte :: post)
      by (rewrite <- app_assoc; exact Hs2).
    pose proof (array_items_generated json_str char_is_signed a Hall _ post Hs2) as Hitems.
    fold body in Hitems.
    pose proof (parse_value_array json_str (length pre) a
                  (length (pre ++ ["["%byte]) + length body)) as Hfwd.
    cbv zeta in Hfwd.
    rewrite (ws_at json_str pre _ _ Hs1 eq_refl) in Hfwd.
    replace (S (length pre)) with (length (pre ++ ["["%byte])) in Hfwd
      by (rewrite length_app; simpl; lia).
    destruct Hfwd as [Hfwd _]; [| |exact Hitems|].
    + rewrite (size_app json_str pre _ Hs1). simpl. lia.
    + apply (at_app json_str pre _ _ Hs1).
    + rewrite Hfwd.
      * f_equal. cbn [app length]. rewrite !length_app. simpl. lia.
      * rewrite (size_app json_str _ _ Hs3), !length_app. simpl. lia.
      * rewrite <- length_app. apply (at_app json_str _ _ _ Hs3).
  - (* Object *)
    apply roundtrip_Object in Hrt as [Hok Hrt].
    assert (Hall : List.Forall
                     (fun kv => List.Forall (roundtrip_char char_is_signed) (fst kv)
                                /\ roundtrip_node char_is_signed (snd kv)
                                /\ reads json_str char_is_signed (snd kv)) o).
    { clear Hs Hok. induction o as [|kv o IHo]; [constructor|].
      apply Forall_inv in IH as Hx. apply Forall_inv_tail in IH.
      pose proof (Forall_inv Hrt) as [Hk Hrx]. apply Forall_inv_tail in Hrt.
      constructor; auto. }
    rewrite generate_Object_join in *.
    set (body := join ","%byte (map (entry_text char_is_signed) o)) in *.
    assert (Hs1 : json_str = pre ++ "{"%byte :: body ++ "}"%byte :: post).
    { rewrite Hs. cbn [app]. now rewrite <- app_assoc. }
    assert (Hs2 : json_str = (pre ++ ["{"%byte]) ++ body ++ "}"%byte :: post)
      by (rewrite <- app_assoc; exact Hs1).
    assert (Hs3 : json_str = ((pre ++ ["{"%byte]) ++ body) ++ "}"%byte :: post)
      by (rewrite <- app_assoc; exact Hs2).
    pose proof (object_entries_generated json_str char_is_signed o Hall _ post Hs2) as Hentries.
    fold body in Hentries.
    pose proof (parse_value_object json_str (length pre) o
                  (length (pre ++ ["{"%byte]) + length body)) as Hfwd.
    cbv zeta in Hfwd.
    rewrite (ws_at json_str pre _ _ Hs1 eq_refl) in Hfwd.
    replace (S (length pre)) with (length (pre ++ ["{"%byte])) in Hfwd
      by (rewrite length_app; simpl; lia).
    rewrite Hfwd.
    + rewrite (map_of_list_sorted o Hok).
      f_equal. cbn [app length]. rewrite !length_app. simpl. lia.
    + rewrite (size_app json_str pre _ Hs1). simpl. lia.
    + apply (at_app json_str pre _ _ Hs1).
    + exact Hentries.
    + rewrite (size_app json_str _ _ Hs3), !length_app. simpl. lia.
    + rewrite <- length_app. apply (at_app json_str _ _ _ Hs3).
Qed.

(** On every tree without [Float] whose strings and keys avoid the bytes
    [0x0B] and [0x0E] to [0x1F] (and, where [char] is signed, the bytes
    from [0x80] on), parsing the generated text gives the tree back. *)
Theorem generate_parse_roundtrip (char_is_signed : bool) (node : Node) :
  roundtrip_node char_is_signed node ->
  parse (generate char_is_signed node) = Returns (value node).
Proof.
  intros Hrt.
  set (json_str := generate char_is_signed node).
  destruct (generate_head char_is_signed node Hrt) as (c & r & E & Hsp & _).
  assert (Hs : json_str = [] ++ generate char_is_signed node ++ [])
    by (now rewrite app_nil_r).
  pose proof (parse_value_generated char_is_signed node Hrt json_str [] [] Hs I) as Hv.
  cbn [length Nat.add] in Hv. fold json_str in Hv.
  assert (Hs0 : json_str = [] ++ c :: r) by exact E.
  unfold parse, JsonParser_parse.
  pose proof (ws_at json_str [] c r Hs0 Hsp) as Hw. cbn [length] in Hw.
  rewrite Hw, Hv. rewrite parse_whitespace_at_end by (unfold size; lia).
  unfold size. rewrite Nat.eqb_refl. reflexivity.
Qed.

Example generate_parse_roundtrip_nested :
  parse (generate true
           (Object [(text "k", Array [Null; Boolean true; Integer (-12);
                                      String [x09; x22; "a"%byte; x07]]);
                    (text "l", Object [])]))
  = Returns (value
      (Object [(text "k", Array [Null; Boolean true; Integer (-12);
                                 String [x09; x22; "a"%byte; x07]]);
               (text "l", Object [])])).
Proof.
  apply generate_parse_roundtrip.
  cbn [roundtrip_node]. split.
  - repeat constructor.
  - repeat split; repeat constructor; vm_compute; try discriminate; tauto.
Qed.

(** Nothing but the exceptions of [std::stoi] in [parse_unicode] leaves
    the parser: [parse_number] catches what [std::stoll] and [std::stod]
    throw. *)
Section Exceptions.
Variable json_str : std_string.

Lemma stoi16_exception (str : std_string) x :
  stoi16 str = inr x -> conversion_error x.
Proof.
  unfold stoi16, conversion_error. destruct (read_sign _) as [neg s0].
  destruct (take_while isxdigit (skip_0x s0)); [intros [= <-]; now left|].
  case_if; [discriminate|]. intros [= <-]. now right.
Qed.

Lemma catch_conversion_no_raise {A : Type} (r : A + exception)
    (k : A -> outcome (expected Value JsonError)) pos :
  (forall what, r <> inr (runtime_error what)) ->
  (forall a, raises_only_conversion_errors (k a)) ->
  raises_only_conversion_errors (catch_conversion r k pos).
Proof.
  intros Hr Hk. destruct r as [a|[what| |]]; simpl; auto. now destruct (Hr what).
Qed.

Lemma parse_number_raises pos :
  raises_only_conversion_errors (parse_number json_str pos).
Proof.
  unfold parse_number. cbv zeta.
  repeat (case_if; try exact I);
    apply catch_conversion_no_raise;
    (apply stoll_no_runtime_error || apply stod_no_runtime_error || (intros; exact I)).
Qed.

Lemma parse_string_loop_raises fuel : forall pos str,
  raises_only_conversion_errors (parse_string_loop json_str fuel pos str).
Proof.
  induction fuel as [|fuel IH]; intros pos str; [exact I|].
  cbn [parse_string_loop]. case_if; [|exact I]. case_if; [|apply IH].
  case_if; [exact I|]. destruct (escape_mappping _); [apply IH|].
  case_if; [|exact I]. unfold parse_unicode. case_if; [apply IH|].
  destruct (stoi16 _) as [n|x] eqn:Es; [apply IH|].
  simpl. now apply stoi16_exception in Es.
Qed.

Lemma parse_string_raises pos :
  raises_only_conversion_errors (parse_string json_str pos).
Proof.
  unfold parse_string. case_if; [exact I|].
  pose proof (parse_string_loop_raises
                (S (size json_str - S (parse_whitespace json_str pos)))
                (S (parse_whitespace json_str pos)) []) as H.
  destruct (parse_string_loop _ _ _ _) as [[str|e] p| |]; try exact I; try exact H.
  now case_if.
Qed.

Lemma parse_mutual_raises fuel : forall pos,
  raises_only_conversion_errors (parse_value json_str fuel pos)
  /\ raises_only_conversion_errors (parse_array json_str fuel pos)
  /\ (forall array, raises_only_conversion_errors (parse_array_loop json_str fuel pos array))
  /\ raises_only_conversion_errors (parse_object json_str fuel pos)
  /\ (forall object, raises_only_conversion_errors (parse_object_loop json_str fuel pos object)).
Proof.
  induction fuel as [|fuel IH]; intros pos; [repeat split; intros; exact I|].
  split; [|split; [|split; [|split]]].
  - cbn [parse_value]. case_if; [exact I|].
    repeat case_if; try apply IH; try apply parse_string_raises;
      try apply parse_number_raises;
      unfold parse_null, parse_true, parse_false; now case_if.
  - cbn [parse_array]. case_if; [exact I|].
    pose proof (proj1 (proj2 (proj2 (IH (S (parse_whitespace json_str pos))))) []) as H.
    destruct (parse_array_loop _ _ _ _) as [[a|e] p| |]; try exact I; try exact H.
    now case_if.
  - intros array. cbn [parse_array_loop]. case_if; [|exact I].
    pose proof (proj1 (IH pos)) as H.
    destruct (parse_value _ _ _) as [[v|e] p| |]; try exact I; try exact H.
    apply IH.
  - cbn [parse_object]. case_if; [exact I|].
    pose proof (proj2 (proj2 (proj2 (proj2 (IH (S (parse_whitespace json_str pos)))))) []) as H.
    destruct (parse_object_loop _ _ _ _) as [[o|e] p| |]; try exact I; try exact H.
    now case_if.
  - intros object. cbn [parse_object_loop]. case_if; [|exact I].
    pose proof (parse_string_raises pos) as Hk.
    destruct (parse_string _ _) as [[k|e] p| |]; try exact I; try exact Hk.
    destruct k; try exact I. case_if; [exact I|].
    pose proof (proj1 (IH (S (parse_whitespace json_str p)))) as H.
    destruct (parse_value _ _ _) as [[v|e] p'| |]; try exact I; try exact H.
    apply IH.
Qed.
End Exceptions.

Lemma parse_throws_conversion_errors (json_str : std_string) x :
  parse json_str = Throws x -> conversion_error x.
Proof.
  unfold parse, JsonParser_parse.
  pose proof (proj1 (parse_mutual_raises json_str (parse_fuel json_str)
                      (parse_whitespace json_str 0))) as H.
  destruct (parse_value _ _ _) as [[v|e] p| |]; try discriminate.
  - now case_if.
  - now intros [= <-].
Qed.

(** * Further properties of the parser and the generator *)

Lemma parse_value_from_blank (json_str : std_string) fuel pos :
  parse_value json_str fuel pos
  = parse_value json_str fuel (parse_whitespace json_str pos).
Proof.
  destruct fuel as [|fuel]; [reflexivity|].
  cbn [parse_value]. now rewrite parse_whitespace_idem.
Qed.

Lemma JsonParser_parse_enough (json_str : std_string) (fuel : nat) :
  (parse_fuel json_str <= fuel)%nat ->
  JsonParser_parse json_str fuel = JsonParser_parse json_str (parse_fuel json_str).
Proof.
  intros Hfuel. unfold JsonParser_parse.
  pose proof (parse_whitespace_size json_str 0 (Nat.le_0_l _)) as Hq.
  destruct (parse_value_mono json_str _ _ (parse_whitespace json_str 0) Hfuel) as [E|E].
  - now apply parse_value_enough in E.
  - now rewrite E.
Qed.

(** X1: the parser terminates on every input.  With the fuel
    [3 * size + 2] of [parse], or with any larger amount, the member
    function [parse] returns or throws, and its outcome does not depend
    on the amount: every trip of a loop and every nested call moves the
    cursor forward. *)
Theorem parse_terminates (json_str : std_string) (fuel : nat) :
  (parse_fuel json_str <= fuel)%nat ->
  JsonParser_parse json_str fuel <> OutOfFuel
  /\ JsonParser_parse json_str fuel = JsonParser_parse json_str (parse_fuel json_str).
Proof.
  intros Hfuel. rewrite (JsonParser_parse_enough json_str fuel Hfuel).
  split; [|reflexivity].
  pose proof (parse_fuel_enough json_str) as H. unfold parse in H.
  intros E. now rewrite E in H.
Qed.

Lemma parse_terminates_witness :
  JsonParser_parse (json_text "[1, {'a': [2]}]") 100 <> OutOfFuel
  /\ JsonParser_parse (json_text "[1, {'a': [2]}]") 100
     = JsonParser_parse (json_text "[1, {'a': [2]}]")
         (parse_fuel (json_text "[1, {'a': [2]}]")).
Proof.
  apply (parse_terminates (json_text "[1, {'a': [2]}]") 100).
  vm_compute. lia.
Defined.

Lemma parse_value_advances_any_fuel (json_str : std_string) (fuel pos : nat) v (pos' : nat) :
  (pos <= size json_str)%nat ->
  parse_value json_str fuel pos = Done (value v) pos' ->
  (pos < pos' <= size json_str)%nat.
Proof.
  intros Hpos Hv.
  pose proof (parse_value_any_fuel json_str fuel pos _ Hpos Hv ltac:(discriminate)) as E.
  pose proof (proj1 (parse_mutual_progress json_str (parse_fuel json_str) pos Hpos)) as H.
  rewrite E in H. apply H. unfold parse_fuel, size. lia.
Qed.

(** X2: a value consumes input.  When the value production, started
    anywhere within the text, returns a value, the cursor has moved past
    at least one character after the leading white space, and it has not
    left the text. *)
Theorem parse_value_consumes (json_str : std_string) (fuel pos : nat) v (pos' : nat) :
  (pos <= size json_str)%nat ->
  parse_value json_str fuel pos = Done (value v) pos' ->
  (parse_whitespace json_str pos < pos' <= size json_str)%nat.
Proof.
  intros Hpos Hv. rewrite parse_value_from_blank in Hv.
  apply (parse_value_advances_any_fuel json_str fuel _ v); [|exact Hv].
  now apply parse_whitespace_size.
Qed.

Lemma parse_value_consumes_witness :
  (parse_whitespace (json_text "[ 12 ]") 1 < 4 <= size (json_text "[ 12 ]"))%nat.
Proof.
  apply (parse_value_consumes (json_text "[ 12 ]") 1 1 (Integer 12) 4).
  - vm_compute. lia.
  - reflexivity.
Defined.
(** ** The outcome depends only on the text from the cursor on *)

Section Shift.
Variables pre s : std_string.
Implicit Types (pos fuel : nat).

Lemma size_shift : size (pre ++ s) = (length pre + size s)%nat.
Proof. unfold size. apply length_app. Qed.

Lemma at_shift pos : at_ (pre ++ s) (length pre + pos) = at_ s pos.
Proof. unfold at_. apply app_nth2_plus. Qed.

Lemma at_shift_S pos : at_ (pre ++ s) (S (length pre + pos)) = at_ s (S pos).
Proof. rewrite plus_n_Sm. apply at_shift. Qed.

Lemma skip_while_shift p (rest : std_string) n pos :
  skip_while p rest (n + pos) = (n + skip_while p rest pos)%nat.
Proof.
  revert pos. induction rest as [|c rest IH]; intros pos; simpl; [reflexivity|].
  destruct (p c); [|reflexivity]. rewrite plus_n_Sm. apply IH.
Qed.

Lemma skip_while_drop_shift p pos :
  skip_while p (drop (length pre + pos) (pre ++ s)) (length pre + pos)
  = (length pre + skip_while p (drop pos s) pos)%nat.
Proof. rewrite drop_app_add. apply skip_while_shift. Qed.

Lemma parse_whitespace_shift pos :
  parse_whitespace (pre ++ s) (length pre + pos)
  = (length pre + parse_whitespace s pos)%nat.
Proof. apply skip_while_drop_shift. Qed.

Lemma skip_digits_shift pos :
  skip_digits (pre ++ s) (length pre + pos) = (length pre + skip_digits s pos)%nat.
Proof. apply skip_while_drop_shift. Qed.

Lemma substr_shift pos n :
  substr (pre ++ s) (length pre + pos) n = substr s pos n.
Proof. unfold substr. now rewrite drop_app_add. Qed.

Lemma eqb_shift pos : (length pre + pos =? size (pre ++ s))%nat = (pos =? size s)%nat.
Proof.
  rewrite size_shift. destruct (Nat.eqb_spec pos (size s)) as [->|H].
  - apply Nat.eqb_refl.
  - apply Nat.eqb_neq. lia.
Qed.

Lemma ltb_shift pos : (length pre + pos <? size (pre ++ s))%nat = (pos <? size s)%nat.
Proof.
  rewrite size_shift. destruct (Nat.ltb_spec pos (size s)) as [H|H].
  - apply Nat.ltb_lt. lia.
  - apply Nat.ltb_ge. lia.
Qed.

Lemma parse_null_shift pos :
  parse_null (pre ++ s) (length pre + pos) = shift (length pre) (parse_null s pos).
Proof.
  unfold parse_null. rewrite parse_whitespace_shift, substr_shift.
  case_if; simpl; f_equal; lia.
Qed.

Lemma parse_true_shift pos :
  parse_true (pre ++ s) (length pre + pos) = shift (length pre) (parse_true s pos).
Proof.
  unfold parse_true. rewrite parse_whitespace_shift, substr_shift.
  case_if; simpl; f_equal; lia.
Qed.

Lemma parse_false_shift pos :
  parse_false (pre ++ s) (length pre + pos) = shift (length pre) (parse_false s pos).
Proof.
  unfold parse_false. rewrite parse_whitespace_shift, substr_shift.
  case_if; simpl; f_equal; lia.
Qed.

Lemma catch_conversion_shift {A : Type} (r : A + exception)
    (k k' : A -> outcome (expected Value JsonError)) n pos :
  (forall a, k' a = shift n (k a)) ->
  catch_conversion r k' (n + pos) = shift n (catch_conversion r k pos).
Proof. intros Hk. destruct r as [a|[what| |]]; simpl; auto. Qed.

Lemma sub_shift n a b : (n + a - (n + b) = a - b)%nat.
Proof. lia. Qed.

Ltac shift_norm :=
  repeat first
    [ rewrite at_shift | rewrite eqb_shift | rewrite ltb_shift
    | rewrite skip_digits_shift | rewrite substr_shift | rewrite sub_shift
    | rewrite parse_whitespace_shift | rewrite plus_n_Sm ].

Lemma parse_number_shift pos :
  parse_number (pre ++ s) (length pre + pos) = shift (length pre) (parse_number s pos).
Proof.
  unfold parse_number. cbv zeta. shift_norm.
  set (q := parse_whitespace s pos).
  case_if; [reflexivity|].
  replace (if chr_eqb (at_ s q) "-"%byte then (length pre + S q)%nat else (length pre + q)%nat)
    with (length pre + (if chr_eqb (at_ s q) "-"%byte then S q else q))%nat
    by (now destruct (chr_eqb (at_ s q) "-"%byte)).
  set (e1 := if chr_eqb (at_ s q) "-"%byte then S q else q).
  shift_norm. case_if; [reflexivity|].
  repeat (shift_norm; cbv beta iota;
          first [ reflexivity
                | apply catch_conversion_shift; intros; reflexivity
                | case_if ]).
Qed.

Lemma parse_unicode_shift pos :
  parse_unicode (pre ++ s) (length pre + pos) = shift (length pre) (parse_unicode s pos).
Proof.
  unfold parse_unicode. rewrite parse_whitespace_shift, size_shift.
  set (q := parse_whitespace s pos).
  replace (length pre + size s <=? length pre + q + 4)%nat with (size s <=? q + 4)%nat
    by (destruct (Nat.leb_spec (size s) (q + 4));
        symmetry; [apply Nat.leb_le|apply Nat.leb_gt]; lia).
  case_if; [reflexivity|].
  replace (length pre + q + 1)%nat with (length pre + (q + 1))%nat by lia.
  rewrite substr_shift.
  destruct (stoi16 _) as [n|x]; simpl; [f_equal; lia|reflexivity].
Qed.

Lemma parse_string_loop_shift fuel : forall pos str,
  parse_string_loop (pre ++ s) fuel (length pre + pos) str
  = shift (length pre) (parse_string_loop s fuel pos str).
Proof.
  induction fuel as [|fuel IH]; intros pos str; [reflexivity|].
  cbn [parse_string_loop]. shift_norm.
  case_if; [|reflexivity]. case_if; [|apply IH].
  case_if; [simpl; f_equal; lia|].
  destruct (escape_mappping _); [apply IH|].
  case_if; [|simpl; f_equal; lia].
  rewrite parse_unicode_shift.
  destruct (parse_unicode s (S pos)) as [c p| |]; simpl; try reflexivity.
  rewrite plus_n_Sm. apply IH.
Qed.

Lemma parse_string_shift pos :
  parse_string (pre ++ s) (length pre + pos) = shift (length pre) (parse_string s pos).
Proof.
  unfold parse_string. shift_norm.
  case_if; [reflexivity|].
  replace (size (pre ++ s) - (length pre + S (parse_whitespace s pos)))%nat
    with (size s - S (parse_whitespace s pos))%nat by (rewrite size_shift; lia).
  rewrite parse_string_loop_shift.
  destruct (parse_string_loop s _ _ _) as [[str|e] p| |]; simpl; try reflexivity.
  shift_norm. case_if; simpl; f_equal; lia.
Qed.

Lemma parse_mutual_shift fuel : forall pos,
  parse_value (pre ++ s) fuel (length pre + pos)
  = shift (length pre) (parse_value s fuel pos)
  /\ parse_array (pre ++ s) fuel (length pre + pos)
     = shift (length pre) (parse_array s fuel pos)
  /\ (forall array, parse_array_loop (pre ++ s) fuel (length pre + pos) array
                    = shift (length pre) (parse_array_loop s fuel pos array))
  /\ parse_object (pre ++ s) fuel (length pre + pos)
     = shift (length pre) (parse_object s fuel pos)
  /\ (forall object, parse_object_loop (pre ++ s) fuel (length pre + pos) object
                     = shift (length pre) (parse_object_loop s fuel pos object)).
Proof.
  induction fuel as [|fuel IH]; intros pos; [repeat split|].
  split; [|split; [|split; [|split]]].
  - cbn [parse_value]. cbv zeta. shift_norm. case_if; [reflexivity|].
    repeat case_if;
      auto using parse_null_shift, parse_true_shift, parse_false_shift,
                 parse_string_shift, parse_number_shift; apply IH.
  - cbn [parse_array]. shift_norm. case_if; [reflexivity|].
    rewrite (proj1 (proj2 (proj2 (IH _)))).
    destruct (parse_array_loop s _ _ _) as [[a|e] p| |]; simpl; try reflexivity.
    shift_norm. case_if; simpl; f_equal; lia.
  - intros array. cbn [parse_array_loop]. shift_norm. case_if; [|reflexivity].
    rewrite (proj1 (IH _)).
    destruct (parse_value s _ _) as [[v|e] p| |]; simpl; try reflexivity.
    shift_norm.
    replace (if (parse_whitespace s p <? size s)%nat
                && chr_eqb (at_ s (parse_whitespace s p)) ","%byte
             then (length pre + S (parse_whitespace s p))%nat
             else (length pre + parse_whitespace s p)%nat)
      with (length pre + (if (parse_whitespace s p <? size s)%nat
                             && chr_eqb (at_ s (parse_whitespace s p)) ","%byte
                          then S (parse_whitespace s p)
                          else parse_whitespace s p))%nat
      by (now case_if).
    shift_norm. apply IH.
  - cbn [parse_object]. shift_norm. case_if; [reflexivity|].
    rewrite (proj2 (proj2 (proj2 (proj2 (IH _))))).
    destruct (parse_object_loop s _ _ _) as [[o|e] p| |]; simpl; try reflexivity.
    shift_norm. case_if; simpl; f_equal; lia.
  - intros object. cbn [parse_object_loop]. shift_norm. case_if; [|reflexivity].
    rewrite parse_string_shift.
    destruct (parse_string s pos) as [[k|e] p| |]; simpl; try reflexivity.
    destruct k; try reflexivity.
    shift_norm. case_if; [reflexivity|].
    rewrite (proj1 (IH _)).
    destruct (parse_value s _ _) as [[v|e] p'| |]; simpl; try reflexivity.
    shift_norm.
    replace (if (parse_whitespace s p' <? size s)%nat
                && chr_eqb (at_ s (parse_whitespace s p')) ","%byte
             then (length pre + S (parse_whitespace s p'))%nat
             else (length pre + parse_whitespace s p')%nat)
      with (length pre + (if (parse_whitespace s p' <? size s)%nat
                             && chr_eqb (at_ s (parse_whitespace s p')) ","%byte
                          then S (parse_whitespace s p')
                          else parse_whitespace s p'))%nat
      by (now case_if).
    shift_norm. apply IH.
Qed.
End Shift.

(** X3: a value is parsed the same wherever it stands.  With any text
    [pre] put in front of [s], every production started [length pre]
    characters further on behaves as it does on [s] alone, with every
    cursor moved by [length pre]: what lies before the cursor is never
    read. *)
Theorem parse_value_position_independent (pre s : std_string) (fuel pos : nat) :
  parse_value (pre ++ s) fuel (length pre + pos)
  = shift (length pre) (parse_value s fuel pos)
  /\ parse_string (pre ++ s) (length pre + pos)
     = shift (length pre) (parse_string s pos)
  /\ parse_number (pre ++ s) (length pre + pos)
     = shift (length pre) (parse_number s pos).
Proof.
  split; [apply parse_mutual_shift|].
  split; [apply parse_string_shift|apply parse_number_shift].
Qed.

Lemma skip_while_blank (p : char -> bool) (w rest : std_string) pos :
  List.Forall (fun c => p c = true) w ->
  skip_while p (w ++ rest) pos = skip_while p rest (pos + length w).
Proof.
  revert pos. induction w as [|c w IH]; intros pos Hw; simpl.
  - now rewrite Nat.add_0_r.
  - rewrite (Forall_inv Hw), IH by now apply Forall_inv_tail in Hw.
    f_equal. lia.
Qed.

Lemma parse_whitespace_blank (w s : std_string) :
  blank w ->
  parse_whitespace (w ++ s) 0 = (length w + parse_whitespace s 0)%nat.
Proof.
  intros Hw. unfold parse_whitespace. rewrite !drop_0.
  rewrite (skip_while_blank isspace w s 0 Hw). simpl.
  rewrite <- (Nat.add_0_r (length w)) at 1. apply skip_while_shift.
Qed.

Lemma parse_fuel_app (w s : std_string) :
  (parse_fuel s <= parse_fuel (w ++ s))%nat.
Proof. unfold parse_fuel. rewrite length_app. lia. Qed.

Lemma parse_leading_blank (w s : std_string) :
  blank w -> parse (w ++ s) = parse s.
Proof.
  intros Hw. unfold parse.
  rewrite <- (JsonParser_parse_enough s _ (parse_fuel_app w s)).
  unfold JsonParser_parse.
  rewrite (parse_whitespace_blank w s Hw).
  rewrite (proj1 (parse_mutual_shift w s _ _)).
  destruct (parse_value s _ _) as [[v|e] p| |]; simpl; try reflexivity.
  rewrite parse_whitespace_shift, eqb_shift. now case_if.
Qed.

(** X4: white space in front of a text changes nothing: the text with
    any number of leading blanks, tabs, line feeds, carriage returns,
    vertical tabs or form feeds parses to the same value, the same error
    or the same exception. *)
Theorem parse_skips_leading_whitespace (w json_str : std_string) :
  blank w -> parse (w ++ json_str) = parse json_str.
Proof. apply parse_leading_blank. Qed.

Lemma parse_skips_leading_whitespace_witness :
  parse ([x20; x0a; x09] ++ json_text "[1, 2") = parse (json_text "[1, 2").
Proof.
  apply (parse_skips_leading_whitespace [x20; x0a; x09] (json_text "[1, 2")).
  repeat constructor.
Defined.

(** X5: a text of white space only, the empty text included, holds no
    value: [parse] fails with [parse_expect_value]. *)
Theorem parse_blank_expects_value (json_str : std_string) :
  blank json_str -> parse json_str = Returns (unexpected parse_expect_value).
Proof.
  intros Hw. rewrite <- (app_nil_r json_str).
  rewrite (parse_leading_blank json_str [] Hw). reflexivity.
Qed.

Lemma parse_blank_expects_value_witness :
  parse [x20; x0d; x0a; x09] = Returns (unexpected parse_expect_value).
Proof.
  apply (parse_blank_expects_value [x20; x0d; x0a; x09]).
  repeat constructor.
Defined.

(** ** Texts that cannot start a value *)

(** X6: a text whose first character after the leading white space is
    none of [n], [t], [f], the quote, [[], [{], [-] and the digits fails
    with [parse_invalid_value], whatever follows: a leading [+] or [.]
    is no number. *)
Theorem parse_rejects_bad_start (w : std_string) (c : char) (rest : std_string) :
  blank w -> isspace c = false -> starts_value c = false ->
  parse (w ++ c :: rest) = Returns (unexpected parse_invalid_value).
Proof.
  intros Hw Hsp Hc. rewrite (parse_leading_blank w _ Hw).
  unfold starts_value in Hc. bool_hyps.
  unfold parse, JsonParser_parse, parse_fuel.
  assert (Hws : parse_whitespace (c :: rest) 0 = 0%nat).
  { unfold parse_whitespace. simpl. now rewrite Hsp. }
  rewrite Hws. replace (3 * length (c :: rest) + 2)%nat with (S (3 * length (c :: rest) + 1)) by lia.
  cbn [parse_value]. rewrite Hws. cbn [size length Nat.eqb at_ nth].
  assert (H0' : chr_eqb c "0"%byte = false).
  { apply chr_eqb_false. intros ->. discriminate. }
  repeat match goal with H : chr_eqb c _ = false |- _ => rewrite H end.
  unfold parse_number. rewrite Hws. cbn [size length Nat.eqb at_ nth].
  repeat match goal with H : chr_eqb c _ = false |- _ => rewrite H end.
  cbn [Nat.eqb nth]. rewrite ?H0', ?H0. reflexivity.
Qed.

Lemma parse_rejects_bad_start_witness :
  parse ([x20] ++ "+"%byte :: text "1") = Returns (unexpected parse_invalid_value).
Proof.
  apply (parse_rejects_bad_start [x20] "+"%byte (text "1")).
  - repeat constructor.
  - reflexivity.
  - reflexivity.
Defined.

(** ** Where an exception can come from *)

Section ExceptionOrigin.
Variable json_str : std_string.

Lemma catch_conversion_raises_with {A : Type} (P : exception -> Prop) (r : A + exception)
    (k : A -> outcome (expected Value JsonError)) pos :
  (forall what, r <> inr (runtime_error what)) ->
  (forall a, raises_with P (k a)) ->
  raises_with P (catch_conversion r k pos).
Proof.
  intros Hr Hk. destruct r as [a|[what| |]]; simpl; auto. now destruct (Hr what).
Qed.

Lemma parse_number_never_raises pos : raises_with (unconvertible_escape json_str) (parse_number json_str pos).
Proof.
  unfold parse_number. cbv zeta.
  repeat (case_if; try exact I);
    apply catch_conversion_raises_with;
    (apply stoll_no_runtime_error || apply stod_no_runtime_error || (intros; exact I)).
Qed.

Lemma parse_string_loop_raises_with fuel : forall pos str,
  raises_with (unconvertible_escape json_str) (parse_string_loop json_str fuel pos str).
Proof.
  induction fuel as [|fuel IH]; intros pos str; [exact I|].
  cbn [parse_string_loop]. case_if; [|exact I]. case_if; [|apply IH].
  case_if; [exact I|]. destruct (escape_mappping _); [apply IH|].
  case_if; [|exact I]. bool_hyps.
  match goal with
  | Hb : chr_eqb (at_ json_str pos) x5c = true,
    Hu : chr_eqb (at_ json_str (S pos)) "u"%byte = true |- _ =>
      rewrite (parse_unicode_at_u json_str (S pos)) by (assumption || lia);
      apply chr_eqb_true in Hb, Hu
  end.
  case_if; [apply IH|]. bool_hyps.
  destruct (stoi16 _) as [n|x] eqn:Es; [apply IH|].
  simpl. exists pos. split; [lia|]. split; [assumption|]. split; [assumption|].
  now replace (pos + 2)%nat with (S pos + 1)%nat by lia.
Qed.

Lemma parse_string_raises_with pos : raises_with (unconvertible_escape json_str) (parse_string json_str pos).
Proof.
  unfold parse_string. case_if; [exact I|].
  pose proof (parse_string_loop_raises_with
                (S (size json_str - S (parse_whitespace json_str pos)))
                (S (parse_whitespace json_str pos)) []) as H.
  destruct (parse_string_loop _ _ _ _) as [[str|e] p| |]; try exact I; try exact H.
  now case_if.
Qed.

Lemma parse_mutual_raises_with fuel : forall pos,
  raises_with (unconvertible_escape json_str) (parse_value json_str fuel pos)
  /\ raises_with (unconvertible_escape json_str) (parse_array json_str fuel pos)
  /\ (forall array, raises_with (unconvertible_escape json_str) (parse_array_loop json_str fuel pos array))
  /\ raises_with (unconvertible_escape json_str) (parse_object json_str fuel pos)
  /\ (forall object, raises_with (unconvertible_escape json_str) (parse_object_loop json_str fuel pos object)).
Proof.
  induction fuel as [|fuel IH]; intros pos; [repeat split; intros; exact I|].
  split; [|split; [|split; [|split]]].
  - cbn [parse_value]. case_if; [exact I|].
    repeat case_if; try apply IH; try apply parse_string_raises_with;
      try apply parse_number_never_raises;
      unfold parse_null, parse_true, parse_false; now case_if.
  - cbn [parse_array]. case_if; [exact I|].
    pose proof (proj1 (proj2 (proj2 (IH (S (parse_whitespace json_str pos))))) []) as H.
    destruct (parse_array_loop _ _ _ _) as [[a|e] p| |]; try exact I; try exact H.
    now case_if.
  - intros array. cbn [parse_array_loop]. case_if; [|exact I].
    pose proof (proj1 (IH pos)) as H.
    destruct (parse_value _ _ _) as [[v|e] p| |]; try exact I; try exact H.
    apply IH.
  - cbn [parse_object]. case_if; [exact I|].
    pose proof (proj2 (proj2 (proj2 (proj2 (IH (S (parse_whitespace json_str pos)))))) []) as H.
    destruct (parse_object_loop _ _ _ _) as [[o|e] p| |]; try exact I; try exact H.
    now case_if.
  - intros object. cbn [parse_object_loop]. case_if; [|exact I].
    pose proof (parse_string_raises_with pos) as Hk.
    destruct (parse_string _ _) as [[k|e] p| |]; try exact I; try exact Hk.
    destruct k; try exact I. case_if; [exact I|].
    pose proof (proj1 (IH (S (parse_whitespace json_str p)))) as H.
    destruct (parse_value _ _ _) as [[v|e] p'| |]; try exact I; try exact H.
    apply IH.
Qed.
End ExceptionOrigin.

Lemma parse_throws_origin (json_str : std_string) x :
  parse json_str = Throws x -> unconvertible_escape json_str x.
Proof.
  unfold parse, JsonParser_parse.
  pose proof (proj1 (parse_mutual_raises_with json_str (parse_fuel json_str)
                      (parse_whitespace json_str 0))) as H.
  destruct (parse_value _ _ _) as [[v|e] p| |]; try discriminate.
  - now case_if.
  - now intros [= <-].
Qed.

(** X7: the only exceptions that leave [parse] are those of the
    [std::stoi] call of [parse_unicode]: when [parse] throws [x], then [x]
    is [std::invalid_argument] or [std::out_of_range], and the text holds
    a backslash and a [u] followed by four characters on which [std::stoi]
    fails with [x].  So a text without a backslash never makes [parse]
    throw. *)
Theorem parse_throws_only_from_unicode_escape (json_str : std_string) :
  (forall x, parse json_str = Throws x ->
     (x = invalid_argument \/ x = out_of_range)
     /\ unconvertible_escape json_str x)
  /\ (~ In x5c json_str -> forall x, parse json_str <> Throws x).
Proof.
  split.
  - intros x Hx. split; [exact (parse_throws_conversion_errors json_str x Hx)|].
    now apply parse_throws_origin.
  - intros Hno x Hx. apply parse_throws_origin in Hx as (pos & Hpos & Hb & _).
    apply Hno. rewrite <- Hb. apply nth_In. unfold size in Hpos. lia.
Qed.

Lemma parse_throws_only_from_unicode_escape_witness :
  (invalid_argument = invalid_argument \/ invalid_argument = out_of_range)
  /\ unconvertible_escape (json_text "['\uzzzz']") invalid_argument.
Proof.
  apply (proj1 (parse_throws_only_from_unicode_escape (json_text "['\uzzzz']"))
           invalid_argument).
  vm_compute. reflexivity.
Defined.

(** ** The three literals *)

Section Literals.
Variable json_str : std_string.

Lemma blank_before_value :
  blank (take (parse_whitespace json_str 0) json_str).
Proof.
  pose proof (parse_whitespace_size json_str 0 (Nat.le_0_l _)) as Hq.
  pose proof (substr_Forall json_str (fun c => isspace c = true)
                (parse_whitespace json_str 0) 0) as H.
  unfold substr in H. rewrite drop_0 in H. apply H; [lia|].
  intros i Hi. apply (skip_while_all json_str isspace _ 0 eq_refl). exact Hi.
Qed.

Lemma blank_after_value pos :
  (pos <= size json_str)%nat -> parse_whitespace json_str pos = size json_str ->
  blank (drop pos json_str).
Proof.
  intros Hpos Hend.
  pose proof (substr_Forall json_str (fun c => isspace c = true)
                (size json_str - pos) pos) as H.
  unfold substr in H. rewrite take_ge in H by (rewrite length_drop; unfold size; lia).
  apply H; [lia|].
  intros i Hi. apply (skip_while_all json_str isspace _ pos eq_refl).
  fold (parse_whitespace json_str pos). lia.
Qed.

Lemma parse_whitespace_to_end pre w :
  json_str = pre ++ w -> blank w ->
  parse_whitespace json_str (length pre) = size json_str.
Proof.
  intros Hs Hw. unfold parse_whitespace.
  rewrite (skip_while_app json_str isspace pre w []); [| |exact Hw|exact I].
  - rewrite (size_app json_str pre w Hs). reflexivity.
  - now rewrite app_nil_r.
Qed.
End Literals.

Ltac wrong_production H :=
  first [ apply parse_null_value in H
        | apply parse_true_value in H
        | apply parse_false_value in H
        | apply parse_string_value in H as [? H]
        | apply parse_array_value in H as [? H]
        | apply parse_object_value in H as [? H]
        | apply parse_number_value in H as [[? H]|[? H]] ];
  discriminate H.

Lemma literal_text (json_str lit : std_string) q :
  string_eqb (substr json_str q (length lit)) lit = true ->
  json_str = take q json_str ++ lit ++ drop (q + length lit) json_str.
Proof.
  intros E. apply string_eqb_true in E. unfold substr in E.
  rewrite <- (take_drop q json_str) at 1. f_equal.
  rewrite <- (take_drop (length lit) (drop q json_str)) at 1.
  rewrite drop_drop. now f_equal.
Qed.

Lemma parse_value_Null (json_str : std_string) fuel pos p :
  parse_value json_str fuel pos = Done (value Null) p ->
  let q := parse_whitespace json_str pos in
  string_eqb (substr json_str q 4) (text "null") = true /\ p = (q + 4)%nat.
Proof.
  destruct fuel as [|fuel]; [discriminate|]. cbn [parse_value]. cbv zeta.
  set (q := parse_whitespace json_str pos).
  case_if; [discriminate|].
  repeat case_if; intros H; try wrong_production H.
  revert H. unfold parse_null. unfold q. rewrite parse_whitespace_idem. fold q.
  case_if; [|discriminate]. now intros [= <-].
Qed.

Lemma parse_value_true (json_str : std_string) fuel pos p :
  parse_value json_str fuel pos = Done (value (Boolean true)) p ->
  let q := parse_whitespace json_str pos in
  string_eqb (substr json_str q 4) (text "true") = true /\ p = (q + 4)%nat.
Proof.
  destruct fuel as [|fuel]; [discriminate|]. cbn [parse_value]. cbv zeta.
  set (q := parse_whitespace json_str pos).
  case_if; [discriminate|].
  repeat case_if; intros H; try wrong_production H.
  revert H. unfold parse_true. unfold q. rewrite parse_whitespace_idem. fold q.
  case_if; [|discriminate]. now intros [= <-].
Qed.

Lemma parse_value_false (json_str : std_string) fuel pos p :
  parse_value json_str fuel pos = Done (value (Boolean false)) p ->
  let q := parse_whitespace json_str pos in
  string_eqb (substr json_str q 5) (text "false") = true /\ p = (q + 5)%nat.
Proof.
  destruct fuel as [|fuel]; [discriminate|]. cbn [parse_value]. cbv zeta.
  set (q := parse_whitespace json_str pos).
  case_if; [discriminate|].
  repeat case_if; intros H; try wrong_production H.
  revert H. unfold parse_false. unfold q. rewrite parse_whitespace_idem. fold q.
  case_if; [|discriminate]. now intros [= <-].
Qed.

(** From a successful [parse] to the value production and the rest. *)
Lemma parse_Returns_value (json_str : std_string) v :
  parse json_str = Returns (value v) ->
  exists p, parse_value json_str (parse_fuel json_str) 0 = Done (value v) p
            /\ (p <= size json_str)%nat
            /\ parse_whitespace json_str p = size json_str.
Proof.
  unfold parse, JsonParser_parse. rewrite <- parse_value_from_blank.
  destruct (parse_value json_str _ 0) as [[v'|e] p| |] eqn:Hv; try discriminate.
  case_if; [discriminate|]. intros [= ->]. bool_hyps. exists p.
  split; [reflexivity|]. split; [|assumption].
  apply (parse_value_advances_any_fuel json_str _ 0 v p (Nat.le_0_l _) Hv).
Qed.

Lemma parse_literal_text (lit : std_string) v (c : char) (r w1 w2 : std_string) :
  lit = c :: r -> isspace c = false ->
  (forall post, parse_value (lit ++ post) 1 0 = Done (value v) (length lit)) ->
  blank w1 -> blank w2 ->
  parse (w1 ++ lit ++ w2) = Returns (value v).
Proof.
  intros Hlit Hc Hv Hw1 Hw2. rewrite (parse_leading_blank w1 _ Hw1).
  apply (parse_any_fuel _ 1 _ (length (lit ++ w2))).
  unfold JsonParser_parse.
  assert (Hws : parse_whitespace (lit ++ w2) 0 = 0%nat).
  { rewrite Hlit. unfold parse_whitespace. simpl. now rewrite Hc. }
  rewrite Hws, Hv.
  rewrite (parse_whitespace_to_end (lit ++ w2) lit w2 eq_refl Hw2).
  now rewrite Nat.eqb_refl.
Qed.

(** X8: the texts that parse to a literal are exactly the literal with
    white space around it: [parse] returns [Null] for the texts made of
    white space, [null] and white space and for no other text, and
    likewise [true] and [false] for the two [Boolean]s. *)
Theorem parse_literals (json_str : std_string) :
  (parse json_str = Returns (value Null)
   <-> exists w1 w2, blank w1 /\ blank w2 /\ json_str = w1 ++ text "null" ++ w2)
  /\ (parse json_str = Returns (value (Boolean true))
      <-> exists w1 w2, blank w1 /\ blank w2 /\ json_str = w1 ++ text "true" ++ w2)
  /\ (parse json_str = Returns (value (Boolean false))
      <-> exists w1 w2, blank w1 /\ blank w2 /\ json_str = w1 ++ text "false" ++ w2).
Proof.
  split; [|split]; split.
  - intros H. apply parse_Returns_value in H as (p & Hv & Hp & Hend).
    apply parse_value_Null in Hv as [E ->]. cbv zeta in *.
    exists (take (parse_whitespace json_str 0) json_str),
           (drop (parse_whitespace json_str 0 + 4) json_str).
    split; [apply blank_before_value|]. split; [now apply blank_after_value|].
    apply (literal_text json_str (text "null") _ E).
  - intros (w1 & w2 & Hw1 & Hw2 & ->).
    now apply (parse_literal_text (text "null") Null "n"%byte (text "ull")).
  - intros H. apply parse_Returns_value in H as (p & Hv & Hp & Hend).
    apply parse_value_true in Hv as [E ->]. cbv zeta in *.
    exists (take (parse_whitespace json_str 0) json_str),
           (drop (parse_whitespace json_str 0 + 4) json_str).
    split; [apply blank_before_value|]. split; [now apply blank_after_value|].
    apply (literal_text json_str (text "true") _ E).
  - intros (w1 & w2 & Hw1 & Hw2 & ->).
    now apply (parse_literal_text (text "true") (Boolean true) "t"%byte (text "rue")).
  - intros H. apply parse_Returns_value in H as (p & Hv & Hp & Hend).
    apply parse_value_false in Hv as [E ->]. cbv zeta in *.
    exists (take (parse_whitespace json_str 0) json_str),
           (drop (parse_whitespace json_str 0 + 5) json_str).
    split; [apply blank_before_value|]. split; [now apply blank_after_value|].
    apply (literal_text json_str (text "false") _ E).
  - intros (w1 & w2 & Hw1 & Hw2 & ->).
    now apply (parse_literal_text (text "false") (Boolean false) "f"%byte (text "alse")).
Qed.

(** ** Failures inside a container *)

Section ContainerErrors.
Variable json_str : std_string.
Implicit Types (pos fuel : nat).

(** After the items of a trace the array loop goes on as it would from
    the end of the trace. *)
Lemma array_items_then pos vs pos1 :
  array_items json_str pos vs pos1 ->
  forall array fuel2 o,
    parse_array_loop json_str fuel2 pos1 (array ++ vs) = o -> o <> OutOfFuel ->
    exists fuel, parse_array_loop json_str fuel pos array = o.
Proof.
  induction 1 as [pos|pos fuel v pos1 vs pos' Hlt Hne Hv _ IH]; intros array fuel2 o Ho Hfuel.
  - exists fuel2. now rewrite app_nil_r in Ho.
  - destruct (IH (array ++ [v]) fuel2 o) as [fuel3 Hloop];
      [now rewrite <- app_assoc|assumption|].
    exists (S (Nat.max fuel fuel3)). cbn [parse_array_loop].
    rewrite (loop_cond_true json_str pos _ Hlt Hne).
    rewrite (lifts_Done _ _ _ _
               (parse_value_mono json_str fuel (Nat.max fuel fuel3) pos (Nat.le_max_l _ _)) Hv).
    cbv beta iota zeta. fold (skip_separator json_str pos1).
    destruct (proj1 (proj2 (proj2 (parse_mutual_mono json_str fuel3 (Nat.max fuel fuel3)
                                     (Nat.le_max_r _ _) (skip_separator json_str pos1))))
                (array ++ [v])) as [E|E]; congruence.
Qed.

Lemma object_entries_then pos kvs pos1 :
  object_entries json_str pos kvs pos1 ->
  forall object fuel2 o,
    parse_object_loop json_str fuel2 pos1
      (fold_left (fun m kv => map_emplace (fst kv) (snd kv) m) kvs object) = o ->
    o <> OutOfFuel ->
    exists fuel, parse_object_loop json_str fuel pos object = o.
Proof.
  induction 1 as [pos|pos key pos1 fuel v pos2 kvs pos' Hlt Hne Hk Hc Hcolon Hv _ IH];
    intros object fuel2 o Ho Hfuel.
  - now exists fuel2.
  - destruct (IH (map_emplace key v object) fuel2 o Ho Hfuel) as [fuel3 Hloop].
    exists (S (Nat.max fuel fuel3)). cbn [parse_object_loop].
    rewrite (loop_cond_true json_str pos _ Hlt Hne), Hk. cbv beta iota zeta.
    replace (parse_whitespace json_str pos1 =? size json_str)%nat with false
      by (symmetry; apply Nat.eqb_neq; lia).
    rewrite Hcolon. change (chr_eqb ":"%byte ":"%byte) with true. cbv beta iota.
    change (false || negb true) with false. cbv iota.
    rewrite (lifts_Done _ _ _ _
               (parse_value_mono json_str fuel (Nat.max fuel fuel3) _ (Nat.le_max_l _ _)) Hv).
    cbv beta iota zeta. fold (skip_separator json_str pos2).
    destruct (proj2 (proj2 (proj2 (proj2 (parse_mutual_mono json_str fuel3 (Nat.max fuel fuel3)
                                     (Nat.le_max_r _ _) (skip_separator json_str pos2)))))
                (map_emplace key v object)) as [E|E]; congruence.
Qed.

(** An array whose loop ends in an error. *)
Lemma parse_value_array_error pos vs pos1 fuel2 e p :
  let q := parse_whitespace json_str pos in
  (q < size json_str)%nat -> at_ json_str q = "["%byte ->
  array_items json_str (S q) vs pos1 ->
  parse_array_loop json_str fuel2 pos1 vs = Done (unexpected e) p ->
  parse_value json_str (parse_fuel json_str) pos = Done (unexpected e) p.
Proof.
  intros q Hq Hat Hitems Hloop.
  destruct (array_items_then _ _ _ Hitems [] fuel2 _ Hloop ltac:(discriminate))
    as [fuel Hfuel].
  apply (parse_value_any_fuel json_str (S (S fuel)));
    [now apply (ws_in_bounds json_str)| |discriminate].
  rewrite parse_value_on_bracket, parse_array_unfold by assumption. fold q.
  now rewrite Hfuel.
Qed.

Lemma parse_value_object_error pos kvs pos1 fuel2 e p :
  let q := parse_whitespace json_str pos in
  (q < size json_str)%nat -> at_ json_str q = "{"%byte ->
  object_entries json_str (S q) kvs pos1 ->
  parse_object_loop json_str fuel2 pos1 (map_of_list kvs) = Done (unexpected e) p ->
  parse_value json_str (parse_fuel json_str) pos = Done (unexpected e) p.
Proof.
  intros q Hq Hat Hentries Hloop.
  destruct (object_entries_then _ _ _ Hentries [] fuel2 _ Hloop ltac:(discriminate))
    as [fuel Hfuel].
  apply (parse_value_any_fuel json_str (S (S fuel)));
    [now apply (ws_in_bounds json_str)| |discriminate].
  rewrite parse_value_on_brace, parse_object_unfold by assumption. fold q.
  now rewrite Hfuel.
Qed.
End ContainerErrors.

Lemma parse_string_loop_error (json_str : std_string) fuel : forall pos str e p,
  parse_string_loop json_str fuel pos str = Done (unexpected e) p ->
  e = parse_invalid_value.
Proof.
  induction fuel as [|fuel IH]; intros pos str e p; [discriminate|].
  cbn [parse_string_loop]. case_if; [|discriminate]. case_if; [|apply IH].
  case_if; [now intros [= <-]|].
  destruct (escape_mappping _); [apply IH|]. case_if; [|now intros [= <-]].
  destruct (parse_unicode json_str (S pos)) as [c0 p0| |]; try discriminate. apply IH.
Qed.

(** The string production fails with [parse_invalid_value] only. *)
Lemma parse_string_error (json_str : std_string) pos e p :
  parse_string json_str pos = Done (unexpected e) p -> e = parse_invalid_value.
Proof.
  unfold parse_string. case_if; [now intros [= <-]|].
  destruct (parse_string_loop _ _ _ _) as [[str|e'] p'| |] eqn:Hloop; try discriminate.
  - case_if; [now intros [= <-]|discriminate].
  - intros [= <- _]. now apply parse_string_loop_error in Hloop.
Qed.

(** X9: the error of an element is the error of its array.  When the
    text after an opening bracket holds some elements with their
    separators and then, not on a closing bracket, a value production
    that fails with the error [e], the array production fails with [e]
    and leaves the cursor where the element left it. *)
Theorem array_element_error_propagates (json_str : std_string)
    (pos : nat) (vs : list Node) (pos1 fuel : nat) (e : JsonError) (p : nat) :
  let q := parse_whitespace json_str pos in
  (q < size json_str)%nat -> at_ json_str q = "["%byte ->
  array_items json_str (S q) vs pos1 ->
  (pos1 < size json_str)%nat -> at_ json_str pos1 <> "]"%byte ->
  parse_value json_str fuel pos1 = Done (unexpected e) p ->
  parse_value json_str (parse_fuel json_str) pos = Done (unexpected e) p.
Proof.
  intros q Hq Hat Hitems Hlt Hne Hv.
  apply (parse_value_array_error json_str pos vs pos1 (S fuel)); try assumption.
  cbn [parse_array_loop]. now rewrite (loop_cond_true json_str pos1 _ Hlt Hne), Hv.
Qed.

Lemma array_element_error_propagates_witness :
  parse_value (json_text "[1, 1e999]") (parse_fuel (json_text "[1, 1e999]")) 0
  = Done (unexpected parse_number_too_big) 4.
Proof.
  apply (array_element_error_propagates (json_text "[1, 1e999]") 0 [Integer 1] 4 1).
  - vm_compute. lia.
  - reflexivity.
  - apply (items_more _ 1 1 (Integer 1) 2 _ 4);
      [vm_compute; lia | discriminate | reflexivity |].
    apply items_done.
  - vm_compute. lia.
  - discriminate.
  - vm_compute. reflexivity.
Defined.

(** X10: how an object fails.  After an opening brace and some entries
    with their separators: at the end of the text the object production
    fails with [parse_invalid_value] (the closing brace is missing);
    otherwise, not on a closing brace, a key on which the string
    production fails makes the object fail with that error, which is
    always [parse_invalid_value]; a key followed, after white space, by
    the end of the text or by a character other than the colon makes it
    fail with [parse_invalid_value]; and a value after the colon that
    fails with [e] makes it fail with [e]. *)
Theorem object_production_errors (json_str : std_string)
    (pos : nat) (kvs : list (std_string * Node)) (pos1 : nat) :
  let q := parse_whitespace json_str pos in
  (q < size json_str)%nat -> at_ json_str q = "{"%byte ->
  object_entries json_str (S q) kvs pos1 ->
  (pos1 = size json_str ->
     parse_value json_str (parse_fuel json_str) pos
     = Done (unexpected parse_invalid_value) pos1)
  /\ ((pos1 < size json_str)%nat -> at_ json_str pos1 <> "}"%byte ->
      (forall e p, parse_string json_str pos1 = Done (unexpected e) p ->
         e = parse_invalid_value
         /\ parse_value json_str (parse_fuel json_str) pos
            = Done (unexpected parse_invalid_value) p)
      /\ (forall key p,
            parse_string json_str pos1 = Done (value (String key)) p ->
            let c := parse_whitespace json_str p in
            (c = size json_str \/ at_ json_str c <> ":"%byte ->
               parse_value json_str (parse_fuel json_str) pos
               = Done (unexpected parse_invalid_value) c)
            /\ (forall fuel e p',
                  (c < size json_str)%nat -> at_ json_str c = ":"%byte ->
                  parse_value json_str fuel (S c) = Done (unexpected e) p' ->
                  parse_value json_str (parse_fuel json_str) pos
                  = Done (unexpected e) p'))).
Proof.
  intros q Hq Hat Hentries. split; [|intros Hlt Hne; split].
  - intros Hend.
    destruct (object_entries_loop json_str _ _ _ Hentries ltac:(lia) []) as [fuel Hloop].
    apply (parse_value_any_fuel json_str (S (S fuel)));
      [now apply (ws_in_bounds json_str)| |discriminate].
    rewrite parse_value_on_brace, parse_object_unfold by assumption. fold q.
    rewrite Hloop.
    now replace (pos1 =? size json_str)%nat with true by (symmetry; now apply Nat.eqb_eq).
  - intros e p Hk.
    pose proof (parse_string_error json_str pos1 e p Hk) as He.
    split; [exact He|]. subst e.
    apply (parse_value_object_error json_str pos kvs pos1 1); try assumption.
    cbn [parse_object_loop]. now rewrite (loop_cond_true json_str pos1 _ Hlt Hne), Hk.
  - intros key p Hk c. split.
    + intros Hc.
      apply (parse_value_object_error json_str pos kvs pos1 1); try assumption.
      cbn [parse_object_loop]. rewrite (loop_cond_true json_str pos1 _ Hlt Hne), Hk.
      fold c. destruct Hc as [Hc|Hc].
      * now replace (c =? size json_str)%nat with true by (symmetry; now apply Nat.eqb_eq).
      * apply chr_eqb_false in Hc. rewrite Hc. now rewrite orb_true_r.
    + intros fuel e p' Hc Hcolon Hv.
      apply (parse_value_object_error json_str pos kvs pos1 (S fuel)); try assumption.
      cbn [parse_object_loop]. rewrite (loop_cond_true json_str pos1 _ Hlt Hne), Hk.
      fold c. replace (c =? size json_str)%nat with false by (symmetry; apply Nat.eqb_neq; lia).
      rewrite Hcolon. change (chr_eqb ":"%byte ":"%byte) with true. cbv beta iota.
      change (false || negb true) with false. cbv iota. now rewrite Hv.
Qed.

Lemma object_production_errors_witness :
  parse_value (json_text "{'a':1,'b' 2}") (parse_fuel (json_text "{'a':1,'b' 2}")) 0
  = Done (unexpected parse_invalid_value) 11.
Proof.
  pose proof (object_production_errors (json_text "{'a':1,'b' 2}") 0
                [(text "a", Integer 1)] 7) as H.
  cbv zeta in H. destruct H as [_ H].
  - vm_compute. lia.
  - reflexivity.
  - apply (entries_more _ 1 (text "a") 4 1 (Integer 1) 6 _ 7);
      [vm_compute; lia | discriminate | reflexivity | vm_compute; lia
      | reflexivity | reflexivity |].
    apply entries_done.
  - destruct H as [_ H].
    + vm_compute. lia.
    + discriminate.
    + destruct (H (text "b") 10%nat) as [H1 _]; [reflexivity|].
      apply H1. right. discriminate.
Defined.

(** ** What is read back from a generated string *)

Lemma generate_char_forms (char_is_signed : bool) (c : char) :
  (exists e, generate_char char_is_signed c = [x5c; e]
             /\ escape_mappping e = Some c /\ reread char_is_signed c = c)
  \/ (exists h1 h2 h3 h4 k,
        generate_char char_is_signed c = [x5c; "u"%byte; h1; h2; h3; h4]
        /\ stoi16 [h1; h2; h3; h4] = inl k
        /\ reread char_is_signed c = char_of_int k)
  \/ (generate_char char_is_signed c = [c] /\ raw_char c
      /\ reread char_is_signed c = c).
Proof.
  destruct char_is_signed, c;
    first
      [ right; right; split; [reflexivity|];
        split; [split; discriminate|vm_compute; reflexivity]
      | left; eexists; split; [reflexivity|];
        split; [reflexivity|vm_compute; reflexivity]
      | right; left; eexists _, _, _, _, _; split; [reflexivity|];
        split; [vm_compute; reflexivity|vm_compute; reflexivity] ].
Qed.

Section RereadStrings.
Variable json_str : std_string.
Variable char_is_signed : bool.
Implicit Types (pre post str : std_string) (fuel : nat).

(** One generated character, whichever it is, read by one trip of the
    string loop. *)
Lemma parse_string_loop_reread_char pre (c : char) rest str fuel :
  json_str = pre ++ generate_char char_is_signed c ++ rest ->
  rest <> [] ->
  parse_string_loop json_str (S fuel) (length pre) str
  = parse_string_loop json_str fuel
      (length pre + length (generate_char char_is_signed c))
      (str ++ [reread char_is_signed c]).
Proof.
  intros Hs Hrest.
  destruct rest as [|r0 rest]; [now destruct Hrest|].
  destruct (generate_char_forms char_is_signed c)
    as [(e & Hg & He & Hr)|[(h1 & h2 & h3 & h4 & k & Hg & Hk & Hr)|(Hg & Hraw & Hr)]];
    rewrite Hg in *; rewrite Hr; cbn [app length] in *.
  - (* a two-character escape *)
    cbn [parse_string_loop].
    rewrite (loop_cond_true json_str (length pre) x22)
      by (rewrite ?(size_app json_str pre _ Hs), ?(at_app json_str pre _ _ Hs);
          simpl; (lia || discriminate)).
    rewrite (at_app json_str pre _ _ Hs).
    change (chr_eqb x5c x5c) with true. cbv beta iota zeta.
    assert (Hs' : json_str = (pre ++ [x5c]) ++ e :: r0 :: rest)
      by (rewrite <- app_assoc; exact Hs).
    replace (S (length pre)) with (length (pre ++ [x5c]))
      by (rewrite length_app; simpl; lia).
    rewrite (not_at_end json_str _ _ _ Hs'), (at_app json_str _ _ _ Hs'), He.
    f_equal. rewrite length_app. simpl. lia.
  - (* a unicode escape *)
    cbn [parse_string_loop].
    rewrite (loop_cond_true json_str (length pre) x22)
      by (rewrite ?(size_app json_str pre _ Hs), ?(at_app json_str pre _ _ Hs);
          simpl; (lia || discriminate)).
    rewrite (at_app json_str pre _ _ Hs).
    change (chr_eqb x5c x5c) with true. cbv beta iota zeta.
    assert (Hs' : json_str = (pre ++ [x5c]) ++ "u"%byte
                    :: [h1; h2; h3; h4] ++ r0 :: rest)
      by (rewrite <- app_assoc; exact Hs).
    replace (S (length pre)) with (length (pre ++ [x5c]))
      by (rewrite length_app; simpl; lia).
    rewrite (not_at_end json_str _ _ _ Hs'), (at_app json_str _ _ _ Hs').
    change (escape_mappping "u"%byte) with (@None byte).
    change (chr_eqb "u"%byte "u"%byte) with true. cbv beta iota.
    rewrite parse_unicode_at_u;
      [|rewrite (size_app json_str _ _ Hs'); simpl; lia
       |now rewrite (at_app json_str _ _ _ Hs')].
    replace (size json_str <=? length (pre ++ [x5c]) + 4)%nat with false
      by (symmetry; apply Nat.leb_gt; rewrite (size_app json_str _ _ Hs');
          simpl; rewrite !length_app; simpl; lia).
    assert (Hs'' : json_str = (pre ++ [x5c; "u"%byte])
                     ++ [h1; h2; h3; h4] ++ r0 :: rest)
      by (rewrite <- app_assoc; exact Hs).
    replace (length (pre ++ [x5c]) + 1)%nat with (length (pre ++ [x5c; "u"%byte]))
      by (rewrite !length_app; simpl; lia).
    pose proof (substr_app json_str _ _ _ Hs'') as Hsub.
    change (length [h1; h2; h3; h4]) with 4%nat in Hsub.
    rewrite Hsub, Hk.
    f_equal. rewrite !length_app. simpl. lia.
  - (* the character itself *)
    rewrite parse_string_loop_step.
    + rewrite (at_app json_str pre _ _ Hs). f_equal. lia.
    + rewrite (size_app json_str pre _ Hs). simpl. lia.
    + now rewrite (at_app json_str pre _ _ Hs).
Qed.

Lemma parse_string_loop_reread (s : std_string) : forall pre post str fuel,
  json_str = pre ++ flat_map (generate_char char_is_signed) s ++ x22 :: post ->
  (length (flat_map (generate_char char_is_signed) s) < fuel)%nat ->
  parse_string_loop json_str fuel (length pre) str
  = Done (value (str ++ map (reread char_is_signed) s))
      (length pre + length (flat_map (generate_char char_is_signed) s)).
Proof.
  induction s as [|c s IH]; intros pre post str fuel Hs Hfuel.
  - simpl in *. rewrite (parse_string_loop_raw json_str [] pre post str fuel Hs);
      [reflexivity|constructor|simpl; lia].
  - cbn [flat_map map] in *. rewrite length_app in *.
    destruct fuel as [|fuel]; [lia|].
    pose proof (generate_char_nonempty char_is_signed c) as Hne.
    rewrite (parse_string_loop_reread_char pre c
               (flat_map (generate_char char_is_signed) s ++ x22 :: post)).
    + replace (length pre + length (generate_char char_is_signed c))%nat
        with (length (pre ++ generate_char char_is_signed c))
        by now rewrite length_app.
      rewrite (IH (pre ++ generate_char char_is_signed c) post
                 (str ++ [reread char_is_signed c]) fuel).
      * rewrite <- app_assoc. simpl. f_equal. rewrite length_app. lia.
      * rewrite <- !app_assoc in *. exact Hs.
      * destruct (generate_char char_is_signed c); [now destruct Hne|].
        simpl in Hfuel. lia.
    + rewrite <- app_assoc in Hs. exact Hs.
    + now destruct (flat_map (generate_char char_is_signed) s).
Qed.

(** A generated string, whatever its bytes, is read by the string
    production to its end. *)
Lemma parse_string_reread pre (s : std_string) post :
  json_str = pre ++ generate_string char_is_signed s ++ post ->
  parse_string json_str (length pre)
  = Done (value (String (map (reread char_is_signed) s)))
      (length pre + length (generate_string char_is_signed s)).
Proof.
  intros Hs. unfold generate_string in *.
  set (body := flat_map (generate_char char_is_signed) s) in *.
  assert (Hs1 : json_str = pre ++ x22 :: body ++ x22 :: post).
  { rewrite Hs. simpl. now rewrite <- app_assoc. }
  assert (Hsize : size json_str = (length pre + S (length body + S (length post)))%nat).
  { rewrite (size_app json_str pre _ Hs1). simpl. rewrite length_app. reflexivity. }
  unfold parse_string.
  rewrite (ws_at json_str pre x22 _ Hs1 eq_refl), (not_at_end json_str pre _ _ Hs1).
  rewrite (at_app json_str pre x22 _ Hs1).
  simpl orb. cbv iota.
  replace (S (length pre)) with (length (pre ++ [x22]))
    by (rewrite length_app; simpl; lia).
  rewrite (parse_string_loop_reread s (pre ++ [x22]) post []).
  - fold body.
    replace (length (pre ++ [x22]) + length body)%nat
      with (length ((pre ++ [x22]) ++ body)) by now rewrite length_app.
    assert (Hs2 : json_str = ((pre ++ [x22]) ++ body) ++ x22 :: post)
      by (rewrite <- !app_assoc; exact Hs1).
    rewrite (not_at_end json_str _ _ _ Hs2), (at_app json_str _ _ _ Hs2).
    simpl. f_equal. rewrite ?length_app. simpl. rewrite ?length_app. simpl. lia.
  - fold body. rewrite <- app_assoc. exact Hs1.
  - fold body. rewrite Hsize, length_app. simpl. lia.
Qed.
End RereadStrings.

Lemma reread_fixed (char_is_signed : bool) (c : char) :
  chr_eqb (reread char_is_signed c) c
  = ((code c <=? 10) || (code c =? 12) || (code c =? 13)
     || (32 <=? char_to_int char_is_signed c)).
Proof. destruct char_is_signed, c; vm_compute; reflexivity. Qed.

Lemma reread_roundtrip_char (char_is_signed : bool) (c : char) :
  reread char_is_signed c = c <-> roundtrip_char char_is_signed c.
Proof.
  rewrite <- chr_eqb_true, reread_fixed. unfold roundtrip_char.
  rewrite !orb_true_iff, Z.leb_le, !Z.eqb_eq, Z.leb_le. tauto.
Qed.

Lemma map_reread_fixed (char_is_signed : bool) (s : std_string) :
  map (reread char_is_signed) s = s <-> List.Forall (roundtrip_char char_is_signed) s.
Proof.
  induction s as [|c s IH]; simpl.
  - split; [constructor|reflexivity].
  - split.
    + intros [= Hc Hs]. constructor; [now apply reread_roundtrip_char|now apply IH].
    + intros H. f_equal.
      * apply reread_roundtrip_char. exact (Forall_inv H).
      * apply IH. now apply Forall_inv_tail in H.
Qed.

Lemma parse_generated_String (char_is_signed : bool) (s : std_string) :
  parse (generate char_is_signed (String s))
  = Returns (value (String (map (reread char_is_signed) s))).
Proof.
  cbn [generate].
  set (json_str := generate_string char_is_signed s).
  apply (parse_any_fuel _ 1 _ (length json_str)).
  unfold JsonParser_parse.
  assert (Hs : json_str = [] ++ generate_string char_is_signed s ++ [])
    by (now rewrite app_nil_r).
  assert (Hs0 : json_str = [] ++ x22 :: flat_map (generate_char char_is_signed) s ++ [x22])
    by reflexivity.
  pose proof (ws_at json_str [] x22 _ Hs0 eq_refl) as Hw. cbn [length] in Hw.
  rewrite Hw, parse_value_on_quote;
    [|rewrite (size_app json_str [] _ Hs0); simpl; lia|reflexivity].
  pose proof (parse_string_reread json_str char_is_signed [] s [] Hs) as Hv.
  cbn [length Nat.add] in Hv. fold json_str in Hv. rewrite Hv.
  rewrite parse_whitespace_at_end by (unfold size; lia).
  unfold size. now rewrite Nat.eqb_refl.
Qed.

(** X11: a generated string is always read back as a string of the
    same length, and it is read back as the very same string exactly when
    every byte is one of those that [generate_string] writes in a form
    [parse_string] inverts: the bytes with a two-character escape, the
    bytes from [0x20] on (where [char] is signed, up to [0x7f]), and the
    control bytes 0 to 7. *)
Theorem string_roundtrip_exact (char_is_signed : bool) (s : std_string) :
  (exists s', parse (generate char_is_signed (String s)) = Returns (value (String s'))
              /\ length s' = length s)
  /\ (parse (generate char_is_signed (String s)) = Returns (value (String s))
      <-> List.Forall (roundtrip_char char_is_signed) s).
Proof.
  rewrite parse_generated_String. split.
  - eexists. split; [reflexivity|apply length_map].
  - rewrite <- map_reread_fixed. split; [now intros [= H]|now intros ->].
Qed.

(** ** What is read back from a generated text *)

Lemma float_free_Array (a : list Node) :
  float_free (Array a) -> List.Forall float_free a.
Proof.
  induction a as [|x a IH]; [constructor|].
  intros [Hx Ha]. constructor; [assumption|]. now apply IH.
Qed.

Lemma float_free_Object (o : std_map Node) :
  float_free (Object o) -> List.Forall (fun kv => float_free (snd kv)) o.
Proof.
  induction o as [|[k x] o IH]; [constructor|].
  intros [Hx Ho]. constructor; [assumption|]. now apply IH.
Qed.

Lemma generate_head_float_free (char_is_signed : bool) (node : Node) :
  float_free node ->
  exists c r, generate char_is_signed node = c :: r
              /\ isspace c = false /\ c <> ","%byte /\ c <> "]"%byte.
Proof.
  destruct node as [|b|n|f|s|a|o]; intros Hff.
  - eexists _, _. repeat split; discriminate.
  - destruct b; eexists _, _; repeat split; discriminate.
  - destruct (to_string_head n) as (c & r & E & Hc).
    exists c, r. split; [exact E|]. apply number_head in Hc. tauto.
  - destruct Hff.
  - eexists _, _. repeat split; discriminate.
  - exists "["%byte. rewrite generate_Array_join. eexists. repeat split; discriminate.
  - exists "{"%byte. rewrite generate_Object_join. eexists. repeat split; discriminate.
Qed.

Section RereadTexts.
Variable json_str : std_string.
Variable char_is_signed : bool.
Implicit Types (pre post : std_string).

Lemma array_items_reread (a : list Node) :
  List.Forall (fun x => float_free x /\ rereads json_str char_is_signed x) a ->
  forall pre post,
    json_str = pre ++ join ","%byte (map (generate char_is_signed) a) ++ "]"%byte :: post ->
    array_items json_str (length pre) (map (reparse char_is_signed) a)
      (length pre + length (join ","%byte (map (generate char_is_signed) a))).
Proof.
  induction 1 as [|x a [Hff Hx] Ha IH]; intros pre post Hs.
  - simpl. rewrite Nat.add_0_r. constructor.
  - destruct (generate_head_float_free char_is_signed x Hff)
      as (c & r & Eg & Hsp & Hcomma & Hclose).
    destruct a as [|y a].
    + simpl in Hs |- *.
      apply (items_more json_str _ (parse_fuel json_str) (reparse char_is_signed x)
               (length pre + length (generate char_is_signed x))).
      * rewrite (size_app json_str pre _ Hs), Eg. simpl. lia.
      * rewrite Eg in Hs. now rewrite (at_app json_str pre c _ Hs).
      * apply (Hx pre _ Hs). simpl. split; reflexivity.
      * replace (length pre + length (generate char_is_signed x))%nat
          with (length (pre ++ generate char_is_signed x)) by now rewrite length_app.
        rewrite (skip_separator_stay json_str (pre ++ generate char_is_signed x) "]"%byte post);
          [constructor|rewrite <- app_assoc; exact Hs|reflexivity|discriminate].
    + change (join ","%byte (map (generate char_is_signed) (x :: y :: a)))
        with (generate char_is_signed x
              ++ ","%byte :: join ","%byte (map (generate char_is_signed) (y :: a))) in *.
      rewrite <- app_assoc in Hs. cbn [app] in Hs.
      change (map (reparse char_is_signed) (x :: y :: a))
        with (reparse char_is_signed x :: map (reparse char_is_signed) (y :: a)).
      apply (items_more json_str _ (parse_fuel json_str) (reparse char_is_signed x)
               (length pre + length (generate char_is_signed x))).
      * rewrite (size_app json_str pre _ Hs), Eg. simpl. lia.
      * rewrite Eg in Hs. now rewrite (at_app json_str pre c _ Hs).
      * apply (Hx pre _ Hs). simpl. split; reflexivity.
      * pose proof (Forall_inv Ha) as [Hffy _].
        destruct (generate_head_float_free char_is_signed y Hffy)
          as (cy & ry & Ey & Hspy & _).
        assert (Hjoin : exists rest,
                   join ","%byte (map (generate char_is_signed) (y :: a)) = cy :: rest).
        { destruct a; simpl; rewrite Ey; simpl; eauto. }
        destruct Hjoin as [rest Hjoin].
        replace (length pre + length (generate char_is_signed x))%nat
          with (length (pre ++ generate char_is_signed x)) by now rewrite length_app.
        rewrite (skip_separator_comma json_str (pre ++ generate char_is_signed x) cy
                   (rest ++ "]"%byte :: post));
          [|rewrite <- app_assoc, Hs, Hjoin; reflexivity|exact Hspy].
        replace (S (length (pre ++ generate char_is_signed x)))
          with (length (pre ++ generate char_is_signed x ++ [","%byte]))
          by (rewrite !length_app; simpl; lia).
        replace (length pre + length (generate char_is_signed x ++ ","%byte
                   :: join ","%byte (map (generate char_is_signed) (y :: a))))%nat
          with (length (pre ++ generate char_is_signed x ++ [","%byte])
                + length (join ","%byte (map (generate char_is_signed) (y :: a))))%nat
          by (rewrite !length_app; simpl; lia).
        apply (IH _ post). rewrite <- !app_assoc. exact Hs.
Qed.

Lemma object_entries_reread (o : list (std_string * Node)) :
  List.Forall (fun kv => float_free (snd kv)
                         /\ rereads json_str char_is_signed (snd kv)) o ->
  forall pre post,
    json_str = pre ++ join ","%byte (map (entry_text char_is_signed) o) ++ "}"%byte :: post ->
    object_entries json_str (length pre)
      (map (fun entry : std_string * Node =>
              let (key, node) := entry in
              (map (reread char_is_signed) key, reparse char_is_signed node)) o)
      (length pre + length (join ","%byte (map (entry_text char_is_signed) o))).
Proof.
  induction 1 as [|[k x] o (Hff & Hx) Ho IH]; intros pre post Hs.
  - simpl. rewrite Nat.add_0_r. constructor.
  - cbn [fst snd map] in *.
    rewrite join_cons_app in Hs. rewrite join_cons_length.
    unfold entry_text at 1 in Hs. unfold entry_text at 1. cbn [fst snd] in *.
    destruct (generate_string_head char_is_signed k) as [rk Ek].
    set (gk := generate_string char_is_signed k) in *.
    set (gx := generate char_is_signed x) in *.
    set (tail := match map (entry_text char_is_signed) o with
                 | [] => "}"%byte :: post
                 | _ :: _ => ","%byte :: join ","%byte (map (entry_text char_is_signed) o)
                             ++ "}"%byte :: post
                 end) in *.
    assert (Hend : number_end tail).
    { subst tail. destruct (map (entry_text char_is_signed) o); simpl; split; reflexivity. }
    assert (Hs1 : json_str = pre ++ gk ++ ":"%byte :: gx ++ tail).
    { rewrite Hs. rewrite <- !app_assoc. reflexivity. }
    assert (Hs2 : json_str = (pre ++ gk) ++ ":"%byte :: gx ++ tail)
      by (rewrite <- app_assoc; exact Hs1).
    assert (Hs3 : json_str = (pre ++ gk ++ [":"%byte]) ++ gx ++ tail)
      by (rewrite <- !app_assoc; exact Hs1).
    assert (Hs4 : json_str = (pre ++ gk ++ ":"%byte :: gx) ++ tail).
    { rewrite <- !app_assoc. exact Hs1. }
    assert (Hcolon : parse_whitespace json_str (length pre + length gk) = length (pre ++ gk)).
    { rewrite <- length_app. apply (ws_at json_str _ _ _ Hs2). reflexivity. }
    apply (entries_more json_str (length pre) (map (reread char_is_signed) k)
             (length pre + length gk)
             (parse_fuel json_str) (reparse char_is_signed x)
             (length (pre ++ gk ++ [":"%byte]) + length gx)).
    + rewrite (size_app json_str pre _ Hs1), Ek. simpl. lia.
    + rewrite Ek in Hs1. now rewrite (at_app json_str pre x22 _ Hs1).
    + apply (parse_string_reread json_str char_is_signed pre k _ Hs1).
    + rewrite Hcolon, (size_app json_str _ _ Hs2). simpl. lia.
    + rewrite Hcolon. apply (at_app json_str _ _ _ Hs2).
    + rewrite Hcolon.
      replace (S (length (pre ++ gk))) with (length (pre ++ gk ++ [":"%byte]))
        by (rewrite !length_app; simpl; lia).
      apply (Hx _ tail Hs3 Hend).
    + replace (length (pre ++ gk ++ [":"%byte]) + length gx)%nat
        with (length (pre ++ gk ++ ":"%byte :: gx))
        by (rewrite !length_app; simpl; rewrite length_app; simpl; lia).
      destruct o as [|[k' x'] o].
      * (* the closing brace follows *)
        cbn [map] in *. subst tail.
        rewrite (skip_separator_stay json_str _ "}"%byte post Hs4 eq_refl ltac:(discriminate)).
        replace (length pre + (length (gk ++ ":"%byte :: gx) + 0))%nat
          with (length (pre ++ gk ++ ":"%byte :: gx))
          by (rewrite !length_app; simpl; lia).
        constructor.
      * (* a comma and the next entry follow *)
        cbn [map] in *.
        set (more := join ","%byte (entry_text char_is_signed (k', x')
                                     :: map (entry_text char_is_signed) o)) in *.
        subst tail.
        assert (Hmore : exists rest, more = x22 :: rest).
        { subst more. destruct (generate_string_head char_is_signed k') as [rk' Ek'].
          destruct (map (entry_text char_is_signed) o);
            cbn [join]; unfold entry_text; cbn [fst snd]; rewrite Ek'; simpl; eauto. }
        destruct Hmore as [rest Hmore].
        rewrite (skip_separator_comma json_str (pre ++ gk ++ ":"%byte :: gx) x22
                   (rest ++ "}"%byte :: post));
          [|rewrite Hs4, Hmore; reflexivity|reflexivity].
        replace (S (length (pre ++ gk ++ ":"%byte :: gx)))
          with (length (pre ++ gk ++ ":"%byte :: gx ++ [","%byte]))
          by (rewrite !length_app; simpl; rewrite !length_app; simpl; lia).
        replace (length pre + (length (gk ++ ":"%byte :: gx) + S (length more)))%nat
          with (length (pre ++ gk ++ ":"%byte :: gx ++ [","%byte]) + length more)%nat
          by (rewrite !length_app; simpl; rewrite !length_app; simpl; lia).
        apply (IH _ post). fold more.
        rewrite Hs4. rewrite <- !app_assoc. cbn [app]. rewrite <- !app_assoc. reflexivity.
Qed.
End RereadTexts.

Lemma parse_value_reread (char_is_signed : bool) (node : Node) :
  float_free node ->
  forall json_str, rereads json_str char_is_signed node.
Proof.
  induction node as [|b|n|f|s|a IH|o IH] using Node_nested_ind;
    intros Hff json_str pre post Hs Hend.
  - exact (parse_value_generated char_is_signed Null I json_str pre post Hs Hend).
  - exact (parse_value_generated char_is_signed (Boolean b) I json_str pre post Hs Hend).
  - exact (parse_value_generated char_is_signed (Integer n) Hff json_str pre post Hs Hend).
  - destruct Hff.
  - (* String *)
    destruct (parse_fuel_S json_str) as [fuel Hfuel].
    cbn [generate reparse] in *.
    destruct (generate_string_head char_is_signed s) as [r E].
    assert (Hs' : json_str = pre ++ x22 :: r ++ post) by (rewrite Hs, E; reflexivity).
    rewrite Hfuel, parse_value_on_quote;
      [|rewrite (size_app json_str pre _ Hs'); simpl; lia
       |apply (at_app json_str pre x22 _ Hs')].
    apply (parse_string_reread json_str char_is_signed pre s post Hs).
  - (* Array *)
    apply float_free_Array in Hff.
    assert (Hall : List.Forall (fun x => float_free x
                                         /\ rereads json_str char_is_signed x) a).
    { clear Hs. induction a as [|x a IHa]; [constructor|].
      apply Forall_inv in IH as Hx. apply Forall_inv_tail in IH.
      apply Forall_inv in Hff as Hfx. apply Forall_inv_tail in Hff.
      constructor; auto. }
    rewrite generate_Array_join in *.
    set (body := join ","%byte (map (generate char_is_signed) a)) in *.
    assert (Hs1 : json_str = pre ++ "["%byte :: body ++ "]"%byte :: post).
    { rewrite Hs. cbn [app]. now rewrite <- app_assoc. }
    assert (Hs2 : json_str = (pre ++ ["["%byte]) ++ body ++ "]"%byte :: post)
      by (rewrite <- app_assoc; exact Hs1).
    assert (Hs3 : json_str = ((pre ++ ["["%byte]) ++ body) ++ "]"%byte :: post)
      by (rewrite <- app_assoc; exact Hs2).
    pose proof (array_items_reread json_str char_is_signed a Hall _ post Hs2) as Hitems.
    fold body in Hitems.
    pose proof (parse_value_array json_str (length pre) (map (reparse char_is_signed) a)
                  (length (pre ++ ["["%byte]) + length body)) as Hfwd.
    cbv zeta in Hfwd.
    rewrite (ws_at json_str pre _ _ Hs1 eq_refl) in Hfwd.
    replace (S (length pre)) with (length (pre ++ ["["%byte])) in Hfwd
      by (rewrite length_app; simpl; lia).
    destruct Hfwd as [Hfwd _]; [| |exact Hitems|].
    + rewrite (size_app json_str pre _ Hs1). simpl. lia.
    + apply (at_app json_str pre _ _ Hs1).
    + rewrite Hfwd.
      * cbn [reparse]. f_equal. cbn [app length]. rewrite !length_app. simpl. lia.
      * rewrite (size_app json_str _ _ Hs3), !length_app. simpl. lia.
      * rewrite <- length_app. apply (at_app json_str _ _ _ Hs3).
  - (* Object *)
    apply float_free_Object in Hff.
    assert (Hall : List.Forall
                     (fun kv => float_free (snd kv)
                                /\ rereads json_str char_is_signed (snd kv)) o).
    { clear Hs. induction o as [|kv o IHo]; [constructor|].
      apply Forall_inv in IH as Hx. apply Forall_inv_tail in IH.
      pose proof (Forall_inv Hff) as Hfx. apply Forall_inv_tail in Hff.
      constructor; auto. }
    rewrite generate_Object_join in *.
    set (body := join ","%byte (map (entry_text char_is_signed) o)) in *.
    assert (Hs1 : json_str = pre ++ "{"%byte :: body ++ "}"%byte :: post).
    { rewrite Hs. cbn [app]. now rewrite <- app_assoc. }
    assert (Hs2 : json_str = (pre ++ ["{"%byte]) ++ body ++ "}"%byte :: post)
      by (rewrite <- app_assoc; exact Hs1).
    assert (Hs3 : json_str = ((pre ++ ["{"%byte]) ++ body) ++ "}"%byte :: post)
      by (rewrite <- app_assoc; exact Hs2).
    pose proof (object_entries_reread json_str char_is_signed o Hall _ post Hs2) as Hentries.
    fold body in Hentries.
    pose proof (parse_value_object json_str (length pre)
                  (map (fun entry : std_string * Node =>
                          let (key, node) := entry in
                          (map (reread char_is_signed) key, reparse char_is_signed node)) o)
                  (length (pre ++ ["{"%byte]) + length body)) as Hfwd.
    cbv zeta in Hfwd.
    rewrite (ws_at json_str pre _ _ Hs1 eq_refl) in Hfwd.
    replace (S (length pre)) with (length (pre ++ ["{"%byte])) in Hfwd
      by (rewrite length_app; simpl; lia).
    rewrite Hfwd.
    + cbn [reparse]. f_equal. cbn [app length]. rewrite !length_app. simpl. lia.
    + rewrite (size_app json_str pre _ Hs1). simpl. lia.
    + apply (at_app json_str pre _ _ Hs1).
    + exact Hentries.
    + rewrite (size_app json_str _ _ Hs3), !length_app. simpl. lia.
    + rewrite <- length_app. apply (at_app json_str _ _ _ Hs3).
Qed.

Lemma parse_generated (char_is_signed : bool) (node : Node) :
  float_free node ->
  parse (generate char_is_signed node) = Returns (value (reparse char_is_signed node)).
Proof.
  intros Hff.
  set (json_str := generate char_is_signed node).
  destruct (generate_head_float_free char_is_signed node Hff) as (c & r & E & Hsp & _).
  assert (Hs : json_str = [] ++ generate char_is_signed node ++ [])
    by (now rewrite app_nil_r).
  pose proof (parse_value_reread char_is_signed node Hff json_str [] [] Hs I) as Hv.
  cbn [length Nat.add] in Hv. fold json_str in Hv.
  assert (Hs0 : json_str = [] ++ c :: r) by exact E.
  unfold parse, JsonParser_parse.
  pose proof (ws_at json_str [] c r Hs0 Hsp) as Hw. cbn [length] in Hw.
  rewrite Hw, Hv. rewrite parse_whitespace_at_end by (unfold size; lia).
  unfold size. rewrite Nat.eqb_refl. reflexivity.
Qed.

(** X12: [parse] accepts every text that [generate] writes for a tree
    without [Float]: it returns a tree, never an error and never an
    exception.  The tree returned is the generated one with every byte of
    a string or key replaced by the byte read back from its escape, and
    with every object rebuilt by emplacing its entries in their order (so
    of two keys that are read back equal the first one stays). *)
Theorem parse_accepts_generated (char_is_signed : bool) (node : Node) :
  float_free node ->
  parse (generate char_is_signed node) = Returns (value (reparse char_is_signed node)).
Proof. apply parse_generated. Qed.

Lemma parse_accepts_generated_witness :
  parse (generate false (Array [String [x1f];
                                Object [([x14], Integer 1); ([x20], Integer 2)]]))
  = Returns (value (Array [String [x31]; Object [([x20], Integer 1)]])).
Proof.
  apply (parse_accepts_generated false
           (Array [String [x1f]; Object [([x14], Integer 1); ([x20], Integer 2)]])).
  vm_compute. repeat split; discriminate.
Defined.

(** ** Integers outside the 64-bit range *)

Lemma stoll_to_string_out_of_range (n : Z) :
  ~ (LLONG_MIN <= n <= LLONG_MAX) -> stoll (to_string n) = inr out_of_range.
Proof.
  intros Hn. destruct (to_string_cases n) as (c & r & E & Hd & _ & Hv).
  unfold stoll. rewrite E.
  pose proof (Forall_inv Hd) as Hc. cbv beta in Hc.
  destruct (isdigit_not_sign c Hc) as [Hm Hp].
  assert (Hrange : forall k, k = n -> (LLONG_MIN <=? k) && (k <=? LLONG_MAX) = false).
  { intros k ->. apply andb_false_iff.
    destruct (Z.leb_spec LLONG_MIN n); [|now left].
    destruct (Z.leb_spec n LLONG_MAX); [|now right]. destruct Hn. lia. }
  destruct (n <? 0) eqn:En; cbn [app drop_while].
  - change (isspace "-"%byte) with false. cbv iota.
    cbn [read_sign]. change (chr_eqb "-"%byte "-"%byte) with true. cbv iota.
    rewrite <- (app_nil_r (c :: r)), (take_while_all isdigit (c :: r) [] Hd I), Hv.
    apply Z.ltb_lt in En. rewrite Hrange by lia. reflexivity.
  - rewrite (isdigit_not_space c Hc). cbn [read_sign]. rewrite Hm, Hp.
    rewrite <- (app_nil_r (c :: r)), (take_while_all isdigit (c :: r) [] Hd I), Hv.
    apply Z.ltb_ge in En. rewrite Hrange by lia. reflexivity.
Qed.

Section IntegersOutOfRange.
Variable json_str : std_string.
Implicit Types (pre post : std_string).

Lemma parse_number_too_big_integer pre (n : Z) post :
  json_str = pre ++ to_string n ++ post ->
  ~ (LLONG_MIN <= n <= LLONG_MAX) ->
  number_end post ->
  parse_number json_str (length pre)
  = Done (unexpected parse_number_too_big) (length pre).
Proof.
  intros Hs Hn Hend.
  pose proof (stoll_to_string_out_of_range n Hn) as Hstoll.
  pose proof (substr_app json_str pre (to_string n) post Hs) as Hsub.
  destruct (to_string_cases n) as (c & r & E & Hd & Hz & _).
  rewrite E in Hs.
  pose proof (Forall_inv Hd) as Hc. cbv beta in Hc.
  destruct (isdigit_not_sign c Hc) as [Hm _].
  assert (Htail : match post with [] => True | c :: _ => isdigit c = false end).
  { destruct post; [exact I|]. apply Hend. }
  unfold parse_number.
  destruct (n <? 0) eqn:En; cbn [app] in Hs.
  - (* a minus sign, then the digits *)
    rewrite (ws_at json_str pre _ _ Hs eq_refl), (not_at_end json_str pre _ _ Hs).
    rewrite (at_app json_str pre _ _ Hs).
    change (chr_eqb "-"%byte "-"%byte) with true. cbv beta iota zeta.
    assert (Hs' : json_str = (pre ++ ["-"%byte]) ++ (c :: r) ++ post)
      by (rewrite <- app_assoc; exact Hs).
    replace (S (length pre)) with (length (pre ++ ["-"%byte]))
      by (rewrite length_app; simpl; lia).
    rewrite (not_at_end json_str (pre ++ ["-"%byte]) c (r ++ post) Hs').
    rewrite (at_app json_str (pre ++ ["-"%byte]) c (r ++ post) Hs'), Hc.
    assert (Hskip : (if chr_eqb c "0"%byte then Some (S (length (pre ++ ["-"%byte])))
                     else if negb true then None
                     else Some (skip_digits json_str (length (pre ++ ["-"%byte]))))
                    = Some (length ((pre ++ ["-"%byte]) ++ c :: r))).
    { destruct (chr_eqb c "0"%byte) eqn:E0.
      - apply chr_eqb_true in E0. rewrite (Hz E0). rewrite !length_app. simpl.
        f_equal. lia.
      - simpl negb. cbv iota. unfold skip_digits.
        rewrite (skip_while_app json_str isdigit _ (c :: r) post Hs' Hd Htail).
        now rewrite (length_app (pre ++ ["-"%byte])). }
    rewrite Hskip.
    rewrite (number_end_check json_str ((pre ++ ["-"%byte]) ++ c :: r) post)
      by (rewrite <- !app_assoc; exact Hs) || assumption.
    replace (length ((pre ++ ["-"%byte]) ++ c :: r) - length pre)%nat
      with (length (to_string n)) by (rewrite E, !length_app; simpl; lia).
    rewrite Hsub, Hstoll. reflexivity.
  - (* the digits alone *)
    rewrite (ws_at json_str pre _ _ Hs (isdigit_not_space c Hc)),
      (not_at_end json_str pre _ _ Hs).
    rewrite (at_app json_str pre _ _ Hs), Hm. cbv beta iota zeta.
    rewrite (not_at_end json_str pre _ _ Hs), (at_app json_str pre _ _ Hs), Hc.
    assert (Hs' : json_str = pre ++ (c :: r) ++ post) by exact Hs.
    assert (Hskip : (if chr_eqb c "0"%byte then Some (S (length pre))
                     else if negb true then None
                     else Some (skip_digits json_str (length pre)))
                    = Some (length (pre ++ c :: r))).
    { destruct (chr_eqb c "0"%byte) eqn:E0.
      - apply chr_eqb_true in E0. rewrite (Hz E0). rewrite !length_app. simpl.
        f_equal. lia.
      - simpl negb. cbv iota. unfold skip_digits.
        rewrite (skip_while_app json_str isdigit _ (c :: r) post Hs' Hd Htail).
        now rewrite length_app. }
    rewrite Hskip.
    rewrite (number_end_check json_str (pre ++ c :: r) post)
      by (rewrite <- !app_assoc; exact Hs) || assumption.
    replace (length (pre ++ c :: r) - length pre)%nat
      with (length (to_string n)) by (rewrite E, !length_app; simpl; lia).
    rewrite Hsub, Hstoll. reflexivity.
Qed.
End IntegersOutOfRange.

(** X13: an integer too large or too small for [int64_t] is rejected,
    not wrapped around: the decimal text of every integer outside the
    range from [-2^63] to [2^63 - 1] fails with [parse_number_too_big]. *)
Theorem parse_integer_out_of_range (n : Z) :
  ~ (LLONG_MIN <= n <= LLONG_MAX) ->
  parse (to_string n) = Returns (unexpected parse_number_too_big).
Proof.
  intros Hn. set (json_str := to_string n).
  apply (parse_any_fuel _ 1 _ 0). unfold JsonParser_parse.
  destruct (to_string_head n) as (c & r & E & Hc).
  destruct (number_head c Hc) as (Hsp & _ & _ & T1 & T2 & T3 & T4 & T5 & T6).
  assert (Hs0 : json_str = [] ++ c :: r) by exact E.
  assert (Hs : json_str = [] ++ to_string n ++ []) by (now rewrite app_nil_r).
  pose proof (ws_at json_str [] c r Hs0 Hsp) as Hw. cbn [length] in Hw.
  pose proof (at_app json_str [] c r Hs0) as Hat. cbn [length] in Hat.
  rewrite Hw, parse_value_dispatch;
    [|rewrite (size_app json_str [] _ Hs0); simpl; lia|now rewrite Hat].
  rewrite Hat. cbv zeta. rewrite T1, T2, T3, T4, T5, T6.
  pose proof (parse_number_too_big_integer json_str [] n [] Hs Hn I) as Hv.
  cbn [length] in Hv. now rewrite Hv.
Qed.

Lemma parse_integer_out_of_range_witness :
  parse (to_string (2 ^ 63)) = Returns (unexpected parse_number_too_big).
Proof.
  apply (parse_integer_out_of_range (2 ^ 63)).
  vm_compute. intros [_ H]. now apply H.
Defined.

(** ** The round trip, white space around the text *)

Lemma isspace_number_end (c : char) :
  isspace c = true -> isdigit c = false /\ float_mark c = false.
Proof. destruct c; (discriminate || (intros _; split; reflexivity)). Qed.

Lemma blank_number_end (w : std_string) : blank w -> number_end w.
Proof.
  destruct w as [|c w]; [intros _; exact I|].
  intros H. apply isspace_number_end. exact (Forall_inv H).
Qed.

Lemma parse_generated_blanks (char_is_signed : bool) (node : Node)
    (w1 w2 : std_string) :
  roundtrip_node char_is_signed node -> blank w1 -> blank w2 ->
  parse (w1 ++ generate char_is_signed node ++ w2) = Returns (value node).
Proof.
  intros Hrt Hw1 Hw2. rewrite (parse_leading_blank w1 _ Hw1).
  set (json_str := generate char_is_signed node ++ w2).
  destruct (generate_head char_is_signed node Hrt) as (c & r & E & Hsp & _).
  assert (Hs : json_str = [] ++ generate char_is_signed node ++ w2) by reflexivity.
  pose proof (parse_value_generated char_is_signed node Hrt json_str [] w2 Hs
                (blank_number_end w2 Hw2)) as Hv.
  cbn [length Nat.add] in Hv.
  assert (Hs0 : json_str = [] ++ c :: r ++ w2) by (unfold json_str; now rewrite E).
  apply (parse_any_fuel _ (parse_fuel json_str) _ (size json_str)).
  unfold JsonParser_parse.
  pose proof (ws_at json_str [] c _ Hs0 Hsp) as Hw. cbn [length] in Hw.
  rewrite Hw, Hv.
  rewrite (parse_whitespace_to_end json_str (generate char_is_signed node) w2 eq_refl Hw2).
  now rewrite Nat.eqb_refl.
Qed.

(** X14: on the trees on which the round trip holds, it holds with
    any white space before and after the generated text. *)
Theorem generate_parse_roundtrip_blanks (char_is_signed : bool) (node : Node)
    (w1 w2 : std_string) :
  roundtrip_node char_is_signed node -> blank w1 -> blank w2 ->
  parse (w1 ++ generate char_is_signed node ++ w2) = Returns (value node).
Proof. apply parse_generated_blanks. Qed.

Lemma generate_parse_roundtrip_blanks_witness :
  parse ([x20; x0a] ++ generate true (Array [Integer (-3); String (text "a b")]) ++ [x0a])
  = Returns (value (Array [Integer (-3); String (text "a b")])).
Proof.
  apply (generate_parse_roundtrip_blanks true
           (Array [Integer (-3); String (text "a b")]) [x20; x0a] [x0a]).
  - cbn [roundtrip_node]. split; [vm_compute; split; discriminate|].
    split; [|exact I].
    repeat (apply List.Forall_cons;
            [unfold roundtrip_char; vm_compute; right; right; right; discriminate|]).
    apply List.Forall_nil.
  - repeat constructor.
  - repeat constructor.
Defined.

(** X15: on the trees on which the round trip holds, [generate] is
    injective: two different trees never have the same text. *)
Theorem generate_injective (char_is_signed : bool) (a b : Node) :
  roundtrip_node char_is_signed a -> roundtrip_node char_is_signed b ->
  generate char_is_signed a = generate char_is_signed b -> a = b.
Proof.
  intros Ha Hb E.
  pose proof (parse_value_generated char_is_signed a Ha
                (generate char_is_signed a) [] []) as Hpa.
  pose proof (parse_value_generated char_is_signed b Hb
                (generate char_is_signed b) [] []) as Hpb.
  rewrite app_nil_r in Hpa, Hpb. specialize (Hpa eq_refl I). specialize (Hpb eq_refl I).
  rewrite E in Hpa. rewrite Hpb in Hpa. now injection Hpa.
Qed.

Lemma generate_injective_witness :
  Array [Integer 1; Null] = Array [Integer 1; Null].
Proof.
  apply (generate_injective false (Array [Integer 1; Null]) (Array [Integer 1; Null])).
  - cbn [roundtrip_node]. split; [vm_compute; split; discriminate|]. split; exact I.
  - cbn [roundtrip_node]. split; [vm_compute; split; discriminate|]. split; exact I.
  - reflexivity.
Defined.

(** ** The characters of a generated text *)

Lemma generate_char_no_control (char_is_signed : bool) (c : char) :
  List.Forall (fun k => ~ control_char k) (generate_char char_is_signed c).
Proof.
  assert (H : forallb (fun k => 32 <=? code k) (generate_char char_is_signed c) = true)
    by (destruct char_is_signed, c; vm_compute; reflexivity).
  rewrite forallb_forall in H. apply List.Forall_forall. intros k Hk.
  apply H, Z.leb_le in Hk. unfold control_char. lia.
Qed.

Lemma isdigit_no_control (c : char) : isdigit c = true -> ~ control_char c.
Proof.
  unfold isdigit, control_char. intros H.
  apply andb_true_iff in H as [H _]. apply Z.leb_le in H. lia.
Qed.

Lemma to_string_no_control (n : Z) :
  List.Forall (fun k => ~ control_char k) (to_string n).
Proof.
  destruct (to_string_cases n) as (c & r & E & Hd & _). rewrite E.
  apply Forall_app. split.
  - destruct (n <? 0); repeat constructor. vm_compute. discriminate.
  - eapply List.Forall_impl; [|exact Hd]. apply isdigit_no_control.
Qed.

Lemma text_no_control (s : string) :
  forallb (fun k => 32 <=? code k) (text s) = true ->
  List.Forall (fun k => ~ control_char k) (text s).
Proof.
  intros H. rewrite forallb_forall in H. apply List.Forall_forall. intros k Hk.
  apply H, Z.leb_le in Hk. unfold control_char. lia.
Qed.

Lemma repeat_Forall {A : Type} (P : A -> Prop) (x : A) (n : nat) :
  P x -> List.Forall P (repeat x n).
Proof. intros Hx. induction n; simpl; constructor; assumption. Qed.

Lemma to_string_double_no_control (f : double) :
  List.Forall (fun k => ~ control_char k) (to_string_double f).
Proof.
  assert (Hsign : forall s : bool,
            List.Forall (fun k => ~ control_char k) (if s then ["-"%byte] else [])).
  { intros [|]; repeat constructor. vm_compute. discriminate. }
  destruct f as [s|s|s|s m e]; cbn [to_string_double].
  - apply Forall_app. split; [apply Hsign|]. now apply text_no_control.
  - apply Forall_app. split; [apply Hsign|]. now apply text_no_control.
  - apply Forall_app. split; [apply Hsign|]. now apply text_no_control.
  - cbv zeta. apply Forall_app. split; [apply Hsign|].
    apply Forall_app. split; [apply to_string_no_control|].
    constructor; [vm_compute; discriminate|].
    unfold pad_left. apply Forall_app. split; [|apply to_string_no_control].
    apply repeat_Forall. vm_compute. discriminate.
Qed.

Lemma generate_string_no_control (char_is_signed : bool) (s : std_string) :
  List.Forall (fun k => ~ control_char k) (generate_string char_is_signed s).
Proof.
  unfold generate_string. constructor; [vm_compute; discriminate|].
  apply Forall_app. split; [|repeat constructor; vm_compute; discriminate].
  induction s as [|c s IH]; simpl; [constructor|].
  apply Forall_app. split; [apply generate_char_no_control|exact IH].
Qed.

Lemma join_Forall (P : char -> Prop) (sep : char) (parts : list std_string) :
  P sep -> List.Forall (List.Forall P) parts -> List.Forall P (join sep parts).
Proof.
  intros Hsep. induction 1 as [|x l Hx Hl IH]; [constructor|].
  destruct l as [|y l]; [exact Hx|].
  change (join sep (x :: y :: l)) with (x ++ sep :: join sep (y :: l)).
  apply Forall_app. split; [exact Hx|]. constructor; assumption.
Qed.

(** X16: a generated text holds no control character: every byte
    that [generate] writes, for any tree, is [0x20] or above.  So the text
    is a single line, and inside strings no byte below [0x20] is written
    raw. *)
Theorem generate_no_control_characters (char_is_signed : bool) (node : Node) :
  List.Forall (fun c => ~ control_char c) (generate char_is_signed node).
Proof.
  induction node as [|b|n|f|s|a IH|o IH] using Node_nested_ind.
  - now apply text_no_control.
  - destruct b; now apply text_no_control.
  - apply to_string_no_control.
  - apply to_string_double_no_control.
  - apply generate_string_no_control.
  - rewrite generate_Array_join. constructor; [vm_compute; discriminate|].
    apply Forall_app. split; [|repeat constructor; vm_compute; discriminate].
    apply join_Forall; [vm_compute; discriminate|].
    induction IH; simpl; constructor; assumption.
  - rewrite generate_Object_join. constructor; [vm_compute; discriminate|].
    apply Forall_app. split; [|repeat constructor; vm_compute; discriminate].
    apply join_Forall; [vm_compute; discriminate|].
    induction IH as [|[k x] o Hx _ IHo]; simpl; constructor; [|assumption].
    unfold entry_text. cbn [fst snd] in *.
    apply Forall_app. split; [apply generate_string_no_control|].
    constructor; [vm_compute; discriminate|assumption].
Qed.

(** ** The width of a control escape *)

Lemma generate_char_escape_check (char_is_signed : bool) (c : char) :
  match escape_map c with
  | Some _ => true
  | None =>
      if char_to_int char_is_signed c <? 32
      then (length (to_string (char_to_int char_is_signed c)) <=? 4)%nat
           && (length (generate_char char_is_signed c) =? 6)%nat
      else true
  end = true.
Proof. destruct char_is_signed, c; vm_compute; reflexivity. Qed.

(** X17: the padding of a control escape never wraps around.  For
    every byte that [generate_string] writes as a [\u] escape, signed or
    unsigned, the decimal text of the byte has at most four characters,
    so the count [4 - size] of padding zeros is not negative, and the
    escape has exactly six characters. *)
Theorem generate_char_escape_width (char_is_signed : bool) (c : char) :
  escape_map c = None -> char_to_int char_is_signed c < 32 ->
  (length (to_string (char_to_int char_is_signed c)) <= 4)%nat
  /\ length (generate_char char_is_signed c) = 6%nat.
Proof.
  intros Hmap Hlt. pose proof (generate_char_escape_check char_is_signed c) as H.
  rewrite Hmap in H. apply Z.ltb_lt in Hlt. rewrite Hlt in H.
  apply andb_true_iff in H as [H1 H2].
  apply Nat.leb_le in H1. apply Nat.eqb_eq in H2. now split.
Qed.

Lemma generate_char_escape_width_witness :
  (length (to_string (char_to_int true xff)) <= 4)%nat
  /\ length (generate_char true xff) = 6%nat.
Proof.
  apply (generate_char_escape_width true xff).
  - reflexivity.
  - vm_compute. reflexivity.
Defined.

(** ** The text of an array *)

(** X18: [generate_array] writes an opening bracket, the texts of the
    elements in order with one comma between two of them, and a closing
    bracket: no comma after the last element, no white space, and [[]]
    for the empty array. *)
Theorem generate_array_compact (char_is_signed : bool) (array : list Node) :
  generate_array char_is_signed array
  = "["%byte :: join ","%byte (map (generate char_is_signed) array) ++ ["]"%byte].
Proof. apply generate_Array_join. Qed.

(** ** Unicode escapes *)

Lemma isxdigit_facts (c : char) :
  isxdigit c = true ->
  isspace c = false /\ chr_eqb c "-"%byte = false /\ chr_eqb c "+"%byte = false
  /\ chr_eqb c "x"%byte = false /\ chr_eqb c "X"%byte = false
  /\ 0 <= digit_value c <= 15 /\ raw_char c.
Proof.
  destruct c; (discriminate || (intros _; repeat split; (reflexivity || discriminate))).
Qed.

(** [std::stoi] on four hexadecimal digits. *)
Lemma stoi16_hex (h1 h2 h3 h4 : char) :
  isxdigit h1 = true -> isxdigit h2 = true -> isxdigit h3 = true -> isxdigit h4 = true ->
  stoi16 [h1; h2; h3; h4] = inl (digits_value 16 [h1; h2; h3; h4]).
Proof.
  intros X1 X2 X3 X4.
  destruct (isxdigit_facts h1 X1) as (S1 & M1 & P1 & _ & _ & V1 & _).
  destruct (isxdigit_facts h2 X2) as (_ & _ & _ & x2 & x2' & V2 & _).
  destruct (isxdigit_facts h3 X3) as (_ & _ & _ & _ & _ & V3 & _).
  destruct (isxdigit_facts h4 X4) as (_ & _ & _ & _ & _ & V4 & _).
  unfold stoi16. cbn [drop_while]. rewrite S1. cbn [read_sign]. rewrite M1, P1.
  cbn [skip_0x]. rewrite x2, x2'. rewrite andb_false_r. cbn [andb take_while].
  rewrite X1, X2, X3, X4.
  assert (Hr : (INT_MIN <=? digits_value 16 [h1; h2; h3; h4])
               && (digits_value 16 [h1; h2; h3; h4] <=? INT_MAX) = true).
  { unfold digits_value. cbn [fold_left]. unfold INT_MIN, INT_MAX.
    apply andb_true_iff. split; apply Z.leb_le; lia. }
  now rewrite Hr.
Qed.

Section UnicodeEscapes.
Variable json_str : std_string.
Implicit Types (pre post str : std_string) (fuel : nat).

(** The string loop on characters that stand for themselves. *)
Lemma parse_string_loop_raw_prefix body : forall pre rest str fuel,
  json_str = pre ++ body ++ rest ->
  List.Forall raw_char body ->
  parse_string_loop json_str (length body + fuel) (length pre) str
  = parse_string_loop json_str fuel (length pre + length body) (str ++ body).
Proof.
  induction body as [|c body IH]; intros pre rest str fuel Hs Hraw.
  - simpl. now rewrite Nat.add_0_r, app_nil_r.
  - cbn [length Nat.add]. rewrite parse_string_loop_step.
    + rewrite (at_app json_str pre c _ Hs).
      replace (S (length pre)) with (length (pre ++ [c]))
        by (rewrite length_app; simpl; lia).
      rewrite (IH (pre ++ [c]) rest (str ++ [c]) fuel).
      * rewrite <- app_assoc, length_app. simpl. f_equal. lia.
      * rewrite <- app_assoc. exact Hs.
      * now apply Forall_inv_tail in Hraw.
    + rewrite (size_app json_str pre _ Hs). simpl. lia.
    + rewrite (at_app json_str pre c _ Hs). exact (Forall_inv Hraw).
Qed.

(** One trip of the string loop on a [\u] escape with four characters
    that [std::stoi] converts and at least one character after them. *)
Lemma parse_string_loop_unicode pre (h1 h2 h3 h4 : char) k rest str fuel :
  json_str = pre ++ [x5c; "u"%byte; h1; h2; h3; h4] ++ rest ->
  rest <> [] ->
  stoi16 [h1; h2; h3; h4] = inl k ->
  parse_string_loop json_str (S fuel) (length pre) str
  = parse_string_loop json_str fuel (length pre + 6) (str ++ [char_of_int k]).
Proof.
  intros Hs Hrest Hk. destruct rest as [|r0 rest]; [now destruct Hrest|].
  cbn [app] in Hs. cbn [parse_string_loop].
  rewrite (loop_cond_true json_str (length pre) x22)
    by (rewrite ?(size_app json_str pre _ Hs), ?(at_app json_str pre _ _ Hs);
        simpl; (lia || discriminate)).
  rewrite (at_app json_str pre _ _ Hs).
  change (chr_eqb x5c x5c) with true. cbv beta iota zeta.
  assert (Hs' : json_str = (pre ++ [x5c]) ++ "u"%byte
                  :: [h1; h2; h3; h4] ++ r0 :: rest)
    by (rewrite <- app_assoc; exact Hs).
  replace (S (length pre)) with (length (pre ++ [x5c]))
    by (rewrite length_app; simpl; lia).
  rewrite (not_at_end json_str _ _ _ Hs'), (at_app json_str _ _ _ Hs').
  change (escape_mappping "u"%byte) with (@None byte).
  change (chr_eqb "u"%byte "u"%byte) with true. cbv beta iota.
  rewrite parse_unicode_at_u;
    [|rewrite (size_app json_str _ _ Hs'); simpl; lia
     |now rewrite (at_app json_str _ _ _ Hs')].
  replace (size json_str <=? length (pre ++ [x5c]) + 4)%nat with false
    by (symmetry; apply Nat.leb_gt; rewrite (size_app json_str _ _ Hs');
        simpl; rewrite !length_app; simpl; lia).
  assert (Hs'' : json_str = (pre ++ [x5c; "u"%byte])
                   ++ [h1; h2; h3; h4] ++ r0 :: rest)
    by (rewrite <- app_assoc; exact Hs).
  replace (length (pre ++ [x5c]) + 1)%nat with (length (pre ++ [x5c; "u"%byte]))
    by (rewrite !length_app; simpl; lia).
  pose proof (substr_app json_str _ _ _ Hs'') as Hsub.
  change (length [h1; h2; h3; h4]) with 4%nat in Hsub.
  rewrite Hsub, Hk.
  f_equal. rewrite !length_app. simpl. lia.
Qed.

(** One trip of the string loop on a [\u] with at most three characters
    left after it. *)
Lemma parse_string_loop_unicode_truncated pre rest str fuel :
  json_str = pre ++ [x5c; "u"%byte] ++ rest ->
  rest <> [] -> (length rest <= 3)%nat ->
  parse_string_loop json_str (S fuel) (length pre) str
  = parse_string_loop json_str fuel (length pre + 2) (str ++ [x00]).
Proof.
  intros Hs Hrest Hlen. destruct rest as [|r0 rest]; [now destruct Hrest|].
  cbn [app] in Hs. cbn [parse_string_loop].
  rewrite (loop_cond_true json_str (length pre) x22)
    by (rewrite ?(size_app json_str pre _ Hs), ?(at_app json_str pre _ _ Hs);
        simpl; (lia || discriminate)).
  rewrite (at_app json_str pre _ _ Hs).
  change (chr_eqb x5c x5c) with true. cbv beta iota zeta.
  assert (Hs' : json_str = (pre ++ [x5c]) ++ "u"%byte :: r0 :: rest)
    by (rewrite <- app_assoc; exact Hs).
  replace (S (length pre)) with (length (pre ++ [x5c]))
    by (rewrite length_app; simpl; lia).
  rewrite (not_at_end json_str _ _ _ Hs'), (at_app json_str _ _ _ Hs').
  change (escape_mappping "u"%byte) with (@None byte).
  change (chr_eqb "u"%byte "u"%byte) with true. cbv beta iota.
  rewrite parse_unicode_at_u;
    [|rewrite (size_app json_str _ _ Hs'); simpl; lia
     |now rewrite (at_app json_str _ _ _ Hs')].
  replace (size json_str <=? length (pre ++ [x5c]) + 4)%nat with true
    by (symmetry; apply Nat.leb_le; rewrite (size_app json_str _ _ Hs');
        simpl in *; rewrite !length_app; simpl; lia).
  f_equal. rewrite !length_app. simpl. lia.
Qed.
End UnicodeEscapes.

(** A string document read through the loop. *)
Lemma parse_string_document (body : std_string) (str : std_string) :
  parse_string_loop (x22 :: body ++ [x22]) (S (length body + 1)) 1 []
  = Done (value str) (S (length body)) ->
  parse (x22 :: body ++ [x22]) = Returns (value (String str)).
Proof.
  intros Hloop. set (json_str := x22 :: body ++ [x22]) in *.
  assert (Hsize : size json_str = (length body + 2)%nat).
  { unfold size, json_str. simpl. rewrite length_app. simpl. lia. }
  apply (parse_any_fuel _ 1 _ (length body + 2)).
  unfold JsonParser_parse.
  rewrite parse_whitespace_here; [|lia|reflexivity].
  rewrite parse_value_on_quote; [|lia|reflexivity].
  unfold parse_string.
  rewrite parse_whitespace_here; [|lia|reflexivity].
  replace (0 =? size json_str)%nat with false by (symmetry; apply Nat.eqb_neq; lia).
  change (at_ json_str 0) with x22. cbn [chr_eqb Byte.eqb negb orb].
  change (chr_eqb x22 x22) with true. cbn [negb orb].
  replace (S (size json_str - 1)) with (S (length body + 1)) by lia.
  rewrite Hloop.
  assert (Hs : json_str = (x22 :: body) ++ x22 :: []) by reflexivity.
  pose proof (at_app json_str _ _ _ Hs) as Hat. cbn [length] in Hat.
  rewrite Hat.
  replace (S (length body) =? size json_str)%nat with false
    by (symmetry; apply Nat.eqb_neq; lia).
  change (chr_eqb x22 x22) with true. cbn [negb orb].
  rewrite parse_whitespace_at_end by lia.
  replace (S (S (length body))) with (size json_str) by lia.
  rewrite Nat.eqb_refl. cbn [negb]. now rewrite Hsize.
Qed.

(** X19: a [\u] escape with four hexadecimal digits gives one byte,
    the low eight bits of the number the digits denote: there is no
    UTF-8 encoding, and the upper two digits are dropped ([\u0041] and
    [\u2041] both give [A]). *)
Theorem parse_unicode_escape_low_byte (before after : std_string) (h1 h2 h3 h4 : char) :
  List.Forall raw_char before -> List.Forall raw_char after ->
  isxdigit h1 = true -> isxdigit h2 = true -> isxdigit h3 = true -> isxdigit h4 = true ->
  parse (x22 :: (before ++ [x5c; "u"%byte; h1; h2; h3; h4] ++ after) ++ [x22])
  = Returns (value (String (before
                            ++ char_of_int (digits_value 16 [h1; h2; h3; h4]) :: after))).
Proof.
  intros Hb Ha X1 X2 X3 X4. apply parse_string_document.
  set (esc := [x5c; "u"%byte; h1; h2; h3; h4]).
  set (json_str := x22 :: (before ++ esc ++ after) ++ [x22]).
  assert (Hs : json_str = [x22] ++ before ++ esc ++ after ++ [x22]).
  { unfold json_str. cbn [app]. now rewrite <- !app_assoc. }
  replace (S (length (before ++ esc ++ after) + 1))
    with (length before + S (S (length after + 6)))%nat
    by (rewrite !length_app; simpl; lia).
  rewrite (parse_string_loop_raw_prefix json_str before [x22] _ [] _ Hs Hb).
  replace (length [x22] + length before)%nat with (length ([x22] ++ before))
    by now rewrite length_app.
  rewrite (parse_string_loop_unicode json_str ([x22] ++ before) h1 h2 h3 h4
             (digits_value 16 [h1; h2; h3; h4]) (after ++ [x22]));
    [|rewrite <- app_assoc; exact Hs|now destruct after|now apply stoi16_hex].
  replace (length ([x22] ++ before) + 6)%nat with (length (([x22] ++ before) ++ esc))
    by (rewrite !length_app; reflexivity).
  rewrite (parse_string_loop_raw json_str after (([x22] ++ before) ++ esc) []);
    [|rewrite <- !app_assoc; exact Hs|exact Ha|lia].
  cbn [app]. rewrite <- app_assoc. f_equal.
  rewrite !length_app. simpl. rewrite !length_app. simpl. lia.
Qed.

Lemma parse_unicode_escape_low_byte_witness :
  parse (x22 :: (text "a" ++ [x5c; "u"%byte; "2"%byte; "0"%byte; "A"%byte; "c"%byte]
                 ++ text "b") ++ [x22])
  = Returns (value (String (text "a"
                            ++ char_of_int (digits_value 16 (text "20Ac")) :: text "b"))).
Proof.
  apply (parse_unicode_escape_low_byte (text "a") (text "b")
           "2"%byte "0"%byte "A"%byte "c"%byte).
  - repeat constructor; discriminate.
  - repeat constructor; discriminate.
  - reflexivity.
  - reflexivity.
  - reflexivity.
  - reflexivity.
Defined.

(** X20: a string document whose [\u] is followed by at most two
    characters before the closing quote is accepted: the escape gives the
    byte 0, consumes none of these characters, and they are read as
    ordinary characters. *)
Theorem parse_unicode_escape_truncated (before rest : std_string) :
  List.Forall raw_char before -> List.Forall raw_char rest -> (length rest <= 2)%nat ->
  parse (x22 :: (before ++ [x5c; "u"%byte] ++ rest) ++ [x22])
  = Returns (value (String (before ++ x00 :: rest))).
Proof.
  intros Hb Hr Hlen. apply parse_string_document.
  set (json_str := x22 :: (before ++ [x5c; "u"%byte] ++ rest) ++ [x22]).
  assert (Hs : json_str = [x22] ++ before ++ [x5c; "u"%byte] ++ rest ++ [x22]).
  { unfold json_str. cbn [app]. now rewrite <- !app_assoc. }
  replace (S (length (before ++ [x5c; "u"%byte] ++ rest) + 1))
    with (length before + S (S (length rest + 2)))%nat
    by (rewrite !length_app; simpl; lia).
  rewrite (parse_string_loop_raw_prefix json_str before [x22] _ [] _ Hs Hb).
  replace (length [x22] + length before)%nat with (length ([x22] ++ before))
    by now rewrite length_app.
  rewrite (parse_string_loop_unicode_truncated json_str ([x22] ++ before) (rest ++ [x22]));
    [|rewrite <- app_assoc; exact Hs|now destruct rest|rewrite length_app; simpl; lia].
  replace (length ([x22] ++ before) + 2)%nat
    with (length (([x22] ++ before) ++ [x5c; "u"%byte]))
    by (rewrite !length_app; reflexivity).
  rewrite (parse_string_loop_raw json_str rest (([x22] ++ before) ++ [x5c; "u"%byte]) []);
    [|rewrite <- !app_assoc; exact Hs|exact Hr|lia].
  cbn [app]. rewrite <- app_assoc. f_equal.
  rewrite !length_app. simpl. rewrite !length_app. simpl. lia.
Qed.

Lemma parse_unicode_escape_truncated_witness :
  parse (x22 :: (text "a" ++ [x5c; "u"%byte] ++ text "12") ++ [x22])
  = Returns (value (String (text "a" ++ x00 :: text "12"))).
Proof.
  apply (parse_unicode_escape_truncated (text "a") (text "12")).
  - repeat constructor; discriminate.
  - repeat constructor; discriminate.
  - simpl. lia.
Defined.

(** ** The trees that [parse] returns *)

Lemma shr_1_nonneg (mrs : shr_record) : 0 <= shr_m mrs -> 0 <= shr_m (shr_1 mrs).
Proof. destruct mrs as [[|[p|p|]|p] r s]; simpl; lia. Qed.

Lemma iter_shr_1_nonneg (p : positive) : forall mrs : shr_record,
  0 <= shr_m mrs -> 0 <= shr_m (SpecFloat.iter_pos shr_1 p mrs).
Proof.
  induction p as [p IH|p IH|]; intros mrs H; simpl.
  - apply IH, IH, shr_1_nonneg, H.
  - apply IH, IH, H.
  - apply shr_1_nonneg, H.
Qed.

Lemma shr_fexp_nonneg (m e : Z) (l : location) :
  0 <= m -> 0 <= shr_m (fst (shr_fexp Float_prec Float_emax m e l)).
Proof.
  intros H. unfold shr_fexp, shr.
  assert (H0 : 0 <= shr_m (shr_record_of_loc m l)) by (destruct l as [|[| |]]; exact H).
  destruct (fexp _ _ _ - e) as [|p|p]; simpl; try exact H0.
  now apply iter_shr_1_nonneg.
Qed.

Lemma round_nearest_even_nonneg (mx : Z) (lx : location) :
  0 <= mx -> 0 <= round_nearest_even mx lx.
Proof.
  intros H. destruct lx as [|[| |]]; simpl; try lia. destruct (Z.even mx); lia.
Qed.

Lemma binary_round_aux_not_nan (sx : bool) (mx ex : Z) (lx : location) :
  0 <= mx -> binary_round_aux Float_prec Float_emax sx mx ex lx <> S754_nan.
Proof.
  intros H. unfold binary_round_aux.
  pose proof (shr_fexp_nonneg mx ex lx H) as H1.
  destruct (shr_fexp Float_prec Float_emax mx ex lx) as [mrs' e']. simpl in H1.
  pose proof (shr_fexp_nonneg _ e' loc_Exact
                (round_nearest_even_nonneg _ (loc_of_shr_record mrs') H1)) as H2.
  destruct (shr_fexp Float_prec Float_emax _ e' loc_Exact) as [mrs'' e'']. simpl in H2.
  destruct (shr_m mrs'') as [|p|p]; try discriminate; [|lia].
  now destruct (e'' <=? Float_emax - Float_prec).
Qed.

Lemma binary_normalize_not_nan (m e : Z) (szero : bool) :
  binary_normalize Float_prec Float_emax m e szero <> S754_nan.
Proof.
  destruct m as [|p|p]; simpl; try discriminate; unfold binary_round;
    destruct (shl_align _ _ _) as [mz ez]; now apply binary_round_aux_not_nan.
Qed.

Lemma round_decimal_not_nan (neg : bool) (m e : Z) : round_decimal neg m e <> S754_nan.
Proof.
  unfold round_decimal. repeat case_if; try discriminate.
  unfold round_decimal_exact. destruct m as [|p|p]; try discriminate.
  case_if; [apply binary_normalize_not_nan|].
  apply binary_round_aux_not_nan. apply Z.div_pos; [|apply Z.pow_pos_nonneg; lia].
  apply Z.mul_nonneg_nonneg; [lia|]. apply Z.pow_nonneg. lia.
Qed.

(** [std::stod] never returns an infinity or a NaN. *)
Lemma stod_finite (str : std_string) (f : double) : stod str = inl f -> finite f.
Proof.
  unfold stod. destruct (read_decimal str) as [[[neg m] e]|]; [|discriminate].
  pose proof (round_decimal_not_nan neg m e) as Hn.
  destruct (round_decimal neg m e) as [s|s| |s fm fe] eqn:E; try discriminate.
  - case_if; [discriminate|]. now intros [= <-].
  - now destruct Hn.
  - case_if; [discriminate|]. now intros [= <-].
Qed.

Lemma well_formed_Array (a : list Node) :
  well_formed (Array a) <-> List.Forall well_formed a.
Proof.
  induction a as [|x a IH]; [split; constructor|].
  split.
  - intros [Hx Ha]. constructor; [assumption|]. now apply IH.
  - intros H. split; [exact (Forall_inv H)|]. apply IH. now apply Forall_inv_tail in H.
Qed.

Lemma well_formed_Object (o : std_map Node) :
  well_formed (Object o)
  <-> map_ok o /\ List.Forall (fun kv => well_formed (snd kv)) o.
Proof.
  cbn [well_formed]. apply and_iff_compat_l.
  induction o as [|[k x] o IH]; [split; constructor|].
  split.
  - intros [Hx Ho]. constructor; [assumption|]. now apply IH.
  - intros H. split; [exact (Forall_inv H)|]. apply IH. now apply Forall_inv_tail in H.
Qed.

Lemma map_emplace_Forall {V : Type} (Q : std_string * V -> Prop) key (v : V) m :
  List.Forall Q m -> Q (key, v) -> List.Forall Q (map_emplace key v m).
Proof.
  intros Hm Hv. induction m as [|[k x] m IH]; simpl; [now constructor|].
  destruct (string_compare key k).
  - exact Hm.
  - now constructor.
  - constructor; [exact (Forall_inv Hm)|]. apply IH. now apply Forall_inv_tail in Hm.
Qed.

Section WellFormed.
Variable json_str : std_string.

Lemma parse_number_well_formed pos :
  returns_with well_formed (parse_number json_str pos).
Proof.
  destruct (parse_number json_str pos) as [[v|e] p| |] eqn:E; try exact I.
  destruct (parse_number_classifies _ _ _ _ E)
    as [(n & -> & Hn & _)|(f & -> & Hf & _)]; simpl.
  - exact Hn.
  - now apply stod_finite in Hf.
Qed.

Lemma parse_string_well_formed pos :
  returns_with well_formed (parse_string json_str pos).
Proof.
  destruct (parse_string json_str pos) as [[v|e] p| |] eqn:E; try exact I.
  now destruct (parse_string_value _ _ _ _ E) as [str ->].
Qed.

Lemma parse_mutual_well_formed fuel : forall pos,
  returns_with well_formed (parse_value json_str fuel pos)
  /\ returns_with well_formed (parse_array json_str fuel pos)
  /\ (forall array, List.Forall well_formed array ->
        returns_with (List.Forall well_formed) (parse_array_loop json_str fuel pos array))
  /\ returns_with well_formed (parse_object json_str fuel pos)
  /\ (forall object,
        map_ok object /\ List.Forall (fun kv => well_formed (snd kv)) object ->
        returns_with (fun o => map_ok o /\ List.Forall (fun kv => well_formed (snd kv)) o)
          (parse_object_loop json_str fuel pos object)).
Proof.
  induction fuel as [|fuel IH]; intros pos; [repeat split; intros; exact I|].
  split; [|split; [|split; [|split]]].
  - cbn [parse_value]. case_if; [exact I|].
    repeat case_if; try apply IH; try apply parse_string_well_formed;
      try apply parse_number_well_formed;
      unfold parse_null, parse_true, parse_false; now case_if.
  - cbn [parse_array]. case_if; [exact I|].
    pose proof (proj1 (proj2 (proj2 (IH (S (parse_whitespace json_str pos))))) []
                  (List.Forall_nil _)) as H.
    destruct (parse_array_loop _ _ _ _) as [[a|e] p| |]; try exact I.
    case_if; [exact I|]. simpl in *. now apply well_formed_Array.
  - intros array Harray. cbn [parse_array_loop]. case_if; [|exact Harray].
    pose proof (proj1 (IH pos)) as H.
    destruct (parse_value _ _ _) as [[v|e] p| |]; try exact I.
    apply IH. apply Forall_app. split; [assumption|]. now constructor.
  - cbn [parse_object]. case_if; [exact I|].
    pose proof (proj2 (proj2 (proj2 (proj2 (IH (S (parse_whitespace json_str pos)))))) []
                  (conj (SSorted_nil _) (List.Forall_nil _))) as H.
    destruct (parse_object_loop _ _ _ _) as [[o|e] p| |]; try exact I.
    case_if; [exact I|]. simpl in *. now apply well_formed_Object.
  - intros object [Hok Hall]. cbn [parse_object_loop]. case_if; [|now split].
    destruct (parse_string _ _) as [[k|e] p| |]; try exact I.
    destruct k; try exact I. case_if; [exact I|].
    pose proof (proj1 (IH (S (parse_whitespace json_str p)))) as H.
    destruct (parse_value _ _ _) as [[v|e] p'| |]; try exact I.
    apply IH. split; [now apply map_emplace_ok|].
    now apply map_emplace_Forall.
Qed.
End WellFormed.

(** X21: every tree that [parse] returns is well formed: no [Float]
    in it is an infinity or a NaN (an overflowing number is an error, not
    an infinity), every [Integer] is within [int64_t], and the keys of
    every [Object] are strictly ascending. *)
Theorem parse_returns_well_formed (json_str : std_string) (v : Node) :
  parse json_str = Returns (value v) -> well_formed v.
Proof.
  intros H. apply parse_Returns_value in H as (p & Hv & _).
  pose proof (proj1 (parse_mutual_well_formed json_str (parse_fuel json_str) 0)) as Hw.
  now rewrite Hv in Hw.
Qed.

Lemma parse_returns_well_formed_witness :
  well_formed (Object [(text "a", Array [Float (D754_finite false 6755399441055744 (-52))]);
                       (text "b", Integer (-1))]).
Proof.
  apply (parse_returns_well_formed (json_text "{'b': -1, 'a': [1.5]}")).
  vm_compute. reflexivity.
Defined.

(** ** Equality of trees *)

Lemma Node_eqb_Array (x y : list Node) :
  Node_eqb (Array x) (Array y)
  = match x, y with
    | [], [] => true
    | u :: r, v :: r' => Node_eqb u v && Node_eqb (Array r) (Array r')
    | _, _ => false
    end.
Proof. destruct x, y; reflexivity. Qed.

Lemma Node_eqb_Object (x y : std_map Node) :
  Node_eqb (Object x) (Object y)
  = match x, y with
    | [], [] => true
    | (k, u) :: r, (k', v) :: r' =>
        string_eqb k k' && Node_eqb u v && Node_eqb (Object r) (Object r')
    | _, _ => false
    end.
Proof. destruct x as [|[k u] r], y as [|[k' v] r']; reflexivity. Qed.

Lemma Node_eqb_eq (a : Node) :
  float_free a -> forall b, Node_eqb a b = true <-> a = b.
Proof.
  induction a as [|x|x|x|x|x IH|x IH] using Node_nested_ind; intros Hff b.
  - destruct b; simpl; split; (reflexivity || discriminate).
  - destruct b; simpl; try (split; discriminate).
    rewrite Bool.eqb_true_iff. split; [now intros ->|now intros [= ->]].
  - destruct b; simpl; try (split; discriminate).
    rewrite Z.eqb_eq. split; [now intros ->|now intros [= ->]].
  - destruct Hff.
  - destruct b; simpl; try (split; discriminate).
    rewrite string_eqb_true. split; [now intros ->|now intros [= ->]].
  - destruct b as [| | | | |y|]; try (split; discriminate).
    apply float_free_Array in Hff. revert y.
    induction x as [|u r IHr]; intros y; rewrite Node_eqb_Array.
    + destruct y; split; (reflexivity || discriminate).
    + destruct y as [|v r']; [split; discriminate|].
      rewrite andb_true_iff.
      rewrite (Forall_inv IH (Forall_inv Hff) v).
      rewrite (IHr (Forall_inv_tail IH) (Forall_inv_tail Hff) r').
      split; [now intros [-> [= ->]]|now intros [= -> ->]].
  - destruct b as [| | | | | |y]; try (split; discriminate).
    apply float_free_Object in Hff. revert y.
    induction x as [|[k u] r IHr]; intros y; rewrite Node_eqb_Object.
    + destruct y; split; (reflexivity || discriminate).
    + destruct y as [|[k' v] r']; [split; discriminate|].
      rewrite !andb_true_iff, string_eqb_true.
      pose proof (Forall_inv IH (Forall_inv Hff) v) as Hu. cbn [snd] in Hu.
      rewrite Hu, (IHr (Forall_inv_tail IH) (Forall_inv_tail Hff) r').
      split; [now intros [[-> ->] [= ->]]|now intros [= -> -> ->]].
Qed.

(** X22: the equality of two trees, [a == b], is structural equality
    whenever one of the trees holds no [Float]: it holds exactly when both
    are the same tree.  With a [Float] it is not: a NaN is not equal to
    itself (nor to any other double), and the two zeros are equal. *)
Theorem Node_eqb_spec :
  (forall a b : Node, float_free a -> (Node_eqb a b = true <-> a = b))
  /\ (forall (s : bool) (f : double), Node_eqb (Float (D754_nan s)) (Float f) = false)
  /\ Node_eqb (Float (D754_nan false)) (Float (D754_nan false)) = false
  /\ Node_eqb (Float (D754_zero false)) (Float (D754_zero true)) = true.
Proof.
  split; [|split; [|split; reflexivity]].
  - intros a b Hff. now apply Node_eqb_eq.
  - intros s f. reflexivity.
Qed.

Lemma Node_eqb_spec_witness :
  Node_eqb (Array [Integer 1; String (text "a")]) (Array [Integer 1; String (text "a")])
  = true.
Proof.
  apply (proj1 Node_eqb_spec (Array [Integer 1; String (text "a")])
           (Array [Integer 1; String (text "a")])).
  - vm_compute. repeat split; discriminate.
  - reflexivity.
Defined.

(** ** Which error for which failure *)

Section ErrorOrigin.
Variable json_str : std_string.
Variable P : JsonError -> Prop.
Hypothesis P_invalid_value : P parse_invalid_value.
Hypothesis P_expect_value : P parse_expect_value.
Hypothesis P_number : forall pos, fails_with P (parse_number json_str pos).

Lemma parse_string_fails_with pos : fails_with P (parse_string json_str pos).
Proof.
  destruct (parse_string json_str pos) as [[v|e] p| |] eqn:E; try exact I.
  simpl. now rewrite (parse_string_error _ _ _ _ E).
Qed.

Lemma parse_mutual_fails_with fuel : forall pos,
  fails_with P (parse_value json_str fuel pos)
  /\ fails_with P (parse_array json_str fuel pos)
  /\ (forall array, fails_with P (parse_array_loop json_str fuel pos array))
  /\ fails_with P (parse_object json_str fuel pos)
  /\ (forall object, fails_with P (parse_object_loop json_str fuel pos object)).
Proof.
  induction fuel as [|fuel IH]; intros pos; [repeat split; intros; exact I|].
  split; [|split; [|split; [|split]]].
  - cbn [parse_value]. case_if; [exact P_expect_value|].
    repeat case_if; try apply IH; try apply parse_string_fails_with;
      try apply P_number;
      unfold parse_null, parse_true, parse_false; case_if; (exact I || exact P_invalid_value).
  - cbn [parse_array]. case_if; [exact P_invalid_value|].
    pose proof (proj1 (proj2 (proj2 (IH (S (parse_whitespace json_str pos))))) []) as H.
    destruct (parse_array_loop _ _ _ _) as [[a|e] p| |]; try exact I; try exact H.
    case_if; [exact P_invalid_value|exact I].
  - intros array. cbn [parse_array_loop]. case_if; [|exact I].
    pose proof (proj1 (IH pos)) as H.
    destruct (parse_value _ _ _) as [[v|e] p| |]; try exact I; try exact H.
    apply IH.
  - cbn [parse_object]. case_if; [exact P_invalid_value|].
    pose proof (proj2 (proj2 (proj2 (proj2 (IH (S (parse_whitespace json_str pos)))))) []) as H.
    destruct (parse_object_loop _ _ _ _) as [[o|e] p| |]; try exact I; try exact H.
    case_if; [exact P_invalid_value|exact I].
  - intros object. cbn [parse_object_loop]. case_if; [|exact I].
    pose proof (parse_string_fails_with pos) as Hk.
    destruct (parse_string _ _) as [[k|e] p| |]; try exact I; try exact Hk.
    destruct k; try exact P_invalid_value. case_if; [exact P_invalid_value|].
    pose proof (proj1 (IH (S (parse_whitespace json_str p)))) as H.
    destruct (parse_value _ _ _) as [[v|e] p'| |]; try exact I; try exact H.
    apply IH.
Qed.
End ErrorOrigin.

Lemma catch_conversion_fails_with {A : Type} (P : JsonError -> Prop) (r : A + exception)
    (k : A -> outcome (expected Value JsonError)) pos :
  P parse_invalid_value ->
  (r = inr out_of_range -> P parse_number_too_big) ->
  (forall a, fails_with P (k a)) ->
  fails_with P (catch_conversion r k pos).
Proof.
  intros Hi Ht Hk. destruct r as [a|[what| |]]; simpl; auto.
Qed.

Lemma parse_number_not_root (json_str : std_string) pos :
  fails_with (fun e => e <> parse_root_not_singular) (parse_number json_str pos).
Proof.
  unfold parse_number. cbv zeta.
  repeat (case_if; try (simpl; discriminate));
    apply catch_conversion_fails_with; try discriminate; intros; exact I.
Qed.

Lemma parse_number_overflow (json_str : std_string) pos :
  fails_with (fun e => e = parse_number_too_big -> overflowing_lexeme json_str)
    (parse_number json_str pos).
Proof.
  unfold parse_number. cbv zeta.
  repeat (case_if; try (simpl; discriminate));
    apply catch_conversion_fails_with; try discriminate; try (intros; exact I);
    intros Hr _; eexists _, _; (left; exact Hr) || (right; exact Hr).
Qed.

(** X23: [parse_root_not_singular] is the error of the top level
    only.  No value production ever fails with it, and [parse] fails with
    it exactly when the text starts with a value that is read completely
    and, after white space, is followed by a further character. *)
Theorem parse_root_not_singular_iff (json_str : std_string) :
  (forall fuel pos e p,
     parse_value json_str fuel pos = Done (unexpected e) p ->
     e <> parse_root_not_singular)
  /\ (parse json_str = Returns (unexpected parse_root_not_singular)
      <-> exists v p,
            parse_value json_str (parse_fuel json_str) 0 = Done (value v) p
            /\ (parse_whitespace json_str p < size json_str)%nat).
Proof.
  assert (Hno : forall fuel pos e p,
            parse_value json_str fuel pos = Done (unexpected e) p ->
            e <> parse_root_not_singular).
  { intros fuel pos e p H.
    pose proof (proj1 (parse_mutual_fails_with json_str
                         (fun e => e <> parse_root_not_singular)
                         ltac:(discriminate) ltac:(discriminate)
                         (parse_number_not_root json_str) fuel pos)) as Hf.
    now rewrite H in Hf. }
  split; [exact Hno|].
  unfold parse, JsonParser_parse. rewrite <- parse_value_from_blank.
  destruct (parse_value json_str _ 0) as [[v|e] p| |] eqn:Hv.
  - pose proof (parse_value_advances_any_fuel json_str _ 0 v p (Nat.le_0_l _) Hv) as Hp.
    pose proof (parse_whitespace_size json_str p (proj2 Hp)) as Hq.
    case_if; bool_hyps.
    + split; [intros _|reflexivity]. exists v, p. split; [reflexivity|lia].
    + split; [discriminate|]. intros (v' & p' & [= <- <-] & Hlt). lia.
  - split; [|intros (v' & p' & [=] & _)].
    intros [= ->]. now destruct (Hno _ _ _ _ Hv).
  - split; [discriminate|]. intros (v' & p' & [=] & _).
  - split; [discriminate|]. intros (v' & p' & [=] & _).
Qed.

(** X24: [parse_number_too_big] is reported only for a number out of
    range: when [parse] fails with it, [std::stoll] or [std::stod] has
    reported [std::out_of_range] on a part of the text. *)
Theorem parse_number_too_big_origin (json_str : std_string) :
  parse json_str = Returns (unexpected parse_number_too_big) ->
  overflowing_lexeme json_str.
Proof.
  unfold parse, JsonParser_parse.
  pose proof (proj1 (parse_mutual_fails_with json_str
                       (fun e => e = parse_number_too_big -> overflowing_lexeme json_str)
                       ltac:(discriminate) ltac:(discriminate)
                       (parse_number_overflow json_str) (parse_fuel json_str)
                       (parse_whitespace json_str 0))) as Hf.
  destruct (parse_value json_str _ _) as [[v|e] p| |]; try discriminate.
  - case_if; discriminate.
  - intros [= ->]. now apply Hf.
Qed.

Lemma parse_number_too_big_origin_witness :
  overflowing_lexeme (json_text "[1, {'a': 1e999}]").
Proof.
  apply (parse_number_too_big_origin (json_text "[1, {'a': 1e999}]")).
  vm_compute. reflexivity.
Defined.

(** ** White space directly after an opening bracket *)

Section BlankAfterOpen.
Variables (w rest : std_string).
Hypothesis w_not_empty : w <> [].
Hypothesis w_blank : blank w.

Lemma blank_head : exists c w', w = c :: w' /\ isspace c = true.
Proof.
  destruct w as [|c w']; [now destruct w_not_empty|].
  exists c, w'. split; [reflexivity|]. exact (Forall_inv w_blank).
Qed.

Lemma parse_bracket_blank :
  parse ("["%byte :: w ++ "]"%byte :: rest) = Returns (unexpected parse_invalid_value).
Proof.
  set (json_str := "["%byte :: w ++ "]"%byte :: rest).
  destruct blank_head as (c & w' & Ew & Hc).
  assert (Hs1 : json_str = ["["%byte] ++ w ++ "]"%byte :: rest) by reflexivity.
  assert (Hs2 : json_str = ("["%byte :: w) ++ "]"%byte :: rest) by reflexivity.
  assert (Hs3 : json_str = ["["%byte] ++ c :: w' ++ "]"%byte :: rest)
    by (unfold json_str; now rewrite Ew).
  assert (Hsize : (S (length w) < size json_str)%nat).
  { rewrite (size_app json_str _ _ Hs2). simpl. lia. }
  assert (Hws : parse_whitespace json_str 1 = S (length w)).
  { apply (skip_while_app json_str isspace ["["%byte] w _ Hs1 w_blank). reflexivity. }
  pose proof (at_app json_str _ _ _ Hs2) as Hclose. cbn [length] in Hclose.
  pose proof (at_app json_str _ _ _ Hs3) as Hfirst. cbn [length] in Hfirst.
  apply (parse_any_fuel _ 4 _ (S (length w))). unfold JsonParser_parse.
  rewrite parse_whitespace_here; [|lia|reflexivity].
  rewrite parse_value_on_bracket;
    [|rewrite parse_whitespace_here; [lia|lia|reflexivity]
     |rewrite parse_whitespace_here; [reflexivity|lia|reflexivity]].
  rewrite parse_whitespace_here; [|lia|reflexivity].
  pose proof (parse_array_unfold json_str 2 0) as Hu. cbv zeta in Hu.
  rewrite parse_whitespace_here in Hu; [|lia|reflexivity].
  rewrite Hu; [|lia|reflexivity].
  cbn [parse_array_loop].
  rewrite (loop_cond_true json_str 1 "]"%byte);
    [|lia|rewrite Hfirst; intros ->; discriminate].
  cbn [parse_value]. rewrite Hws.
  replace (S (length w) =? size json_str)%nat with false
    by (symmetry; apply Nat.eqb_neq; lia).
  rewrite Hclose. cbn [chr_eqb Byte.eqb].
  change (Byte.eqb "]"%byte "n"%byte) with false.
  change (Byte.eqb "]"%byte "t"%byte) with false.
  change (Byte.eqb "]"%byte "f"%byte) with false.
  change (Byte.eqb "]"%byte x22) with false.
  change (Byte.eqb "]"%byte "["%byte) with false.
  change (Byte.eqb "]"%byte "{"%byte) with false. cbv iota.
  unfold parse_number.
  rewrite (parse_whitespace_here json_str (S (length w))); [|lia|now rewrite Hclose].
  replace (S (length w) =? size json_str)%nat with false
    by (symmetry; apply Nat.eqb_neq; lia).
  cbv zeta. rewrite Hclose.
  change (chr_eqb "]"%byte "-"%byte) with false. cbv iota.
  replace (S (length w) =? size json_str)%nat with false
    by (symmetry; apply Nat.eqb_neq; lia).
  rewrite Hclose. reflexivity.
Qed.

Lemma parse_brace_blank :
  parse ("{"%byte :: w ++ "}"%byte :: rest) = Returns (unexpected parse_invalid_value).
Proof.
  set (json_str := "{"%byte :: w ++ "}"%byte :: rest).
  destruct blank_head as (c & w' & Ew & Hc).
  assert (Hs1 : json_str = ["{"%byte] ++ w ++ "}"%byte :: rest) by reflexivity.
  assert (Hs2 : json_str = ("{"%byte :: w) ++ "}"%byte :: rest) by reflexivity.
  assert (Hs3 : json_str = ["{"%byte] ++ c :: w' ++ "}"%byte :: rest)
    by (unfold json_str; now rewrite Ew).
  assert (Hsize : (S (length w) < size json_str)%nat).
  { rewrite (size_app json_str _ _ Hs2). simpl. lia. }
  assert (Hws : parse_whitespace json_str 1 = S (length w)).
  { apply (skip_while_app json_str isspace ["{"%byte] w _ Hs1 w_blank). reflexivity. }
  pose proof (at_app json_str _ _ _ Hs2) as Hclose. cbn [length] in Hclose.
  pose proof (at_app json_str _ _ _ Hs3) as Hfirst. cbn [length] in Hfirst.
  apply (parse_any_fuel _ 3 _ (S (length w))). unfold JsonParser_parse.
  rewrite parse_whitespace_here; [|lia|reflexivity].
  rewrite parse_value_on_brace;
    [|rewrite parse_whitespace_here; [lia|lia|reflexivity]
     |rewrite parse_whitespace_here; [reflexivity|lia|reflexivity]].
  rewrite parse_whitespace_here; [|lia|reflexivity].
  pose proof (parse_object_unfold json_str 1 0) as Hu. cbv zeta in Hu.
  rewrite parse_whitespace_here in Hu; [|lia|reflexivity].
  rewrite Hu; [|lia|reflexivity].
  cbn [parse_object_loop].
  rewrite (loop_cond_true json_str 1 "}"%byte);
    [|lia|rewrite Hfirst; intros ->; discriminate].
  unfold parse_string. rewrite Hws.
  replace (S (length w) =? size json_str)%nat with false
    by (symmetry; apply Nat.eqb_neq; lia).
  rewrite Hclose. reflexivity.
Qed.
End BlankAfterOpen.

(** X25: white space directly after an opening bracket or brace is
    not skipped before the test for the closing one: a bracket, one or
    more white-space characters and the closing bracket fail with
    [parse_invalid_value], whatever follows, and so do a brace, white
    space and the closing brace.  So [[ ]] and [{ }] are rejected, where
    [[]] and [{}] are the empty array and object. *)
Theorem blank_after_open_rejected (w rest : std_string) :
  w <> [] -> blank w ->
  parse ("["%byte :: w ++ "]"%byte :: rest) = Returns (unexpected parse_invalid_value)
  /\ parse ("{"%byte :: w ++ "}"%byte :: rest) = Returns (unexpected parse_invalid_value).
Proof.
  intros Hne Hw. split; [now apply parse_bracket_blank|now apply parse_brace_blank].
Qed.

Lemma blank_after_open_rejected_witness :
  parse ("["%byte :: [x20] ++ "]"%byte :: [])
  = Returns (unexpected parse_invalid_value)
  /\ parse ("{"%byte :: [x20] ++ "}"%byte :: [])
     = Returns (unexpected parse_invalid_value).
Proof.
  apply (blank_after_open_rejected [x20] []).
  - discriminate.
  - repeat constructor.
Defined.

(** ** Strings that fail *)

Section StringErrors.
Variable json_str : std_string.
Implicit Types (pre post str : std_string) (fuel : nat).

(** One trip of the string loop on a backslash that ends the text or is
    followed by a character that starts no escape. *)
Lemma parse_string_loop_bad_escape pre rest str fuel :
  json_str = pre ++ x5c :: rest ->
  match rest with
  | [] => True
  | c :: _ => escape_mappping c = None /\ c <> "u"%byte
  end ->
  parse_string_loop json_str (S fuel) (length pre) str
  = Done (unexpected parse_invalid_value) (S (length pre)).
Proof.
  intros Hs Hrest. cbn [parse_string_loop].
  rewrite (loop_cond_true json_str (length pre) x22)
    by (rewrite ?(size_app json_str pre _ Hs), ?(at_app json_str pre _ _ Hs);
        simpl; (lia || discriminate)).
  rewrite (at_app json_str pre _ _ Hs).
  change (chr_eqb x5c x5c) with true. cbv beta iota zeta.
  destruct rest as [|c rest].
  - replace (S (length pre) =? size json_str)%nat with true; [reflexivity|].
    symmetry. apply Nat.eqb_eq. rewrite (size_app json_str pre _ Hs). simpl. lia.
  - destruct Hrest as [Hmap Hu].
    assert (Hs' : json_str = (pre ++ [x5c]) ++ c :: rest)
      by (rewrite <- app_assoc; exact Hs).
    replace (S (length pre)) with (length (pre ++ [x5c]))
      by (rewrite length_app; simpl; lia).
    rewrite (not_at_end json_str _ _ _ Hs'), (at_app json_str _ _ _ Hs'), Hmap.
    apply chr_eqb_false in Hu. now rewrite Hu.
Qed.

(** The string loop on characters that stand for themselves, up to the
    end of the text. *)
Lemma parse_string_loop_unterminated pre body str fuel :
  json_str = pre ++ body ->
  List.Forall raw_char body ->
  parse_string_loop json_str (length body + S fuel) (length pre) str
  = Done (value (str ++ body)) (size json_str).
Proof.
  intros Hs Hraw.
  rewrite (parse_string_loop_raw_prefix json_str body pre [] str (S fuel));
    [|now rewrite app_nil_r|exact Hraw].
  cbn [parse_string_loop]. rewrite <- (size_app json_str pre body Hs).
  now rewrite Nat.ltb_irrefl.
Qed.
End StringErrors.

(** A document that starts with a quote and whose string loop fails or
    runs into the end of the text. *)
Lemma parse_string_document_error (body : std_string) (e : JsonError) (p : nat) :
  parse_string_loop (x22 :: body) (S (length body)) 1 [] = Done (unexpected e) p ->
  parse (x22 :: body) = Returns (unexpected e).
Proof.
  intros Hloop. set (json_str := x22 :: body) in *.
  assert (Hsize : size json_str = S (length body)) by reflexivity.
  apply (parse_any_fuel _ 1 _ p). unfold JsonParser_parse.
  rewrite parse_whitespace_here; [|lia|reflexivity].
  rewrite parse_value_on_quote; [|lia|reflexivity].
  unfold parse_string.
  rewrite parse_whitespace_here; [|lia|reflexivity].
  replace (0 =? size json_str)%nat with false by (symmetry; apply Nat.eqb_neq; lia).
  change (at_ json_str 0) with x22. change (chr_eqb x22 x22) with true. cbn [negb orb].
  replace (S (size json_str - 1)) with (S (length body)) by lia.
  now rewrite Hloop.
Qed.

Lemma parse_string_document_unterminated (body str : std_string) :
  parse_string_loop (x22 :: body) (S (length body)) 1 []
  = Done (value str) (size (x22 :: body)) ->
  parse (x22 :: body) = Returns (unexpected parse_invalid_value).
Proof.
  intros Hloop. set (json_str := x22 :: body) in *.
  assert (Hsize : size json_str = S (length body)) by reflexivity.
  apply (parse_any_fuel _ 1 _ (size json_str)). unfold JsonParser_parse.
  rewrite parse_whitespace_here; [|lia|reflexivity].
  rewrite parse_value_on_quote; [|lia|reflexivity].
  unfold parse_string.
  rewrite parse_whitespace_here; [|lia|reflexivity].
  replace (0 =? size json_str)%nat with false by (symmetry; apply Nat.eqb_neq; lia).
  change (at_ json_str 0) with x22. change (chr_eqb x22 x22) with true. cbn [negb orb].
  replace (S (size json_str - 1)) with (S (length body)) by lia.
  rewrite Hloop. now rewrite Nat.eqb_refl.
Qed.

(** X26: how a string fails.  A text that opens a string of ordinary
    characters fails with [parse_invalid_value] when the text ends before
    the closing quote, when it ends right after a backslash, and when a
    backslash is followed by a character other than the eight escape
    characters and [u], whatever comes after. *)
Theorem string_production_errors (before : std_string) :
  List.Forall raw_char before ->
  parse (x22 :: before) = Returns (unexpected parse_invalid_value)
  /\ parse (x22 :: before ++ [x5c]) = Returns (unexpected parse_invalid_value)
  /\ (forall (c : char) (rest : std_string),
        escape_mappping c = None -> c <> "u"%byte ->
        parse (x22 :: before ++ x5c :: c :: rest)
        = Returns (unexpected parse_invalid_value)).
Proof.
  intros Hraw. split; [|split].
  - apply (parse_string_document_unterminated before before).
    pose proof (parse_string_loop_unterminated (x22 :: before) [x22] before [] 0
                  eq_refl Hraw) as H.
    cbn [length app] in H. now rewrite Nat.add_1_r in H.
  - apply (parse_string_document_error (before ++ [x5c]) _ (S (S (length before)))).
    pose proof (parse_string_loop_raw_prefix (x22 :: before ++ [x5c]) before [x22]
                  [x5c] [] 2 eq_refl Hraw) as H.
    cbn [length app] in H.
    replace (S (length (before ++ [x5c]))) with (length before + 2)%nat
      by (rewrite length_app; simpl; lia).
    rewrite H.
    pose proof (parse_string_loop_bad_escape (x22 :: before ++ [x5c]) (x22 :: before)
                  [] before 1 eq_refl I) as H2.
    cbn [length] in H2. replace (1 + length before)%nat with (S (length before)) by lia.
    exact H2.
  - intros c rest Hmap Hu.
    apply (parse_string_document_error (before ++ x5c :: c :: rest) _
             (S (S (length before)))).
    pose proof (parse_string_loop_raw_prefix (x22 :: before ++ x5c :: c :: rest) before
                  [x22] (x5c :: c :: rest) [] (S (S (S (length rest)))) eq_refl Hraw) as H.
    cbn [length app] in H.
    replace (S (length (before ++ x5c :: c :: rest)))
      with (length before + S (S (S (length rest))))%nat
      by (rewrite length_app; simpl; lia).
    rewrite H.
    pose proof (parse_string_loop_bad_escape (x22 :: before ++ x5c :: c :: rest)
                  (x22 :: before) (c :: rest) before (S (S (length rest))) eq_refl
                  (conj Hmap Hu)) as H2.
    cbn [length] in H2. replace (1 + length before)%nat with (S (length before)) by lia.
    exact H2.
Qed.

Lemma string_production_errors_witness :
  parse (x22 :: text "abc") = Returns (unexpected parse_invalid_value)
  /\ parse (x22 :: text "abc" ++ [x5c]) = Returns (unexpected parse_invalid_value)
  /\ parse (x22 :: text "abc" ++ x5c :: "k"%byte :: [x22])
     = Returns (unexpected parse_invalid_value).
Proof.
  destruct (string_production_errors (text "abc")) as (H1 & H2 & H3).
  - repeat constructor; discriminate.
  - split; [exact H1|]. split; [exact H2|].
    apply (H3 "k"%byte [x22]); [reflexivity|discriminate].
Defined.

(** ** Where a value is missing *)

Section ExpectValue.
Variable json_str : std_string.
Implicit Types (pos fuel : nat).

Lemma value_missing_weaken pos pos' :
  (pos <= pos')%nat ->
  (exists q, (pos' <= q < size json_str)%nat
     /\ (at_ json_str q = "["%byte \/ at_ json_str q = ":"%byte)
     /\ blank (drop (S q) json_str)) ->
  value_missing json_str pos.
Proof. intros Hle (q & Hq & Hat & Hb). right. exists q. split; [lia|]. now split. Qed.

Lemma blank_drop_end pos :
  blank (drop pos json_str) -> parse_whitespace json_str pos = pos ->
  (size json_str <= pos)%nat.
Proof.
  intros Hb Hws. destruct (Nat.lt_ge_cases pos (size json_str)) as [Hlt|Hge]; [|exact Hge].
  exfalso. rewrite (drop_at json_str pos Hlt) in Hb.
  pose proof (Forall_inv Hb) as Hsp. cbv beta in Hsp.
  pose proof (parse_whitespace_stop_at json_str pos) as Hstop.
  rewrite Hws in Hstop. rewrite (Hstop Hlt) in Hsp. discriminate.
Qed.

Lemma blank_from pos :
  parse_whitespace json_str pos = size json_str -> blank (drop pos json_str).
Proof.
  intros Hend. destruct (Nat.le_gt_cases pos (size json_str)) as [Hle|Hgt].
  - now apply blank_after_value.
  - rewrite drop_end by lia. constructor.
Qed.

Lemma at_in_bounds pos (c : char) :
  at_ json_str pos = c -> c <> x00 -> (pos < size json_str)%nat.
Proof.
  intros Hat Hc. destruct (Nat.lt_ge_cases pos (size json_str)) as [H|H]; [exact H|].
  exfalso. apply Hc. rewrite <- Hat. unfold at_. apply nth_overflow. exact H.
Qed.

Lemma skip_separator_fixed pos :
  parse_whitespace json_str (skip_separator json_str pos) = skip_separator json_str pos.
Proof. unfold skip_separator. apply parse_whitespace_idem. Qed.

Lemma skip_separator_le pos : (pos <= skip_separator json_str pos)%nat.
Proof.
  unfold skip_separator.
  pose proof (parse_whitespace_le json_str pos).
  set (q := parse_whitespace json_str pos) in *.
  set (q' := if (q <? size json_str)%nat && chr_eqb (at_ json_str q) ","%byte
             then S q else q).
  assert (q <= q')%nat by (subst q'; case_if; lia).
  pose proof (parse_whitespace_le json_str q'). lia.
Qed.

Lemma parse_number_not_expect pos :
  fails_with (fun e => e <> parse_expect_value) (parse_number json_str pos).
Proof.
  unfold parse_number. cbv zeta.
  repeat (case_if; try (simpl; discriminate));
    apply catch_conversion_fails_with; try discriminate; intros; exact I.
Qed.

Lemma parse_mutual_expect fuel : forall pos,
  (forall p, parse_value json_str fuel pos = Done (unexpected parse_expect_value) p ->
     value_missing json_str pos)
  /\ (forall p, parse_array json_str fuel pos = Done (unexpected parse_expect_value) p ->
        value_missing json_str pos)
  /\ (forall array p,
        parse_array_loop json_str fuel pos array = Done (unexpected parse_expect_value) p ->
        value_missing json_str pos)
  /\ (forall p, parse_object json_str fuel pos = Done (unexpected parse_expect_value) p ->
        value_missing json_str pos)
  /\ (forall object p,
        parse_object_loop json_str fuel pos object
        = Done (unexpected parse_expect_value) p ->
        exists q, (pos <= q < size json_str)%nat
          /\ (at_ json_str q = "["%byte \/ at_ json_str q = ":"%byte)
          /\ blank (drop (S q) json_str)).
Proof.
  induction fuel as [|fuel IH]; intros pos; [repeat split; intros; discriminate|].
  pose proof (parse_whitespace_le json_str pos) as Hq.
  assert (Hinner : forall q0, parse_whitespace json_str q0 = q0 ->
            (q0 < size json_str)%nat ->
            value_missing json_str q0 ->
            exists q, (q0 <= q < size json_str)%nat
              /\ (at_ json_str q = "["%byte \/ at_ json_str q = ":"%byte)
              /\ blank (drop (S q) json_str)).
  { intros q0 Hfix Hlt [Hb|H]; [|exact H].
    pose proof (blank_drop_end q0 Hb Hfix). lia. }
  split; [|split; [|split; [|split]]].
  - (* parse_value *)
    intros p. cbn [parse_value]. set (q := parse_whitespace json_str pos) in *.
    case_if.
    + intros _. left. apply blank_from. now apply Nat.eqb_eq in E.
    + bool_hyps. intros H.
      assert (Hsub : value_missing json_str q -> value_missing json_str pos).
      { intros [Hb|Hm].
        - left. pose proof (blank_drop_end q Hb (parse_whitespace_idem json_str pos)).
          destruct (Nat.le_gt_cases pos (size json_str)) as [Hle|Hgt].
          + pose proof (parse_whitespace_size json_str pos Hle) as Hsz. fold q in Hsz. lia.
          + rewrite drop_end by lia. constructor.
        - now apply (value_missing_weaken pos q). }
      revert H. repeat case_if; intros H.
      * revert H. unfold parse_null. case_if; discriminate.
      * revert H. unfold parse_true. case_if; discriminate.
      * revert H. unfold parse_false. case_if; discriminate.
      * now apply parse_string_error in H.
      * apply Hsub. now apply (proj1 (proj2 (IH q)) p).
      * apply Hsub. now apply (proj1 (proj2 (proj2 (proj2 (IH q)))) p).
      * pose proof (parse_number_not_expect q) as Hn. rewrite H in Hn. now destruct Hn.
  - (* parse_array *)
    intros p. cbn [parse_array]. set (q := parse_whitespace json_str pos) in *.
    case_if; [discriminate|]. bool_hyps.
    destruct (parse_array_loop json_str fuel (S q) []) as [[a|e] p'| |] eqn:Hloop;
      try discriminate.
    + case_if; discriminate.
    + intros [= -> ->].
      apply (value_missing_weaken pos q); [assumption|].
      destruct (proj1 (proj2 (proj2 (IH (S q)))) [] p Hloop) as [Hb|(q1 & Hq1 & Hat & Hb)].
      * match goal with Hc : chr_eqb (at_ json_str q) _ = true |- _ =>
          apply chr_eqb_true in Hc;
          pose proof (at_in_bounds q _ Hc ltac:(discriminate)) as Hlt end.
        exists q. split; [lia|]. split; [now left|exact Hb].
      * exists q1. split; [lia|]. now split.
  - (* parse_array_loop *)
    intros array p. cbn [parse_array_loop]. case_if; [|discriminate]. bool_hyps.
    destruct (parse_value json_str fuel pos) as [[v|e] p'| |] eqn:Hv; try discriminate.
    + cbv beta iota zeta. fold (skip_separator json_str p'). intros Hloop.
      pose proof (parse_value_advances_any_fuel json_str fuel pos v p' ltac:(lia) Hv) as Hp.
      pose proof (skip_separator_le p') as Hsep.
      apply (proj1 (proj2 (proj2 (IH _)))) in Hloop as Hm.
      apply (value_missing_weaken pos (skip_separator json_str p')); [lia|].
      destruct (Nat.lt_ge_cases (skip_separator json_str p') (size json_str)) as [Hlt|Hge].
      * now apply (Hinner _ (skip_separator_fixed p') Hlt).
      * exfalso. revert Hloop. destruct fuel as [|fuel']; [discriminate|].
        cbn [parse_array_loop].
        replace (skip_separator json_str p' <? size json_str)%nat with false
          by (symmetry; apply Nat.ltb_ge; lia).
        discriminate.
    + intros [= -> ->]. now apply (proj1 (IH pos) p).
  - (* parse_object *)
    intros p. cbn [parse_object]. set (q := parse_whitespace json_str pos) in *.
    case_if; [discriminate|]. bool_hyps.
    destruct (parse_object_loop json_str fuel (S q) []) as [[o|e] p'| |] eqn:Hloop;
      try discriminate.
    + case_if; discriminate.
    + intros [= -> ->].
      apply (value_missing_weaken pos q); [assumption|].
      destruct (proj2 (proj2 (proj2 (proj2 (IH (S q))))) [] p Hloop) as (q1 & Hq1 & Hat & Hb).
      exists q1. split; [lia|]. now split.
  - (* parse_object_loop *)
    intros object p. cbn [parse_object_loop]. case_if; [|discriminate]. bool_hyps.
    destruct (parse_string json_str pos) as [[k|e] p1| |] eqn:Hk; try discriminate.
    2:{ intros [= -> ->]. now apply parse_string_error in Hk. }
    destruct k; try discriminate.
    pose proof (parse_string_advances json_str pos ltac:(lia)) as Hadv.
    rewrite Hk in Hadv. simpl in Hadv.
    pose proof (parse_whitespace_le json_str p1) as Hc.
    set (c := parse_whitespace json_str p1) in *.
    case_if; [discriminate|]. bool_hyps.
    destruct (parse_value json_str fuel (S c)) as [[v|e] p'| |] eqn:Hv; try discriminate.
    + cbv beta iota zeta. fold (skip_separator json_str p'). intros Hloop.
      assert (Hclt : (c < size json_str)%nat).
      { pose proof (parse_whitespace_size json_str p1 ltac:(lia)) as Hsz. fold c in Hsz. lia. }
      pose proof (parse_value_advances_any_fuel json_str fuel (S c) v p' ltac:(lia) Hv) as Hp.
      pose proof (skip_separator_le p') as Hsep.
      apply (proj2 (proj2 (proj2 (proj2 (IH _))))) in Hloop as (q1 & Hq1 & Hat & Hb).
      exists q1. split; [lia|]. now split.
    + intros [= -> ->].
      assert (Hclt : (c < size json_str)%nat).
      { pose proof (parse_whitespace_size json_str p1 ltac:(lia)) as Hsz. fold c in Hsz. lia. }
      destruct (proj1 (IH (S c)) p Hv) as [Hb|(q1 & Hq1 & Hat & Hb)].
      * exists c. split; [lia|]. split; [right; now apply chr_eqb_true|exact Hb].
      * exists q1. split; [lia|]. now split.
Qed.
End ExpectValue.

(** X27: [parse_expect_value] is reported only where the text runs
    out at the start of a value: when [parse] fails with it, the text is
    white space only, or it ends, white space apart, with an opening
    bracket or a colon. *)
Theorem parse_expect_value_origin (json_str : std_string) :
  parse json_str = Returns (unexpected parse_expect_value) ->
  exists pre w,
    json_str = pre ++ w /\ blank w
    /\ (pre = [] \/ exists pre', pre = pre' ++ ["["%byte] \/ pre = pre' ++ [":"%byte]).
Proof.
  unfold parse, JsonParser_parse.
  destruct (parse_value json_str _ _) as [[v|e] p| |] eqn:Hv; try discriminate.
  { case_if; discriminate. }
  intros [= ->].
  apply (proj1 (parse_mutual_expect json_str _ _)) in Hv as [Hb|(q & Hq & Hat & Hb)].
  - exists [], json_str. split; [reflexivity|]. split; [|now left].
    rewrite <- (take_drop (parse_whitespace json_str 0) json_str).
    apply Forall_app. split; [apply blank_before_value|exact Hb].
  - exists (take (S q) json_str), (drop (S q) json_str).
    split; [now rewrite take_drop|]. split; [exact Hb|]. right.
    exists (take q json_str).
    rewrite (take_S_r json_str q (at_ json_str q)) by (apply lookup_at; lia).
    destruct Hat as [-> | ->]; [now left|now right].
Qed.

Lemma parse_expect_value_origin_witness :
  exists pre w,
    json_text "{'a': [1, {'b':  " = pre ++ w /\ blank w
    /\ (pre = [] \/ exists pre', pre = pre' ++ ["["%byte] \/ pre = pre' ++ [":"%byte]).
Proof.
  apply (parse_expect_value_origin (json_text "{'a': [1, {'b':  ")).
  vm_compute. reflexivity.
Defined.

(** ** The texts of an integer *)

Lemma isdigit_cases (c : char) :
  isdigit c = true ->
  c = "0"%byte \/ c = "1"%byte \/ c = "2"%byte \/ c = "3"%byte \/ c = "4"%byte
  \/ c = "5"%byte \/ c = "6"%byte \/ c = "7"%byte \/ c = "8"%byte \/ c = "9"%byte.
Proof. destruct c; (discriminate || (intros _; tauto)). Qed.

Lemma digits_of_uint (ds : std_string) :
  List.Forall (fun c => isdigit c = true) ds -> exists d, ds = string_of_uint d.
Proof.
  induction 1 as [|c ds Hc _ [d ->]]; [now exists Decimal.Nil|].
  destruct (isdigit_cases c Hc) as [->|[->|[->|[->|[->|[->|[->|[->|[->| ->]]]]]]]]].
  - now exists (Decimal.D0 d).
  - now exists (Decimal.D1 d).
  - now exists (Decimal.D2 d).
  - now exists (Decimal.D3 d).
  - now exists (Decimal.D4 d).
  - now exists (Decimal.D5 d).
  - now exists (Decimal.D6 d).
  - now exists (Decimal.D7 d).
  - now exists (Decimal.D8 d).
  - now exists (Decimal.D9 d).
Qed.

(** A decimal numeral without redundant zeros: digits, at least one, the
    first of which is [0] only when it is the only one. *)
Lemma canonical_unorm (d : Decimal.uint) (c : char) (r : std_string) :
  string_of_uint d = c :: r -> (c = "0"%byte -> r = []) -> Decimal.unorm d = d.
Proof.
  destruct d as [|d|d|d|d|d|d|d|d|d|d]; cbn [string_of_uint]; intros [= <- <-] Hz;
    try reflexivity.
  specialize (Hz eq_refl). destruct d; try discriminate Hz. reflexivity.
Qed.

Lemma canonical_digits_unique (c c' : char) (r r' : std_string) :
  List.Forall (fun k => isdigit k = true) (c :: r) ->
  List.Forall (fun k => isdigit k = true) (c' :: r') ->
  (c = "0"%byte -> r = []) -> (c' = "0"%byte -> r' = []) ->
  digits_value 10 (c :: r) = digits_value 10 (c' :: r') ->
  c :: r = c' :: r'.
Proof.
  intros Hd Hd' Hz Hz' Hv.
  destruct (digits_of_uint _ Hd) as [d E], (digits_of_uint _ Hd') as [d' E'].
  pose proof (canonical_unorm d c r (eq_sym E) Hz) as Hn.
  pose proof (canonical_unorm d' c' r' (eq_sym E') Hz') as Hn'.
  rewrite E, E', !digits_value_of_uint in Hv. apply N2Z.inj in Hv.
  apply DecimalPos.Unsigned.of_iff in Hv. rewrite Hn, Hn' in Hv.
  now rewrite E, E', Hv.
Qed.

Lemma catch_conversion_Integer {A : Type} (r : A + exception)
    (k : A -> outcome (expected Value JsonError)) pos n p :
  catch_conversion r k pos = Done (value (Integer n)) p ->
  exists a, r = inl a /\ k a = Done (value (Integer n)) p.
Proof. apply catch_conversion_value. Qed.

(** The lexeme of an [Integer]: an optional minus sign and digits up to
    the cursor, only one digit when the first is [0]. *)
Lemma parse_number_Integer_shape (json_str : std_string) pos n p :
  parse_number json_str pos = Done (value (Integer n)) p ->
  let q := parse_whitespace json_str pos in
  let e1 := if chr_eqb (at_ json_str q) "-"%byte then S q else q in
  (q < size json_str)%nat /\ (e1 < p <= size json_str)%nat
  /\ (forall i, (e1 <= i < p)%nat -> isdigit (at_ json_str i) = true)
  /\ (at_ json_str e1 = "0"%byte -> p = S e1)
  /\ stoll (substr json_str q (p - q)) = inl n.
Proof.
  unfold parse_number. cbv zeta.
  set (q := parse_whitespace json_str pos).
  case_if; [discriminate|].
  set (e1 := if chr_eqb (at_ json_str q) "-"%byte then S q else q).
  case_if; [discriminate|]. bool_hyps.
  assert (Hbound : at_ json_str e1 <> x00 -> (q < size json_str)%nat /\ (e1 < size json_str)%nat).
  { intros Hne. pose proof (at_in_bounds json_str e1 _ eq_refl Hne) as He.
    split; [|exact He]. subst e1. revert He. case_if; lia. }
  case_if.
  - (* a zero *)
    apply chr_eqb_true in E1.
    destruct Hbound as [Hq He]; [rewrite E1; discriminate|].
    cbv beta iota. case_if.
    + intros H. apply catch_conversion_Integer in H as (a & Hst & Hk).
      injection Hk as Ha Hp. subst a p.
      split; [exact Hq|]. split; [lia|]. split; [|split; [reflexivity|exact Hst]].
      intros i Hi. replace i with e1 by lia. now rewrite E1.
    + repeat (case_if; try discriminate);
        intros H; apply catch_conversion_value in H as (a & _ & Hk); discriminate Hk.
  - case_if; [discriminate|]. bool_hyps.
    match goal with Hd : isdigit (at_ json_str e1) = true |- _ => rename Hd into Hdigit end.
    destruct Hbound as [Hq He]; [intros Hz; rewrite Hz in Hdigit; discriminate|].
    cbv beta iota. case_if.
    + intros H. apply catch_conversion_Integer in H as (a & Hst & Hk).
      injection Hk as Ha Hp. subst a p.
      pose proof (skip_digits_gt json_str e1 He Hdigit).
      pose proof (skip_digits_size json_str e1 ltac:(lia)).
      split; [exact Hq|]. split; [lia|]. split; [|split; [|exact Hst]].
      * intros i Hi. now apply (skip_digits_all json_str e1).
      * intros Hz. apply chr_eqb_false in E1. now destruct E1.
    + repeat (case_if; try discriminate);
        intros H; apply catch_conversion_value in H as (a & _ & Hk); discriminate Hk.
Qed.

Lemma substr_cons (json_str : std_string) q n :
  (q < size json_str)%nat ->
  substr json_str q (S n) = at_ json_str q :: substr json_str (S q) n.
Proof. intros Hq. unfold substr. now rewrite (drop_at json_str q Hq). Qed.

Lemma digits_value_nonneg (ds : std_string) :
  List.Forall (fun c => isdigit c = true) ds -> 0 <= digits_value 10 ds.
Proof.
  intros Hd. destruct (digits_of_uint ds Hd) as [d ->].
  rewrite digits_value_of_uint. lia.
Qed.

Lemma stoll_digits (c : char) (r : std_string) n :
  List.Forall (fun k => isdigit k = true) (c :: r) ->
  (stoll ("-"%byte :: c :: r) = inl n -> n = - digits_value 10 (c :: r))
  /\ (stoll (c :: r) = inl n -> n = digits_value 10 (c :: r)).
Proof.
  intros Hd. pose proof (Forall_inv Hd) as Hc. cbv beta in Hc.
  destruct (isdigit_not_sign c Hc) as [Hm Hp].
  assert (Htw : take_while isdigit (c :: r) = c :: r).
  { pose proof (take_while_all isdigit (c :: r) [] Hd I) as H.
    now rewrite app_nil_r in H. }
  split; unfold stoll; cbn [drop_while].
  - change (isspace "-"%byte) with false. cbv iota. cbn [read_sign].
    change (chr_eqb "-"%byte "-"%byte) with true. cbv iota. rewrite Htw.
    case_if; [|discriminate]. now intros [= <-].
  - rewrite (isdigit_not_space c Hc). cbn [read_sign]. rewrite Hm, Hp, Htw.
    case_if; [|discriminate]. now intros [= <-].
Qed.

(** The lexeme of an [Integer] is its decimal text, or [-0]. *)
Lemma parse_number_Integer_text (json_str : std_string) pos n p :
  parse_number json_str pos = Done (value (Integer n)) p ->
  let q := parse_whitespace json_str pos in
  (q <= p <= size json_str)%nat
  /\ LLONG_MIN <= n <= LLONG_MAX
  /\ (substr json_str q (p - q) = to_string n
      \/ (n = 0 /\ substr json_str q (p - q) = text "-0")).
Proof.
  intros H. apply parse_number_Integer_shape in H as (Hq & Hp & Hdig & Hzero & Hst).
  cbv zeta in *. set (q := parse_whitespace json_str pos) in *.
  set (e1 := if chr_eqb (at_ json_str q) "-"%byte then S q else q) in *.
  assert (Hqe : (q <= e1)%nat) by (subst e1; case_if; lia).
  split; [lia|]. split; [exact (stoll_range _ _ Hst)|].
  (* the digits *)
  assert (Hds : exists r, substr json_str e1 (p - e1) = at_ json_str e1 :: r
                          /\ List.Forall (fun k => isdigit k = true) (at_ json_str e1 :: r)
                          /\ (at_ json_str e1 = "0"%byte -> r = [])).
  { exists (substr json_str (S e1) (p - S e1)).
    replace (p - e1)%nat with (S (p - S e1)) by lia.
    split; [apply substr_cons; lia|]. split.
    - constructor; [apply Hdig; lia|].
      apply substr_Forall; [lia|]. intros i Hi. apply Hdig. lia.
    - intros Hz. rewrite (Hzero Hz). now rewrite Nat.sub_diag. }
  destruct Hds as (r & Eds & Hd & Hz).
  set (c := at_ json_str e1) in *.
  destruct (to_string_cases n) as (c' & r' & E' & Hd' & Hz' & Hv').
  pose proof (digits_value_nonneg _ Hd) as Hnn.
  unfold e1 in Eds. revert Hst Eds. case_if; intros Hst Eds.
  - (* a minus sign *)
    apply chr_eqb_true in E.
    replace (p - q)%nat with (S (p - S q)) in * by (subst e1; lia).
    rewrite (substr_cons json_str q _ Hq), E, Eds in Hst |- *.
    apply (proj1 (stoll_digits c r n Hd)) in Hst.
    assert (Heq : c :: r = c' :: r').
    { apply canonical_digits_unique; try assumption. rewrite Hv'. lia. }
    destruct (Z.ltb_spec n 0) as [Hneg|Hpos].
    + left. rewrite E', Heq. reflexivity.
    + right. assert (Hn0 : n = 0) by lia. rewrite Hn0 in E' |- *.
      split; [reflexivity|].
      rewrite Heq. change (to_string 0) with ["0"%byte] in E'.
      cbn [app] in E'. now rewrite <- E'.
  - (* no sign *)
    subst e1. rewrite Eds in Hst |- *.
    apply (proj2 (stoll_digits c r n Hd)) in Hst.
    assert (Heq : c :: r = c' :: r').
    { apply canonical_digits_unique; try assumption. rewrite Hv'. lia. }
    left. rewrite E', Heq.
    destruct (Z.ltb_spec n 0) as [Hneg|Hpos]; [lia|reflexivity].
Qed.

Lemma parse_minus_zero (w1 w2 : std_string) :
  blank w1 -> blank w2 ->
  parse (w1 ++ text "-0" ++ w2) = Returns (value (Integer 0)).
Proof.
  intros Hw1 Hw2. rewrite (parse_leading_blank w1 _ Hw1).
  set (json_str := text "-0" ++ w2).
  assert (Hsize : size json_str = S (S (length w2))) by reflexivity.
  assert (Hmark : (2 =? size json_str)%nat
                  || negb (chr_eqb (at_ json_str 2) "."%byte)
                     && negb (chr_eqb (at_ json_str 2) "e"%byte)
                     && negb (chr_eqb (at_ json_str 2) "E"%byte) = true).
  { destruct w2 as [|c w2]; [reflexivity|].
    destruct (isspace_number_end c (Forall_inv Hw2)) as [_ Hm].
    unfold float_mark in Hm. apply orb_false_iff in Hm as [Hm H3].
    apply orb_false_iff in Hm as [H1 H2].
    change (at_ json_str 2) with c. rewrite H1, H2, H3. apply orb_true_r. }
  apply (parse_any_fuel _ 1 _ (size json_str)). unfold JsonParser_parse.
  rewrite parse_whitespace_here; [|lia|reflexivity].
  cbn [parse_value].
  rewrite parse_whitespace_here; [|lia|reflexivity].
  replace (0 =? size json_str)%nat with false by (symmetry; apply Nat.eqb_neq; lia).
  change (at_ json_str 0) with "-"%byte. cbv beta iota zeta.
  change (chr_eqb "-"%byte "n"%byte) with false.
  change (chr_eqb "-"%byte "t"%byte) with false.
  change (chr_eqb "-"%byte "f"%byte) with false.
  change (chr_eqb "-"%byte x22) with false.
  change (chr_eqb "-"%byte "["%byte) with false.
  change (chr_eqb "-"%byte "{"%byte) with false. cbv iota.
  unfold parse_number.
  rewrite parse_whitespace_here; [|lia|reflexivity].
  replace (0 =? size json_str)%nat with false by (symmetry; apply Nat.eqb_neq; lia).
  cbv zeta. change (at_ json_str 0) with "-"%byte.
  change (chr_eqb "-"%byte "-"%byte) with true. cbv iota.
  replace (1 =? size json_str)%nat with false by (symmetry; apply Nat.eqb_neq; lia).
  change (at_ json_str 1) with "0"%byte.
  change (chr_eqb "0"%byte "0"%byte) with true. cbv iota.
  rewrite Hmark.
  change (substr json_str 0 (2 - 0)) with (text "-0").
  change (stoll (text "-0")) with (@inl Z exception 0). cbn [catch_conversion].
  pose proof (parse_whitespace_to_end json_str (text "-0") w2 eq_refl Hw2) as Hend.
  change (length (text "-0")) with 2%nat in Hend.
  rewrite Hend. now rewrite Nat.eqb_refl.
Qed.

(** X28: the texts that parse to an [Integer] are exactly its decimal
    text with white space around it: [parse] returns [Integer n] for the
    texts made of white space, the text that [std::to_string] gives for
    [n] (a minus sign for a negative number, no plus sign, no leading
    zero) and white space, for [-0] in place of [0], and for no other
    text; and [n] is within [int64_t]. *)
Theorem parse_integer_texts (json_str : std_string) (n : Z) :
  parse json_str = Returns (value (Integer n))
  <-> exists w1 w2 lexeme,
        blank w1 /\ blank w2 /\ json_str = w1 ++ lexeme ++ w2
        /\ LLONG_MIN <= n <= LLONG_MAX
        /\ (lexeme = to_string n \/ (n = 0 /\ lexeme = text "-0")).
Proof.
  split.
  - intros H. apply parse_Returns_value in H as (p & Hv & Hp & Hend).
    apply parse_value_inv in Hv as [Hq Hv]. cbv zeta in *.
    apply parse_number_Integer_text in Hv as (Hqp & Hn & Hlex).
    cbv zeta in Hqp, Hlex. rewrite parse_whitespace_idem in Hqp, Hlex.
    set (q := parse_whitespace json_str 0) in *.
    exists (take q json_str), (drop p json_str), (substr json_str q (p - q)).
    split; [apply blank_before_value|]. split; [now apply blank_after_value|].
    split; [|split; assumption].
    unfold substr.
    rewrite <- (take_drop q json_str) at 1. f_equal.
    rewrite <- (take_drop (p - q) (drop q json_str)) at 1. f_equal.
    rewrite drop_drop. f_equal. lia.
  - intros (w1 & w2 & lexeme & Hw1 & Hw2 & -> & Hn & [-> | [-> ->]]).
    + exact (parse_generated_blanks true (Integer n) w1 w2 Hn Hw1 Hw2).
    + now apply parse_minus_zero.
Qed.

(** ** Zero followed by a further character *)

(** X29: after a leading zero only a fraction, an exponent or white
    space may follow.  A text that starts with [0] followed by any other
    character, a further digit or a letter for instance, fails with
    [parse_root_not_singular]: the zero alone is read as the value. *)
Theorem parse_leading_zero (c : char) (rest : std_string) :
  isspace c = false -> float_mark c = false ->
  parse ("0"%byte :: c :: rest) = Returns (unexpected parse_root_not_singular).
Proof.
  intros Hsp Hmark. set (json_str := "0"%byte :: c :: rest).
  assert (Hsize : size json_str = S (S (length rest))) by reflexivity.
  unfold float_mark in Hmark. apply orb_false_iff in Hmark as [Hm H3].
  apply orb_false_iff in Hm as [H1 H2].
  apply (parse_any_fuel _ 1 _ 1). unfold JsonParser_parse.
  rewrite parse_whitespace_here; [|lia|reflexivity].
  cbn [parse_value].
  rewrite parse_whitespace_here; [|lia|reflexivity].
  replace (0 =? size json_str)%nat with false by (symmetry; apply Nat.eqb_neq; lia).
  change (at_ json_str 0) with "0"%byte. cbv beta iota zeta.
  change (chr_eqb "0"%byte "n"%byte) with false.
  change (chr_eqb "0"%byte "t"%byte) with false.
  change (chr_eqb "0"%byte "f"%byte) with false.
  change (chr_eqb "0"%byte x22) with false.
  change (chr_eqb "0"%byte "["%byte) with false.
  change (chr_eqb "0"%byte "{"%byte) with false. cbv iota.
  unfold parse_number.
  rewrite parse_whitespace_here; [|lia|reflexivity].
  replace (0 =? size json_str)%nat with false by (symmetry; apply Nat.eqb_neq; lia).
  cbv zeta. change (at_ json_str 0) with "0"%byte.
  change (chr_eqb "0"%byte "-"%byte) with false. cbv iota.
  replace (0 =? size json_str)%nat with false by (symmetry; apply Nat.eqb_neq; lia).
  change (at_ json_str 0) with "0"%byte.
  change (chr_eqb "0"%byte "0"%byte) with true. cbv iota.
  change (at_ json_str 1) with c. rewrite H1, H2, H3.
  rewrite orb_true_r.
  change (substr json_str 0 (1 - 0)) with (text "0").
  change (stoll (text "0")) with (@inl Z exception 0). cbn [catch_conversion].
  rewrite parse_whitespace_here; [|lia|exact Hsp].
  now replace (1 =? size json_str)%nat with false by (symmetry; apply Nat.eqb_neq; lia).
Qed.

Lemma parse_leading_zero_witness :
  parse ("0"%byte :: "1"%byte :: text "23") = Returns (unexpected parse_root_not_singular).
Proof.
  apply (parse_leading_zero "1"%byte (text "23")); reflexivity.
Defined.

(** ** Integer and float classification *)

Lemma forallb_isdigit (ds : std_string) :
  forallb isdigit ds = true -> List.Forall (fun c => isdigit c = true) ds.
Proof.
  intros H. rewrite forallb_forall in H. apply List.Forall_forall. exact H.
Qed.

Lemma lexeme_digits_cases (ds : std_string) :
  lexeme_digits ds = true ->
  exists c r, ds = c :: r /\ List.Forall (fun c => isdigit c = true) (c :: r).
Proof.
  destruct ds as [|c r]; [discriminate|]. intros H.
  exists c, r. split; [reflexivity|]. now apply forallb_isdigit.
Qed.

Lemma lexeme_minus_cases (sp : std_string) :
  lexeme_minus sp = true -> sp = [] \/ sp = ["-"%byte].
Proof.
  destruct sp as [|c [|d r]]; try discriminate; [now left|].
  intros H. apply chr_eqb_true in H. subst c. now right.
Qed.

Lemma lexeme_int_cases (ip : std_string) :
  lexeme_int ip = true ->
  exists c r, ip = c :: r /\ List.Forall (fun c => isdigit c = true) (c :: r)
              /\ (c = "0"%byte -> r = []).
Proof.
  destruct ip as [|c r]; [discriminate|]. cbn [lexeme_int].
  destruct (chr_eqb c "0"%byte) eqn:E.
  - apply chr_eqb_true in E. subst c. destruct r; [|discriminate].
    intros _. exists "0"%byte, []. repeat split. repeat constructor.
  - intros H. exists c, r. split; [reflexivity|]. split; [now apply forallb_isdigit|].
    intros ->. discriminate E.
Qed.

Lemma lexeme_frac_cases (fp : std_string) :
  lexeme_frac fp = true ->
  fp = [] \/ exists c r, fp = "."%byte :: c :: r
                         /\ List.Forall (fun c => isdigit c = true) (c :: r).
Proof.
  destruct fp as [|d ds]; [now left|]. cbn [lexeme_frac]. intros H.
  apply andb_true_iff in H as [H1 H2]. apply chr_eqb_true in H1. subst d.
  destruct (lexeme_digits_cases ds H2) as (c & r & -> & Hd). right. now exists c, r.
Qed.

Lemma lexeme_exp_cases (ep : std_string) :
  lexeme_exp ep = true ->
  ep = [] \/ exists m x ds,
      ep = m :: x :: ds
      /\ (m = "e"%byte \/ m = "E"%byte)
      /\ (x = "+"%byte \/ x = "-"%byte \/ isdigit x = true)
      /\ List.Forall (fun c => isdigit c = true) ds
      /\ (isdigit x = false -> ds <> []).
Proof.
  destruct ep as [|m r]; [now left|]. cbn [lexeme_exp]. intros H.
  apply andb_true_iff in H as [H1 H2]. right.
  destruct r as [|x ds]; [discriminate|].
  exists m, x, ds. split; [reflexivity|]. split.
  { apply orb_true_iff in H1 as [H1|H1]; apply chr_eqb_true in H1; auto. }
  destruct (chr_eqb x "+"%byte || chr_eqb x "-"%byte) eqn:Es.
  - destruct (lexeme_digits_cases ds H2) as (c & r & -> & Hd).
    split; [|split; [exact Hd|discriminate]].
    apply orb_true_iff in Es as [Es|Es]; apply chr_eqb_true in Es; auto.
  - apply forallb_isdigit in H2. split; [right; right; exact (Forall_inv H2)|].
    split; [now apply Forall_inv_tail in H2|].
    intros Hx. rewrite (Forall_inv H2) in Hx. discriminate Hx.
Qed.

Section IntegerPart.
Variable json_str : std_string.

Lemma lexeme_int_scan a ip rest :
  json_str = a ++ ip ++ rest -> lexeme_int ip = true -> not_digit_next rest ->
  (length a =? size json_str)%nat = false
  /\ (if chr_eqb (at_ json_str (length a)) "0"%byte then Some (S (length a))
      else if negb (isdigit (at_ json_str (length a))) then None
      else Some (skip_digits json_str (length a))) = Some (length (a ++ ip)).
Proof.
  intros Hs Hip Hrest.
  destruct (lexeme_int_cases ip Hip) as (c & r & -> & Hd & Hz).
  assert (Hs0 : json_str = a ++ c :: (r ++ rest)) by exact Hs.
  split; [exact (not_at_end json_str a c _ Hs0)|].
  rewrite (at_app json_str a c _ Hs0), (Forall_inv Hd).
  destruct (chr_eqb c "0"%byte) eqn:E0.
  - apply chr_eqb_true in E0. rewrite (Hz E0), length_app. simpl. f_equal. lia.
  - simpl negb. cbv iota. unfold skip_digits.
    rewrite (skip_while_app json_str isdigit a (c :: r) rest Hs Hd Hrest).
    now rewrite length_app.
Qed.
End IntegerPart.

Section FractionAndExponent.
Variable json_str : std_string.

Lemma lexeme_frac_scan a fp rest :
  json_str = a ++ fp ++ rest -> lexeme_frac fp = true -> not_digit_next rest ->
  (fp = [] -> match rest with [] => True | c :: _ => c <> "."%byte end) ->
  (if (length a <? size json_str)%nat && chr_eqb (at_ json_str (length a)) "."%byte
   then if (S (length a) =? size json_str)%nat
           || negb (isdigit (at_ json_str (S (length a))))
        then None else Some (skip_digits json_str (S (length a)))
   else Some (length a)) = Some (length (a ++ fp)).
Proof.
  intros Hs Hfp Hrest Hdot.
  destruct (lexeme_frac_cases fp Hfp) as [->|(c & r & -> & Hd)].
  - rewrite app_nil_r. cbn [app] in Hs. specialize (Hdot eq_refl).
    destruct rest as [|x rest].
    + rewrite (size_app json_str a [] Hs). simpl length. rewrite Nat.add_0_r.
      now rewrite Nat.ltb_irrefl.
    + rewrite (at_app json_str a x rest Hs).
      apply chr_eqb_false in Hdot. rewrite Hdot. now rewrite andb_false_r.
  - assert (Hs0 : json_str = a ++ "."%byte :: (c :: r) ++ rest) by exact Hs.
    assert (Hs1 : json_str = (a ++ ["."%byte]) ++ (c :: r) ++ rest)
      by (rewrite <- app_assoc; exact Hs).
    assert (Hs2 : json_str = (a ++ ["."%byte]) ++ c :: (r ++ rest)) by exact Hs1.
    assert (Hl : S (length a) = length (a ++ ["."%byte]))
      by (rewrite length_app; simpl; lia).
    rewrite (at_app json_str a _ _ Hs0), chr_eqb_refl.
    replace (length a <? size json_str)%nat with true
      by (symmetry; apply Nat.ltb_lt; rewrite (size_app json_str a _ Hs0); simpl; lia).
    cbn [andb]. rewrite Hl.
    rewrite (not_at_end json_str _ c _ Hs2), (at_app json_str _ c _ Hs2), (Forall_inv Hd).
    cbn [orb negb]. unfold skip_digits.
    rewrite (skip_while_app json_str isdigit _ (c :: r) rest Hs1 Hd Hrest).
    f_equal. rewrite !length_app. simpl. lia.
Qed.

Lemma lexeme_exp_scan a ep rest :
  json_str = a ++ ep ++ rest -> lexeme_exp ep = true -> not_digit_next rest ->
  (ep = [] -> match rest with
              | [] => True
              | c :: _ => c <> "e"%byte /\ c <> "E"%byte
              end) ->
  (if (length a <? size json_str)%nat
      && (chr_eqb (at_ json_str (length a)) "e"%byte
          || chr_eqb (at_ json_str (length a)) "E"%byte)
   then if (S (length a) =? size json_str)%nat
           || (negb (chr_eqb (at_ json_str (S (length a))) "+"%byte)
               && negb (chr_eqb (at_ json_str (S (length a))) "-"%byte)
               && negb (isdigit (at_ json_str (S (length a)))))
        then None else Some (skip_digits json_str (S (S (length a))))
   else Some (length a)) = Some (length (a ++ ep)).
Proof.
  intros Hs Hep Hrest Hmark.
  destruct (lexeme_exp_cases ep Hep) as [->|(m & x & ds & -> & Hm & Hx & Hd & Hne)].
  - rewrite app_nil_r. cbn [app] in Hs. specialize (Hmark eq_refl).
    destruct rest as [|c rest].
    + rewrite (size_app json_str a [] Hs). simpl length. rewrite Nat.add_0_r.
      now rewrite Nat.ltb_irrefl.
    + rewrite (at_app json_str a c rest Hs). destruct Hmark as [H1 H2].
      apply chr_eqb_false in H1, H2. rewrite H1, H2. now rewrite andb_false_r.
  - assert (Hs0 : json_str = a ++ m :: (x :: ds) ++ rest) by exact Hs.
    assert (Hs1 : json_str = (a ++ [m]) ++ x :: (ds ++ rest))
      by (rewrite <- app_assoc; exact Hs).
    assert (Hs2 : json_str = (a ++ [m; x]) ++ ds ++ rest)
      by (rewrite <- app_assoc; exact Hs).
    assert (Hl1 : S (length a) = length (a ++ [m]))
      by (rewrite length_app; simpl; lia).
    assert (Hl2 : S (S (length a)) = length (a ++ [m; x]))
      by (rewrite length_app; simpl; lia).
    rewrite (at_app json_str a _ _ Hs0).
    replace (chr_eqb m "e"%byte || chr_eqb m "E"%byte) with true
      by (destruct Hm as [-> | ->]; reflexivity).
    replace (length a <? size json_str)%nat with true
      by (symmetry; apply Nat.ltb_lt; rewrite (size_app json_str a _ Hs0); simpl; lia).
    cbn [andb]. rewrite Hl2, Hl1.
    rewrite (not_at_end json_str _ x _ Hs1), (at_app json_str _ x _ Hs1).
    replace (negb (chr_eqb x "+"%byte) && negb (chr_eqb x "-"%byte) && negb (isdigit x))
      with false
      by (destruct Hx as [-> | [-> | ->]]; [reflexivity|reflexivity|now rewrite andb_false_r]).
    cbn [orb]. unfold skip_digits.
    rewrite (skip_while_app json_str isdigit _ ds rest Hs2 Hd Hrest).
    f_equal. rewrite !length_app. simpl. lia.
Qed.
End FractionAndExponent.

Lemma lexeme_head (sp ip tail : std_string) :
  lexeme_minus sp = true -> lexeme_int ip = true ->
  exists c r, sp ++ ip ++ tail = c :: r /\ (isdigit c = true \/ c = "-"%byte)
              /\ (if chr_eqb c "-"%byte then 1 else 0)%nat = length sp.
Proof.
  intros Hsp Hip.
  destruct (lexeme_int_cases ip Hip) as (c & r & -> & Hd & _).
  destruct (lexeme_minus_cases sp Hsp) as [-> | ->]; cbn [app]; eexists _, _;
    (split; [reflexivity|]).
  - split; [left; exact (Forall_inv Hd)|].
    now rewrite (proj1 (isdigit_not_sign c (Forall_inv Hd))).
  - split; [now right|reflexivity].
Qed.

Section LexemeScan.
Variable json_str : std_string.

Lemma parse_number_scan pre sp ip fp ep post :
  json_str = pre ++ (sp ++ ip ++ fp ++ ep) ++ post ->
  lexeme_minus sp = true -> lexeme_int ip = true ->
  lexeme_frac fp = true -> lexeme_exp ep = true ->
  number_end post ->
  parse_number json_str (length pre)
  = match fp ++ ep with
    | [] =>
        catch_conversion (stoll (sp ++ ip ++ fp ++ ep))
          (fun number => Done (value (Integer number))
                           (length pre + length (sp ++ ip ++ fp ++ ep))) (length pre)
    | _ =>
        catch_conversion (stod (sp ++ ip ++ fp ++ ep))
          (fun number => Done (value (Float number))
                           (length pre + length (sp ++ ip ++ fp ++ ep))) (length pre)
    end.
Proof.
  intros Hs Hsp Hip Hfp Hep Hend.
  pose proof (substr_app json_str pre _ post Hs) as Hsub.
  destruct (lexeme_head sp ip (fp ++ ep) Hsp Hip) as (c0 & r0 & E0 & Hc0 & Hl0).
  destruct (number_head c0 Hc0) as (Hsp0 & _).
  assert (Hs0 : json_str = pre ++ c0 :: (r0 ++ post)).
  { rewrite Hs, E0. reflexivity. }
  assert (Hdig : not_digit_next post) by (destruct post; [exact I|apply Hend]).
  unfold parse_number.
  rewrite (ws_at json_str pre c0 _ Hs0 Hsp0), (not_at_end json_str pre c0 _ Hs0).
  rewrite (at_app json_str pre c0 _ Hs0).
  assert (He0 : (if chr_eqb c0 "-"%byte then S (length pre) else length pre)
                = length (pre ++ sp)).
  { rewrite length_app, <- Hl0. destruct (chr_eqb c0 "-"%byte); lia. }
  cbv zeta. rewrite He0.
  assert (Hs1 : json_str = (pre ++ sp) ++ ip ++ (fp ++ ep ++ post))
    by (rewrite Hs; repeat rewrite <- app_assoc; reflexivity).
  assert (Hs2 : json_str = ((pre ++ sp) ++ ip) ++ fp ++ (ep ++ post))
    by (rewrite Hs; repeat rewrite <- app_assoc; reflexivity).
  assert (Hs3 : json_str = (((pre ++ sp) ++ ip) ++ fp) ++ ep ++ post)
    by (rewrite Hs; repeat rewrite <- app_assoc; reflexivity).
  assert (Hmark : forall x, float_mark x = true -> isdigit x = false).
  { intros x Hx. destruct (isdigit x) eqn:E; [|reflexivity].
    apply isdigit_not_mark in E. congruence. }
  assert (Hn3 : not_digit_next (ep ++ post)).
  { destruct (lexeme_exp_cases ep Hep) as [->|(m & x & ds & -> & Hm & _)]; [exact Hdig|].
    cbn [app not_digit_next]. apply Hmark. destruct Hm as [-> | ->]; reflexivity. }
  assert (Hn2 : not_digit_next (fp ++ ep ++ post)).
  { destruct (lexeme_frac_cases fp Hfp) as [->|(c & r & -> & _)]; [exact Hn3|].
    cbn [app not_digit_next]. reflexivity. }
  destruct (lexeme_int_scan json_str (pre ++ sp) ip _ Hs1 Hip Hn2) as [Hne1 Hint].
  rewrite Hne1, Hint. cbv iota beta.
  assert (Hlen : forall l, (length (pre ++ l) - length pre)%nat = length l)
    by (intros l; rewrite length_app; lia).
  destruct (fp ++ ep) as [|y tail] eqn:Efe.
  - (* neither fraction nor exponent *)
    apply app_eq_nil in Efe as [-> ->]. cbn [app] in *. rewrite app_nil_r in *.
    rewrite (number_end_check json_str ((pre ++ sp) ++ ip) post Hs2 Hend).
    rewrite <- (app_assoc pre sp ip), Hlen, Hsub.
    now rewrite length_app.
  - (* a fraction or an exponent *)
    cbv iota. try rewrite <- Efe in Hsub. rewrite <- Efe.
    assert (Hy : float_mark y = true /\ json_str = ((pre ++ sp) ++ ip) ++ y :: (tail ++ post)).
    { split.
      - destruct (lexeme_frac_cases fp Hfp) as [->|(c & r & -> & _)].
        + destruct (lexeme_exp_cases ep Hep) as [->|(m & x & ds & -> & Hm & _)];
            [discriminate Efe|].
          injection Efe as <- _. destruct Hm as [-> | ->]; reflexivity.
        + injection Efe as <- _. reflexivity.
      - rewrite Hs2 at 1. f_equal. rewrite (app_assoc fp ep post), Efe. reflexivity. }
    destruct Hy as [Hy Hsy].
    rewrite (not_at_end json_str _ y _ Hsy), (at_app json_str _ y _ Hsy).
    replace (negb (chr_eqb y "."%byte) && negb (chr_eqb y "e"%byte)
             && negb (chr_eqb y "E"%byte)) with false
      by (unfold float_mark in Hy; destruct (chr_eqb y "."%byte), (chr_eqb y "e"%byte),
            (chr_eqb y "E"%byte); (reflexivity || discriminate Hy)).
    cbn [orb]. rewrite <- (at_app json_str _ y _ Hsy).
    rewrite (lexeme_frac_scan json_str _ fp _ Hs2 Hfp Hn3).
    + rewrite (lexeme_exp_scan json_str _ ep _ Hs3 Hep Hdig).
      * rewrite <- !app_assoc, Hlen, Hsub. now rewrite !length_app.
      * intros _. destruct post as [|x post]; [exact I|].
        destruct Hend as [_ Hm]. unfold float_mark in Hm.
        apply orb_false_iff in Hm as [Hm H3]. apply orb_false_iff in Hm as [_ H2].
        split; now apply chr_eqb_false.
    + intros ->. cbn [app] in Efe.
      destruct (lexeme_exp_cases ep Hep) as [->|(m & x & ds & -> & Hm & _)];
        [discriminate Efe|].
      cbn [app]. destruct Hm as [-> | ->]; discriminate.
Qed.
End LexemeScan.

Lemma stoll_lexeme (sp ip : std_string) :
  lexeme_minus sp = true -> lexeme_int ip = true ->
  stoll (sp ++ ip)
  = (let n := if sp is [] then digits_value 10 ip else - digits_value 10 ip in
     if (LLONG_MIN <=? n) && (n <=? LLONG_MAX) then inl n else inr out_of_range).
Proof.
  intros Hsp Hip.
  destruct (lexeme_int_cases ip Hip) as (c & r & -> & Hd & _).
  pose proof (Forall_inv Hd) as Hc. cbv beta in Hc.
  destruct (isdigit_not_sign c Hc) as [Hm Hp].
  unfold stoll.
  destruct (lexeme_minus_cases sp Hsp) as [-> | ->]; cbn [app drop_while].
  - rewrite (isdigit_not_space c Hc). cbn [read_sign]. rewrite Hm, Hp.
    rewrite <- (app_nil_r (c :: r)) at 1.
    now rewrite (take_while_all isdigit (c :: r) [] Hd I).
  - change (isspace "-"%byte) with false. cbv iota.
    cbn [read_sign]. change (chr_eqb "-"%byte "-"%byte) with true. cbv iota.
    rewrite <- (app_nil_r (c :: r)) at 1.
    now rewrite (take_while_all isdigit (c :: r) [] Hd I).
Qed.

Lemma stod_lexeme (sp ip tail : std_string) :
  lexeme_minus sp = true -> lexeme_int ip = true ->
  stod (sp ++ ip ++ tail) <> inr invalid_argument.
Proof.
  intros Hsp Hip.
  destruct (lexeme_int_cases ip Hip) as (c & r & -> & Hd & _).
  pose proof (Forall_inv Hd) as Hc. cbv beta in Hc.
  destruct (isdigit_not_sign c Hc) as [Hm Hp].
  assert (Hread : exists neg m e, read_decimal (sp ++ (c :: r) ++ tail) = Some (neg, m, e)).
  { unfold read_decimal.
    destruct (lexeme_minus_cases sp Hsp) as [-> | ->]; cbn [app drop_while].
    - rewrite (isdigit_not_space c Hc). cbn [read_sign]. rewrite Hm, Hp.
      destruct (match drop_while isdigit (c :: r ++ tail) with
                | [] => _ | _ :: _ => _ end) as [fp s].
      cbn [take_while]. rewrite Hc. cbn [app]. eauto.
    - change (isspace "-"%byte) with false. cbv iota.
      cbn [read_sign]. change (chr_eqb "-"%byte "-"%byte) with true. cbv iota.
      destruct (match drop_while isdigit (c :: r ++ tail) with
                | [] => _ | _ :: _ => _ end) as [fp s].
      cbn [take_while]. rewrite Hc. cbn [app]. eauto. }
  destruct Hread as (neg & m & e & Hread). unfold stod. rewrite Hread.
  destruct (round_decimal neg m e); try discriminate; destruct (_ && _); discriminate.
Qed.

Lemma catch_conversion_lexeme {A : Type} (r : A + exception)
    (k : A -> outcome (expected Value JsonError)) pos :
  r <> inr invalid_argument -> (forall what, r <> inr (runtime_error what)) ->
  catch_conversion r k pos
  = match r with
    | inl number => k number
    | inr _ => Done (unexpected parse_number_too_big) pos
    end.
Proof.
  intros H1 H2. destruct r as [a|[what| |]]; try reflexivity.
  - now destruct (H2 what).
  - now destruct H1.
Qed.

(** The number production on a lexeme of the number grammar, anywhere in
    a text. *)
Lemma parse_number_lexeme (pre sp ip fp ep post : std_string) :
  lexeme_minus sp = true -> lexeme_int ip = true ->
  lexeme_frac fp = true -> lexeme_exp ep = true ->
  number_end post ->
  let lexeme := sp ++ ip ++ fp ++ ep in
  let json_str := pre ++ lexeme ++ post in
  (fp ++ ep = [] ->
     parse_number json_str (length pre)
     = match stoll lexeme with
       | inl n => Done (value (Integer n)) (length pre + length lexeme)
       | inr _ => Done (unexpected parse_number_too_big) (length pre)
       end)
  /\ (fp ++ ep <> [] ->
        parse_number json_str (length pre)
        = match stod lexeme with
          | inl f => Done (value (Float f)) (length pre + length lexeme)
          | inr _ => Done (unexpected parse_number_too_big) (length pre)
          end).
Proof.
  intros Hsp Hip Hfp Hep Hend lexeme json_str.
  pose proof (parse_number_scan json_str pre sp ip fp ep post eq_refl
                Hsp Hip Hfp Hep Hend) as H.
  fold lexeme in H. split; intros Hfe.
  - rewrite Hfe in H. rewrite H. apply catch_conversion_lexeme.
    + apply app_eq_nil in Hfe as [-> ->]. unfold lexeme. rewrite !app_nil_r.
      rewrite (stoll_lexeme sp ip Hsp Hip). cbv zeta. now case_if.
    + intros what. apply stoll_no_runtime_error.
  - destruct (fp ++ ep) as [|y tail]; [now destruct Hfe|].
    rewrite H. apply catch_conversion_lexeme.
    + now apply stod_lexeme.
    + intros what. apply stod_no_runtime_error.
Qed.

Lemma parse_lexeme (w1 sp ip fp ep w2 : std_string) :
  blank w1 -> blank w2 ->
  lexeme_minus sp = true -> lexeme_int ip = true ->
  lexeme_frac fp = true -> lexeme_exp ep = true ->
  let lexeme := sp ++ ip ++ fp ++ ep in
  (fp ++ ep = [] ->
     parse (w1 ++ lexeme ++ w2)
     = Returns match stoll lexeme with
               | inl n => value (Integer n)
               | inr _ => unexpected parse_number_too_big
               end)
  /\ (fp ++ ep <> [] ->
        parse (w1 ++ lexeme ++ w2)
        = Returns match stod lexeme with
                  | inl f => value (Float f)
                  | inr _ => unexpected parse_number_too_big
                  end).
Proof.
  intros Hw1 Hw2 Hsp Hip Hfp Hep lexeme.
  rewrite (parse_leading_blank w1 _ Hw1).
  set (json_str := lexeme ++ w2).
  destruct (lexeme_head sp ip (fp ++ ep) Hsp Hip) as (c0 & r0 & E0 & Hc0 & _).
  fold lexeme in E0.
  destruct (number_head c0 Hc0) as (Hsp0 & _ & _ & T1 & T2 & T3 & T4 & T5 & T6).
  assert (Hs0 : json_str = [] ++ c0 :: (r0 ++ w2)) by (unfold json_str; now rewrite E0).
  pose proof (ws_at json_str [] c0 _ Hs0 Hsp0) as Hw. cbn [length] in Hw.
  pose proof (at_app json_str [] c0 _ Hs0) as Hat. cbn [length] in Hat.
  assert (Hdispatch : parse_value json_str 1 0 = parse_number json_str 0).
  { rewrite parse_value_dispatch;
      [|rewrite (size_app json_str [] _ Hs0); simpl; lia|now rewrite Hat].
    rewrite Hat. cbv zeta. now rewrite T1, T2, T3, T4, T5, T6. }
  pose proof (parse_number_lexeme [] sp ip fp ep w2 Hsp Hip Hfp Hep
                (blank_number_end w2 Hw2)) as [Hint Hfloat].
  cbn [length Nat.add app] in Hint, Hfloat. fold lexeme json_str in Hint, Hfloat.
  assert (Hroot : forall v,
            parse_number json_str 0 = Done (value v) (length lexeme) ->
            parse json_str = Returns (value v)).
  { intros v Hv. apply (parse_any_fuel _ 1 _ (size json_str)).
    unfold JsonParser_parse. rewrite Hw, Hdispatch, Hv.
    rewrite (parse_whitespace_to_end json_str lexeme w2 eq_refl Hw2).
    now rewrite Nat.eqb_refl. }
  assert (Hfail : forall e,
            parse_number json_str 0 = Done (unexpected e) 0%nat ->
            parse json_str = Returns (unexpected e)).
  { intros e He. apply (parse_any_fuel _ 1 _ 0%nat).
    unfold JsonParser_parse. now rewrite Hw, Hdispatch, He. }
  split; intros Hfe.
  - specialize (Hint Hfe). destruct (stoll lexeme); [now apply Hroot|now apply Hfail].
  - specialize (Hfloat Hfe). destruct (stod lexeme); [now apply Hroot|now apply Hfail].
Qed.

(** C8: a number lexeme with neither fraction nor exponent is read as a
    64-bit signed integer, one with a fraction or an exponent as a
    double.
    - [123] parses to the [Integer] 123, and [123.0] and [1e2] parse to
      [Float]s (the doubles 123 and 100); the decimal text of every
      64-bit signed integer parses to that [Integer].
    - For every lexeme of the number grammar (optional minus sign, integer
      part, optional fraction, optional exponent with [e] or [E]), alone
      in the text or with white space around it: without fraction and
      exponent the result is the [Integer] the digits denote, or
      [parse_number_too_big] when that is outside the 64-bit signed
      range; with a fraction or an exponent the result is the [Float]
      that [std::stod] reads, or [parse_number_too_big] when [std::stod]
      reports a range error, and never an [Integer].
    - The same holds of the number production wherever the lexeme stands
      in a text, followed by the end of the text or by a character that
      is no digit, point, [e] or [E].
    - Conversely, whenever the number production returns a value, the
      lexeme it consumed has no fraction and no exponent mark and the
      value is the [Integer] that [std::stoll] reads, or it has such a
      mark and the value is the [Float] that [std::stod] reads. *)
Theorem number_classification :
  parse (json_text "123") = Returns (value (Integer 123))
  /\ parse (json_text "123.0")
     = Returns (value (Float (D754_finite false 8655355533852672 (-46))))
  /\ parse (json_text "1e2")
     = Returns (value (Float (D754_finite false 7036874417766400 (-46))))
  /\ (forall n : Z, LLONG_MIN <= n <= LLONG_MAX ->
        parse (to_string n) = Returns (value (Integer n)))
  /\ (forall (json_str : std_string) (pos : nat) v pos',
        parse_number json_str pos = Done (value v) pos' ->
        let q := parse_whitespace json_str pos in
        let lexeme := substr json_str q (pos' - q) in
        (exists n, v = Integer n /\ LLONG_MIN <= n <= LLONG_MAX
                   /\ stoll lexeme = inl n
                   /\ List.Forall (fun c => float_mark c = false) lexeme)
        \/ (exists f, v = Float f /\ stod lexeme = inl f
                      /\ List.Exists (fun c => float_mark c = true) lexeme))
  /\ (forall w1 sp ip fp ep w2 : std_string,
        blank w1 -> blank w2 ->
        lexeme_minus sp = true -> lexeme_int ip = true ->
        lexeme_frac fp = true -> lexeme_exp ep = true ->
        let lexeme := sp ++ ip ++ fp ++ ep in
        (fp ++ ep = [] ->
           parse (w1 ++ lexeme ++ w2)
           = Returns
               (let n := if sp is [] then digits_value 10 ip
                         else - digits_value 10 ip in
                if (LLONG_MIN <=? n) && (n <=? LLONG_MAX)
                then value (Integer n)
                else unexpected parse_number_too_big))
        /\ (fp ++ ep <> [] ->
              parse (w1 ++ lexeme ++ w2)
              = Returns match stod lexeme with
                        | inl f => value (Float f)
                        | inr _ => unexpected parse_number_too_big
                        end))
  /\ (forall pre sp ip fp ep post : std_string,
        lexeme_minus sp = true -> lexeme_int ip = true ->
        lexeme_frac fp = true -> lexeme_exp ep = true ->
        number_end post ->
        let lexeme := sp ++ ip ++ fp ++ ep in
        let json_str := pre ++ lexeme ++ post in
        (fp ++ ep = [] ->
           parse_number json_str (length pre)
           = match stoll lexeme with
             | inl n => Done (value (Integer n)) (length pre + length lexeme)
             | inr _ => Done (unexpected parse_number_too_big) (length pre)
             end)
        /\ (fp ++ ep <> [] ->
              parse_number json_str (length pre)
              = match stod lexeme with
                | inl f => Done (value (Float f)) (length pre + length lexeme)
                | inr _ => Done (unexpected parse_number_too_big) (length pre)
                end)).
Proof.
  split; [|split; [|split; [|split; [|split; [|split]]]]].
  - vm_compute; reflexivity.
  - vm_compute; reflexivity.
  - vm_compute; reflexivity.
  - intros n Hn. exact (generate_parse_roundtrip true (Integer n) Hn).
  - exact parse_number_classifies.
  - intros w1 sp ip fp ep w2 Hw1 Hw2 Hsp Hip Hfp Hep lexeme.
    destruct (parse_lexeme w1 sp ip fp ep w2 Hw1 Hw2 Hsp Hip Hfp Hep) as [Hint Hfloat].
    split; [|exact Hfloat].
    intros Hfe. fold lexeme in Hint. rewrite (Hint Hfe).
    apply app_eq_nil in Hfe as [-> ->]. unfold lexeme. rewrite !app_nil_r.
    rewrite (stoll_lexeme sp ip Hsp Hip). cbv zeta. now case_if.
  - exact parse_number_lexeme.
Qed.

Lemma number_classification_witness :
  parse (to_string (-5)) = Returns (value (Integer (-5)))
  /\ ((exists n, Float (D754_finite true 6871947673600000 (-39)) = Integer n
                 /\ LLONG_MIN <= n <= LLONG_MAX
                 /\ stoll (text "-12.5e3") = inl n
                 /\ List.Forall (fun c => float_mark c = false) (text "-12.5e3"))
      \/ (exists f, Float (D754_finite true 6871947673600000 (-39)) = Float f
                    /\ stod (text "-12.5e3") = inl f
                    /\ List.Exists (fun c => float_mark c = true) (text "-12.5e3")))
  /\ parse (text " " ++ (text "-" ++ text "12" ++ text ".5" ++ text "E3") ++ text " ")
     = Returns (value (Float (D754_finite true 6871947673600000 (-39))))
  /\ parse (text "" ++ (text "-" ++ text "0" ++ text "" ++ text "") ++ text " ")
     = Returns (value (Integer 0))
  /\ parse_number (text "[" ++ (text "" ++ text "1" ++ text "" ++ text "E2") ++ text "]") 1
     = Done (value (Float (D754_finite false 7036874417766400 (-46)))) 4.
Proof.
  split; [|split; [|split; [|split]]].
  - apply (proj1 (proj2 (proj2 (proj2 number_classification))) (-5)).
    vm_compute. split; discriminate.
  - apply (proj1 (proj2 (proj2 (proj2 (proj2 number_classification))))
             (json_text " -12.5e3,") 0%nat
             (Float (D754_finite true 6871947673600000 (-39))) 8%nat).
    vm_compute. reflexivity.
  - refine (proj2 (proj1 (proj2 (proj2 (proj2 (proj2 (proj2 number_classification)))))
                    (text " ") (text "-") (text "12") (text ".5") (text "E3") (text " ")
                    _ _ _ _ _ _) _).
    + repeat constructor.
    + repeat constructor.
    + reflexivity.
    + reflexivity.
    + reflexivity.
    + reflexivity.
    + discriminate.
  - refine (proj1 (proj1 (proj2 (proj2 (proj2 (proj2 (proj2 number_classification)))))
                    (text "") (text "-") (text "0") (text "") (text "") (text " ")
                    _ _ _ _ _ _) _).
    + constructor.
    + repeat constructor.
    + reflexivity.
    + reflexivity.
    + reflexivity.
    + reflexivity.
    + reflexivity.
  - refine (proj2 (proj2 (proj2 (proj2 (proj2 (proj2 (proj2 number_classification)))))
                    (text "[") (text "") (text "1") (text "") (text "E2") (text "]")
                    _ _ _ _ _) _).
    + reflexivity.
    + reflexivity.
    + reflexivity.
    + reflexivity.
    + split; reflexivity.
    + discriminate.
Defined.

(** ** Floats that are no numbers *)

(** X30: the text generated for a [Float] that is an infinity or a
    NaN, of either sign, is one of [inf], [-inf], [nan] and [-nan], and
    no JSON text: [parse] rejects it with [parse_invalid_value]. *)
Theorem generate_non_finite_rejected (char_is_signed : bool) (f : double) :
  ~ finite f ->
  generate char_is_signed (Float f)
  = (match f with
     | D754_infinity true | D754_nan true => ["-"%byte]
     | _ => []
     end)
    ++ (match f with D754_infinity _ => text "inf" | _ => text "nan" end)
  /\ parse (generate char_is_signed (Float f)) = Returns (unexpected parse_invalid_value).
Proof.
  intros Hf. destruct f as [s|s|s|s m e]; try (now destruct Hf).
  - destruct s; split; vm_compute; reflexivity.
  - destruct s; split; vm_compute; reflexivity.
Qed.

Lemma generate_non_finite_rejected_witness :
  generate true (Float (D754_nan true)) = text "-nan"
  /\ parse (generate true (Float (D754_nan true)))
     = Returns (unexpected parse_invalid_value).
Proof.
  apply (generate_non_finite_rejected true (D754_nan true)).
  intros H. exact H.
Defined.

(** ** The assertions of the test program

    What [main] of [test/test.cpp] runs: the seven tests of [test_parse]
    and the seven tests of [test_generate].  Every assertion holds on the
    embedding. *)
Example test_main_assertions :
  parse (text "null") = Returns (value Null)
  /\ parse (text "true") = Returns (value (Boolean true))
  /\ parse (text "false") = Returns (value (Boolean false))
  /\ parse (text "  null") = Returns (value Null)
  /\ parse (text "null x") = Returns (unexpected parse_root_not_singular)
  /\ parse (text "nul") = Returns (unexpected parse_invalid_value)
  /\ parse (text "") = Returns (unexpected parse_expect_value)
  /\ (forall char_is_signed,
        generate char_is_signed Null = text "null"
        /\ generate char_is_signed (Boolean true) = text "true"
        /\ generate char_is_signed (Boolean false) = text "false"
        /\ generate char_is_signed (Integer 123) = text "123"
        /\ generate char_is_signed (String (text "abc")) = json_text "'abc'"
        /\ generate char_is_signed
             (Array [Null; Boolean true; Boolean false; Integer 123; String (text "abc");
                     Array [Integer 1; Integer 2; Integer 3];
                     Object (map_of_list [(text "a", Integer 1); (text "b", Integer 2);
                                          (text "c", Integer 3)])])
           = json_text "[null,true,false,123,'abc',[1,2,3],{'a':1,'b':2,'c':3}]"
        /\ generate char_is_signed
             (Object (map_of_list
                [(text "n", Null); (text "t", Boolean true); (text "f", Boolean false);
                 (text "i", Integer 123); (text "s", String (text "abc"));
                 (text "a", Array [Integer 1; Integer 2; Integer 3]);
                 (text "o", Object (map_of_list [(text "1", Integer 1);
                                                 (text "2", Integer 2);
                                                 (text "3", Integer 3)]))]))
           = json_text
               "{'a':[1,2,3],'f':false,'i':123,'n':null,'o':{'1':1,'2':2,'3':3},'s':'abc','t':true}").
Proof.
  do 7 (split; [vm_compute; reflexivity|]).
  intros [|]; repeat (split; [vm_compute; reflexivity|]); vm_compute; reflexivity.
Qed.
